(** * rvutils: the append-only graph engine and its maximal-clique search

    A shallow embedding of [graph.c], [graph.h] and [clique.c].

    Pointers are modelled by the position of the object in the store that
    allocated it: a [struct Node*] is the index of the node in the node
    obstack, a [struct Component*] the index of the component among the
    [malloc]ed components.  Intrusive queues ([SLIST], [STAILQ], [TAILQ])
    are lists of such pointers, in queue order.

    Every call of [malloc] or [realloc] asks an oracle (a list of
    booleans, consumed one per call, exhausted meaning success) whether it
    succeeds; a call that fails sets [errno] to [ENOMEM].  The obstacks
    call [malloc] only for a new chunk, so the model keeps count of the
    bytes left in the current chunk of each.  Process-fatal events ([exit],
    [abort], a failed [assert], a null dereference) end a run in [Fatal]. *)

From stdpp Require Import base numbers option list sets sorting strings.

Local Open Scope Z_scope.
#[local] Set Warnings "-clear-no-such-hyp".

Module Defs.

(** ** Machine integers *)

Definition UINT32_MAX : Z := 4294967295.

(** Arithmetic on [uint32_t] wraps modulo 2^32. *)
Definition wrap32 (z : Z) : Z := z mod 4294967296.

Fixpoint ctz_pos (p : positive) : Z :=
  match p with
  | xO p' => 1 + ctz_pos p'
  | _ => 0
  end.

(** [__builtin_ctz] on an [unsigned int] (undefined on 0, taken as 0). *)
Definition builtin_ctz (z : Z) : Z :=
  match wrap32 z with
  | Zpos p => ctz_pos p
  | _ => 0
  end.

(** ** Runs: a state monad whose computations can end the process *)

Inductive fatal : Type :=
| Exit2   (* error(2, errno, ...) in xmalloc *)
| Abort   (* abort() or a failed assert() *)
| Segv    (* dereference of a null or unlinked pointer *)
| Hang.   (* a loop that does not end *)

Inductive outcome (S A : Type) : Type :=
| Ret (a : A) (s : S)
| Fatal (f : fatal).
Arguments Ret {S A} a s.
Arguments Fatal {S A} f.

Definition M (S A : Type) : Type := S -> outcome S A.

Definition ret {S A} (a : A) : M S A := fun s => Ret a s.

Definition bind {S A B} (m : M S A) (k : A -> M S B) : M S B :=
  fun s => match m s with
           | Ret a s' => k a s'
           | Fatal f => Fatal f
           end.

Definition die {S A} (f : fatal) : M S A := fun _ => Fatal f.
Definition get {S} : M S S := fun s => Ret s s.
Definition put {S} (s : S) : M S unit := fun _ => Ret tt s.
Definition modify {S} (f : S -> S) : M S unit := fun s => Ret tt (f s).

Notation "x <- m ;; k" := (bind m (fun x => k))
  (at level 100, m at next level, right associativity).
Notation "m ;;; k" := (bind m (fun _ => k))
  (at level 100, right associativity).

(** [assert(e)]: the asserts of graph.c and clique.c are live (clique.c
    undefines NDEBUG, the Makefile never defines it). *)
Definition assert {S} (b : bool) : M S unit :=
  if b then ret tt else die Abort.

(** ** Data model (graph.h) *)

Abbreviation nptr := nat (only parsing).   (* struct Node *      *)
Abbreviation cptr := nat (only parsing).   (* struct Component * *)

Definition GRAPH_UNDIRECTED : Z := 1.
Definition GRAPH_NOPARALLEL : Z := 2.
Definition GRAPH_NOLOOP : Z := 4.
Definition GRAPH_DUAL : Z := 8.
Definition EINVAL : Z := 22.
Definition ENOMEM : Z := 12.

(** An [Edge] holds its target and its link in the source's list, so the
    list of outgoing edges is the list of their targets, head first. *)
Record Node : Type := mkNode {
  comp : option cptr;
  out_edges : list nptr;
  out_degree : Z;
  in_degree : Z;
  hv : Z;
  ident : string
}.

Record Component : Type := mkComponent {
  nodes : list nptr;
  node_count : Z;
  edge_count : Z
}.

Record Graph : Type := mkGraph {
  components : list cptr;                 (* the TAILQ of components *)
  comp_store : list (option Component);   (* malloc'ed components; None once freed *)
  g_nodes : list (list nptr);             (* g->nodes: the array of buckets *)
  hashmask : Z;
  flags : Z;
  g_node_count : Z;
  resize_threshold : Z;
  node_os : list Node;                    (* the node obstack *)
  edge_os : nat                           (* edges living in the edge obstack *)
}.

(** The bookkeeping of a [struct obstack]: the bytes left in its current
    chunk, and for each object it holds the bytes that were left in the
    chunk of the object where the object starts, which is what
    [obstack_free] of that object goes back to. *)
Record obstack : Type := mkObstack {
  os_room : Z;
  os_marks : list Z
}.

Record world : Type := mkWorld {
  gph : Graph;
  errno : Z;
  oracle : list bool;
  node_chunk : obstack;   (* the chunks of g->node_os *)
  edge_chunk : obstack    (* the chunks of g->edge_os *)
}.

Global Instance Node_inhabited : Inhabited Node :=
  populate (mkNode None [] 0 0 0 EmptyString).
Global Instance Component_inhabited : Inhabited Component :=
  populate (mkComponent [] 0 0).

Definition node_at (g : Graph) (n : nptr) : Node := node_os g !!! n.

Definition comp_at (g : Graph) (c : cptr) : Component :=
  match comp_store g !! c with
  | Some (Some k) => k
  | _ => inhabitant
  end.

Definition set_node_os (f : list Node -> list Node) (g : Graph) : Graph :=
  mkGraph (components g) (comp_store g) (g_nodes g) (hashmask g) (flags g)
          (g_node_count g) (resize_threshold g) (f (node_os g)) (edge_os g).

Definition set_comp_store (f : list (option Component) -> list (option Component))
    (g : Graph) : Graph :=
  mkGraph (components g) (f (comp_store g)) (g_nodes g) (hashmask g) (flags g)
          (g_node_count g) (resize_threshold g) (node_os g) (edge_os g).

Definition set_components (f : list cptr -> list cptr) (g : Graph) : Graph :=
  mkGraph (f (components g)) (comp_store g) (g_nodes g) (hashmask g) (flags g)
          (g_node_count g) (resize_threshold g) (node_os g) (edge_os g).

Definition set_g_nodes (f : list (list nptr) -> list (list nptr)) (g : Graph) : Graph :=
  mkGraph (components g) (comp_store g) (f (g_nodes g)) (hashmask g) (flags g)
          (g_node_count g) (resize_threshold g) (node_os g) (edge_os g).

Definition set_g_node_count (z : Z) (g : Graph) : Graph :=
  mkGraph (components g) (comp_store g) (g_nodes g) (hashmask g) (flags g)
          z (resize_threshold g) (node_os g) (edge_os g).

Definition set_resize_threshold (z : Z) (g : Graph) : Graph :=
  mkGraph (components g) (comp_store g) (g_nodes g) (hashmask g) (flags g)
          (g_node_count g) z (node_os g) (edge_os g).

Definition set_hashmask (z : Z) (g : Graph) : Graph :=
  mkGraph (components g) (comp_store g) (g_nodes g) z (flags g)
          (g_node_count g) (resize_threshold g) (node_os g) (edge_os g).

Definition set_edge_os (f : nat -> nat) (g : Graph) : Graph :=
  mkGraph (components g) (comp_store g) (g_nodes g) (hashmask g) (flags g)
          (g_node_count g) (resize_threshold g) (node_os g) (f (edge_os g)).

Definition upd_node (n : nptr) (f : Node -> Node) (g : Graph) : Graph :=
  set_node_os (alter f n) g.

Definition upd_comp (c : cptr) (f : Component -> Component) (g : Graph) : Graph :=
  set_comp_store (alter (fmap f) c) g.

Definition set_comp (c : option cptr) (x : Node) : Node :=
  mkNode c (out_edges x) (out_degree x) (in_degree x) (hv x) (ident x).

Definition has_flag (g : Graph) (f : Z) : bool := negb (Z.land (flags g) f =? 0).

(** ** Allocation *)

Definition get_graph : M world Graph := fun w => Ret (gph w) w.
Definition map_graph (f : Graph -> Graph) : M world unit :=
  fun w => Ret tt (mkWorld (f (gph w)) (errno w) (oracle w) (node_chunk w) (edge_chunk w)).
Definition set_errno (e : Z) : M world unit :=
  fun w => Ret tt (mkWorld (gph w) e (oracle w) (node_chunk w) (edge_chunk w)).
Definition set_node_chunk (h : obstack) : M world unit :=
  fun w => Ret tt (mkWorld (gph w) (errno w) (oracle w) h (edge_chunk w)).
Definition set_edge_chunk (h : obstack) : M world unit :=
  fun w => Ret tt (mkWorld (gph w) (errno w) (oracle w) (node_chunk w) h).

(** One call of [malloc]/[realloc]: [true] when it returns storage; a call
    that fails sets [errno]. *)
Definition malloc : M world bool :=
  fun w => match oracle w with
           | [] => Ret true w
           | true :: o =>
               Ret true (mkWorld (gph w) (errno w) o (node_chunk w) (edge_chunk w))
           | false :: o =>
               Ret false (mkWorld (gph w) ENOMEM o (node_chunk w) (edge_chunk w))
           end.

(** [xmalloc], the chunk allocator of both obstacks: it returns storage or
    ends the process through [error(2, errno, "malloc()")]. *)
Definition xmalloc : M world unit :=
  p <- malloc ;;
  if p then ret tt else die Exit2.

(** ** The obstacks

    [obstack.h] is the C library's. Sizes are those of x86-64 Linux, the
    ones the comment of graph.h counts with: pointers of 8 bytes, so that
    [sizeof(struct Node)] is 48 and [sizeof(struct Edge)] is 16; a chunk
    starts with a header of 16 bytes, and objects are aligned to 16. *)

Definition sizeof_Node : Z := 48.
Definition sizeof_Edge : Z := 16.
Definition CHUNK_SIZE : Z := Z.shiftl 1 11.
Definition CHUNK_HEADER : Z := 16.
Definition ALIGNMENT_MASK : Z := 15.

(** [__PTR_ALIGN]: the next multiple of the alignment. *)
Definition align_up (z : Z) : Z := Z.land (z + ALIGNMENT_MASK) (Z.lnot ALIGNMENT_MASK).

(** [obstack_begin(h, 1 << 11)]: the first chunk comes from [xmalloc]. *)
Definition obstack_begin : M world obstack :=
  xmalloc ;;;
  ret (mkObstack (CHUNK_SIZE - CHUNK_HEADER) []).

(** [obstack_alloc(h, len)] for an object of [len] bytes: the object goes
    into the current chunk when [len] bytes are left there; otherwise
    [_obstack_newchunk] asks [xmalloc] for a chunk that holds the object
    and 100 bytes more, of the chunk size at least. The end of the object
    is aligned, within the chunk. The pointer returned is never null. *)
Definition obstack_alloc (len : Z) (h : obstack) : M world obstack :=
  room <- (if os_room h <? len then
             xmalloc ;;;
             let new_size := len + ALIGNMENT_MASK + 100 in
             let new_size := if new_size <? CHUNK_SIZE then CHUNK_SIZE else new_size in
             ret (new_size - CHUNK_HEADER)
           else ret (os_room h)) ;;
  ret (mkObstack (Z.max 0 (room - align_up len)) (os_marks h ++ [room])).

(** [obstack_free(h, obj)] for the object number [obj]: the object and
    all that follows it are released, and the obstack goes on in the chunk
    of the object, where the object was. *)
Definition obstack_free (obj : nat) (h : obstack) : obstack :=
  mkObstack (os_marks h !!! obj) (take obj (os_marks h)).

(** ** graph.c *)

Definition byte (c : Ascii.ascii) : Z := Z.of_N (Ascii.N_of_ascii c).

(** [strcmp] as the C library computes it: the difference of the first two
    bytes that differ (the C standard fixes its sign only). The end of a
    string is the byte 0; identifiers are C strings, with no NUL inside,
    so the byte that meets the end of the other string is 1 at least. *)
Fixpoint strcmp (s1 s2 : string) : Z :=
  match s1, s2 with
  | EmptyString, EmptyString => 0
  | EmptyString, String c2 _ => 0 - Z.max 1 (byte c2)
  | String c1 _, EmptyString => Z.max 1 (byte c1) - 0
  | String c1 s1', String c2 s2' =>
      if byte c1 =? byte c2 then strcmp s1' s2' else byte c1 - byte c2
  end.

Definition nodes_cmp (g : Graph) (n1 n2 : nptr) : Z :=
  if hv (node_at g n1) <? hv (node_at g n2) then -1
  else if hv (node_at g n2) <? hv (node_at g n1) then 1
  else strcmp (ident (node_at g n1)) (ident (node_at g n2)).

Definition graph_new_component : M world (option cptr) :=
  ok <- malloc ;;
  if ok : bool then
    g <- get_graph ;;
    let c := length (comp_store g) in
    map_graph (fun g => set_components (fun l => l ++ [c])
                          (set_comp_store (fun st => st ++ [Some (mkComponent [] 0 0)]) g)) ;;;
    ret (Some c)
  else ret None.

(** [TAILQ_REMOVE]: unlink this one element. *)
Fixpoint tailq_remove (c : cptr) (l : list cptr) : list cptr :=
  match l with
  | [] => []
  | x :: l' => if Nat.eqb x c then l' else x :: tailq_remove c l'
  end.

Definition graph_remove_component (c : cptr) (g : Graph) : Graph :=
  set_comp_store (fun st => <[c := None]> st) (set_components (tailq_remove c) g).

Definition graph_merge_components (c1 c2 : cptr) : M world cptr :=
  assert (negb (Nat.eqb c1 c2)) ;;;
  g <- get_graph ;;
  let '(c1, c2) :=
    if node_count (comp_at g c1) <? node_count (comp_at g c2)
    then (c2, c1) else (c1, c2) in
  assert (node_count (comp_at g c2) <=? node_count (comp_at g c1)) ;;;
  (* Tell the nodes of c2 their new owner *)
  let g := foldl (fun g n => upd_node n (set_comp (Some c1)) g) g (nodes (comp_at g c2)) in
  let k2 := comp_at g c2 in
  let g := upd_comp c1 (fun k1 =>
             mkComponent (nodes k1 ++ nodes k2)
                         (wrap32 (node_count k1 + node_count k2))
                         (wrap32 (edge_count k1 + edge_count k2))) g in
  let g := upd_comp c2 (fun _ => mkComponent [] 0 0) g in
  map_graph (fun _ => graph_remove_component c2 g) ;;;
  ret c1.

Definition component_add_node (c : cptr) (n : nptr) (g : Graph) : Graph :=
  let g := upd_comp c (fun k =>
             mkComponent (nodes k ++ [n]) (wrap32 (node_count k + 1)) (edge_count k)) g in
  upd_node n (set_comp (Some c)) g.

(** [e] is the freshly allocated edge, given by its target. *)
Definition node_add_out_edge (node : nptr) (tgt : nptr) : M world unit :=
  g <- get_graph ;;
  let comp_ := comp (node_at g node) in
  assert (bool_decide (comp (node_at g tgt) = comp_)) ;;;
  let g := upd_node node (fun x =>
             mkNode (comp x) (tgt :: out_edges x) (wrap32 (out_degree x + 1))
                    (in_degree x) (hv x) (ident x)) g in
  let g := upd_node tgt (fun x =>
             mkNode (comp x) (out_edges x) (out_degree x)
                    (wrap32 (in_degree x + 1)) (hv x) (ident x)) g in
  match comp_ with
  | None => die Segv
  | Some c =>
      map_graph (fun _ => upd_comp c (fun k =>
                   mkComponent (nodes k) (node_count k) (wrap32 (edge_count k + 1))) g)
  end.

(** [SLIST_INSERT_HEAD(&bucket[i], n, hashlink)] *)
Definition bucket_push (i : Z) (n : nptr) (b : list (list nptr)) : list (list nptr) :=
  alter (cons n) (Z.to_nat i) b.

(** The two loops of [graph_attempt_hash_resize]: every bucket of the new
    array is initialised, then each node is popped off its old bucket and
    pushed on the bucket [n->hv & g->hashmask] of the new array. *)
Definition rehash (g : Graph) (oldsize newsize : Z) : list (list nptr) :=
  foldl (fun nb i =>
           foldl (fun nb n => bucket_push (Z.land (hv (node_at g n)) (hashmask g)) n nb)
                 nb (g_nodes g !!! i))
        (replicate (Z.to_nat newsize) ([] : list nptr))
        (seq 0 (Z.to_nat oldsize)).

Definition graph_attempt_hash_resize : M world unit :=
  g <- get_graph ;;
  let oldsize := hashmask g + 1 in
  let newsize := 2 * oldsize in
  let newmask := wrap32 (newsize - 1) in
  newbucket <- malloc ;;
  if negb newbucket then
    map_graph (set_resize_threshold UINT32_MAX)
  else
    let newbucket := rehash g oldsize newsize in
    (* For a hash table of size 2^n, allow an average chain length of n. *)
    let newsize := newsize * builtin_ctz newsize in
    map_graph (fun g =>
      set_resize_threshold (if UINT32_MAX <? newsize then UINT32_MAX else newsize)
        (set_hashmask newmask (set_g_nodes (fun _ => newbucket) g))).

Definition HASH_INIT : Z := 12648430.   (* 0xC0FFEE *)

(** [SLIST_REMOVE(head, elm, ...)]: unlink [elm]; the macro walks the list
    until it meets [elm] and runs off a null pointer when it is absent. *)
Fixpoint slist_remove (n : nptr) (l : list nptr) : option (list nptr) :=
  match l with
  | [] => None
  | x :: l' => if Nat.eqb x n then Some l' else cons x <$> slist_remove n l'
  end.

Definition graph_edge_exists (g : Graph) (src tgt : nptr) : bool :=
  existsb (Nat.eqb tgt) (out_edges (node_at g src)).

(** [obstack_alloc(&g->node_os, len)]; the result says whether the pointer
    is non-null. *)
Definition node_os_alloc (len : Z) : M world bool :=
  w <- get ;;
  h <- obstack_alloc len (node_chunk w) ;;
  set_node_chunk h ;;;
  ret true.

Definition edge_os_alloc (len : Z) : M world bool :=
  w <- get ;;
  h <- obstack_alloc len (edge_chunk w) ;;
  set_edge_chunk h ;;;
  ret true.

Definition graph_alloc_node (len : Z) : M world (option nptr) :=
  g <- get_graph ;;
  n <- node_os_alloc (sizeof_Node + len + 1) ;;
  if negb n then ret None
  else
    let n := length (node_os g) in
    map_graph (fun g => set_g_node_count (wrap32 (g_node_count g + 1))
                          (set_node_os (fun l => l ++ [inhabitant]) g)) ;;;
    g <- get_graph ;;
    (if resize_threshold g <? g_node_count g
     then graph_attempt_hash_resize else ret tt) ;;;
    ret (Some n).

Definition graph_remove_last_node (n : nptr) : M world unit :=
  g <- get_graph ;;
  assert (bool_decide (comp (node_at g n) = None)) ;;;
  let i := Z.to_nat (Z.land (hashmask g) (hv (node_at g n))) in
  match slist_remove n (g_nodes g !!! i) with
  | None => die Segv
  | Some b =>
      (* obstack_free(&g->node_os, n) releases n and all that follows it *)
      w <- get ;;
      set_node_chunk (obstack_free n (node_chunk w)) ;;;
      map_graph (fun g => set_g_node_count (wrap32 (g_node_count g - 1))
                            (set_node_os (take n) (set_g_nodes (<[i := b]>) g)))
  end.

Section Hash.

(** [jenkins_hash(key, length, initval)]: jenkins_hash.c is not part of the
    sources at hand, so the hash function is a parameter of the model. *)
Variable jenkins_hash : string -> Z -> Z -> Z.

Definition hash_of (nstr : string) : Z :=
  wrap32 (jenkins_hash nstr (Z.of_nat (String.length nstr)) HASH_INIT).

(** The [SLIST_FOREACH] scan of one bucket in [graph_add_node_internal]. *)
Definition bucket_find (g : Graph) (nstr : string) : option nptr :=
  let hv_ := hash_of nstr in
  List.find (fun n => (hv_ =? hv (node_at g n)) &&
                      (strcmp nstr (ident (node_at g n)) =? 0))
            (g_nodes g !!! Z.to_nat (Z.land (hashmask g) hv_)).

Definition graph_add_node_internal (nstr : string) (create_comp : bool)
    : M world (option nptr) :=
  g <- get_graph ;;
  let idlen := Z.of_nat (String.length nstr) in
  let hv_ := hash_of nstr in
  match bucket_find g nstr with
  | Some n => ret (Some n)
  | None =>
      (* No node with that name exists. Create one. *)
      on <- graph_alloc_node idlen ;;
      match on with
      | None => ret None
      | Some n =>
          map_graph (fun g =>
            set_g_nodes (bucket_push (Z.land (hashmask g) hv_) n)
              (upd_node n (fun _ => mkNode None [] 0 0 hv_ nstr) g)) ;;;
          if create_comp then
            oc <- graph_new_component ;;
            match oc with
            | None => graph_remove_last_node n ;;; ret None
            | Some c => map_graph (component_add_node c n) ;;; ret (Some n)
            end
          else ret (Some n)
      end
  end.

Definition graph_init (flags_ : Z) : M world Z :=
  let bshift := 4 in
  if negb (Z.land flags_
             (wrap32 (Z.lnot (Z.lor (Z.lor (Z.lor GRAPH_UNDIRECTED GRAPH_NOPARALLEL)
                                            GRAPH_NOLOOP) GRAPH_DUAL))) =? 0)
  then set_errno EINVAL ;;; ret (-1)
  else if negb (Z.land flags_ GRAPH_UNDIRECTED =? 0) && negb (Z.land flags_ GRAPH_DUAL =? 0)
  then set_errno EINVAL ;;; ret (-1)
  else
    map_graph (set_components (fun _ => [])) ;;;
    let buckets := Z.shiftl 1 bshift in
    p <- malloc ;;
    if negb p then
      (* g->nodes is the null pointer *)
      map_graph (set_g_nodes (fun _ => [])) ;;;
      ret (-1)
    else
      map_graph (fun g =>
        mkGraph (components g) (comp_store g) (replicate (Z.to_nat buckets) [])
                (buckets - 1) (flags g) 0 (bshift * buckets)
                (node_os g) (edge_os g)) ;;;
      assert (Z.land buckets (buckets - 1) =? 0) ;;;
      assert (Z.shiftr (buckets - 1) bshift =? 0) ;;;
      h <- obstack_begin ;;
      set_node_chunk h ;;;
      map_graph (set_node_os (fun _ => [])) ;;;
      h <- obstack_begin ;;
      set_edge_chunk h ;;;
      map_graph (set_edge_os (fun _ => 0%nat)) ;;;
      map_graph (fun g =>
        mkGraph (components g) (comp_store g) (g_nodes g) (hashmask g) flags_
                (g_node_count g) (resize_threshold g) (node_os g) (edge_os g)) ;;;
      ret 0.

Definition graph_add_node (nstr : string) : M world Z :=
  g <- get_graph ;;
  let last_ := last (components g) in
  node <- graph_add_node_internal nstr true ;;
  match node with
  | None => ret (-1)
  | Some node =>
      g <- get_graph ;;
      assert (bool_decide (comp (node_at g node) <> None)) ;;;
      ret (if bool_decide (last_ = last (components g)) then 0 else 1)
  end.

(** Do add an edge from src to tgt: 1 on success, -1 on failure. *)
Definition do_add_edge (src tgt : nptr) : M world Z :=
  g <- get_graph ;;
  let e_ := edge_os g in
  e <- edge_os_alloc sizeof_Edge ;;
  if negb e then ret (-1)
  else
    map_graph (set_edge_os S) ;;;
    g <- get_graph ;;
    match comp (node_at g src), comp (node_at g tgt) with
    | None, None =>
        (* (a) a new component consisting of src, tgt and e *)
        oc <- graph_new_component ;;
        match oc with
        | None =>
            (* obstack_free(&g->edge_os, e) *)
            w <- get ;;
            set_edge_chunk (obstack_free e_ (edge_chunk w)) ;;;
            map_graph (set_edge_os pred) ;;;
            ret (-1)
        | Some c =>
            map_graph (component_add_node c src) ;;;
            (if negb (Nat.eqb src tgt)
             then map_graph (component_add_node c tgt) else ret tt) ;;;
            node_add_out_edge src tgt ;;;
            ret 1
        end
    | None, Some ct =>
        (* (b) src joins the component of tgt *)
        map_graph (component_add_node ct src) ;;;
        node_add_out_edge src tgt ;;;
        ret 1
    | Some cs, None =>
        (* (c) completely symmetrical to (b) *)
        map_graph (component_add_node cs tgt) ;;;
        node_add_out_edge src tgt ;;;
        ret 1
    | Some cs, Some ct =>
        if Nat.eqb cs ct then
          (* (d) the simple case *)
          node_add_out_edge src tgt ;;;
          ret 1
        else
          (* (e) the two components need to be merged *)
          graph_merge_components cs ct ;;;
          node_add_out_edge src tgt ;;;
          ret 1
    end.

(** [graph_add_edge] from the point where the edge is oriented: [n1] and
    [n2] are the local variables of that name after the swap. *)
Definition add_oriented_edge (swapped : bool) (n1 n2 : nptr) : M world Z :=
  g <- get_graph ;;
  if Nat.eqb n1 n2 && has_flag g GRAPH_NOLOOP then
    (* We are not allowed to add loops. But if the given node has not been
       seen before, we still need to add a singleton component. *)
    if bool_decide (comp (node_at g n1) = None) then
      oc <- graph_new_component ;;
      match oc with
      | None => graph_remove_last_node n1 ;;; ret (-1)
      | Some c => map_graph (component_add_node c n1) ;;; ret 0
      end
    else ret 0
  else if has_flag g GRAPH_NOPARALLEL
          && bool_decide (comp (node_at g n1) <> None)
          && bool_decide (comp (node_at g n1) = comp (node_at g n2))
          && graph_edge_exists g n1 n2
  then ret 0
  else
    (* Now do add an edge from n1 to n2. *)
    r <- do_add_edge n1 n2 ;;
    if r <? 0 then
      (* swap back, to remove the nodes in proper order *)
      let '(n1, n2) := if swapped then (n2, n1) else (n1, n2) in
      g <- get_graph ;;
      (if bool_decide (comp (node_at g n2) = None)
       then graph_remove_last_node n2 else ret tt) ;;;
      g <- get_graph ;;
      (if negb (Nat.eqb n1 n2) && bool_decide (comp (node_at g n1) = None)
       then graph_remove_last_node n1 else ret tt) ;;;
      ret (-1)
    else
      g <- get_graph ;;
      assert (bool_decide (comp (node_at g n1) <> None)) ;;;
      assert (bool_decide (comp (node_at g n1) = comp (node_at g n2))) ;;;
      if has_flag g GRAPH_DUAL && negb (Nat.eqb n1 n2) then
        r <- do_add_edge n2 n1 ;;
        if r <? 0 then ret (-1) else ret 2
      else ret 1.

Definition graph_add_edge (s1 s2 : string) : M world Z :=
  on1 <- graph_add_node_internal s1 false ;;
  match on1 with
  | None => ret (-1)
  | Some n1 =>
      on2 <- graph_add_node_internal s2 false ;;
      match on2 with
      | None =>
          g <- get_graph ;;
          (if bool_decide (comp (node_at g n1) = None)
           then graph_remove_last_node n1 else ret tt) ;;;
          ret (-1)
      | Some n2 =>
          g <- get_graph ;;
          (* Orient the edge canonically. *)
          let swapped := has_flag g GRAPH_UNDIRECTED && (0 <? nodes_cmp g n1 n2) in
          let '(n1, n2) := if swapped then (n2, n1) else (n1, n2) in
          add_oriented_edge swapped n1 n2
      end
  end.

End Hash.

(** ** clique.c *)

(** A managed array of node pointers; [len] is the length of [ns_nodes]. *)
Record NodeSet : Type := mkNodeSet {
  ns_nodes : list nptr;
  cap : Z;
  sorted : bool
}.

Definition len (ns : NodeSet) : Z := Z.of_nat (length (ns_nodes ns)).

(** [struct cliqctx] (the prefix R and the pool of retired sets), the
    cliques handed to the callback so far, the allocation oracle and
    [errno]. *)
Record cstate : Type := mkCstate {
  ctx_R : NodeSet;
  pool_sets : list NodeSet;
  pool_count : Z;
  calls : list (list nptr);
  mem : list bool;
  c_errno : Z
}.

(** [malloc]/[realloc] in clique.c. *)
Definition cmalloc : M cstate bool :=
  fun s => match mem s with
           | [] => Ret true s
           | true :: o =>
               Ret true (mkCstate (ctx_R s) (pool_sets s) (pool_count s) (calls s) o
                                  (c_errno s))
           | false :: o =>
               Ret false (mkCstate (ctx_R s) (pool_sets s) (pool_count s) (calls s) o
                                   ENOMEM)
           end.

Definition set_R (f : NodeSet -> NodeSet) : M cstate unit :=
  fun s => Ret tt (mkCstate (f (ctx_R s)) (pool_sets s) (pool_count s) (calls s) (mem s)
                            (c_errno s)).

Definition nodeset_alloc (init : Z) : M cstate (option NodeSet) :=
  ns <- cmalloc ;;
  if negb ns then ret None
  else
    let init := if init <? 7 then 7 else init in
    arr <- cmalloc ;;
    if negb arr then ret None
    else ret (Some (mkNodeSet [] init true)).

(** [cmp_nodeptr] compares the addresses of two nodes. A node is here its
    number in the order of allocation, which is the order of the addresses
    within one chunk of the obstack; chunks may lie anywhere, so that the
    code may order two nodes of different chunks the other way. The order
    decides how a node set is laid out and in which order the cliques are
    found, not which nodes a set or a clique holds. *)
Definition cmp_nodeptr (x y : nptr) : Z :=
  if (x <? y)%nat then -1 else if (y <? x)%nat then 1 else 0.

(** [qsort] with [cmp_nodeptr]. *)
Definition nodeset_sort (ns : NodeSet) : NodeSet :=
  if sorted ns then ns
  else mkNodeSet (if 1 <? len ns then merge_sort Nat.le (ns_nodes ns) else ns_nodes ns)
                 (cap ns) true.

Definition nodeset_clear (ns : NodeSet) : NodeSet := mkNodeSet [] (cap ns) true.

(** The binary search of [nodeset_contains]; [None] when the loop has not
    ended after [fuel] rounds. *)
Fixpoint contains_loop (fuel : nat) (l : list nptr) (node : nptr) (lower upper : Z)
    : option bool :=
  if lower <? upper then
    match fuel with
    | O => None
    | S fuel =>
        let idx := wrap32 (lower + upper) / 2 in
        let c := cmp_nodeptr (l !!! Z.to_nat idx) node in
        if 0 <? c then contains_loop fuel l node lower idx
        else if c <? 0 then contains_loop fuel l node (wrap32 (idx + 1)) upper
        else Some true
    end
  else Some false.

Definition nodeset_contains (ns : NodeSet) (node : nptr) : option bool :=
  if sorted ns && (7 <=? len ns) then
    contains_loop (length (ns_nodes ns)) (ns_nodes ns) node 0 (len ns)
  else Some (existsb (Nat.eqb node) (ns_nodes ns)).

(** A loop of the C code that does not end hangs the process. *)
Definition or_hang {S A} (o : option A) : M S A :=
  match o with
  | Some a => ret a
  | None => die Hang
  end.

Definition nodeset_increase_capacity (ns : NodeSet) : M cstate (Z * NodeSet) :=
  let newcap := wrap32 (cap ns + cap ns / 2 + 1) in
  new <- cmalloc ;;
  if negb new then ret (-1, ns)
  else ret (0, mkNodeSet (ns_nodes ns) newcap (sorted ns)).

Definition nodeset_append (ns : NodeSet) (node : nptr) : M cstate (Z * NodeSet) :=
  rn <- (if len ns =? cap ns then nodeset_increase_capacity ns else ret (0, ns)) ;;
  let '(r, ns) := rn in
  if negb (r =? 0) then ret (-1, ns)
  else
    let sorted_ := (len ns =? 0) ||
                   (sorted ns && (cmp_nodeptr (List.last (ns_nodes ns) 0%nat) node <? 0)) in
    ret (0, mkNodeSet (ns_nodes ns ++ [node]) (cap ns) sorted_).

(** The search loop of [nodeset_insert_sorted]: the last [idx] and [cmp],
    [Some None] when it meets [node] itself (the code calls abort). *)
Fixpoint insert_loop (fuel : nat) (l : list nptr) (node : nptr)
    (lower upper idx cmp : Z) : option (option (Z * Z)) :=
  if lower <? upper then
    match fuel with
    | O => None
    | S fuel =>
        let idx := wrap32 (lower + upper) / 2 in
        let cmp := cmp_nodeptr (l !!! Z.to_nat idx) node in
        if 0 <? cmp then insert_loop fuel l node lower idx idx cmp
        else if cmp <? 0 then insert_loop fuel l node (wrap32 (idx + 1)) upper idx cmp
        else Some None
    end
  else Some (Some (idx, cmp)).

Definition nodeset_insert_sorted (ns : NodeSet) (node : nptr) : M cstate (Z * NodeSet) :=
  rn <- (if len ns =? cap ns then nodeset_increase_capacity ns else ret (0, ns)) ;;
  let '(r, ns) := rn in
  if negb (r =? 0) then ret (-1, ns)
  else if negb (sorted ns) || (len ns =? 0) then
    ret (0, nodeset_sort (mkNodeSet (ns_nodes ns ++ [node]) (cap ns) (sorted ns)))
  else if sorted ns && (cmp_nodeptr (List.last (ns_nodes ns) 0%nat) node <? 0) then
    ret (0, mkNodeSet (ns_nodes ns ++ [node]) (cap ns) (sorted ns))
  else
    found <- or_hang (insert_loop (length (ns_nodes ns)) (ns_nodes ns) node 0 (len ns) 0 0) ;;
    match found with
    | None => die Abort
    | Some (idx, cmp) =>
        let idx := if cmp <? 0 then wrap32 (idx + 1) else idx in
        (* memmove of the tail, then the store at idx *)
        ret (0, mkNodeSet (take (Z.to_nat idx) (ns_nodes ns) ++ node ::
                           drop (Z.to_nat idx) (ns_nodes ns))
                          (cap ns) (sorted ns))
    end.

(** [nodeset_intersect(A, B)]: filter A in place by membership in B. *)
Fixpoint intersect_loop (B : NodeSet) (src : list nptr) : option (list nptr) :=
  match src with
  | [] => Some []
  | x :: src =>
      match nodeset_contains B x with
      | None => None
      | Some b =>
          match intersect_loop B src with
          | None => None
          | Some kept => Some (if b then x :: kept else kept)
          end
      end
  end.

Definition nodeset_intersect (A B : NodeSet) : option NodeSet :=
  match intersect_loop B (ns_nodes A) with
  | None => None
  | Some kept => Some (mkNodeSet kept (cap A) (sorted A))
  end.

Definition nsp_init : M cstate unit :=
  fun s => Ret tt (mkCstate (ctx_R s) [] 0 (calls s) (mem s) (c_errno s)).

Definition nsp_destroy : M cstate unit :=
  fun s => Ret tt (mkCstate (ctx_R s) [] 0 (calls s) (mem s) (c_errno s)).

Definition nsp_get (cap_ : Z) : M cstate (option NodeSet) :=
  s <- get ;;
  match pool_sets s with
  | ns :: rest =>
      put (mkCstate (ctx_R s) rest (wrap32 (pool_count s - 1)) (calls s) (mem s)
                    (c_errno s)) ;;;
      ret (Some ns)
  | [] => nodeset_alloc cap_
  end.

Definition nsp_put (ns : option NodeSet) : M cstate unit :=
  match ns with
  | None => ret tt
  | Some ns =>
      fun s => Ret tt (mkCstate (ctx_R s) (ns :: pool_sets s)
                                (wrap32 (pool_count s + 1)) (calls s) (mem s) (c_errno s))
  end.

Section Clique.

(** The callback sees the clique (R->nodes, R->len); what it returns may
    depend on the calls it has already received (its [ctx]). *)
Variable user_cb : list (list nptr) -> list nptr -> Z.
Variable g : Graph.

Definition call_user_cb : M cstate Z :=
  fun s =>
    let r := ns_nodes (ctx_R s) in
    Ret (user_cb (calls s) r)
        (mkCstate (ctx_R s) (pool_sets s) (pool_count s) (calls s ++ [r]) (mem s)
                  (c_errno s)).

(** The pivot: the node of P and then X with the largest out-degree. *)
Definition choose_pivot (P X : NodeSet) : nptr :=
  let better pivot n :=
    if out_degree (node_at g pivot) <? out_degree (node_at g n) then n else pivot in
  foldl better (foldl better (ns_nodes P !!! 0%nat) (tail (ns_nodes P))) (ns_nodes X).

(** [nodeset_insert_sorted] for each element of [l], stopping at a failure. *)
Fixpoint insert_all (ns : NodeSet) (l : list nptr) : M cstate (Z * NodeSet) :=
  match l with
  | [] => ret (0, ns)
  | x :: l =>
      rn <- nodeset_insert_sorted ns x ;;
      let '(r, ns) := rn in
      if negb (r =? 0) then ret (-1, ns) else insert_all ns l
  end.

(** The same for the elements of [l] that [newX] contains. *)
Fixpoint insert_members (newX newP : NodeSet) (l : list nptr) : M cstate (Z * NodeSet) :=
  match l with
  | [] => ret (0, newP)
  | x :: l =>
      b <- or_hang (nodeset_contains newX x) ;;
      if b : bool then
        rn <- nodeset_insert_sorted newP x ;;
        let '(r, newP) := rn in
        if negb (r =? 0) then ret (-1, newP) else insert_members newX newP l
      else insert_members newX newP l
  end.

(** The node sets a call of [BronKerbosch] works on besides P. *)
Record bk_sets : Type := mkSets {
  still_in_P : NodeSet;
  newP : NodeSet;
  newX : NodeSet;
  bk_X : NodeSet
}.

Definition pop_R (r : NodeSet) : NodeSet :=
  mkNodeSet (removelast (ns_nodes r)) (cap r) (sorted r).

(** The main loop, at [v = P->nodes[i]] with [rest] the nodes from [i+1] on. *)
Fixpoint BK_loop (rec : NodeSet -> NodeSet -> M cstate (Z * NodeSet))
    (pivot : nptr) (P_from_i : list nptr) (t : bk_sets) : M cstate (Z * bk_sets) :=
  match P_from_i with
  | [] => ret (0, t)
  | v :: rest =>
      if graph_edge_exists g pivot v then
        (* Remember that v actually belongs to P. *)
        rn <- nodeset_insert_sorted (still_in_P t) v ;;
        let '(r, still) := rn in
        let t := mkSets still (newP t) (newX t) (bk_X t) in
        if negb (r =? 0) then ret (-1, t) else BK_loop rec pivot rest t
      else
        s <- get ;;
        rn <- nodeset_append (ctx_R s) v ;;
        let '(r, R') := rn in
        set_R (fun _ => R') ;;;
        assert (r =? 0) ;;;
        (* We use newX temporarily to contain N(v) *)
        rn <- insert_all (nodeset_clear (newX t)) (out_edges (node_at g v)) ;;
        let '(r, nX) := rn in
        let t := mkSets (still_in_P t) (nodeset_clear (newP t)) nX (bk_X t) in
        if negb (r =? 0) then ret (-1, t)
        else
          rn <- insert_members nX (newP t) (ns_nodes (still_in_P t)) ;;
          let '(r, nP) := rn in
          let t := mkSets (still_in_P t) nP nX (bk_X t) in
          if negb (r =? 0) then ret (-1, t)
          else
            rn <- insert_members nX nP rest ;;
            let '(r, nP) := rn in
            let t := mkSets (still_in_P t) nP nX (bk_X t) in
            if negb (r =? 0) then ret (-1, t)
            else
              (* Now restrict newX to its intersection with X. *)
              nX <- or_hang (nodeset_intersect nX (bk_X t)) ;;
              rx <- rec nP nX ;;
              let '(r, nX) := rx in
              let t := mkSets (still_in_P t) nP nX (bk_X t) in
              if negb (r =? 0) then ret (r, t)
              else
                (* Remove v from R again. *)
                set_R pop_R ;;;
                (* Add v to X. *)
                rn <- nodeset_insert_sorted (bk_X t) v ;;
                let '(r, X') := rn in
                let t := mkSets (still_in_P t) nP nX X' in
                if negb (r =? 0) then ret (-1, t) else BK_loop rec pivot rest t
  end.

(** One call of [BronKerbosch(cliqctx, P, X)], with [rec] for the calls it
    makes to itself: the result and X as the call leaves it. *)
Definition BK_call (rec : NodeSet -> NodeSet -> M cstate (Z * NodeSet))
    (P X : NodeSet) : M cstate (Z * NodeSet) :=
  if len P =? 0 then
    if len X =? 0 then r <- call_user_cb ;; ret (r, X)
    else ret (0, X)
  else
    s <- get ;;
    rn <- (if len (ctx_R s) =? cap (ctx_R s)
           then nodeset_increase_capacity (ctx_R s) else ret (0, ctx_R s)) ;;
    let '(r, R') := rn in
    set_R (fun _ => R') ;;;
    if negb (r =? 0) then ret (-1, X)
    else
      nP <- nsp_get 0 ;;
      nX <- nsp_get 0 ;;
      match nP, nX with
      | Some nP_, Some nX_ =>
          let pivot := choose_pivot P X in
          let d := out_degree (node_at g pivot) in
          still <- nsp_get (if d <? len P then d else len P) ;;
          match still with
          | None => nsp_put nX ;;; nsp_put nP ;;; ret (-1, X)
          | Some still_ =>
              rt <- BK_loop rec pivot (ns_nodes P)
                      (mkSets (nodeset_clear still_) nP_ nX_ X) ;;
              let '(r, t) := rt in
              nsp_put (Some (still_in_P t)) ;;;
              nsp_put (Some (newX t)) ;;;
              nsp_put (Some (newP t)) ;;;
              ret (r, bk_X t)
          end
      | _, _ => nsp_put nX ;;; nsp_put nP ;;; ret (-1, X)
      end.

(** [BronKerbosch]; [fuel] bounds the depth of the recursion. *)
Fixpoint BronKerbosch (fuel : nat) (P X : NodeSet) : M cstate (Z * NodeSet) :=
  match fuel with
  | O => die Hang
  | S fuel => BK_call (BronKerbosch fuel) P X
  end.

(** [assert(nodeset_append(P, node) == 0)] for every node of the component. *)
Fixpoint append_all (P : NodeSet) (l : list nptr) : M cstate NodeSet :=
  match l with
  | [] => ret P
  | x :: l =>
      rn <- nodeset_append P x ;;
      let '(r, P) := rn in
      assert (r =? 0) ;;;
      append_all P l
  end.

Definition component_iterate_maximal_cliques (c : cptr) : M cstate Z :=
  nsp_init ;;;
  R <- nodeset_alloc 0 ;;
  P <- nodeset_alloc (node_count (comp_at g c)) ;;
  X <- nodeset_alloc (node_count (comp_at g c)) ;;
  match R, P, X with
  | Some R, Some P, Some X =>
      set_R (fun _ => R) ;;;
      P <- append_all P (nodes (comp_at g c)) ;;
      let P := nodeset_sort P in
      assert (len P =? node_count (comp_at g c)) ;;;
      assert (len X =? 0) ;;;
      assert (len R =? 0) ;;;
      rx <- BronKerbosch (S (length (ns_nodes P))) P X ;;
      nsp_destroy ;;;
      ret (fst rx)
  | _, _, _ => nsp_destroy ;;; ret (-1)
  end.

End Clique.

End Defs.

Import Defs.
Local Open Scope Z_scope.

(** * Well-formed graphs *)

(** The component pointer [c] refers to a component that has not been freed. *)
Definition alive (g : Graph) (c : cptr) : Prop :=
  is_Some (mjoin (comp_store g !! c)).

Global Instance alive_dec g c : Decision (alive g c).
Proof. unfold alive. apply _. Defined.

(** The pointer structure of a graph: components and their member lists
    agree with the [comp] fields of the nodes, and edges stay inside a
    component. *)
Record struct_ok (g : Graph) : Prop := mkStructOk {
  ok_comps_nodup : NoDup (components g);
  ok_comps_alive : forall c, alive g c <-> c ∈ components g;
  ok_member : forall c n, n ∈ nodes (comp_at g c) -> comp (node_at g n) = Some c;
  ok_owner : forall n c,
    comp (node_at g n) = Some c -> c ∈ components g /\ n ∈ nodes (comp_at g c);
  ok_nodes_nodup : forall c, NoDup (nodes (comp_at g c));
  ok_count : forall c,
    node_count (comp_at g c) = wrap32 (Z.of_nat (length (nodes (comp_at g c))));
  ok_edge : forall n m,
    m ∈ out_edges (node_at g n) ->
    comp (node_at g n) <> None /\ comp (node_at g m) = comp (node_at g n)
}.

(** The buckets hold pointers into the node obstack, each at most once. *)
Record index_ok (g : Graph) : Prop := mkIndexOk {
  ok_bucket_valid : forall n, n ∈ concat (g_nodes g) -> (n < length (node_os g))%nat;
  ok_bucket_nodup : NoDup (concat (g_nodes g))
}.

(** What the flags of the graph promise about its edges. *)
Record edges_ok (g : Graph) : Prop := mkEdgesOk {
  ok_noloop : has_flag g GRAPH_NOLOOP = true ->
    forall n, n ∉ out_edges (node_at g n);
  ok_dual : has_flag g GRAPH_DUAL = true ->
    forall n m, m ∈ out_edges (node_at g n) -> n ∈ out_edges (node_at g m);
  ok_noparallel : has_flag g GRAPH_NOPARALLEL = true ->
    forall n, NoDup (out_edges (node_at g n))
}.

(** Every node of the obstack has been given a component. *)
Definition all_assigned (g : Graph) : Prop :=
  forall n, (n < length (node_os g))%nat -> comp (node_at g n) <> None.

(** What insertion never changes in a graph once nodes exist: the flags,
    the index and the identity of the nodes. *)
Record frame (g g' : Graph) : Prop := mkFrame {
  fr_flags : flags g' = flags g;
  fr_buckets : g_nodes g' = g_nodes g;
  fr_hashmask : hashmask g' = hashmask g;
  fr_threshold : resize_threshold g' = resize_threshold g;
  fr_count : g_node_count g' = g_node_count g;
  fr_length : length (node_os g') = length (node_os g);
  fr_ident : forall n, ident (node_at g' n) = ident (node_at g n);
  fr_hv : forall n, hv (node_at g' n) = hv (node_at g n)
}.

(** The shape of the hash table: 2^k buckets for some k between 4 and 28,
    the mask 2^k - 1, and the threshold k * 2^k unless it has been
    saturated. *)
Definition table_ok (g : Graph) : Prop :=
  exists k : Z, 4 <= k <= 28 /\
    hashmask g = 2 ^ k - 1 /\
    Z.of_nat (length (g_nodes g)) = 2 ^ k /\
    (resize_threshold g = UINT32_MAX \/ (k <= 27 /\ resize_threshold g = k * 2 ^ k)).

(** The invariant of a graph inside a call of the library, when the last
    nodes of the obstack may still be waiting for their component. *)
Record mid_ok (g : Graph) : Prop := mkMidOk {
  mok_struct : struct_ok g;
  mok_index : index_ok g;
  mok_table : table_ok g;
  mok_edges : edges_ok g
}.

(** The whole invariant of a graph between two calls of the library. *)
Record graph_ok (g : Graph) : Prop := mkGraphOk {
  gok_mid : mid_ok g;
  gok_assigned : all_assigned g
}.

(** The number of edges stored in the graph. *)
Definition edge_total (g : Graph) : nat :=
  sum_list_with (fun x => length (out_edges x)) (node_os g).

(** [g1] is [g] after the components have been made ready for an edge:
    the edges are the same and no node has lost its component. *)
Record prep (g g1 : Graph) : Prop := mkPrep {
  pr_ok : struct_ok g1;
  pr_frame : frame g g1;
  pr_edges : forall m, out_edges (node_at g1 m) = out_edges (node_at g m);
  pr_assigned : forall m, comp (node_at g m) <> None -> comp (node_at g1 m) <> None
}.

(** The node [graph_add_node_internal] creates for an identifier. *)
Definition new_node (hv_ : Z) (s : string) : Node := mkNode None [] 0 0 hv_ s.

(** [g2] is [g1] without its last node [n], which was unassigned. *)
Record node_removed (n : nptr) (g1 g2 : Graph) : Prop := mkRemoved {
  rm_free : comp (node_at g1 n) = None;
  rm_nodes : node_os g2 = take n (node_os g1);
  rm_components : components g2 = components g1;
  rm_store : comp_store g2 = comp_store g1;
  rm_flags : flags g2 = flags g1;
  rm_edge_os : edge_os g2 = edge_os g1;
  rm_hashmask : hashmask g2 = hashmask g1;
  rm_threshold : resize_threshold g2 = resize_threshold g1;
  rm_size : length (g_nodes g2) = length (g_nodes g1);
  rm_buckets : concat (g_nodes g1) ≡ₚ n :: concat (g_nodes g2)
}.

(** The state of [graph_add_edge] once both identifiers are resolved to the
    nodes [n1] and [n2]: the graph [g] of the call, extended by the nodes
    that had to be created, which sit unassigned at the end of the obstack. *)
Record resolved (s1 s2 : string) (g gA : Graph) (n1 n2 : nptr) : Prop := mkResolved {
  rs_mid : mid_ok gA;
  rs_components : components gA = components g;
  rs_store : comp_store gA = comp_store g;
  rs_flags : flags gA = flags g;
  rs_prefix : take (length (node_os g)) (node_os gA) = node_os g;
  rs_new : forall m, (length (node_os g) <= m)%nat -> comp (node_at gA m) = None;
  rs_len : length (node_os gA) = (length (node_os g) `max` (S n1 `max` S n2))%nat;
  rs_n1 : (length (node_os g) <= n1)%nat -> n1 = length (node_os g);
  rs_n2 : (length (node_os g) <= n2)%nat ->
          n2 = length (node_os g) \/ (n2 = S (length (node_os g)) /\ n1 = length (node_os g));
  rs_id1 : ident (node_at gA n1) = s1;
  rs_id2 : ident (node_at gA n2) = s2;
  rs_same : s1 = s2 -> n1 = n2;
  rs_edge_total : edge_total gA = edge_total g
}.

(** The return contract of [graph_add_edge]: [g] and [o] are the graph and
    the oracle of the call, [g'] the graph it leaves. *)
Definition edge_contract (s1 s2 : string) (g g' : Graph) (o : list bool) (r : Z) : Prop :=
  (r = -1 /\ false ∈ o /\ edge_total g' = edge_total g) \/
  (r = 0 /\ edge_total g' = edge_total g /\
   ((has_flag g GRAPH_NOLOOP = true /\ s1 = s2) \/
    (has_flag g GRAPH_NOPARALLEL = true /\
     exists a b, b ∈ out_edges (node_at g a) /\
       ((ident (node_at g a) = s1 /\ ident (node_at g b) = s2) \/
        (has_flag g GRAPH_UNDIRECTED = true /\
         ident (node_at g a) = s2 /\ ident (node_at g b) = s1))))) \/
  (r = 1 /\ edge_total g' = S (edge_total g) /\
   (has_flag g GRAPH_DUAL = true -> s1 = s2) /\
   exists a b, b ∈ out_edges (node_at g' a) /\
     ((ident (node_at g' a) = s1 /\ ident (node_at g' b) = s2) \/
      (has_flag g GRAPH_UNDIRECTED = true /\
       ident (node_at g' a) = s2 /\ ident (node_at g' b) = s1))) \/
  (r = 2 /\ edge_total g' = S (S (edge_total g)) /\
   has_flag g GRAPH_DUAL = true /\ s1 <> s2 /\
   exists a b, b ∈ out_edges (node_at g' a) /\ a ∈ out_edges (node_at g' b) /\
     ident (node_at g' a) = s1 /\ ident (node_at g' b) = s2).

(** ** The effects of the steps of an insertion *)

(** The run from [w] to [w'] has only consumed answers of the oracle, and
    [errno] is what it was unless an allocation has been refused. *)
Definition osuf (w w' : world) : Prop :=
  (errno w' = errno w \/ (errno w' = ENOMEM /\ false ∈ oracle w)) /\
  oracle w' `suffix_of` oracle w.

(** The graph once [graph_new_component] has appended an empty component. *)
Definition with_component (g : Graph) : Graph :=
  set_components (fun l => l ++ [length (comp_store g)])
    (set_comp_store (fun st => st ++ [Some (mkComponent [] 0 0)]) g).

(** The graph once [node_add_out_edge] has linked an edge from [src] to
    [tgt], both in the component [c]. *)
Definition with_edge (c : cptr) (src tgt : nptr) (g : Graph) : Graph :=
  upd_comp c (fun k => mkComponent (nodes k) (node_count k) (wrap32 (edge_count k + 1)))
    (upd_node tgt (fun x => mkNode (comp x) (out_edges x) (out_degree x)
                                   (wrap32 (in_degree x + 1)) (hv x) (ident x))
       (upd_node src (fun x => mkNode (comp x) (tgt :: out_edges x)
                                      (wrap32 (out_degree x + 1)) (in_degree x)
                                      (hv x) (ident x)) g)).

(** The graph once [graph_merge_components] has moved the nodes of [b]
    to [a] and freed [b]. *)
Definition merged (a b : cptr) (g : Graph) : Graph :=
  let g1 := foldl (fun g n => upd_node n (set_comp (Some a)) g) g (nodes (comp_at g b)) in
  let k2 := comp_at g1 b in
  let g2 := upd_comp a (fun k1 =>
              mkComponent (nodes k1 ++ nodes k2)
                          (wrap32 (node_count k1 + node_count k2))
                          (wrap32 (edge_count k1 + edge_count k2))) g1 in
  let g3 := upd_comp b (fun _ => mkComponent [] 0 0) g2 in
  graph_remove_component b g3.

(** [g1] is [g] with one more node, unassigned and without edges. *)
Record node_created (x : Node) (g g1 : Graph) : Prop := mkCreated {
  cr_nodes : node_os g1 = node_os g ++ [x];
  cr_comp : comp x = None;
  cr_edges : out_edges x = [];
  cr_components : components g1 = components g;
  cr_store : comp_store g1 = comp_store g;
  cr_flags : flags g1 = flags g;
  cr_edge_os : edge_os g1 = edge_os g;
  cr_buckets : concat (g_nodes g1) ⊆+ length (node_os g) :: concat (g_nodes g)
}.

(** The worlds a client of the library can reach: [graph_init] has returned
    0 on storage that holds no component yet, and then nodes and edges
    have been added, whatever the calls returned. *)
Inductive built (h : string -> Z -> Z -> Z) (fl : Z) : world -> Prop :=
  | built_init w0 w :
      comp_store (gph w0) = [] -> graph_init fl w0 = Ret 0 w -> built h fl w
  | built_node w s r w' :
      built h fl w -> graph_add_node h s w = Ret r w' -> built h fl w'
  | built_edge w s1 s2 r w' :
      built h fl w -> graph_add_edge h s1 s2 w = Ret r w' -> built h fl w'.

(** The node sits in the bucket its hash value selects under the mask in
    force: only then do the lookup and the removal reach it. *)
Definition homed (g : Graph) (n : nptr) : Prop :=
  n ∈ g_nodes g !!! Z.to_nat (Z.land (hashmask g) (hv (node_at g n))).

(** No allocation fails from this world on. *)
Definition plentiful (w : world) : Prop := false ∉ oracle w.

(** The situation in which the table grows: the next node created takes
    the node count over the threshold. The identifier [s] is in the index,
    as the node [n], and bit [k] of its hash value, the bit the longer mask
    adds, is set; the identifier [t] is not in the index. *)
Record resize_due (h : string -> Z -> Z -> Z) (w : world) (k : Z)
    (s : string) (n : nptr) (t : string) : Prop := mkResizeDue {
  rd_plentiful : plentiful w;
  rd_k : 0 <= k;
  rd_mask : hashmask (gph w) = 2 ^ k - 1;
  rd_count : g_node_count (gph w) = resize_threshold (gph w);
  rd_live : resize_threshold (gph w) < UINT32_MAX;
  rd_old : bucket_find h (gph w) s = Some n;
  rd_bit : Z.testbit (hash_of h s) k = true;
  rd_new : bucket_find h (gph w) t = None
}.

(** ** Sample runs *)

(** A small hash function to run the library on concrete identifiers; it
    stands where [jenkins_hash] is in the theorems below, which hold for
    every hash function. *)
Definition sample_hash (s : string) (length_ initval : Z) : Z :=
  fold_left (fun a c => wrap32 (a * 33 + Z.of_nat (Ascii.nat_of_ascii c)))
            (String.list_ascii_of_string s) (wrap32 (initval + length_)).

(** Storage before [graph_init]: nothing allocated, [o] the answers of the
    allocator from then on. *)
Definition world0 (o : list bool) : world :=
  mkWorld (mkGraph [] [] [] 0 0 0 0 [] 0) 0 o (mkObstack 0 []) (mkObstack 0 []).

(** [graph_add_node] for each identifier in turn. *)
Fixpoint add_nodes (h : string -> Z -> Z -> Z) (ids : list string) : M world unit :=
  match ids with
  | [] => ret tt
  | s :: ids => graph_add_node h s ;;; add_nodes h ids
  end.

(** 65 identifiers of one character each, from the character 0 on. *)
Definition sample_ids : list string :=
  map (fun i => String (Ascii.ascii_of_nat (48 + i)) EmptyString) (seq 0 65).

(** The graph with the first 64 of them as nodes: the table of 16 buckets
    is as full as it gets before it grows. *)
Definition sample_world (fl : Z) : world :=
  match (graph_init fl ;;; add_nodes sample_hash (take 64 sample_ids)) (world0 []) with
  | Ret _ w => w
  | Fatal _ => world0 []
  end.

(** The identifiers of the nodes of the graph, one for each node record. *)
Definition identifiers (g : Graph) : list string := ident <$> node_os g.

(** The world [w] with other answers of the allocator ahead. *)
Definition with_oracle (o : list bool) (w : world) : world :=
  mkWorld (gph w) (errno w) o (node_chunk w) (edge_chunk w).

(** What [graph_init] leaves when it rejects its flags: everything as it
    was, and [errno] set to [EINVAL]. *)
Definition rejected (w : world) : world :=
  mkWorld (gph w) EINVAL (oracle w) (node_chunk w) (edge_chunk w).

(** The shape of the identifier index: the number of buckets, the mask
    and the threshold of the next growth. *)
Definition table_of (g : Graph) : nat * Z * Z :=
  (length (g_nodes g), hashmask g, resize_threshold g).

(** The allocator grants the 69 allocations of [graph_init] and of the
    first 64 nodes (the array of buckets, the first chunk of each obstack,
    64 components and two more chunks of nodes), then refuses the larger
    array of buckets that the 65th node asks for. *)
Definition sample_refusal : list bool := replicate 69 true ++ [false].

(** The graph of the 65 sample nodes under that allocator. *)
Definition sample_saturated : world :=
  match (graph_init 14 ;;; add_nodes sample_hash sample_ids) (world0 sample_refusal) with
  | Ret _ w => w
  | Fatal _ => world0 []
  end.

(** ** Cliques *)

(** There is an edge from [a] to [b]. *)
Definition adjacent (g : Graph) (a b : nptr) : Prop := b ∈ out_edges (node_at g a).

(** All pairs of distinct members are adjacent, both ways. *)
Definition is_clique (g : Graph) (K : list nptr) : Prop :=
  forall a b, a ∈ K -> b ∈ K -> a <> b -> adjacent g a b.

(** [K] is a set of nodes of the component [c], a clique, and no node of
    the component outside of it is adjacent to all its members. *)
Definition maximal_clique (g : Graph) (c : cptr) (K : list nptr) : Prop :=
  NoDup K /\
  (forall a, a ∈ K -> a ∈ nodes (comp_at g c)) /\
  is_clique g K /\
  (forall u, u ∈ nodes (comp_at g c) -> u ∉ K -> ~ (forall a, a ∈ K -> adjacent g a u)).

(** The step [m] of the clique search returns from the state [s], with
    [Q] of its result and of the state it leaves. *)
Definition total {A} (m : M cstate A) (s : cstate) (Q : A -> cstate -> Prop) : Prop :=
  exists a s', m s = Ret a s' /\ Q a s'.

(** Neither the prefix R nor the cliques reported have changed. *)
Definition quiet (s s' : cstate) : Prop :=
  ctx_R s' = ctx_R s /\ calls s' = calls s.

(** A node set as [BronKerbosch] keeps them: flagged as sorted, strictly
    increasing, of nodes of the obstack. *)
Definition wf_set (N : nat) (ns : NodeSet) : Prop :=
  sorted ns = true /\ StronglySorted lt (ns_nodes ns) /\
  forall x, x ∈ ns_nodes ns -> (x < N)%nat.

(** The place [nodeset_insert_sorted] finds for a node that is not a member:
    the nodes before it are smaller, the nodes from it on greater. *)
Definition insertion_point (l : list nat) (node : nat) (p : Z) : Prop :=
  0 <= p <= Z.of_nat (length l) /\
  (forall i, Z.of_nat i < p -> (l !!! i < node)%nat) /\
  (forall i, p <= Z.of_nat i -> (i < length l)%nat -> (node < l !!! i)%nat).


(** [u] is a node of the component, with node list [V], that every member
    of [R] has an edge to. *)
Definition common (g : Graph) (V R : list nptr) (u : nptr) : Prop :=
  u ∈ V /\ forall r, r ∈ R -> adjacent g r u.

(** What holds of R, P and X at every call of [BronKerbosch]: R is a
    clique, P and X are sorted and disjoint, and together they hold the
    nodes adjacent to all of R. *)
Record bk_inv (g : Graph) (V : list nptr) (N : nat) (R : list nptr)
    (P X : NodeSet) : Prop := mkBkInv {
  inv_R_nodup : NoDup R;
  inv_R_in : forall r, r ∈ R -> r ∈ V;
  inv_clique : is_clique g R;
  inv_P : wf_set N P;
  inv_X : wf_set N X;
  inv_cover : forall u, (u ∈ ns_nodes P \/ u ∈ ns_nodes X) <-> common g V R u;
  inv_disj : forall u, u ∈ ns_nodes P -> u ∉ ns_nodes X
}.

(** Between [s] and [s'] the callback has been handed maximal cliques of
    the component only. *)
Definition good_report (g : Graph) (c : cptr) (s s' : cstate) : Prop :=
  exists new, calls s' = calls s ++ new /\ Forall (maximal_clique g c) new.

(** What a call of [BronKerbosch] leaves: good reports and, when it
    returns 0, the prefix R as it found it. *)
Definition bk_post (g : Graph) (c : cptr) (s : cstate) (rx : Z * NodeSet)
    (s' : cstate) : Prop :=
  good_report g c s s' /\
  (fst rx = 0 -> ns_nodes (ctx_R s') = ns_nodes (ctx_R s) /\
                 len (ctx_R s') <= cap (ctx_R s')).

(** [rec] behaves as [BronKerbosch] on candidate sets of fewer than
    [bound] nodes. *)
Definition rec_ok (g : Graph) (c : cptr) (bound : nat)
    (rec : NodeSet -> NodeSet -> M cstate (Z * NodeSet)) : Prop :=
  forall P X s,
    bk_inv g (nodes (comp_at g c)) (length (node_os g)) (ns_nodes (ctx_R s)) P X ->
    len (ctx_R s) <= cap (ctx_R s) ->
    (length (ns_nodes P) < bound)%nat ->
    total (rec P X) s (bk_post g c s).

(** The step [m] hands nothing to the callback. *)
Definition silent {A} (m : M cstate A) : Prop :=
  forall s a s', m s = Ret a s' -> calls s' = calls s.

(** A call of the library that adds to the graph. *)
Inductive op : Type :=
  | AddNode (s : string)
  | AddEdge (s1 s2 : string).

(** The calls of [ops] in turn, whatever they return. *)
Fixpoint run_ops (h : string -> Z -> Z -> Z) (ops : list op) : M world unit :=
  match ops with
  | [] => ret tt
  | AddNode s :: ops => graph_add_node h s ;;; run_ops h ops
  | AddEdge s1 s2 :: ops => graph_add_edge h s1 s2 ;;; run_ops h ops
  end.

(** The graph of the edges a-b and b-c and of the node d, with no-loop,
    no-parallel and dual set. *)
Definition sample_graph : world :=
  match (graph_init 14 ;;;
         run_ops sample_hash [AddEdge "a" "b"; AddEdge "b" "c"; AddNode "d"]) (world0 []) with
  | Ret _ w => w
  | Fatal _ => world0 []
  end.

(** The clique search before its first step: R is set by
    [component_iterate_maximal_cliques], nothing has been reported, and
    every allocation will succeed. *)
Definition cstate0 : cstate := mkCstate (mkNodeSet [] 0 true) [] 0 [] [] 0.

(** * The iterators of graph.c *)

(** The loop the five iterators share: for each element of the queue
    [r = body(x); if (r) return r;], and [return 0] after the last. *)
Fixpoint foreach {S B} (body : B -> M S Z) (l : list B) : M S Z :=
  match l with
  | [] => ret 0
  | x :: l => r <- body x ;; if negb (r =? 0) then ret r else foreach body l
  end.

(** A callback with its [ctx]: what it returns may depend on the calls it
    has received, so the state of an iteration is the list of the
    arguments handed to the callback so far. *)
Definition call_cb {A} (cb : list A -> A -> Z) (x : A) : M (list A) Z :=
  fun seen => Ret (cb seen x) (seen ++ [x]).

Definition graph_iterate_components (g : Graph) (callback : list cptr -> cptr -> Z)
    : M (list cptr) Z :=
  foreach (call_cb callback) (components g).

Definition component_iterate_nodes (g : Graph) (c : cptr) (cb : list nptr -> nptr -> Z)
    : M (list nptr) Z :=
  foreach (call_cb cb) (nodes (comp_at g c)).

(** The edges are handed over as the pair of source and target. The
    [return r] inside the inner loop leaves the outer loop as well. *)
Definition component_iterate_edges (g : Graph) (c : cptr)
    (cb : list (nptr * nptr) -> nptr * nptr -> Z) : M (list (nptr * nptr)) Z :=
  foreach (fun src => foreach (fun tgt => call_cb cb (src, tgt))
                              (out_edges (node_at g src)))
          (nodes (comp_at g c)).

Definition graph_iterate_nodes (g : Graph) (cb : list nptr -> nptr -> Z)
    : M (list nptr) Z :=
  foreach (fun c => component_iterate_nodes g c cb) (components g).

Definition graph_iterate_edges (g : Graph) (cb : list (nptr * nptr) -> nptr * nptr -> Z)
    : M (list (nptr * nptr)) Z :=
  foreach (fun c => component_iterate_edges g c cb) (components g).

(** The nodes in the order of the iteration: component after component,
    each in the order of its node queue. *)
Definition node_order (g : Graph) : list nptr :=
  components g ≫= (fun c => nodes (comp_at g c)).

(** The edges leaving [n], first the one linked last. *)
Definition edges_from (g : Graph) (n : nptr) : list (nptr * nptr) :=
  pair n <$> out_edges (node_at g n).

Definition edge_order (g : Graph) : list (nptr * nptr) :=
  node_order g ≫= edges_from g.

(** The iteration over [l] has called the callback on [visited], after
    the calls [seen], and returned [r]: [visited] is the start of [l], all
    of it when [r] is 0; every answer but the last was 0, and the last
    answer is [r]. *)
Definition relayed {A} (cb : list A -> A -> Z) (seen l visited : list A) (r : Z) : Prop :=
  visited `prefix_of` l /\
  (forall pre x post, visited = pre ++ x :: post -> post <> [] -> cb (seen ++ pre) x = 0) /\
  (r = 0 -> visited = l /\
            forall pre x post, visited = pre ++ x :: post -> cb (seen ++ pre) x = 0) /\
  (r <> 0 -> exists pre x, visited = pre ++ [x] /\ cb (seen ++ pre) x = r).

(** * graph_add_file *)

(** The delimiters of the two [strtok_r] calls: space, tab and newline. *)
Definition is_delim (c : Ascii.ascii) : bool :=
  Ascii.eqb c (Ascii.ascii_of_nat 32) || Ascii.eqb c (Ascii.ascii_of_nat 9)
  || Ascii.eqb c (Ascii.ascii_of_nat 10).

(** The buffer of [getline] as the C string [strtok_r] reads: up to the
    first NUL. *)
Fixpoint c_str (s : string) : string :=
  match s with
  | EmptyString => EmptyString
  | String c s' => if Ascii.eqb c Ascii.zero then EmptyString else String c (c_str s')
  end.

(** [s += strspn(s, delim)] *)
Fixpoint skip_delims (s : string) : string :=
  match s with
  | EmptyString => EmptyString
  | String c s' => if is_delim c then skip_delims s' else s
  end.

(** The token that starts at [s], of [strcspn(s, delim)] characters, and
    what follows the delimiter that ends it (nothing at the end of the
    string). *)
Fixpoint split_token (s : string) : string * string :=
  match s with
  | EmptyString => (EmptyString, EmptyString)
  | String c s' =>
      if is_delim c then (EmptyString, s')
      else let '(t, rest) := split_token s' in (String c t, rest)
  end.

(** [strtok_r(s, " \t\n", &save)]: the token and the new [save], or NULL. *)
Definition strtok_r (s : string) : option (string * string) :=
  match skip_delims s with
  | EmptyString => None
  | s' => Some (split_token s')
  end.

(** The stream as the loop sees it: the lines [getline] yields before it
    returns -1, and whether [ferror] holds after the loop. *)
Record FILE : Type := mkFILE {
  f_lines : list string;
  f_error : bool
}.

Section File.

Variable jenkins_hash : string -> Z -> Z -> Z.

(** The [while] loop of [graph_add_file] and the value of [rv] after it. *)
Fixpoint add_lines (lines : list string) : M world Z :=
  match lines with
  | [] => ret 0
  | line :: lines =>
      if negb (0 <? Z.of_nat (String.length line)) then ret 0
      else
        match strtok_r (c_str line) with
        | None => add_lines lines   (* blank line *)
        | Some (nstr1, save) =>
            match strtok_r save with
            | None =>
                r <- graph_add_node jenkins_hash nstr1 ;;
                if r <? 0 then ret (-1) else add_lines lines
            | Some (nstr2, _) =>
                r <- graph_add_edge jenkins_hash nstr1 nstr2 ;;
                if r <? 0 then ret (-1) else add_lines lines
            end
        end
  end.

Definition graph_add_file (fp : FILE) : M world Z :=
  rv <- add_lines (f_lines fp) ;;
  ret (if f_error fp then -1 else rv).

End File.

(** What a line asks for: nothing, a node or an edge. *)
Definition line_op (line : string) : option op :=
  match strtok_r (c_str line) with
  | None => None
  | Some (nstr1, save) =>
      match strtok_r save with
      | None => Some (AddNode nstr1)
      | Some (nstr2, _) => Some (AddEdge nstr1 nstr2)
      end
  end.

(** The lines the loop reads: [getline] has to return a positive length. *)
Fixpoint lines_read (lines : list string) : list string :=
  match lines with
  | [] => []
  | line :: lines =>
      if negb (0 <? Z.of_nat (String.length line)) then [] else line :: lines_read lines
  end.

Definition file_ops (fp : FILE) : list op := omap line_op (lines_read (f_lines fp)).

(** All characters of [s] are delimiters. *)
Definition blank (s : string) : Prop :=
  forall c, c ∈ String.list_ascii_of_string s -> is_delim c = true.

(** No character of [s] is a delimiter, and there is one at least. *)
Definition token (s : string) : Prop :=
  s <> EmptyString /\
  forall c, c ∈ String.list_ascii_of_string s -> is_delim c = false.

(** A line of text as [getline] returns it, with its newline. *)
Definition text_line (s : string) : string :=
  String.append s (String (Ascii.ascii_of_nat 10) EmptyString).

(** A file of four lines: an edge, a blank line, a node, and an edge
    followed by a third word. *)
Definition sample_file : FILE :=
  mkFILE [text_line "a e"; text_line " "; text_line "f"; text_line "f g h"] false.

(** * graph_iterate_maximal_cliques *)

Definition set_c_errno (e : Z) : M cstate unit :=
  fun s => Ret tt (mkCstate (ctx_R s) (pool_sets s) (pool_count s) (calls s) (mem s) e).

Definition graph_iterate_maximal_cliques
    (user_cb : list (list nptr) -> list nptr -> Z) (gra : Graph) : M cstate Z :=
  let required_flags := Z.lor (Z.lor GRAPH_NOPARALLEL GRAPH_NOLOOP) GRAPH_DUAL in
  if negb (Z.land (flags gra) required_flags =? required_flags) then
    set_c_errno EINVAL ;;;
    ret (-1)
  else
    foreach (component_iterate_maximal_cliques user_cb gra) (components gra).

(** Between [s] and [s'] the callback has answered every call with 0,
    but for the last one at most, and [r] is the answer of a call it has
    not answered with 0. *)
Definition relay (cb : list (list nptr) -> list nptr -> Z)
    (s : cstate) (r : Z) (s' : cstate) : Prop :=
  exists new, calls s' = calls s ++ new /\
    forall pre K post, new = pre ++ K :: post -> cb (calls s ++ pre) K <> 0 ->
      post = [] /\ r = cb (calls s ++ pre) K.

(** The step [m] hands the answer of the callback on: [val] reads the
    result of the step as the [int] it returns. *)
Definition relays {A} (cb : list (list nptr) -> list nptr -> Z)
    (val : A -> Z) (m : M cstate A) : Prop :=
  forall s a s', m s = Ret a s' -> relay cb s (val a) s'.

(** ** Allocation in the clique search *)

(** Between [s] and [s'] the allocator has given the answers [used]. When
    one of them is a refusal, [r] is -1 and [errno] is [ENOMEM]; when none
    is, [errno] is what it was. *)
Definition alloc_run (s : cstate) (r : Z) (s' : cstate) : Prop :=
  exists used, mem s = used ++ mem s' /\
    (false ∈ used -> r = -1 /\ c_errno s' = ENOMEM) /\
    (false ∉ used -> c_errno s' = c_errno s).

(** The step [m] reports a refused allocation: [val] reads its result as
    the [int] it returns. *)
Definition allocs {A} (val : A -> Z) (m : M cstate A) : Prop :=
  forall s a s', m s = Ret a s' -> alloc_run s (val a) s'.

(** The step [m] does not allocate. *)
Definition noalloc {A} (m : M cstate A) : Prop :=
  forall s a s', m s = Ret a s' -> mem s' = mem s /\ c_errno s' = c_errno s.

(** A pointer as the [int] a function returns for it: -1 for null. *)
Definition oval {A} (o : option A) : Z :=
  match o with Some _ => 0 | None => -1 end.

(** The search of the component of a, b and c in the sample graph under
    a callback that answers 7. *)
Definition stopped_search : cstate :=
  match component_iterate_maximal_cliques (fun _ _ => 7) (gph sample_graph) 0 cstate0 with
  | Ret _ s => s
  | Fatal _ => cstate0
  end.

(** Between [s] and [s'] the callback has been handed the nodes of [K],
    in some order. *)
Definition reported (s s' : cstate) (K : list nptr) : Prop :=
  exists new K', calls s' = calls s ++ new /\ K' ∈ new /\ K' ≡ₚ K.

(** [K] is a maximal clique of the component that holds the nodes of [R]
    and, besides them, nodes of [P] only. *)
Definition extends (g : Graph) (c : cptr) (R P K : list nptr) : Prop :=
  maximal_clique g c K /\ (forall x, x ∈ R -> x ∈ K) /\
  (forall x, x ∈ K -> x ∈ R \/ x ∈ P).

(** What a call of [BronKerbosch] on P leaves: what [bk_post] says and,
    when it returns 0, a report of every maximal clique that extends the
    prefix R by nodes of P. *)
Definition bk_post2 (g : Graph) (c : cptr) (P : NodeSet) (s : cstate)
    (rx : Z * NodeSet) (s' : cstate) : Prop :=
  bk_post g c s rx s' /\
  (fst rx = 0 ->
   forall K, extends g c (ns_nodes (ctx_R s)) (ns_nodes P) K -> reported s s' K).

Definition rec_ok2 (g : Graph) (c : cptr) (bound : nat)
    (rec : NodeSet -> NodeSet -> M cstate (Z * NodeSet)) : Prop :=
  forall P X s,
    bk_inv g (nodes (comp_at g c)) (length (node_os g)) (ns_nodes (ctx_R s)) P X ->
    len (ctx_R s) <= cap (ctx_R s) ->
    (length (ns_nodes P) < bound)%nat ->
    total (rec P X) s (bk_post2 g c P s).

(** ** The clique search when it returns *)

(** When the step [m] returns from the state [s], [Q] holds of its
    result and of the state it leaves. *)
Definition partial {A} (m : M cstate A) (s : cstate) (Q : A -> cstate -> Prop) : Prop :=
  forall a s', m s = Ret a s' -> Q a s'.

(** The step [m] leaves the prefix R alone. *)
Definition steady {A} (m : M cstate A) : Prop :=
  forall s a s', m s = Ret a s' -> ctx_R s' = ctx_R s.

(** What a call of [BronKerbosch] that returns leaves: good reports and,
    when it returns 0, the nodes of the prefix R as it found them. *)
Definition bk_sound (g : Graph) (c : cptr) (s : cstate) (rx : Z * NodeSet)
    (s' : cstate) : Prop :=
  good_report g c s s' /\ (fst rx = 0 -> ns_nodes (ctx_R s') = ns_nodes (ctx_R s)).

Definition rec_sound (g : Graph) (c : cptr)
    (rec : NodeSet -> NodeSet -> M cstate (Z * NodeSet)) : Prop :=
  forall P X s,
    bk_inv g (nodes (comp_at g c)) (length (node_os g)) (ns_nodes (ctx_R s)) P X ->
    partial (rec P X) s (bk_sound g c s).

(** What a call of [BronKerbosch] on P and X has handed to the callback
    between [s] and [s']: with P empty, the prefix R when X is empty as
    well and nothing otherwise; with nodes in P, only arrays that start
    with R and go on with a node of P. A call that returns 0 leaves the
    nodes of R as it found them. *)
Definition bk_reports (P X : NodeSet) (s : cstate) (rx : Z * NodeSet)
    (s' : cstate) : Prop :=
  exists new, calls s' = calls s ++ new /\
    (len P = 0 -> new = if len X =? 0 then [ns_nodes (ctx_R s)] else []) /\
    (len P <> 0 -> forall K, K ∈ new ->
       exists v rest, v ∈ ns_nodes P /\ K = ns_nodes (ctx_R s) ++ v :: rest) /\
    (fst rx = 0 -> ns_nodes (ctx_R s') = ns_nodes (ctx_R s)).

Definition rec_reports (rec : NodeSet -> NodeSet -> M cstate (Z * NodeSet)) : Prop :=
  forall P X s, partial (rec P X) s (bk_reports P X s).

(** * Reasoning about runs *)

Lemma bind_Ret {S A B} (m : M S A) (k : A -> M S B) s b s' :
  bind m k s = Ret b s' <-> exists a s1, m s = Ret a s1 /\ k a s1 = Ret b s'.
Proof.
  unfold bind. destruct (m s) as [a s1|f]; split.
  - intros H. exists a, s1. auto.
  - intros (a' & s1' & [= -> ->] & H). exact H.
  - discriminate.
  - intros (a' & s1' & [=] & _).
Qed.

Lemma bind_Fatal {S A B} (m : M S A) (k : A -> M S B) s f :
  bind m k s = Fatal f <->
  m s = Fatal f \/ exists a s1, m s = Ret a s1 /\ k a s1 = Fatal f.
Proof.
  unfold bind. destruct (m s) as [a s1|f']; split.
  - intros H. right. exists a, s1. auto.
  - intros [[=]|(a' & s1' & [= -> ->] & H)]. exact H.
  - intros [= ->]. by left.
  - intros [[= ->]|(a' & s1' & [=] & _)]. done.
Qed.

Lemma ret_Ret {S A} (a b : A) (s s' : S) : ret a s = Ret b s' <-> a = b /\ s = s'.
Proof. unfold ret. split; [intros [= -> ->]|intros [-> ->]]; done. Qed.

Lemma assert_Ret {S} (b : bool) (s s' : S) u : assert b s = Ret u s' <-> b = true /\ s = s'.
Proof.
  unfold assert, ret, die. destruct b; split; try discriminate.
  - intros [= <-]. done.
  - intros [_ ->]. by destruct u.
  - intros [[=] _].
Qed.

Lemma get_graph_Ret g w w' : get_graph w = Ret g w' <-> g = gph w /\ w' = w.
Proof. unfold get_graph. split; [intros [= <- <-]|intros [-> ->]]; done. Qed.

Lemma map_graph_Ret f w u w' :
  map_graph f w = Ret u w' <->
  w' = mkWorld (f (gph w)) (errno w) (oracle w) (node_chunk w) (edge_chunk w).
Proof. unfold map_graph. destruct u. split; [intros [= <-]|intros ->]; done. Qed.

Lemma malloc_Ret w b w' :
  malloc w = Ret b w' ->
  gph w' = gph w /\ errno w' = (if b then errno w else ENOMEM) /\
  (oracle w = [] /\ b = true /\ oracle w' = [] \/ oracle w = b :: oracle w').
Proof.
  unfold malloc. destruct (oracle w) as [|[] o] eqn:E; intros [= <- <-]; simpl.
  - split; [done|]. split; [done|]. left. by rewrite E.
  - split; [done|]. split; [done|]. by right.
  - split; [done|]. split; [done|]. by right.
Qed.

Lemma malloc_chunks w b w' :
  malloc w = Ret b w' -> node_chunk w' = node_chunk w /\ edge_chunk w' = edge_chunk w.
Proof. unfold malloc. by destruct (oracle w) as [|[] o]; intros [= <- <-]. Qed.


Lemma osuf_refl w : osuf w w.
Proof. split; [by left|done]. Qed.

Lemma osuf_false w w' : osuf w w' -> false ∈ oracle w' -> false ∈ oracle w.
Proof. intros [_ [k ->]] H. apply elem_of_app. by right. Qed.

Lemma osuf_trans w1 w2 w3 : osuf w1 w2 -> osuf w2 w3 -> osuf w1 w3.
Proof.
  intros [E1 S1] [E2 S2]. split; [|by etrans].
  destruct E2 as [E2|[E2 Hf]].
  - rewrite E2. exact E1.
  - right. split; [done|]. by apply (osuf_false w1 w2).
Qed.

Lemma osuf_map_graph f w :
  osuf w (mkWorld (f (gph w)) (errno w) (oracle w) (node_chunk w) (edge_chunk w)).
Proof. split; [by left|done]. Qed.

(** A step that keeps [errno] and the oracle. *)
Lemma osuf_same w w' : errno w' = errno w -> oracle w' = oracle w -> osuf w w'.
Proof. intros E1 E2. split; [by left|by rewrite E2]. Qed.

Lemma osuf_plentiful_errno w w' : osuf w w' -> false ∉ oracle w -> errno w' = errno w.
Proof. intros [[?|[_ ?]] _] Hp; done. Qed.

Lemma malloc_osuf w b w' :
  malloc w = Ret b w' ->
  gph w' = gph w /\ osuf w w' /\ (b = false -> false ∈ oracle w).
Proof.
  intros (Hg & He & Ho)%malloc_Ret. split; [done|]. split.
  - split.
    + destruct b; [by left|]. right. split; [done|].
      destruct Ho as [(_ & [=] & _) | E1]. rewrite E1. left.
    + destruct Ho as [(E1 & _ & E2) | E1]; rewrite E1; [by rewrite E2|].
      by apply suffix_cons_r.
  - intros ->. destruct Ho as [(_ & [=] & _) | E1]. rewrite E1. left.
Qed.

Lemma xmalloc_Ret w u w' :
  xmalloc w = Ret u w' -> gph w' = gph w /\ osuf w w'.
Proof.
  unfold xmalloc. intros H. apply bind_Ret in H as (b & w1 & Hm & H).
  apply malloc_osuf in Hm as (? & ? & _). destruct b; [|discriminate H].
  apply ret_Ret in H as [_ <-]. done.
Qed.

Lemma obstack_begin_Ret w h w' :
  obstack_begin w = Ret h w' -> gph w' = gph w /\ osuf w w'.
Proof.
  unfold obstack_begin. intros H. apply bind_Ret in H as (u & w1 & Hm & H).
  apply ret_Ret in H as [_ <-]. by apply xmalloc_Ret in Hm.
Qed.

Lemma obstack_alloc_Ret len h w h' w' :
  obstack_alloc len h w = Ret h' w' -> gph w' = gph w /\ osuf w w'.
Proof.
  unfold obstack_alloc. intros H. apply bind_Ret in H as (room & w1 & Hm & H).
  apply ret_Ret in H as [_ <-]. destruct (os_room h <? len).
  - apply bind_Ret in Hm as (u & w2 & Hm & H). apply ret_Ret in H as [_ <-].
    by apply xmalloc_Ret in Hm.
  - apply ret_Ret in Hm as [_ <-]. split; [done|apply osuf_refl].
Qed.

Lemma node_os_alloc_Ret len w b w' :
  node_os_alloc len w = Ret b w' -> b = true /\ gph w' = gph w /\ osuf w w'.
Proof.
  intros H. unfold node_os_alloc, bind, get, set_node_chunk, ret in H.
  destruct (obstack_alloc len (node_chunk w) w) as [h w2|] eqn:Hm; [|done].
  injection H as <- <-. apply obstack_alloc_Ret in Hm as [Hg Hs].
  split; [done|]. split; [done|]. destruct Hs as [He Ho]. by split.
Qed.

Lemma edge_os_alloc_Ret len w b w' :
  edge_os_alloc len w = Ret b w' -> b = true /\ gph w' = gph w /\ osuf w w'.
Proof.
  intros H. unfold edge_os_alloc, bind, get, set_edge_chunk, ret in H.
  destruct (obstack_alloc len (edge_chunk w) w) as [h w2|] eqn:Hm; [|done].
  injection H as <- <-. apply obstack_alloc_Ret in Hm as [Hg Hs].
  split; [done|]. split; [done|]. destruct Hs as [He Ho]. by split.
Qed.

(** Decompose a hypothesis [m w = Ret a w'] along the binds of [m]. *)
Ltac minv H :=
  lazymatch type of H with
  | bind _ _ _ = Ret _ _ =>
      let a := fresh "a" in
      let s := fresh "w" in
      let H1 := fresh "Hm" in
      let H2 := fresh "Hm" in
      apply bind_Ret in H as (a & s & H1 & H2); minv H1; minv H2
  | ret _ _ = Ret _ _ => apply ret_Ret in H as [? ?]; simplify_eq/=
  | assert _ _ = Ret _ _ => apply assert_Ret in H as [H ?]; simplify_eq/=
  | get_graph _ = Ret _ _ => apply get_graph_Ret in H as [? ?]; simplify_eq/=
  | map_graph _ _ = Ret _ _ => apply map_graph_Ret in H; simplify_eq/=
  | die _ _ = Ret _ _ => discriminate H
  | Fatal _ = Ret _ _ => discriminate H
  | _ => idtac
  end.

(** * Stores *)

Lemma alive_lookup g c : alive g c <-> exists k, comp_store g !! c = Some (Some k).
Proof.
  unfold alive. destruct (comp_store g !! c) as [[k|]|]; simpl; split;
    try (intros [k' [=]]); eauto.
Qed.

Lemma node_at_upd_node g n f m :
  node_at (upd_node n f g) m =
  if decide (n = m /\ (n < length (node_os g))%nat) then f (node_at g n) else node_at g m.
Proof. unfold node_at, upd_node; simpl. apply list_lookup_total_alter. Qed.

Lemma upd_node_keeps {A} (proj : Node -> A) g n f m :
  (forall x, proj (f x) = proj x) ->
  proj (node_at (upd_node n f g) m) = proj (node_at g m).
Proof.
  intros Hf. rewrite node_at_upd_node. case_decide as H; [|done].
  destruct H as [-> _]. apply Hf.
Qed.

Lemma node_at_upd_comp g c f m : node_at (upd_comp c f g) m = node_at g m.
Proof. done. Qed.

Lemma comp_at_upd_node g n f c : comp_at (upd_node n f g) c = comp_at g c.
Proof. done. Qed.

Lemma comp_at_upd_comp g c f d :
  comp_at (upd_comp c f g) d =
  if decide (c = d /\ alive g c) then f (comp_at g c) else comp_at g d.
Proof.
  unfold comp_at, upd_comp; simpl. rewrite list_lookup_alter.
  destruct (decide (c = d)) as [->|Hne].
  - destruct (comp_store g !! d) as [[k|]|] eqn:E; simpl.
    + rewrite decide_True; [done|]. split; [done|]. apply alive_lookup. exists k. exact E.
    + rewrite decide_False; [done|]. rewrite alive_lookup. intros [_ [k ?]]. congruence.
    + rewrite decide_False; [done|]. rewrite alive_lookup. intros [_ [k ?]]. congruence.
  - rewrite decide_False by (intros [? _]; done). done.
Qed.

Lemma alive_upd_comp g c f d : alive (upd_comp c f g) d <-> alive g d.
Proof.
  rewrite !alive_lookup. unfold upd_comp; simpl. rewrite list_lookup_alter.
  destruct (decide (c = d)) as [->|Hne]; [|done].
  destruct (comp_store g !! d) as [[k|]|]; simpl; split; intros [k' [=]]; eauto.
Qed.

Lemma node_valid g n : comp (node_at g n) <> None -> (n < length (node_os g))%nat.
Proof.
  intros H. destruct (decide (n < length (node_os g))%nat) as [|Hge]; [done|].
  exfalso. apply H. unfold node_at. rewrite list_lookup_total_alt.
  rewrite lookup_ge_None_2 by lia. done.
Qed.

Lemma node_edges_valid g n m :
  m ∈ out_edges (node_at g n) -> (n < length (node_os g))%nat.
Proof.
  intros H. destruct (decide (n < length (node_os g))%nat) as [|Hge]; [done|].
  exfalso. unfold node_at in H. rewrite list_lookup_total_alt in H.
  rewrite lookup_ge_None_2 in H by lia. simpl in H. by apply not_elem_of_nil in H.
Qed.

Lemma comp_nodes_alive g c n : n ∈ nodes (comp_at g c) -> alive g c.
Proof.
  rewrite alive_lookup. unfold comp_at.
  destruct (comp_store g !! c) as [[k|]|]; simpl; eauto;
    intros H; by apply not_elem_of_nil in H.
Qed.

(** * Preservation of the pointer structure *)

Lemma wrap32_succ z : wrap32 (wrap32 z + 1) = wrap32 (z + 1).
Proof. unfold wrap32. by rewrite Z.add_mod_idemp_l. Qed.

Lemma alive_upd_node g n f c : alive (upd_node n f g) c <-> alive g c.
Proof. done. Qed.

Section component_add_node.
Variables (g : Graph) (c : cptr) (n : nptr).
Hypothesis Hok : struct_ok g.
Hypothesis Hc : c ∈ components g.
Hypothesis Hn : (n < length (node_os g))%nat.
Hypothesis Hfree : comp (node_at g n) = None.

Let g' := component_add_node c n g.

Lemma can_node m :
  node_at g' m = if decide (m = n) then set_comp (Some c) (node_at g n) else node_at g m.
Proof.
  unfold g', component_add_node. rewrite node_at_upd_node; simpl.
  destruct (decide (m = n)) as [->|Hm].
  - by rewrite decide_True.
  - rewrite decide_False; [done|]. intros [-> _]. done.
Qed.

Lemma can_comp d :
  comp_at g' d =
  if decide (d = c)
  then mkComponent (nodes (comp_at g c) ++ [n]) (wrap32 (node_count (comp_at g c) + 1))
                   (edge_count (comp_at g c))
  else comp_at g d.
Proof.
  unfold g', component_add_node. rewrite comp_at_upd_node, comp_at_upd_comp.
  pose proof (proj2 (ok_comps_alive g Hok c) Hc).
  destruct (decide (d = c)) as [->|Hd].
  - by rewrite decide_True.
  - rewrite decide_False; [done|]. intros [-> _]. done.
Qed.

Lemma can_components : components g' = components g.
Proof. done. Qed.

Lemma can_alive d : alive g' d <-> alive g d.
Proof. unfold g', component_add_node. by rewrite alive_upd_node, alive_upd_comp. Qed.

Lemma component_add_node_ok : struct_ok g'.
Proof.
  destruct Hok as [H1 H2 H3 H4 H5 H6 H7].
  split.
  - by rewrite can_components.
  - intros d. by rewrite can_alive, can_components.
  - intros d m. rewrite can_comp, can_node.
    repeat case_decide; subst; simpl; try done.
    + rewrite elem_of_app, list_elem_of_singleton. intros [Hm | ?]; [|done].
      apply H3 in Hm. done.
    + intros Hm. apply H3 in Hm. congruence.
    + intros Hm. by apply H3.
  - intros m d. rewrite can_node, can_comp, can_components.
    repeat case_decide; subst; simpl; try done.
    + intros _. split; [done|]. apply elem_of_app. right. by apply list_elem_of_singleton.
    + intros [= ->]. done.
    + intros Hm. apply H4 in Hm as [? ?]. split; [done|]. apply elem_of_app. by left.
    + intros Hm. by apply H4 in Hm.
  - intros d. rewrite can_comp. case_decide; subst; simpl; [|done].
    apply NoDup_app. split; [done|]. split; [|apply NoDup_singleton].
    intros x Hx ->%list_elem_of_singleton. apply H3 in Hx. congruence.
  - intros d. rewrite can_comp. case_decide; subst; simpl; [|done].
    rewrite H6, wrap32_succ, length_app. simpl. f_equal. lia.
  - intros m m'. rewrite !can_node.
    destruct (decide (m = n)) as [->|Hm]; simpl.
    + intros Hm'. apply H7 in Hm' as [? ?]. done.
    + intros Hm'. apply H7 in Hm' as [? E]. split; [done|].
      case_decide; subst; [|done]. congruence.
Qed.
End component_add_node.

Lemma struct_ok_same g g' :
  components g' = components g -> comp_store g' = comp_store g ->
  node_os g' = node_os g -> struct_ok g -> struct_ok g'.
Proof.
  intros E1 E2 E3 [H1 H2 H3 H4 H5 H6 H7].
  split; unfold alive, node_at, comp_at in *; rewrite ?E1, ?E2, ?E3; done.
Qed.

Lemma index_ok_same g g' :
  g_nodes g' = g_nodes g -> length (node_os g') = length (node_os g) ->
  index_ok g -> index_ok g'.
Proof. intros E1 E2 [H1 H2]. split; rewrite ?E1, ?E2; done. Qed.

Lemma edges_ok_same g g' :
  flags g' = flags g -> (forall m, out_edges (node_at g' m) = out_edges (node_at g m)) ->
  edges_ok g -> edges_ok g'.
Proof.
  intros E1 E2 [H1 H2 H3]. unfold has_flag in *. rewrite <- E1 in H1, H2, H3.
  split; intros Hf.
  - intros n. rewrite E2. by apply H1.
  - intros n m. rewrite !E2. by apply H2.
  - intros n. rewrite E2. by apply H3.
Qed.

(** ** A new, empty component *)


Lemma graph_new_component_Ret w oc w' :
  graph_new_component w = Ret oc w' ->
  osuf w w' /\
  ((oc = None /\ gph w' = gph w /\ false ∈ oracle w) \/
   (oc = Some (length (comp_store (gph w))) /\ gph w' = with_component (gph w))).
Proof.
  unfold graph_new_component. intros H.
  apply bind_Ret in H as (ok & w1 & Hm & H).
  apply malloc_osuf in Hm as (Hg & Hs & Hf).
  destruct ok; simpl in H.
  - apply bind_Ret in H as (g & w2 & Hm & H). apply get_graph_Ret in Hm as [-> ->].
    apply bind_Ret in H as (? & w2 & Hm & H). apply map_graph_Ret in Hm.
    apply ret_Ret in H as [<- <-]. subst w2. split; [done|].
    right. simpl. rewrite Hg. done.
  - apply ret_Ret in H as [<- <-]. split; [done|]. left. auto.
Qed.

Lemma alive_lt g c : alive g c -> (c < length (comp_store g))%nat.
Proof. rewrite alive_lookup. intros [k Hk]. by apply lookup_lt_Some in Hk. Qed.

Section with_component.
Variable g : Graph.
Hypothesis Hok : struct_ok g.
Let c := length (comp_store g).
Let g' := with_component g.

Lemma wc_fresh : c ∉ components g.
Proof.
  intros Hc. apply (ok_comps_alive g Hok) in Hc. apply alive_lt in Hc.
  unfold c in Hc. lia.
Qed.

Lemma wc_alive d : alive g' d <-> alive g d \/ d = c.
Proof.
  rewrite !alive_lookup. unfold g', with_component; simpl.
  destruct (decide (d < c)%nat) as [Hlt|Hge].
  - rewrite lookup_app_l by done. split; [by left|].
    intros [? | ->]; [done|]. lia.
  - destruct (decide (d = c)) as [->|Hne].
    + rewrite list_lookup_middle by done. split; [by right|]. eauto.
    + rewrite lookup_ge_None_2 by (rewrite length_app; simpl; unfold c in *; lia).
      split; [intros [k [=]]|]. intros [[k Hk] | ?]; [|done].
      apply lookup_lt_Some in Hk. unfold c in *. lia.
Qed.

Lemma wc_comp d :
  comp_at g' d = if decide (d = c) then mkComponent [] 0 0 else comp_at g d.
Proof.
  unfold comp_at, g', with_component; simpl.
  destruct (decide (d = c)) as [->|Hne].
  - by rewrite list_lookup_middle.
  - destruct (decide (d < c)%nat) as [Hlt|Hge].
    + by rewrite lookup_app_l.
    + rewrite !lookup_ge_None_2; [done|unfold c in *; lia|].
      rewrite length_app; simpl; unfold c in *; lia.
Qed.

Lemma wc_node m : node_at g' m = node_at g m.
Proof. done. Qed.

Lemma with_component_ok : struct_ok g'.
Proof.
  pose proof wc_fresh as Hfresh.
  destruct Hok as [H1 H2 H3 H4 H5 H6 H7].
  split.
  - simpl. apply NoDup_app. split; [done|]. split; [|apply NoDup_singleton].
    intros x Hx ->%list_elem_of_singleton. done.
  - intros d. rewrite wc_alive. simpl. rewrite elem_of_app, list_elem_of_singleton.
    by rewrite H2.
  - intros d n. rewrite wc_comp, wc_node. case_decide; simpl; [|by apply H3].
    intros Hn. by apply not_elem_of_nil in Hn.
  - intros n d. rewrite wc_node, wc_comp. intros Hn. apply H4 in Hn as [Hd Hn].
    simpl. rewrite elem_of_app. split; [by left|].
    rewrite decide_False; [done|]. intros ->. done.
  - intros d. rewrite wc_comp. case_decide; simpl; [apply NoDup_nil_2|done].
  - intros d. rewrite wc_comp. case_decide; simpl; done.
  - intros n m. rewrite !wc_node. apply H7.
Qed.
End with_component.

(** ** Linking an edge *)


Lemma node_add_out_edge_Ret src tgt w u w' :
  node_add_out_edge src tgt w = Ret u w' ->
  exists c, comp (node_at (gph w) src) = Some c /\
            comp (node_at (gph w) tgt) = Some c /\
            w' = mkWorld (with_edge c src tgt (gph w)) (errno w) (oracle w)
                         (node_chunk w) (edge_chunk w).
Proof.
  unfold node_add_out_edge. intros H.
  apply bind_Ret in H as (g & w1 & Hm & H). minv Hm.
  apply bind_Ret in H as (? & w1 & Hm & H). minv Hm.
  apply bool_decide_eq_true in Hm.
  destruct (comp (node_at (gph w1) src)) as [c|] eqn:E; [|discriminate H].
  minv H. exists c. done.
Qed.

Section with_edge.
Variables (g : Graph) (c : cptr) (src tgt : nptr).
Hypothesis Hsrc : comp (node_at g src) = Some c.
Hypothesis Htgt : comp (node_at g tgt) = Some c.
Let g' := with_edge c src tgt g.

Lemma we_comp_of m : comp (node_at g' m) = comp (node_at g m).
Proof.
  unfold g', with_edge. rewrite node_at_upd_comp.
  by rewrite !(upd_node_keeps comp).
Qed.

Lemma we_edges m :
  out_edges (node_at g' m) =
  if decide (m = src) then tgt :: out_edges (node_at g src) else out_edges (node_at g m).
Proof.
  assert (src < length (node_os g))%nat by (apply node_valid; congruence).
  unfold g', with_edge. rewrite node_at_upd_comp.
  rewrite (upd_node_keeps out_edges) by done.
  rewrite node_at_upd_node.
  destruct (decide (m = src)) as [->|Hm].
  - by rewrite decide_True.
  - rewrite decide_False; [done|]. intros [-> _]. done.
Qed.

Lemma we_nodes d : nodes (comp_at g' d) = nodes (comp_at g d).
Proof.
  unfold g', with_edge. rewrite comp_at_upd_comp. case_decide; destruct_and?; subst; done.
Qed.

Lemma we_count d : node_count (comp_at g' d) = node_count (comp_at g d).
Proof.
  unfold g', with_edge. rewrite comp_at_upd_comp. case_decide; destruct_and?; subst; done.
Qed.

Lemma we_alive d : alive g' d <-> alive g d.
Proof. unfold g', with_edge. by rewrite alive_upd_comp. Qed.

Lemma with_edge_ok : struct_ok g -> struct_ok g'.
Proof.
  intros [H1 H2 H3 H4 H5 H6 H7]. split.
  - done.
  - intros d. rewrite we_alive. apply H2.
  - intros d n. rewrite we_nodes, we_comp_of. apply H3.
  - intros n d. rewrite we_nodes, we_comp_of. apply H4.
  - intros d. rewrite we_nodes. apply H5.
  - intros d. rewrite we_nodes, we_count. apply H6.
  - intros n m. rewrite !we_comp_of, we_edges. case_decide; subst; [|apply H7].
    intros [->|Hm]%elem_of_cons; [|by apply H7]. split; congruence.
Qed.
End with_edge.

(** ** Merging two components *)

Lemma foldl_upd_node g l f :
  foldl (fun g n => upd_node n f g) g l =
  set_node_os (fun os => foldl (fun os n => alter f n os) os l) g.
Proof.
  revert g. induction l as [|x l IH]; intros g; simpl.
  - by destruct g.
  - rewrite IH. by destruct g.
Qed.

Lemma foldl_upd_node_at g l f m :
  (forall x, f (f x) = f x) ->
  node_at (foldl (fun g n => upd_node n f g) g l) m =
  if decide (m ∈ l /\ (m < length (node_os g))%nat) then f (node_at g m) else node_at g m.
Proof.
  intros Hf. revert g. induction l as [|x l IH]; intros g; cbn [foldl].
  - rewrite decide_False; [done|]. intros [H _]. by apply not_elem_of_nil in H.
  - rewrite IH. rewrite node_at_upd_node.
    assert (length (node_os (upd_node x f g)) = length (node_os g)) as ->
      by (unfold upd_node; simpl; apply length_alter).
    destruct (decide (m < length (node_os g))%nat) as [Hlt|Hge].
    + destruct (decide (x = m)) as [->|Hx].
      * rewrite (decide_True (P := m = m /\ _)) by done.
        rewrite (decide_True (P := m ∈ m :: l /\ _)) by (split; [left|done]).
        destruct (decide _); [apply Hf|done].
      * rewrite (decide_False (P := x = m /\ _)) by (intros [? _]; done).
        destruct (decide (m ∈ l)) as [Hin|Hnin].
        -- rewrite !decide_True; [done| |done]. split; [by right|done].
        -- rewrite !decide_False; [done| |intros [? _]; done].
           intros [[?|?]%elem_of_cons _]; done.
    + rewrite (decide_False (P := m ∈ l /\ _)) by (intros [_ ?]; done).
      rewrite (decide_False (P := m ∈ x :: l /\ _)) by (intros [_ ?]; done).
      rewrite decide_False; [done|]. intros [-> ?]. done.
Qed.


Lemma graph_merge_components_Ret c1 c2 w r w' :
  graph_merge_components c1 c2 w = Ret r w' ->
  c1 <> c2 /\
  exists a b, (a = c1 /\ b = c2 \/ a = c2 /\ b = c1) /\ r = a /\
              w' = mkWorld (merged a b (gph w)) (errno w) (oracle w)
                           (node_chunk w) (edge_chunk w).
Proof.
  unfold graph_merge_components. intros H.
  apply bind_Ret in H as (? & w1 & Hm & H). minv Hm.
  apply negb_true_iff, Nat.eqb_neq in Hm. split; [done|].
  apply bind_Ret in H as (g & w2 & Hm' & H). minv Hm'.
  destruct (node_count _ <? node_count _).
  - minv H. eexists _, _. split; [right; split; reflexivity|]. done.
  - minv H. eexists _, _. split; [left; split; reflexivity|]. done.
Qed.

Lemma elem_of_tailq_remove b l x :
  NoDup l -> x ∈ tailq_remove b l <-> x ∈ l /\ x <> b.
Proof.
  induction 1 as [|y l Hy Hl IH]; simpl.
  - split; [intros H; by apply not_elem_of_nil in H|intros [H _]; done].
  - destruct (Nat.eqb_spec y b) as [->|Hne].
    + rewrite elem_of_cons. split.
      * intros Hx. split; [by right|]. intros ->. done.
      * intros [[?|?] ?]; done.
    + rewrite !elem_of_cons, IH. naive_solver.
Qed.

Lemma NoDup_tailq_remove b l : NoDup l -> NoDup (tailq_remove b l).
Proof.
  induction 1 as [|y l Hy Hl IH]; simpl; [constructor|].
  destruct (Nat.eqb_spec y b); [done|]. constructor; [|done].
  rewrite elem_of_tailq_remove by done. naive_solver.
Qed.

Lemma lookup_insert_freed (st : list (option Component)) b k :
  <[b := None]> st !! b = Some (Some k) -> False.
Proof.
  destruct (decide (b < length st)%nat).
  - by rewrite list_lookup_insert_eq.
  - rewrite lookup_ge_None_2; [done|]. rewrite length_insert. lia.
Qed.

Section merged.
Variables (g : Graph) (a b : cptr).
Hypothesis Hok : struct_ok g.
Hypothesis Ha : a ∈ components g.
Hypothesis Hb : b ∈ components g.
Hypothesis Hab : a <> b.
Let g' := merged a b g.

Lemma mg_node m :
  node_at g' m =
  if decide (comp (node_at g m) = Some b)
  then set_comp (Some a) (node_at g m) else node_at g m.
Proof.
  unfold g', merged. unfold graph_remove_component.
  change (node_at (set_comp_store ?f ?h) m) with (node_at h m).
  change (node_at (set_components ?f ?h) m) with (node_at h m).
  rewrite !node_at_upd_comp, foldl_upd_node_at by done.
  destruct (decide (comp (node_at g m) = Some b)) as [Hm|Hm].
  - rewrite decide_True; [done|]. split.
    + by apply (ok_owner g Hok).
    + apply node_valid. congruence.
  - rewrite decide_False; [done|]. intros [Hin _].
    by apply (ok_member g Hok) in Hin.
Qed.

Lemma mg_comp_of m :
  comp (node_at g' m) =
  if decide (comp (node_at g m) = Some b) then Some a else comp (node_at g m).
Proof. rewrite mg_node. by case_decide. Qed.

Lemma mg_edges m : out_edges (node_at g' m) = out_edges (node_at g m).
Proof. rewrite mg_node. by case_decide. Qed.

Lemma mg_components : components g' = tailq_remove b (components g).
Proof. unfold g', merged. by rewrite foldl_upd_node. Qed.

Lemma mg_store :
  comp_store g' =
  <[b := None]> (alter (fmap (fun _ => mkComponent [] 0 0)) b
    (alter (fmap (fun k1 =>
       mkComponent (nodes k1 ++ nodes (comp_at g b))
                   (wrap32 (node_count k1 + node_count (comp_at g b)))
                   (wrap32 (edge_count k1 + edge_count (comp_at g b))))) a
       (comp_store g))).
Proof. unfold g', merged. by rewrite foldl_upd_node. Qed.

Lemma mg_alive d : alive g' d <-> alive g d /\ d <> b.
Proof.
  rewrite !alive_lookup, mg_store.
  destruct (decide (d = b)) as [->|Hd].
  - split; [|intros [_ ?]; done]. intros [k Hk].
    by apply lookup_insert_freed in Hk.
  - rewrite list_lookup_insert_ne, list_lookup_alter_ne by done.
    rewrite list_lookup_alter. split.
    + intros [k Hk]. split; [|done]. destruct (decide (a = d)) as [<-|]; [|by eauto].
      destruct (comp_store g !! a) as [[k'|]|]; simplify_eq/=. eauto.
    + intros [[k Hk] _]. destruct (decide (a = d)); subst; rewrite ?Hk; simpl; eauto.
Qed.

Lemma mg_comp d :
  comp_at g' d =
  if decide (d = a)
  then mkComponent (nodes (comp_at g a) ++ nodes (comp_at g b))
                   (wrap32 (node_count (comp_at g a) + node_count (comp_at g b)))
                   (wrap32 (edge_count (comp_at g a) + edge_count (comp_at g b)))
  else if decide (d = b) then inhabitant else comp_at g d.
Proof.
  pose proof (proj2 (ok_comps_alive g Hok a) Ha) as Haa.
  apply alive_lookup in Haa as [ka Hka].
  assert (comp_at g a = ka) as Eka by (unfold comp_at; by rewrite Hka).
  unfold comp_at at 1. rewrite mg_store.
  destruct (decide (d = a)) as [->|Hda].
  - rewrite list_lookup_insert_ne by done.
    rewrite list_lookup_alter_ne by done.
    rewrite list_lookup_alter_eq, Hka, Eka. done.
  - destruct (decide (d = b)) as [->|Hdb].
    + destruct (_ !! b) as [[k|]|] eqn:E; [|done..].
      by apply lookup_insert_freed in E.
    + by rewrite list_lookup_insert_ne, !list_lookup_alter_ne.
Qed.

Lemma merged_ok : struct_ok g'.
Proof.
  pose proof mg_comp as Hcomp. pose proof mg_comp_of as Hno.
  destruct Hok as [H1 H2 H3 H4 H5 H6 H7].
  split.
  - rewrite mg_components. by apply NoDup_tailq_remove.
  - intros d. rewrite mg_alive, mg_components, elem_of_tailq_remove by done.
    by rewrite H2.
  - intros d n. rewrite Hcomp, Hno.
    destruct (decide (d = a)) as [->|Hda]; simpl.
    + rewrite elem_of_app. intros [Hn|Hn].
      * apply H3 in Hn. rewrite Hn. rewrite decide_False; [done|]. congruence.
      * apply H3 in Hn. by rewrite decide_True.
    + destruct (decide (d = b)) as [->|Hdb]; simpl.
      * intros Hn. by apply not_elem_of_nil in Hn.
      * intros Hn. apply H3 in Hn. rewrite Hn. rewrite decide_False; [done|]. congruence.
  - intros n d. rewrite Hno, Hcomp, mg_components, elem_of_tailq_remove by done.
    destruct (decide (comp (node_at g n) = Some b)) as [Hn|Hn].
    + intros [= <-]. rewrite decide_True by done. simpl.
      split; [done|]. apply elem_of_app. right. by apply H4.
    + intros Hd. assert (d <> b) by congruence.
      apply H4 in Hd as [Hd Hin]. split; [done|].
      destruct (decide (d = a)) as [->|Hda]; simpl.
      * apply elem_of_app. by left.
      * by rewrite decide_False.
  - intros d. rewrite Hcomp.
    destruct (decide (d = a)) as [->|Hda]; simpl.
    + apply NoDup_app. split; [done|]. split; [|done].
      intros x Hx Hx'. apply H3 in Hx, Hx'. congruence.
    + destruct (decide (d = b)); simpl; [apply NoDup_nil_2|done].
  - intros d. rewrite Hcomp.
    destruct (decide (d = a)) as [->|Hda]; simpl.
    + rewrite !H6, length_app. unfold wrap32.
      rewrite <- Z.add_mod by lia. f_equal. lia.
    + destruct (decide (d = b)); simpl; done.
  - intros n m. rewrite !Hno, mg_edges. intros Hm.
    apply H7 in Hm as [Hn Hm]. rewrite Hm.
    case_decide; done.
Qed.
End merged.

(** * The buckets *)

Lemma submseteq_NoDup {A} (l1 l2 : list A) : l1 ⊆+ l2 -> NoDup l2 -> NoDup l1.
Proof.
  intros (l & Hsub & Hperm)%submseteq_sublist_l Hnd.
  eapply sublist_NoDup; [|done]. by rewrite Hperm.
Qed.

Lemma concat_bucket_push i n (b : list (list nptr)) :
  concat (bucket_push i n b) ⊆+ n :: concat b.
Proof.
  unfold bucket_push. generalize (Z.to_nat i) as j. clear i.
  induction b as [|x b IH]; intros j; simpl.
  - by apply submseteq_cons.
  - destruct j as [|j]; simpl.
    + done.
    + change (alter (cons n) j b) with (alter (cons n) j b).
      specialize (IH j). etrans; [by apply submseteq_skips_l|].
      by rewrite (Permutation_middle x (concat b) n).
Qed.

Lemma elem_of_concat_bucket_push i n (b : list (list nptr)) x :
  x ∈ concat b -> x ∈ concat (bucket_push i n b).
Proof.
  unfold bucket_push. generalize (Z.to_nat i) as j. clear i.
  induction b as [|y b IH]; intros j; simpl; [done|].
  rewrite elem_of_app. destruct j as [|j]; simpl.
  - intros [?|?]; apply elem_of_cons; right; apply elem_of_app; [by left|by right].
  - intros [?|?]; apply elem_of_app; [by left|right; by apply IH].
Qed.

Lemma concat_push_all (idx : nptr -> Z) l (nb : list (list nptr)) :
  concat (foldl (fun nb n => bucket_push (idx n) n nb) nb l) ⊆+ l ++ concat nb.
Proof.
  revert nb. induction l as [|x l IH]; intros nb; simpl; [done|].
  etrans; [apply IH|]. etrans; [apply submseteq_skips_l, concat_bucket_push|].
  by rewrite Permutation_middle.
Qed.

Lemma concat_push_buckets (idx : nptr -> Z) (bs : list (list nptr)) is_ nb :
  concat (foldl (fun nb i => foldl (fun nb n => bucket_push (idx n) n nb) nb (bs !!! i))
                nb is_)
  ⊆+ concat ((bs !!!.) <$> is_) ++ concat nb.
Proof.
  revert nb. induction is_ as [|i is_ IH]; intros nb; [done|].
  cbn [foldl]. etrans; [exact (IH _)|].
  etrans; [apply submseteq_skips_l, concat_push_all|].
  rewrite fmap_cons. cbn [concat].
  rewrite !(assoc_L (++)). apply submseteq_skips_r.
  apply Permutation_submseteq, Permutation_app_comm.
Qed.

Lemma concat_lookups_take (bs : list (list nptr)) k :
  concat ((bs !!!.) <$> seq 0 k) = concat (take k bs).
Proof.
  induction k as [|k IH]; [done|].
  rewrite seq_S, fmap_app, concat_app, IH. simpl. rewrite app_nil_r.
  destruct (bs !! k) as [x|] eqn:E.
  - rewrite (take_S_r _ _ x) by done. rewrite concat_app. simpl.
    by rewrite app_nil_r, (list_lookup_total_correct _ _ _ E).
  - rewrite list_lookup_total_alt, E. simpl. rewrite app_nil_r.
    apply lookup_ge_None_1 in E. by rewrite !take_ge by lia.
Qed.

Lemma concat_replicate_nil {A} n : concat (replicate n ([] : list A)) = [].
Proof. induction n; simpl; done. Qed.

Lemma concat_rehash g oldsize newsize :
  concat (rehash g oldsize newsize) ⊆+ concat (g_nodes g).
Proof.
  unfold rehash. etrans; [apply concat_push_buckets|].
  rewrite concat_replicate_nil, app_nil_r, concat_lookups_take.
  rewrite <- (take_drop (Z.to_nat oldsize) (g_nodes g)) at 2.
  rewrite concat_app. by apply submseteq_inserts_r.
Qed.

Lemma index_ok_submseteq g g' :
  concat (g_nodes g') ⊆+ concat (g_nodes g) ->
  length (node_os g') = length (node_os g) ->
  index_ok g -> index_ok g'.
Proof.
  intros Hsub Hlen [H1 H2]. split.
  - intros n Hn. rewrite Hlen. apply H1. by eapply elem_of_submseteq.
  - by eapply submseteq_NoDup.
Qed.

Lemma graph_attempt_hash_resize_Ret w u w' :
  graph_attempt_hash_resize w = Ret u w' ->
  components (gph w') = components (gph w) /\
  comp_store (gph w') = comp_store (gph w) /\
  node_os (gph w') = node_os (gph w) /\
  flags (gph w') = flags (gph w) /\
  edge_os (gph w') = edge_os (gph w) /\
  g_node_count (gph w') = g_node_count (gph w) /\
  osuf w w' /\
  concat (g_nodes (gph w')) ⊆+ concat (g_nodes (gph w)).
Proof.
  unfold graph_attempt_hash_resize. intros H.
  apply bind_Ret in H as (g & w1 & Hm & H). apply get_graph_Ret in Hm as [-> ->].
  apply bind_Ret in H as (ok & w2 & Hm & H).
  apply malloc_osuf in Hm as (Hg & He & _).
  destruct ok; simpl in H; apply map_graph_Ret in H; subst w'; simpl;
    rewrite ?Hg; repeat split; try done; try apply He.
  apply concat_rehash.
Qed.

(** * Nodes entering and leaving the obstack *)

Lemma struct_ok_obs g g' :
  components g' = components g -> comp_store g' = comp_store g ->
  (forall n, comp (node_at g' n) = comp (node_at g n)) ->
  (forall n, out_edges (node_at g' n) = out_edges (node_at g n)) ->
  struct_ok g -> struct_ok g'.
Proof.
  intros E1 E2 E3 E4 [H1 H2 H3 H4 H5 H6 H7].
  assert (forall c, comp_at g' c = comp_at g c) as E5
    by (intros c; unfold comp_at; by rewrite E2).
  split.
  - by rewrite E1.
  - intros c. unfold alive. rewrite E2, E1. apply H2.
  - intros c n. rewrite E5, E3. apply H3.
  - intros n c. rewrite E5, E3, E1. apply H4.
  - intros c. rewrite E5. apply H5.
  - intros c. rewrite E5. apply H6.
  - intros n m. rewrite !E3, E4. apply H7.
Qed.

Lemma node_at_default g n :
  (length (node_os g) <= n)%nat -> node_at g n = inhabitant.
Proof.
  intros H. unfold node_at. rewrite list_lookup_total_alt.
  by rewrite lookup_ge_None_2.
Qed.

Lemma node_at_app g g' x n :
  node_os g' = node_os g ++ [x] ->
  node_at g' n = if decide (n = length (node_os g)) then x else node_at g n.
Proof.
  intros E. unfold node_at. rewrite E.
  destruct (decide (n = length (node_os g))) as [->|Hn].
  - by rewrite list_lookup_total_middle.
  - destruct (decide (n < length (node_os g))%nat).
    + by rewrite lookup_total_app_l.
    + rewrite !list_lookup_total_alt, !lookup_ge_None_2; [done|lia|].
      rewrite length_app. simpl. lia.
Qed.

Lemma node_at_take g g' k n :
  node_os g' = take k (node_os g) ->
  node_at g' n = if decide (n < k)%nat then node_at g n else inhabitant.
Proof.
  intros E. unfold node_at. rewrite E, !list_lookup_total_alt.
  case_decide.
  - by rewrite lookup_take_lt.
  - by rewrite lookup_take_ge by lia.
Qed.


Section node_created.
Variables (x : Node) (g g1 : Graph).
Hypothesis Hcr : node_created x g g1.

Lemma cr_comp_of n : comp (node_at g1 n) = comp (node_at g n).
Proof.
  destruct Hcr. rewrite (node_at_app g g1 x) by done.
  case_decide; subst; [|done]. by rewrite node_at_default.
Qed.

Lemma cr_out_edges n : out_edges (node_at g1 n) = out_edges (node_at g n).
Proof.
  destruct Hcr. rewrite (node_at_app g g1 x) by done.
  case_decide; subst; [|done]. by rewrite node_at_default.
Qed.

Lemma cr_length : length (node_os g1) = S (length (node_os g)).
Proof. destruct Hcr as [-> _ _ _ _ _ _ _]. rewrite length_app. simpl. lia. Qed.

Lemma cr_new : node_at g1 (length (node_os g)) = x.
Proof. destruct Hcr. rewrite (node_at_app g g1 x) by done. by rewrite decide_True. Qed.

Lemma cr_old n : (n < length (node_os g))%nat -> node_at g1 n = node_at g n.
Proof.
  intros Hn. destruct Hcr. rewrite (node_at_app g g1 x) by done.
  rewrite decide_False; [done|lia].
Qed.

Lemma created_struct_ok : struct_ok g -> struct_ok g1.
Proof.
  destruct Hcr. apply (struct_ok_obs g g1); auto using cr_comp_of, cr_out_edges.
Qed.

Lemma created_edges_ok : edges_ok g -> edges_ok g1.
Proof. destruct Hcr. apply (edges_ok_same g g1); auto using cr_out_edges. Qed.

Lemma created_index_ok : index_ok g -> index_ok g1.
Proof.
  intros [H1 H2]. pose proof cr_length as Hlen. destruct Hcr. split.
  - intros n Hn. rewrite Hlen.
    eapply elem_of_submseteq in Hn; [|done].
    apply elem_of_cons in Hn as [->|Hn]; [lia|]. apply H1 in Hn. lia.
  - eapply submseteq_NoDup; [done|]. constructor; [|done].
    intros Hn. apply H1 in Hn. lia.
Qed.
End node_created.

Lemma slist_remove_Some n l b : slist_remove n l = Some b -> l ≡ₚ n :: b.
Proof.
  revert b. induction l as [|x l IH]; intros b; simpl; [done|].
  destruct (Nat.eqb_spec x n) as [->|Hne].
  - by intros [= ->].
  - destruct (slist_remove n l) as [b'|]; [|done]. intros [= <-].
    rewrite (IH b' eq_refl). apply perm_swap.
Qed.

Lemma concat_insert_perm (bs : list (list nptr)) i n b :
  bs !!! i ≡ₚ n :: b -> concat bs ≡ₚ n :: concat (<[i := b]> bs).
Proof.
  revert i. induction bs as [|x bs IH]; intros i; simpl.
  - intros H. rewrite list_lookup_total_alt in H. simpl in H.
    by apply Permutation_nil_cons in H.
  - destruct i as [|i]; simpl.
    + intros ->. done.
    + intros H. rewrite (IH i H). by rewrite Permutation_middle.
Qed.

Lemma graph_remove_last_node_Ret n w u w' :
  graph_remove_last_node n w = Ret u w' ->
  let g := gph w in let g' := gph w' in
  comp (node_at g n) = None /\
  node_os g' = take n (node_os g) /\
  components g' = components g /\ comp_store g' = comp_store g /\
  flags g' = flags g /\ edge_os g' = edge_os g /\
  hashmask g' = hashmask g /\ resize_threshold g' = resize_threshold g /\
  length (g_nodes g') = length (g_nodes g) /\
  concat (g_nodes g) ≡ₚ n :: concat (g_nodes g') /\
  osuf w w'.
Proof.
  unfold graph_remove_last_node. intros H.
  apply bind_Ret in H as (g & w1 & Hm & H). apply get_graph_Ret in Hm as [-> ->].
  apply bind_Ret in H as (? & w1 & Hm & H). apply assert_Ret in Hm as [Hc ->].
  apply bool_decide_eq_true in Hc.
  destruct (slist_remove n _) as [b|] eqn:E; [|discriminate H].
  unfold bind, get, set_node_chunk, map_graph in H. injection H as _ <-. simpl.
  split_and!; try done.
  - apply length_insert.
  - apply concat_insert_perm. by apply slist_remove_Some.
  - by apply osuf_same.
Qed.

Lemma removed_struct_ok g g' n :
  node_os g' = take n (node_os g) ->
  components g' = components g -> comp_store g' = comp_store g ->
  (forall m, (n <= m)%nat -> comp (node_at g m) = None) ->
  struct_ok g -> struct_ok g'.
Proof.
  intros E1 E2 E3 Hfree Hok.
  assert (forall m, (n <= m)%nat -> out_edges (node_at g m) = []) as Hno.
  { intros m Hm. destruct (out_edges (node_at g m)) as [|y l] eqn:E; [done|].
    destruct (ok_edge g Hok m y) as [Hc _]; [rewrite E; left|].
    by rewrite Hfree in Hc. }
  apply (struct_ok_obs g g'); try done.
  - intros m. rewrite (node_at_take g g' n) by done.
    case_decide; [done|]. rewrite Hfree by lia. done.
  - intros m. rewrite (node_at_take g g' n) by done.
    case_decide; [done|]. rewrite Hno by lia. done.
Qed.

Lemma removed_edges_ok g g' n :
  node_os g' = take n (node_os g) -> flags g' = flags g ->
  (forall m, (n <= m)%nat -> out_edges (node_at g m) = []) ->
  edges_ok g -> edges_ok g'.
Proof.
  intros E1 E2 Hno. apply (edges_ok_same g g'); [done|].
  intros m. rewrite (node_at_take g g' n) by done.
  case_decide; [done|]. rewrite Hno by lia. done.
Qed.

Lemma removed_index_ok g g' n :
  node_os g' = take n (node_os g) ->
  length (node_os g) = S n ->
  concat (g_nodes g) ≡ₚ n :: concat (g_nodes g') ->
  index_ok g -> index_ok g'.
Proof.
  intros E1 Hlen Hperm [H1 H2].
  rewrite Hperm in H2. apply NoDup_cons in H2 as [Hn H2].
  split; [|done]. intros m Hm. rewrite E1, length_take, Hlen.
  assert (m ∈ concat (g_nodes g)) as Hm' by (rewrite Hperm; by right).
  apply H1 in Hm'. assert (m <> n) by (intros ->; done). lia.
Qed.

(** * Looking a node up, creating it *)

Lemma string_compare_refl s : String.compare s s = Eq.
Proof.
  pose proof (String.compare_antisym s s) as H.
  destruct (String.compare s s); simpl in H; congruence.
Qed.

Lemma byte_inj c1 c2 : byte c1 = byte c2 -> c1 = c2.
Proof.
  unfold byte. intros E%(inj Z.of_N).
  rewrite <- (Ascii.ascii_N_embedding c1), <- (Ascii.ascii_N_embedding c2). by rewrite E.
Qed.

Lemma byte_nonneg c : 0 <= byte c.
Proof. unfold byte. lia. Qed.

Lemma strcmp_eq s1 s2 : strcmp s1 s2 = 0 <-> s1 = s2.
Proof.
  revert s2. induction s1 as [|c1 s1 IH]; intros [|c2 s2]; simpl.
  - done.
  - split; [lia|done].
  - split; [lia|done].
  - destruct (Z.eqb_spec (byte c1) (byte c2)) as [E|E].
    + apply byte_inj in E as ->. rewrite IH. split; [by intros ->|by intros [= ->]].
    + split; [lia|]. intros [= -> _]. done.
Qed.

Lemma graph_alloc_node_Ret len w on w' :
  graph_alloc_node len w = Ret on w' ->
  let g := gph w in let g' := gph w' in
  on = Some (length (node_os g)) /\
  node_os g' = node_os g ++ [inhabitant] /\
  components g' = components g /\ comp_store g' = comp_store g /\
  flags g' = flags g /\ edge_os g' = edge_os g /\
  concat (g_nodes g') ⊆+ concat (g_nodes g) /\
  osuf w w'.
Proof.
  unfold graph_alloc_node. intros H.
  apply bind_Ret in H as (g & w1 & Hm & H). apply get_graph_Ret in Hm as [-> ->].
  apply bind_Ret in H as (b & w1 & Hm & H).
  apply node_os_alloc_Ret in Hm as (-> & Hg & He). simpl in H.
  apply bind_Ret in H as (? & w2 & Hm & H). apply map_graph_Ret in Hm.
  apply bind_Ret in H as (g2 & w3 & Hm2 & H). apply get_graph_Ret in Hm2 as [-> ->].
  apply bind_Ret in H as (? & w4 & Hm3 & H). apply ret_Ret in H as [<- <-].
  subst w2. simpl in *. rewrite Hg in *.
  destruct (resize_threshold (gph w) <? wrap32 (g_node_count (gph w) + 1)).
  - apply graph_attempt_hash_resize_Ret in Hm3 as (E1 & E2 & E3 & E4 & E5 & E6 & E7 & E8).
    simpl in *. rewrite E1, E2, E3, E4, E5.
    split_and!; try done.
    eapply osuf_trans; [exact He|]. destruct E7 as [E7 E9]. split; done.
  - apply ret_Ret in Hm3 as [_ <-]. simpl. split_and!; done.
Qed.

Lemma frame_refl g : frame g g.
Proof. by split. Qed.

Lemma frame_trans g1 g2 g3 : frame g1 g2 -> frame g2 g3 -> frame g1 g3.
Proof.
  intros [] []. split; congruence.
Qed.

Lemma frame_upd_node g n f :
  (forall x, ident (f x) = ident x) -> (forall x, hv (f x) = hv x) ->
  frame g (upd_node n f g).
Proof.
  intros H1 H2. split; try done.
  - unfold upd_node; simpl. apply length_alter.
  - intros m. by apply upd_node_keeps.
  - intros m. by apply upd_node_keeps.
Qed.

Lemma frame_upd_comp g c f : frame g (upd_comp c f g).
Proof. by split. Qed.

Lemma frame_with_component g : frame g (with_component g).
Proof. by split. Qed.

Lemma frame_set_edge_os g f : frame g (set_edge_os f g).
Proof. by split. Qed.

Lemma frame_component_add_node g c n : frame g (component_add_node c n g).
Proof.
  unfold component_add_node.
  eapply frame_trans; [apply frame_upd_comp|]. by apply frame_upd_node.
Qed.

Lemma frame_with_edge g c src tgt : frame g (with_edge c src tgt g).
Proof.
  unfold with_edge.
  eapply frame_trans; [|apply frame_upd_comp].
  eapply frame_trans; [|by apply frame_upd_node]. by apply frame_upd_node.
Qed.

Lemma frame_foldl_upd_node g l f :
  (forall x, ident (f x) = ident x) -> (forall x, hv (f x) = hv x) ->
  frame g (foldl (fun g n => upd_node n f g) g l).
Proof.
  intros H1 H2. revert g. induction l as [|x l IH]; intros g; simpl.
  - apply frame_refl.
  - eapply frame_trans; [|apply IH]. by apply frame_upd_node.
Qed.

Lemma frame_merged g a b : frame g (merged a b g).
Proof.
  unfold merged, graph_remove_component. cbv zeta.
  apply (frame_trans _
    (foldl (fun g n => upd_node n (set_comp (Some a)) g) g (nodes (comp_at g b)))).
  - by apply frame_foldl_upd_node.
  - split; reflexivity.
Qed.

(** * The insertion of an edge *)

(** Unfold the plumbing of the monad in a hypothesis or in the goal. *)
Ltac mred :=
  cbv beta iota delta [bind get get_graph map_graph set_errno set_node_chunk
                       set_edge_chunk ret die];
  cbn [gph errno oracle node_chunk edge_chunk].
Tactic Notation "mred" "in" hyp(H) :=
  cbv beta iota delta [bind get get_graph map_graph set_errno set_node_chunk
                       set_edge_chunk ret die] in H;
  cbn [gph errno oracle node_chunk edge_chunk] in H.

(** Case on the next call of a run known to return. *)
Tactic Notation "mcase" hyp(H) ident(E) :=
  match type of H with
  | match ?m with Ret _ _ => _ | Fatal _ => _ end = Ret _ _ =>
      destruct m as [? ?|?] eqn:E; [|discriminate H]; mred in H
  end.
Tactic Notation "mcase" hyp(H) ident(E) "as" ident(a) ident(s) :=
  match type of H with
  | match ?m with Ret _ _ => _ | Fatal _ => _ end = Ret _ _ =>
      destruct m as [a s|?] eqn:E; [|discriminate H]; mred in H
  end.

Lemma prep_refl g : struct_ok g -> prep g g.
Proof. intros H. split; auto using frame_refl. Qed.

Lemma prep_trans g1 g2 g3 : prep g1 g2 -> prep g2 g3 -> prep g1 g3.
Proof.
  intros [H1 H2 H3 H4] [K1 K2 K3 K4]. split.
  - done.
  - by eapply frame_trans.
  - intros m. by rewrite K3.
  - auto.
Qed.

Lemma prep_set_edge_os g f : struct_ok g -> prep g (set_edge_os f g).
Proof.
  intros H. split; [by apply (struct_ok_same g)|apply frame_set_edge_os|done|done].
Qed.

Lemma prep_with_component g : struct_ok g -> prep g (with_component g).
Proof.
  intros H. split; [by apply with_component_ok|apply frame_with_component|done|done].
Qed.

Lemma prep_component_add_node g c n :
  struct_ok g -> c ∈ components g -> (n < length (node_os g))%nat ->
  comp (node_at g n) = None ->
  prep g (component_add_node c n g).
Proof.
  intros H Hc Hn Hfree. split.
  - by apply component_add_node_ok.
  - apply frame_component_add_node.
  - intros m. rewrite can_node by done. by case_decide; subst.
  - intros m. rewrite can_node by done. by case_decide; subst.
Qed.

Lemma prep_merged g a b :
  struct_ok g -> a ∈ components g -> b ∈ components g -> a <> b ->
  prep g (merged a b g).
Proof.
  intros H Ha Hb Hab. split.
  - by apply merged_ok.
  - apply frame_merged.
  - intros m. by apply mg_edges.
  - intros m. rewrite mg_comp_of by done. by case_decide.
Qed.

Lemma set_edge_os_pred_S g : set_edge_os pred (set_edge_os S g) = g.
Proof. by destruct g. Qed.

Lemma do_add_edge_Ret src tgt w r w' :
  struct_ok (gph w) ->
  (src < length (node_os (gph w)))%nat -> (tgt < length (node_os (gph w)))%nat ->
  do_add_edge src tgt w = Ret r w' ->
  osuf w w' /\
  ((r = -1 /\ gph w' = gph w /\
    comp (node_at (gph w) src) = None /\ comp (node_at (gph w) tgt) = None /\
    false ∈ oracle w) \/
   (r = 1 /\ exists g1 c,
      prep (gph w) g1 /\
      comp (node_at g1 src) = Some c /\ comp (node_at g1 tgt) = Some c /\
      gph w' = with_edge c src tgt g1)).
Proof.
  intros Hok Hsrc Htgt H. unfold do_add_edge in H. mred in H.
  mcase H E1. apply edge_os_alloc_Ret in E1 as (-> & Hg1 & Hs1).
  cbn [negb] in H. mred in H. rewrite Hg1 in H.
  pose proof (prep_set_edge_os (gph w) S Hok) as P0.
  set (g0 := set_edge_os S (gph w)) in *.
  change (node_at g0 src) with (node_at (gph w) src) in H.
  change (node_at g0 tgt) with (node_at (gph w) tgt) in H.
  destruct (comp (node_at (gph w) src)) as [cs|] eqn:Ecs;
    destruct (comp (node_at (gph w) tgt)) as [ct|] eqn:Ect.
  - (* both assigned *)
    destruct (Nat.eqb_spec cs ct) as [->|Hne]; mred in H.
    + mcase H E2. apply node_add_out_edge_Ret in E2 as (c & Hc1 & Hc2 & ->).
      injection H as <- <-. cbn [gph] in *. split; [done|]. right. split; [done|].
      exists g0, c. done.
    + mcase H E2. apply graph_merge_components_Ret in E2 as (_ & ca & cb & Hab & -> & ->).
      cbn [gph errno oracle] in H.
      mcase H E3. apply node_add_out_edge_Ret in E3 as (c & Hc1 & Hc2 & ->).
      injection H as <- <-. cbn [gph] in *. split; [done|]. right. split; [done|].
      exists (merged ca cb g0), c. split; [|done].
      eapply prep_trans; [exact P0|].
      destruct (ok_owner _ (pr_ok _ _ P0) src cs Ecs) as [? _].
      destruct (ok_owner _ (pr_ok _ _ P0) tgt ct Ect) as [? _].
      apply prep_merged; [apply P0|..]; destruct Hab as [[-> ->]|[-> ->]]; done.
  - (* (c) *)
    mcase H E2. apply node_add_out_edge_Ret in E2 as (c & Hc1 & Hc2 & ->).
    injection H as <- <-. cbn [gph] in *. split; [done|]. right. split; [done|].
    exists (component_add_node cs tgt g0), c. split; [|done].
    eapply prep_trans; [exact P0|].
    destruct (ok_owner _ (pr_ok _ _ P0) src cs Ecs) as [? _].
    apply prep_component_add_node; [apply P0|done..].
  - (* (b) *)
    mcase H E2. apply node_add_out_edge_Ret in E2 as (c & Hc1 & Hc2 & ->).
    injection H as <- <-. cbn [gph] in *. split; [done|]. right. split; [done|].
    exists (component_add_node ct src g0), c. split; [|done].
    eapply prep_trans; [exact P0|].
    destruct (ok_owner _ (pr_ok _ _ P0) tgt ct Ect) as [? _].
    apply prep_component_add_node; [apply P0|done..].
  - (* (a) *)
    mcase H E2. apply graph_new_component_Ret in E2 as (Hs2 & [(-> & Hg2 & Hf)|(-> & Hg2)]).
    + mred in H. injection H as <- <-. cbn [gph errno oracle].
      rewrite Hg2. split.
      * eapply osuf_trans; [exact Hs1|]. destruct Hs2. by split.
      * left. cbn [gph errno oracle] in *. unfold g0.
        rewrite set_edge_os_pred_S. split_and!; try done.
        by eapply osuf_false.
    + mred in H. cbn [gph errno oracle] in *. rewrite Hg2 in H.
      set (c := length (comp_store g0)) in *.
      pose proof (prep_with_component g0 (pr_ok _ _ P0)) as P1.
      assert (c ∈ components (with_component g0)) as Hc
        by (simpl; apply elem_of_app; right; by apply list_elem_of_singleton).
      pose proof (prep_component_add_node (with_component g0) c src
                    (pr_ok _ _ P1) Hc Hsrc Ecs) as P2.
      set (g2 := component_add_node c src (with_component g0)) in *.
      destruct (Nat.eqb_spec src tgt) as [->|Hne]; cbn [negb] in H; mred in H.
      * mcase H E3. apply node_add_out_edge_Ret in E3 as (c' & Hc1 & Hc2 & ->).
        injection H as <- <-. cbn [gph] in *.
        split; [eapply osuf_trans; [exact Hs1|]; destruct Hs2; by split|].
        right. split; [done|]. exists g2, c'. split; [|done].
        eapply prep_trans; [exact P0|]. eapply prep_trans; [exact P1|]. exact P2.
      * assert (comp (node_at g2 tgt) = None) as Etgt.
        { unfold g2. rewrite can_node by (done || apply P1).
          by rewrite decide_False by done. }
        assert (c ∈ components g2) as Hc2 by done.
        assert (tgt < length (node_os g2))%nat as Htgt2
          by (by rewrite (fr_length _ _ (pr_frame _ _ P2))).
        pose proof (prep_component_add_node g2 c tgt (pr_ok _ _ P2) Hc2 Htgt2 Etgt) as P3.
        mcase H E3. apply node_add_out_edge_Ret in E3 as (c' & Hc1' & Hc2' & ->).
        injection H as <- <-. cbn [gph] in *.
        split; [eapply osuf_trans; [exact Hs1|]; destruct Hs2; by split|].
        right. split; [done|]. exists (component_add_node c tgt g2), c'. split; [|done].
        eapply prep_trans; [exact P0|]. eapply prep_trans; [exact P1|].
        eapply prep_trans; [exact P2|]. exact P3.
Qed.

Lemma graph_remove_last_node_removed n w u w' :
  graph_remove_last_node n w = Ret u w' ->
  node_removed n (gph w) (gph w') /\ osuf w w'.
Proof.
  intros H. apply graph_remove_last_node_Ret in H as (?&?&?&?&?&?&?&?&?&?&?). by split.
Qed.

Lemma prep_index_ok g g1 : prep g g1 -> index_ok g -> index_ok g1.
Proof.
  intros [_ F _ _]. apply index_ok_same; [apply F|apply F].
Qed.

Lemma prep_edges_ok g g1 : prep g g1 -> edges_ok g -> edges_ok g1.
Proof.
  intros [_ F E _]. apply edges_ok_same; [apply F|done].
Qed.

Lemma elem_of_bucket (bs : list (list nptr)) i x : x ∈ bs !!! i -> x ∈ concat bs.
Proof.
  intros H. rewrite list_lookup_total_alt in H.
  destruct (bs !! i) as [b|] eqn:E; simpl in H; [|by apply not_elem_of_nil in H].
  apply list_elem_of_In, in_concat. exists b. split; [|by apply list_elem_of_In].
  apply list_elem_of_In. by eapply list_elem_of_lookup_2.
Qed.

Section Hash.

Variable jenkins_hash : string -> Z -> Z -> Z.

Abbreviation hash_of := (hash_of jenkins_hash).
Abbreviation bucket_find := (bucket_find jenkins_hash).
Abbreviation graph_add_node_internal := (graph_add_node_internal jenkins_hash).
Abbreviation graph_add_node := (graph_add_node jenkins_hash).
Abbreviation graph_add_edge := (graph_add_edge jenkins_hash).

Abbreviation fresh_node s := (new_node (hash_of s) s).

Lemma bucket_find_Some g s n :
  bucket_find g s = Some n ->
  n ∈ concat (g_nodes g) /\ ident (node_at g n) = s /\ hv (node_at g n) = hash_of s.
Proof.
  unfold bucket_find. intros H. apply find_some in H as [Hin Hp].
  apply andb_true_iff in Hp as [Hh Hs].
  apply Z.eqb_eq in Hh, Hs. apply strcmp_eq in Hs.
  split; [|done]. eapply elem_of_bucket. by apply list_elem_of_In.
Qed.

Lemma alter_app_last {A} (f : A -> A) (l : list A) x :
  alter f (length l) (l ++ [x]) = l ++ [f x].
Proof. rewrite alter_app_r_alt by done. by rewrite Nat.sub_diag. Qed.

(** The state once [graph_add_node_internal] has allocated the node and
    pushed it on its bucket. *)
Lemma node_created_intro s len w wa w1 :
  graph_alloc_node len w = Ret (Some (length (node_os (gph w)))) wa ->
  w1 = mkWorld (set_g_nodes (bucket_push (Z.land (hashmask (gph wa)) (hash_of s))
                                         (length (node_os (gph w))))
                  (upd_node (length (node_os (gph w))) (fun _ => fresh_node s) (gph wa)))
               (errno wa) (oracle wa) (node_chunk wa) (edge_chunk wa) ->
  node_created (fresh_node s) (gph w) (gph w1) /\ osuf w w1.
Proof.
  intros Ha ->. apply graph_alloc_node_Ret in Ha as (_ & E1 & E2 & E3 & E4 & E5 & E6 & E7).
  cbn [gph errno oracle]. split; [|destruct E7; by split].
  split; simpl; try done.
  - rewrite E1. apply (alter_app_last (fun _ => new_node (hash_of s) s)).
  - etrans; [apply concat_bucket_push|]. by apply submseteq_skip.
Qed.

Lemma graph_add_node_internal_false s w on w' :
  graph_add_node_internal s false w = Ret on w' ->
  osuf w w' /\ exists n, on = Some n /\
    ((bucket_find (gph w) s = Some n /\ gph w' = gph w) \/
     (bucket_find (gph w) s = None /\ n = length (node_os (gph w)) /\
      node_created (fresh_node s) (gph w) (gph w'))).
Proof.
  unfold graph_add_node_internal. intros H. mred in H.
  destruct (bucket_find (gph w) s) as [n|] eqn:Ef.
  - injection H as <- <-. split; [apply osuf_refl|]. exists n. split; [done|]. by left.
  - mcase H Ea.
    pose proof Ea as Ea'. apply graph_alloc_node_Ret in Ea' as (-> & _).
    injection H as <- <-.
    edestruct (node_created_intro s (Z.of_nat (String.length s)) w) as [Hc Hs]; [exact Ea|reflexivity|].
    split; [done|]. exists (length (node_os (gph w))). split; [done|]. right. done.
Qed.

Lemma graph_add_node_internal_true s w on w' :
  graph_add_node_internal s true w = Ret on w' ->
  osuf w w' /\
  ((exists n, on = Some n /\ bucket_find (gph w) s = Some n /\ gph w' = gph w) \/
   (bucket_find (gph w) s = None /\
    exists g1, node_created (fresh_node s) (gph w) g1 /\
      ((on = Some (length (node_os (gph w))) /\
        gph w' = component_add_node (length (comp_store g1)) (length (node_os (gph w)))
                   (with_component g1)) \/
       (on = None /\ false ∈ oracle w /\
        node_removed (length (node_os (gph w))) g1 (gph w'))))).
Proof.
  unfold graph_add_node_internal. intros H. mred in H.
  destruct (bucket_find (gph w) s) as [n|] eqn:Ef.
  - injection H as <- <-. split; [apply osuf_refl|]. left. exists n. done.
  - mcase H Ea.
    pose proof Ea as Ea'. apply graph_alloc_node_Ret in Ea' as (-> & _).
    edestruct (node_created_intro s (Z.of_nat (String.length s)) w) as [Hc Hs]; [exact Ea|reflexivity|].
    cbn [gph] in Hc.
    mcase H Ec. apply graph_new_component_Ret in Ec as (Hs2 & [(-> & Hg2 & Hf)|(-> & Hg2)]).
    + mcase H Er. injection H as <- <-.
      apply graph_remove_last_node_removed in Er as [Hr Hs3].
      rewrite Hg2 in Hr. cbn [gph] in Hr.
      split; [eapply osuf_trans; [exact Hs|]; by eapply osuf_trans|].
      right. split; [done|]. eexists. split; [exact Hc|]. right.
      split_and!; try done. by eapply osuf_false.
    + injection H as <- <-. cbn [gph errno oracle] in *.
      split; [eapply osuf_trans; [exact Hs|]; destruct Hs2; by split|].
      right. split; [done|]. eexists. split; [exact Hc|]. left.
      split; [done|]. by rewrite Hg2.
Qed.

End Hash.

(** * The hash table *)

Lemma length_bucket_push i n (b : list (list nptr)) :
  length (bucket_push i n b) = length b.
Proof. apply length_alter. Qed.

Lemma length_push_all (idx : nptr -> Z) l (nb : list (list nptr)) :
  length (foldl (fun nb n => bucket_push (idx n) n nb) nb l) = length nb.
Proof.
  revert nb. induction l as [|x l IH]; intros nb; simpl; [done|].
  by rewrite IH, length_bucket_push.
Qed.

Lemma length_push_buckets (idx : nptr -> Z) (bs : list (list nptr)) is_ nb :
  length (foldl (fun nb i => foldl (fun nb n => bucket_push (idx n) n nb) nb (bs !!! i))
                nb is_) = length nb.
Proof.
  revert nb. induction is_ as [|i is_ IH]; intros nb; simpl; [done|].
  by rewrite IH, length_push_all.
Qed.

Lemma length_rehash g oldsize newsize :
  length (rehash g oldsize newsize) = Z.to_nat newsize.
Proof. unfold rehash. by rewrite length_push_buckets, length_replicate. Qed.

(** Pushing on a bucket leaves the buckets from [k] on empty when every
    push lands below [k]. *)
Lemma bucket_push_above i n (b : list (list nptr)) j :
  Z.to_nat i <> j -> bucket_push i n b !!! j = b !!! j.
Proof. intros H. unfold bucket_push. by apply list_lookup_total_alter_ne. Qed.

Lemma push_all_above (idx : nptr -> Z) l (nb : list (list nptr)) k j :
  (forall n, 0 <= idx n < k) -> k <= Z.of_nat j ->
  foldl (fun nb n => bucket_push (idx n) n nb) nb l !!! j = nb !!! j.
Proof.
  intros Hidx Hj. revert nb. induction l as [|x l IH]; intros nb; simpl; [done|].
  rewrite IH. apply bucket_push_above. specialize (Hidx x). lia.
Qed.

Lemma push_buckets_above (idx : nptr -> Z) (bs : list (list nptr)) is_ nb k j :
  (forall n, 0 <= idx n < k) -> k <= Z.of_nat j ->
  foldl (fun nb i => foldl (fun nb n => bucket_push (idx n) n nb) nb (bs !!! i)) nb is_
    !!! j = nb !!! j.
Proof.
  intros Hidx Hj. revert nb. induction is_ as [|i is_ IH]; intros nb; simpl; [done|].
  rewrite IH. by eapply push_all_above.
Qed.

Lemma land_mask_range x k : 0 <= k -> 0 <= Z.land x (2 ^ k - 1) < 2 ^ k.
Proof.
  intros Hk. replace (2 ^ k - 1) with (Z.ones k) by (rewrite Z.ones_equiv; lia).
  rewrite Z.land_ones by done.
  apply Z.mod_pos_bound. by apply Z.pow_pos_nonneg.
Qed.

(** After a successful resize nothing sits in the upper half of the new
    array: every node was pushed on the bucket its hash selects under the
    old mask. *)
Lemma rehash_upper_empty g k j :
  0 <= k -> hashmask g = 2 ^ k - 1 -> 2 ^ k <= Z.of_nat j ->
  rehash g (2 ^ k) (2 * 2 ^ k) !!! j = [].
Proof.
  intros Hk Hm Hj. unfold rehash.
  rewrite (push_buckets_above _ _ _ _ (2 ^ k));
    [|intros n; rewrite Hm; by apply land_mask_range|done].
  destruct (decide (j < Z.to_nat (2 * 2 ^ k))%nat).
  - by rewrite lookup_total_replicate_2.
  - rewrite list_lookup_total_alt, lookup_ge_None_2; [done|].
    rewrite length_replicate. lia.
Qed.

Lemma ctz_pow2 k : 0 <= k <= 31 -> builtin_ctz (2 ^ k) = k.
Proof.
  intros Hk.
  assert (exists n : nat, (n <= 31)%nat /\ k = Z.of_nat n) as (n & Hn & ->)
    by (exists (Z.to_nat k); lia).
  clear Hk. do 32 (destruct n as [|n]; [vm_compute; reflexivity|]). lia.
Qed.

Lemma resize_arith k :
  4 <= k <= 27 ->
  let ns := 2 * (2 ^ k - 1 + 1) in
  wrap32 (ns - 1) = 2 ^ (k + 1) - 1 /\
  ns = 2 ^ (k + 1) /\
  ((if UINT32_MAX <? ns * builtin_ctz ns then UINT32_MAX else ns * builtin_ctz ns)
     = UINT32_MAX \/
   (k + 1 <= 27 /\
    (if UINT32_MAX <? ns * builtin_ctz ns then UINT32_MAX else ns * builtin_ctz ns)
      = (k + 1) * 2 ^ (k + 1))).
Proof.
  intros Hk.
  assert (exists n : nat, (n <= 23)%nat /\ k = 4 + Z.of_nat n) as (n & Hn & ->)
    by (exists (Z.to_nat (k - 4)); lia).
  clear Hk.
  do 23 (destruct n as [|n];
         [vm_compute; split; [done|]; split; [done|]; right; split; [discriminate|done]|]).
  destruct n as [|n]; [|lia].
  vm_compute. split; [done|]. split; [done|]. by left.
Qed.

Lemma graph_attempt_hash_resize_table w u w' :
  table_ok (gph w) -> resize_threshold (gph w) < UINT32_MAX ->
  graph_attempt_hash_resize w = Ret u w' -> table_ok (gph w').
Proof.
  intros (k & Hk & Hm & Hl & Ht) Hlt H.
  destruct Ht as [Ht|[Hk' Ht]]; [lia|].
  unfold graph_attempt_hash_resize in H. mred in H.
  mcase H Em. apply malloc_osuf in Em as (Hg & _ & _).
  destruct a; cbn [negb] in H; mred in H; injection H as _ <-; cbn [gph]; rewrite ?Hg.
  - destruct (resize_arith k) as (A1 & A2 & A3); [lia|].
    exists (k + 1). split; [lia|]. simpl. rewrite Hm.
    rewrite length_rehash, Z2Nat.id by lia. done.
  - exists k. simpl. split; [done|]. split; [done|]. split; [done|]. by left.
Qed.

Lemma graph_alloc_node_table len w on w' :
  table_ok (gph w) -> graph_alloc_node len w = Ret on w' -> table_ok (gph w').
Proof.
  intros Ht H. unfold graph_alloc_node in H. mred in H.
  mcase H Eo. apply node_os_alloc_Ret in Eo as (-> & Hg & _).
  cbn [negb] in H. mred in H. rewrite Hg in H.
  set (g1 := set_g_node_count _ _) in H.
  assert (table_ok g1) as Ht1 by exact Ht.
  destruct (resize_threshold g1 <? g_node_count g1) eqn:Ec.
  - mcase H Er. injection H as _ <-.
    eapply graph_attempt_hash_resize_table; [| |exact Er]; [done|].
    cbn [gph]. apply Z.ltb_lt in Ec.
    assert (g_node_count g1 <= UINT32_MAX); [|lia].
    unfold g1, wrap32, UINT32_MAX. simpl.
    pose proof (Z.mod_pos_bound (g_node_count (gph w) + 1) 4294967296). lia.
  - mred in H. injection H as _ <-. done.
Qed.

Section Hash.

Variable jenkins_hash : string -> Z -> Z -> Z.

Abbreviation hash_of := (hash_of jenkins_hash).
Abbreviation bucket_find := (bucket_find jenkins_hash).
Abbreviation graph_add_node_internal := (graph_add_node_internal jenkins_hash).
Abbreviation graph_add_node := (graph_add_node jenkins_hash).
Abbreviation graph_add_edge := (graph_add_edge jenkins_hash).
Abbreviation fresh_node s := (new_node (hash_of s) s).

Lemma hash_of_range s : 0 <= hash_of s < 4294967296.
Proof. unfold Defs.hash_of, wrap32. by apply Z.mod_pos_bound. Qed.

(** In the state [node_created_intro] describes, the table is well-formed
    and the new node is the one the scan of its bucket finds. *)
Lemma node_created_find s len w wa w1 :
  table_ok (gph w) ->
  graph_alloc_node len w = Ret (Some (length (node_os (gph w)))) wa ->
  w1 = mkWorld (set_g_nodes (bucket_push (Z.land (hashmask (gph wa)) (hash_of s))
                                         (length (node_os (gph w))))
                  (upd_node (length (node_os (gph w))) (fun _ => fresh_node s) (gph wa)))
               (errno wa) (oracle wa) (node_chunk wa) (edge_chunk wa) ->
  table_ok (gph w1) /\ bucket_find (gph w1) s = Some (length (node_os (gph w))).
Proof.
  intros Ht Ha ->. pose proof (graph_alloc_node_table _ _ _ _ Ht Ha) as (k & Hk & Hm & Hl & Hth).
  apply graph_alloc_node_Ret in Ha as (_ & E1 & _).
  cbn [gph]. split.
  - exists k. simpl. rewrite length_bucket_push. done.
  - unfold Defs.bucket_find. simpl.
    pose proof (land_mask_range (hash_of s) k ltac:(lia)) as Hr.
    rewrite Hm. rewrite (Z.land_comm (2 ^ k - 1)).
    unfold bucket_push. rewrite list_lookup_total_alter_eq by lia.
    simpl. unfold node_at at 1 2. simpl.
    rewrite E1, (alter_app_last (fun _ => fresh_node s)), list_lookup_total_middle by done.
    simpl. rewrite Z.eqb_refl. simpl.
    rewrite (proj2 (strcmp_eq s s) eq_refl). done.
Qed.

Lemma table_ok_same g g' :
  hashmask g' = hashmask g -> length (g_nodes g') = length (g_nodes g) ->
  resize_threshold g' = resize_threshold g -> table_ok g -> table_ok g'.
Proof. intros E1 E2 E3 (k & ?). exists k. by rewrite E1, E2, E3. Qed.

Lemma prep_mid_ok g g1 : prep g g1 -> mid_ok g -> mid_ok g1.
Proof.
  intros P [H1 H2 H3 H4]. split.
  - apply P.
  - by eapply prep_index_ok.
  - destruct P as [_ F _ _]. apply (table_ok_same g); try apply F; [|done].
    by rewrite (fr_buckets _ _ F).
  - by eapply prep_edges_ok.
Qed.

Lemma graph_add_node_internal_resolve s w on w' :
  mid_ok (gph w) ->
  graph_add_node_internal s false w = Ret on w' ->
  osuf w w' /\ exists n, on = Some n /\ mid_ok (gph w') /\
    bucket_find (gph w') s = Some n /\
    ((n < length (node_os (gph w)))%nat /\ gph w' = gph w \/
     bucket_find (gph w) s = None /\
     n = length (node_os (gph w)) /\ node_created (fresh_node s) (gph w) (gph w')).
Proof.
  intros [H1 H2 H3 H4] H. unfold Defs.graph_add_node_internal in H. mred in H.
  destruct (bucket_find (gph w) s) as [n|] eqn:Ef.
  - injection H as <- <-. split; [apply osuf_refl|]. exists n. split; [done|].
    split; [done|]. split; [done|]. left. split; [|done].
    apply bucket_find_Some in Ef as (Hin & _). by apply (ok_bucket_valid _ H2).
  - mcase H Ea.
    pose proof Ea as Ea'. apply graph_alloc_node_Ret in Ea' as (-> & _).
    injection H as <- <-.
    edestruct (node_created_intro jenkins_hash s (Z.of_nat (String.length s)) w)
      as [Hc Hs]; [exact Ea|reflexivity|].
    edestruct (node_created_find s (Z.of_nat (String.length s)) w)
      as [Ht Hf]; [exact H3|exact Ea|reflexivity|].
    split; [done|]. exists (length (node_os (gph w))). split; [done|].
    split; [|split; [done|by right]].
    split; [by eapply created_struct_ok|by eapply created_index_ok|done|
            by eapply created_edges_ok].
Qed.

End Hash.

(** * Counting the edges *)

Lemma sum_seq_ext (f f' : nat -> nat) n :
  (forall m, (m < n)%nat -> f m = f' m) ->
  sum_list_with f (seq 0 n) = sum_list_with f' (seq 0 n).
Proof.
  induction n as [|n IH]; intros H; [done|].
  rewrite seq_S, !sum_list_with_app. simpl.
  rewrite IH by (intros m Hm; apply H; lia). rewrite (H n) by lia. done.
Qed.

Lemma sum_seq_bump (f f' : nat -> nat) n src :
  (src < n)%nat ->
  (forall m, f' m = if decide (m = src) then S (f m) else f m) ->
  sum_list_with f' (seq 0 n) = S (sum_list_with f (seq 0 n)).
Proof.
  intros Hsrc Hf. induction n as [|n IH]; [lia|].
  rewrite seq_S, !sum_list_with_app. simpl. rewrite (Hf n).
  destruct (decide (n = src)) as [->|Hne].
  - rewrite (sum_seq_ext f' f src); [lia|].
    intros m Hm. rewrite Hf. rewrite decide_False; [done|lia].
  - rewrite IH by lia. lia.
Qed.

Lemma edge_total_seq g :
  edge_total g =
  sum_list_with (fun m => length (out_edges (node_at g m))) (seq 0 (length (node_os g))).
Proof.
  unfold edge_total, node_at. generalize (node_os g) as l. intros l.
  induction l as [|x l IH] using rev_ind; [done|].
  rewrite length_app, Nat.add_1_r, seq_S, !sum_list_with_app. simpl.
  rewrite list_lookup_total_middle by done. f_equal.
  rewrite IH. apply sum_seq_ext. intros m Hm. by rewrite lookup_total_app_l.
Qed.

Lemma edge_total_ext g g' :
  length (node_os g') = length (node_os g) ->
  (forall m, out_edges (node_at g' m) = out_edges (node_at g m)) ->
  edge_total g' = edge_total g.
Proof.
  intros Hl He. rewrite !edge_total_seq, Hl. apply sum_seq_ext.
  intros m _. by rewrite He.
Qed.

Lemma edge_total_prep g g1 : prep g g1 -> edge_total g1 = edge_total g.
Proof. intros [_ F E _]. apply edge_total_ext; [apply F|done]. Qed.

Lemma edge_total_with_edge g c src tgt :
  comp (node_at g src) = Some c -> comp (node_at g tgt) = Some c ->
  edge_total (with_edge c src tgt g) = S (edge_total g).
Proof.
  intros Hs Ht. rewrite !edge_total_seq.
  rewrite (fr_length _ _ (frame_with_edge g c src tgt)).
  apply (sum_seq_bump _ _ _ src).
  - apply node_valid. congruence.
  - intros m. rewrite (we_edges g c src tgt Hs Ht).
    destruct (decide (m = src)) as [->|]; done.
Qed.

Lemma edge_total_created x g g1 : node_created x g g1 -> edge_total g1 = edge_total g.
Proof.
  intros Hc. unfold edge_total. destruct Hc as [E _ Ex _ _ _ _ _].
  rewrite E, sum_list_with_app. simpl. rewrite Ex. simpl. lia.
Qed.

(** * [graph_add_edge] and [graph_add_node] keep the graph well-formed *)

Section Hash.

Variable jenkins_hash : string -> Z -> Z -> Z.

Abbreviation hash_of := (hash_of jenkins_hash).
Abbreviation bucket_find := (bucket_find jenkins_hash).
Abbreviation graph_add_node_internal := (graph_add_node_internal jenkins_hash).
Abbreviation graph_add_node := (graph_add_node jenkins_hash).
Abbreviation graph_add_edge := (graph_add_edge jenkins_hash).
Abbreviation fresh_node s := (new_node (hash_of s) s).

Lemma resolve_both s1 s2 w on1 w1 on2 wA :
  mid_ok (gph w) ->
  graph_add_node_internal s1 false w = Ret on1 w1 ->
  graph_add_node_internal s2 false w1 = Ret on2 wA ->
  osuf w wA /\ exists n1 n2, on1 = Some n1 /\ on2 = Some n2 /\
    resolved s1 s2 (gph w) (gph wA) n1 n2 /\
    (gph w1 = gph wA \/ (n2 <> n1 /\ comp (node_at (gph wA) n2) = None)).
Proof.
  intros Hmid H1 H2.
  apply graph_add_node_internal_resolve in H1 as (Hs1 & n1 & -> & Hm1 & Hf1 & C1); [|done].
  apply graph_add_node_internal_resolve in H2 as (Hs2 & n2 & -> & HmA & Hf2 & C2); [|done].
  split; [by eapply osuf_trans|]. exists n1, n2. split; [done|]. split; [done|].
  pose proof (bucket_find_Some _ _ _ _ Hf1) as (_ & Hi1 & _).
  pose proof (bucket_find_Some _ _ _ _ Hf2) as (_ & Hi2 & _).
  set (L := length (node_os (gph w))) in *.
  destruct C1 as [[Hn1 Hg1]|(Hnone1 & -> & Hc1)];
    destruct C2 as [[Hn2 Hg2]|(Hnone2 & -> & Hc2)].
  - (* both found *)
    rewrite Hg1 in *. rewrite Hg2 in *. split; [|by left].
    split.
    + done.
    + done.
    + done.
    + done.
    + by rewrite take_ge.
    + intros m Hm. by rewrite node_at_default.
    + fold L. lia.
    + fold L. lia.
    + fold L. lia.
    + done.
    + done.
    + intros ->. congruence.
    + done.
  - (* s1 found, s2 created *)
    rewrite Hg1 in *. fold L in Hc2. split.
    + split.
      * done.
      * apply Hc2.
      * apply Hc2.
      * apply Hc2.
      * destruct Hc2 as [-> _ _ _ _ _ _ _]. by rewrite take_app_length.
      * intros m Hm. rewrite (cr_comp_of _ _ _ Hc2). by rewrite node_at_default.
      * rewrite (cr_length _ _ _ Hc2). fold L. lia.
      * fold L. lia.
      * intros _. by left.
      * rewrite (cr_old _ _ _ Hc2) by done. done.
      * done.
      * intros ->. congruence.
      * by eapply edge_total_created.
    + right. split; [lia|]. rewrite (cr_new _ _ _ Hc2). apply Hc2.
  - (* s1 created, s2 found *)
    rewrite Hg2 in *. rewrite (cr_length _ _ _ Hc1) in Hn2. fold L in Hn2.
    split; [|by left].
    split.
    + done.
    + apply Hc1.
    + apply Hc1.
    + apply Hc1.
    + destruct Hc1 as [-> _ _ _ _ _ _ _]. by rewrite take_app_length.
    + intros m Hm. rewrite (cr_comp_of _ _ _ Hc1). by rewrite node_at_default.
    + rewrite (cr_length _ _ _ Hc1). fold L. lia.
    + done.
    + intros ?. left. lia.
    + done.
    + done.
    + intros ->. congruence.
    + by eapply edge_total_created.
  - (* both created *)
    pose proof (cr_length _ _ _ Hc1) as Hl1. fold L in Hl1. rewrite Hl1 in *.
    split.
    + split.
      * done.
      * destruct Hc1, Hc2. congruence.
      * destruct Hc1, Hc2. congruence.
      * destruct Hc1, Hc2. congruence.
      * destruct Hc2 as [-> _ _ _ _ _ _ _]. destruct Hc1 as [-> _ _ _ _ _ _ _].
        rewrite take_app_le by (rewrite length_app; simpl; lia).
        by rewrite take_app_length.
      * intros m Hm. rewrite (cr_comp_of _ _ _ Hc2), (cr_comp_of _ _ _ Hc1).
        by rewrite node_at_default.
      * rewrite (cr_length _ _ _ Hc2), Hl1. fold L. lia.
      * done.
      * intros _. by right.
      * rewrite (cr_old _ _ _ Hc2) by lia. done.
      * done.
      * intros ->. congruence.
      * rewrite (edge_total_created _ _ _ Hc2). by eapply edge_total_created.
    + right. split; [lia|]. rewrite <- Hl1 at 1. rewrite (cr_new _ _ _ Hc2). apply Hc2.
Qed.

Section resolved_facts.
Variables (s1 s2 : string) (g gA : Graph) (n1 n2 : nptr).
Hypothesis Hok : graph_ok g.
Hypothesis R : resolved s1 s2 g gA n1 n2.
Let L := length (node_os g).

Lemma rs_old m : (m < L)%nat -> node_at gA m = node_at g m.
Proof.
  intros Hm. unfold node_at. rewrite <- (rs_prefix _ _ _ _ _ _ R) at 1.
  rewrite !list_lookup_total_alt, lookup_take_lt by done. done.
Qed.

Lemma rs_valid1 : (n1 < length (node_os gA))%nat.
Proof. rewrite (rs_len _ _ _ _ _ _ R). lia. Qed.

Lemma rs_valid2 : (n2 < length (node_os gA))%nat.
Proof. rewrite (rs_len _ _ _ _ _ _ R). lia. Qed.

Lemma rs_assigned_old m : comp (node_at gA m) <> None <-> (m < L)%nat.
Proof.
  split.
  - intros H. destruct (decide (m < L)%nat); [done|].
    exfalso. apply H. apply (rs_new _ _ _ _ _ _ R). fold L. lia.
  - intros H. rewrite rs_old by done. by apply (gok_assigned _ Hok).
Qed.

Lemma rs_unassigned m : comp (node_at gA m) = None <-> (L <= m)%nat.
Proof.
  pose proof (rs_assigned_old m) as H.
  destruct (comp (node_at gA m)) eqn:E.
  - split; [done|]. intros ?. assert (m < L)%nat by (apply H; done). lia.
  - split; [|done]. intros _. destruct (decide (m < L)%nat); [|lia].
    exfalso. by apply H.
Qed.

Lemma rs_new_is m :
  (L <= m)%nat -> (m < length (node_os gA))%nat -> m = n1 \/ m = n2.
Proof.
  intros H1 H2. rewrite (rs_len _ _ _ _ _ _ R) in H2. fold L in H2.
  pose proof (rs_n1 _ _ _ _ _ _ R) as K1. pose proof (rs_n2 _ _ _ _ _ _ R) as K2.
  fold L in K1, K2. lia.
Qed.

Lemma rs_old_edges m : out_edges (node_at gA m) = out_edges (node_at g m).
Proof.
  destruct (decide (m < L)%nat) as [Hm|Hm]; [by rewrite rs_old|].
  rewrite (node_at_default g) by (fold L; lia).
  destruct (out_edges (node_at gA m)) as [|y l] eqn:E; [done|].
  pose proof (ok_edge gA (mok_struct _ (rs_mid _ _ _ _ _ _ R)) m y) as Hc.
  rewrite E in Hc. destruct Hc as [Hc _]; [left|].
  exfalso. apply Hc. apply rs_unassigned. lia.
Qed.
End resolved_facts.

(** A graph that differs from a well-formed one by its index only. *)
Lemma restored_ok g g' :
  graph_ok g ->
  node_os g' = node_os g -> components g' = components g ->
  comp_store g' = comp_store g -> flags g' = flags g ->
  index_ok g' -> table_ok g' ->
  graph_ok g' /\ edge_total g' = edge_total g.
Proof.
  intros [[H1 H2 H3 H4] H5] E1 E2 E3 E4 Hi Ht. split.
  - split; [split|].
    + by apply (struct_ok_same g).
    + done.
    + done.
    + apply (edges_ok_same g); [done| |done]. intros m. unfold node_at. by rewrite E1.
    + intros n Hn. unfold node_at. rewrite E1. apply H5. by rewrite <- E1.
  - unfold edge_total. by rewrite E1.
Qed.

Lemma removed_mid g1 g2 n :
  node_removed n g1 g2 -> length (node_os g1) = S n ->
  index_ok g1 -> table_ok g1 -> index_ok g2 /\ table_ok g2.
Proof.
  intros [] Hl Hi Ht. split.
  - by eapply removed_index_ok.
  - by apply (table_ok_same g1).
Qed.

Lemma edges_ok_add1 g g' a b :
  flags g' = flags g ->
  (forall m, out_edges (node_at g' m) =
             if decide (m = a) then b :: out_edges (node_at g a)
             else out_edges (node_at g m)) ->
  edges_ok g ->
  (has_flag g GRAPH_NOLOOP = true -> a <> b) ->
  (has_flag g GRAPH_DUAL = true -> a = b) ->
  (has_flag g GRAPH_NOPARALLEL = true -> b ∉ out_edges (node_at g a)) ->
  edges_ok g'.
Proof.
  intros Ef Ee [H1 H2 H3] Hl Hd Hp. unfold has_flag in *. rewrite <- Ef in *.
  split; intros Hf.
  - intros n. rewrite Ee. case_decide; subst; [|by apply H1].
    intros [?|?]%elem_of_cons; [by apply Hl|by eapply H1].
  - intros n m. rewrite !Ee. specialize (Hd Hf). subst b.
    destruct (decide (n = a)) as [->|Hn]; destruct (decide (m = a)) as [->|Hm].
    + intros _. left.
    + intros [?|?]%elem_of_cons; [done|]. by apply H2.
    + intros ?. right. by apply H2.
    + by apply H2.
  - intros n. rewrite Ee. case_decide; subst; [|by apply H3].
    constructor; [by apply Hp|by apply H3].
Qed.

Lemma edges_ok_add2 g g' a b :
  flags g' = flags g -> a <> b ->
  (forall m, out_edges (node_at g' m) =
             if decide (m = a) then b :: out_edges (node_at g a)
             else if decide (m = b) then a :: out_edges (node_at g b)
             else out_edges (node_at g m)) ->
  edges_ok g ->
  has_flag g GRAPH_DUAL = true ->
  (has_flag g GRAPH_NOPARALLEL = true -> b ∉ out_edges (node_at g a)) ->
  edges_ok g'.
Proof.
  intros Ef Hab Ee [H1 H2 H3] Hd Hp. unfold has_flag in *. rewrite <- Ef in *.
  specialize (H2 Hd).
  split; intros Hf.
  - intros n. rewrite Ee. repeat case_decide; subst.
    + intros [?|?]%elem_of_cons; [done|by eapply H1].
    + intros [?|?]%elem_of_cons; [done|by eapply H1].
    + by apply H1.
  - intros n m. rewrite !Ee.
    destruct (decide (n = a)) as [->|Hna].
    + intros [->|Hm]%elem_of_cons.
      * rewrite decide_False, decide_True by done. left.
      * apply H2 in Hm. repeat case_decide; subst; try (right; done); done.
    + destruct (decide (n = b)) as [->|Hnb].
      * intros [->|Hm]%elem_of_cons.
        -- rewrite decide_True by done. left.
        -- apply H2 in Hm. repeat case_decide; subst; try (right; done); done.
      * intros Hm. apply H2 in Hm. repeat case_decide; subst; try (right; done); done.
  - intros n. rewrite Ee. specialize (Hp Hf). repeat case_decide; subst.
    + constructor; [done|by apply H3].
    + constructor; [|by apply H3]. intros Hx. apply Hp. by apply H2.
    + by apply H3.
Qed.

Lemma has_flag_same g g' f : flags g' = flags g -> has_flag g' f = has_flag g f.
Proof. unfold has_flag. by intros ->. Qed.

Lemma graph_edge_exists_true g a b : graph_edge_exists g a b = true <-> b ∈ out_edges (node_at g a).
Proof.
  unfold graph_edge_exists. rewrite existsb_exists. split.
  - intros (x & Hx & ->%Nat.eqb_eq). by apply list_elem_of_In.
  - intros H. exists b. split; [by apply list_elem_of_In|apply Nat.eqb_refl].
Qed.

(** The nodes of [gA] are all assigned once the new ones are. *)
Lemma resolved_all_assigned s1 s2 g gA o1 o2 g' :
  graph_ok g -> resolved s1 s2 g gA o1 o2 ->
  length (node_os g') = length (node_os gA) ->
  (forall m, comp (node_at gA m) <> None -> comp (node_at g' m) <> None) ->
  comp (node_at g' o1) <> None -> comp (node_at g' o2) <> None ->
  all_assigned g'.
Proof.
  intros Hok R Hl Hmono H1 H2 m Hm. rewrite Hl in Hm.
  destruct (decide (m < length (node_os g))%nat) as [Hlt|Hge].
  - apply Hmono. by apply (rs_assigned_old s1 s2 g gA o1 o2).
  - destruct (rs_new_is s1 s2 g gA o1 o2 R m) as [->| ->]; [lia|done..].
Qed.

Lemma frame_mid_ok g g' :
  frame g g' -> struct_ok g' -> edges_ok g' -> mid_ok g -> mid_ok g'.
Proof.
  intros F Hs He [H1 H2 H3 H4]. split; [done| | |done].
  - apply (index_ok_same g); [apply F|apply F|done].
  - apply (table_ok_same g); [apply F| |apply F|done]. by rewrite (fr_buckets _ _ F).
Qed.

Lemma add_oriented_edge_Ret s1 s2 g sw m1 m2 o1 o2 w r w' :
  graph_ok g ->
  resolved s1 s2 g (gph w) o1 o2 ->
  (if sw : bool then (m2, m1) else (m1, m2)) = (o1, o2) ->
  (sw = true -> has_flag g GRAPH_UNDIRECTED = true) ->
  add_oriented_edge sw m1 m2 w = Ret r w' ->
  graph_ok (gph w') /\ osuf w w' /\ flags (gph w') = flags g /\
  edge_contract s1 s2 g (gph w') (oracle w) r.
Proof.
  intros Hok R Ho Hsw H.
  set (gA := gph w) in *. set (L := length (node_os g)).
  pose proof (rs_mid _ _ _ _ _ _ R) as [HsA HiA HtA HeA].
  pose proof (rs_flags _ _ _ _ _ _ R) as HfA.
  assert ((m1 < length (node_os gA))%nat /\ (m2 < length (node_os gA))%nat) as [Hv1 Hv2].
  { pose proof (rs_valid1 _ _ _ _ _ _ R). pose proof (rs_valid2 _ _ _ _ _ _ R).
    destruct sw; injection Ho as -> ->; done. }
  assert ((ident (node_at gA m1) = s1 /\ ident (node_at gA m2) = s2) \/
          (has_flag g GRAPH_UNDIRECTED = true /\
           ident (node_at gA m1) = s2 /\ ident (node_at gA m2) = s1)) as Hid.
  { pose proof (rs_id1 _ _ _ _ _ _ R). pose proof (rs_id2 _ _ _ _ _ _ R).
    destruct sw; injection Ho as -> ->; [right|left]; auto. }
  assert (m1 = m2 <-> s1 = s2) as Hsame.
  { pose proof (rs_id1 _ _ _ _ _ _ R) as I1. pose proof (rs_id2 _ _ _ _ _ _ R) as I2.
    pose proof (rs_same _ _ _ _ _ _ R) as I3.
    destruct sw; injection Ho as -> ->;
      (split; [intros ->; congruence|intros E; by rewrite (I3 E)]). }
  assert (forall m, (L <= m)%nat -> (m < length (node_os gA))%nat -> m = m1 \/ m = m2) as Hnew.
  { intros m Hm1 Hm2. destruct (rs_new_is s1 s2 g gA o1 o2 R m Hm1 Hm2);
      destruct sw; injection Ho as -> ->; auto. }
  assert (forall g', length (node_os g') = length (node_os gA) ->
            (forall m, comp (node_at gA m) <> None -> comp (node_at g' m) <> None) ->
            comp (node_at g' m1) <> None -> comp (node_at g' m2) <> None ->
            all_assigned g') as Hall.
  { intros g' ? ? ? ?. apply (resolved_all_assigned s1 s2 g gA o1 o2); try done;
      destruct sw; injection Ho as -> ->; done. }
  unfold add_oriented_edge in H. mred in H. fold gA in H.
  rewrite !(has_flag_same g gA) in H by done.
  destruct (Nat.eqb m1 m2 && has_flag g GRAPH_NOLOOP) eqn:Eloop.
  - (* a loop that must not be added *)
    apply andb_true_iff in Eloop as [Heq%Nat.eqb_eq Hnl].
    subst m2. assert (s1 = s2) as Es by (by apply Hsame).
    assert (o1 = m1 /\ o2 = m1) as [-> ->] by (destruct sw; injection Ho as -> ->; done).
    destruct (bool_decide (comp (node_at gA m1) = None)) eqn:Ec.
    + apply bool_decide_eq_true in Ec.
      assert (m1 = L /\ length (node_os gA) = S L) as [Hm1 HlA].
      { apply (rs_unassigned s1 s2 g gA m1 m1 Hok R) in Ec.
        pose proof (rs_n1 _ _ _ _ _ _ R Ec) as E. fold L in E.
        split; [done|]. rewrite (rs_len _ _ _ _ _ _ R). fold L. lia. }
      mcase H En as oc wn.
      apply graph_new_component_Ret in En as (Hs2 & [(-> & Hg & Hf)|(-> & Hg)]).
      * mcase H Er as u wr. injection H as <- <-.
        apply graph_remove_last_node_removed in Er as [Hr Hs3].
        rewrite Hg in Hr. fold gA in Hr.
        destruct (removed_mid _ _ _ Hr) as [Hi' Ht']; [by rewrite HlA, Hm1|done..|].
        destruct (restored_ok g (gph wr) Hok) as [Hok' Het]; try done.
        { rewrite (rm_nodes _ _ _ Hr), Hm1. apply (rs_prefix _ _ _ _ _ _ R). }
        { rewrite (rm_components _ _ _ Hr). apply R. }
        { rewrite (rm_store _ _ _ Hr). apply R. }
        { rewrite (rm_flags _ _ _ Hr). apply R. }
        split; [done|]. split; [by eapply osuf_trans|].
        split; [rewrite (rm_flags _ _ _ Hr); apply R|]. left. done.
      * injection H as <- <-. cbn [gph errno oracle]. rewrite Hg. fold gA.
        set (c := length (comp_store gA)).
        pose proof (prep_with_component gA HsA) as P1.
        assert (c ∈ components (with_component gA)) as Hc
          by (simpl; apply elem_of_app; right; by apply list_elem_of_singleton).
        pose proof (prep_component_add_node (with_component gA) c m1
                      (pr_ok _ _ P1) Hc Hv1 Ec) as P2.
        pose proof (prep_trans _ _ _ P1 P2) as P.
        set (g' := component_add_node c m1 (with_component gA)) in *.
        assert (comp (node_at g' m1) = Some c) as Hc1.
        { unfold g'. rewrite can_node by (done || apply P1). by rewrite decide_True. }
        split; [|split; [destruct Hs2; by split|split]].
        -- split; [by apply (prep_mid_ok gA)|].
           apply Hall; [apply P|apply P|congruence|congruence].
        -- rewrite (fr_flags _ _ (pr_frame _ _ P)). done.
        -- right. left. split; [done|].
           rewrite (edge_total_prep _ _ P), (rs_edge_total _ _ _ _ _ _ R). auto.
    + apply bool_decide_eq_false in Ec. injection H as <- <-.
      assert (length (node_os gA) = L) as HlA.
      { apply (rs_assigned_old s1 s2 g gA m1 m1 Hok R) in Ec.
        rewrite (rs_len _ _ _ _ _ _ R). fold L in Ec |- *. lia. }
      split; [|split; [apply osuf_refl|split; [done|]]].
      * split; [done|]. apply Hall; done.
      * right. left. split; [done|]. split; [apply R|]. auto.
  - assert (has_flag g GRAPH_NOLOOP = true -> m1 <> m2) as Hnoloop.
    { intros Hnl ->. by rewrite Nat.eqb_refl, Hnl in Eloop. }
    clear Eloop.
    destruct (has_flag g GRAPH_NOPARALLEL
              && bool_decide (comp (node_at gA m1) <> None)
              && bool_decide (comp (node_at gA m1) = comp (node_at gA m2))
              && graph_edge_exists gA m1 m2) eqn:Epar.
    + (* the edge is already there *)
      injection H as <- <-.
      apply andb_true_iff in Epar as [Epar Hex].
      apply andb_true_iff in Epar as [Epar Hc2%bool_decide_eq_true].
      apply andb_true_iff in Epar as [Hp Hc1%bool_decide_eq_true].
      apply graph_edge_exists_true in Hex.
      assert (m1 < L /\ m2 < L)%nat as [Hl1 Hl2].
      { split; apply (rs_assigned_old s1 s2 g gA o1 o2 Hok R); congruence. }
      split; [|split; [apply osuf_refl|split; [done|]]].
      * split; [done|]. fold gA. apply Hall; [done|auto|congruence|congruence].
      * right. left. split; [done|]. split; [apply R|]. right. split; [done|].
        exists m1, m2.
        rewrite <- (rs_old_edges s1 s2 g gA o1 o2 Hok R).
        rewrite <- !(rs_old s1 s2 g gA o1 o2 R) by done. done.
    + assert (has_flag g GRAPH_NOPARALLEL = true -> m2 ∉ out_edges (node_at gA m1))
        as Hnopar.
      { intros Hp Hin. destruct (ok_edge gA HsA m1 m2 Hin) as [Hc1 Hc2].
        rewrite Hp, (bool_decide_eq_true_2 _ Hc1) in Epar.
        rewrite bool_decide_eq_true_2 in Epar by done.
        rewrite (proj2 (graph_edge_exists_true gA m1 m2) Hin) in Epar. done. }
      clear Epar.
      mcase H Ed as r0 wd.
      apply do_add_edge_Ret in Ed as (Hsd & [Hfail|Hsucc]); [| |done..].
      * (* no component for the edge: the new nodes are taken back *)
        destruct Hfail as (-> & Hgd & Hc1 & Hc2 & Hf).
        change (-1 <? 0) with true in H. cbv iota in H. rewrite Ho in H.
        cbv iota in H. rewrite Hgd in H. fold gA in H, Hgd.
        assert (comp (node_at gA o1) = None /\ comp (node_at gA o2) = None) as [Ho1 Ho2]
          by (destruct sw; injection Ho as <- <-; done).
        apply (rs_unassigned s1 s2 g gA o1 o2 Hok R) in Ho1 as Hge1.
        apply (rs_unassigned s1 s2 g gA o1 o2 Hok R) in Ho2 as Hge2.
        pose proof (rs_n1 _ _ _ _ _ _ R Hge1) as E1.
        pose proof (rs_n2 _ _ _ _ _ _ R Hge2) as E2.
        pose proof (rs_len _ _ _ _ _ _ R) as HlA. fold L in E1, E2, HlA.
        rewrite (bool_decide_eq_true_2 _ Ho2) in H.
        mcase H Er2 as u2 w2.
        apply graph_remove_last_node_removed in Er2 as [Hr2 Hs2].
        rewrite Hgd in Hr2.
        assert (length (node_os gA) = S o2) as HlA' by lia.
        destruct (removed_mid _ _ _ Hr2 HlA' HiA HtA) as [Hi2 Ht2].
        destruct E2 as [E2|[E2 _]].
        -- (* one new node *)
           rewrite E1, E2, Nat.eqb_refl in H. cbn [negb andb] in H.
           injection H as <- <-.
           destruct (restored_ok g (gph w2) Hok) as [Hok' Het]; try done.
           { rewrite (rm_nodes _ _ _ Hr2), E2. apply (rs_prefix _ _ _ _ _ _ R). }
           { rewrite (rm_components _ _ _ Hr2). apply R. }
           { rewrite (rm_store _ _ _ Hr2). apply R. }
           { rewrite (rm_flags _ _ _ Hr2). apply R. }
           split; [done|]. split; [by eapply osuf_trans|].
           split; [rewrite (rm_flags _ _ _ Hr2); apply R|]. left. done.
        -- (* two new nodes *)
           assert (comp (node_at (gph w2) o1) = None) as Ho1'.
           { rewrite (node_at_take gA (gph w2) o2) by apply Hr2.
             rewrite decide_True by lia. done. }
           rewrite (bool_decide_eq_true_2 _ Ho1') in H.
           destruct (Nat.eqb_spec o1 o2) as [?|_]; [lia|]. cbn [negb andb] in H.
           mcase H Er1 as u1 w3. injection H as <- <-.
           apply graph_remove_last_node_removed in Er1 as [Hr1 Hs1].
           destruct (removed_mid _ _ _ Hr1) as [Hi3 Ht3]; try done.
           { rewrite (rm_nodes _ _ _ Hr2), length_take. lia. }
           destruct (restored_ok g (gph w3) Hok) as [Hok' Het]; try done.
           { rewrite (rm_nodes _ _ _ Hr1), (rm_nodes _ _ _ Hr2), take_take, E1.
             rewrite Nat.min_l by lia. apply (rs_prefix _ _ _ _ _ _ R). }
           { rewrite (rm_components _ _ _ Hr1), (rm_components _ _ _ Hr2). apply R. }
           { rewrite (rm_store _ _ _ Hr1), (rm_store _ _ _ Hr2). apply R. }
           { rewrite (rm_flags _ _ _ Hr1), (rm_flags _ _ _ Hr2). apply R. }
           split; [done|].
           split; [eapply osuf_trans; [exact Hsd|]; by eapply osuf_trans|].
           split; [rewrite (rm_flags _ _ _ Hr1), (rm_flags _ _ _ Hr2); apply R|].
           left. done.
      * (* the edge is linked *)
        destruct Hsucc as (-> & g1 & c & P1 & Hc1 & Hc2 & Hgd).
        change (1 <? 0) with false in H. cbv beta iota in H.
        mcase H Ea1 as u1 wa1. apply assert_Ret in Ea1 as [_ ->].
        mcase H Ea2 as u2 wa2. apply assert_Ret in Ea2 as [_ ->].
        rewrite Hgd in H.
        set (gE := with_edge c m1 m2 g1) in *.
        pose proof (frame_trans _ _ _ (pr_frame _ _ P1) (frame_with_edge g1 c m1 m2)) as FE.
        fold gE in FE.
        pose proof (with_edge_ok g1 c m1 m2 Hc1 Hc2 (pr_ok _ _ P1)) as HsE. fold gE in HsE.
        assert (forall m, out_edges (node_at gE m) =
                  if decide (m = m1) then m2 :: out_edges (node_at gA m1)
                  else out_edges (node_at gA m)) as HeE.
        { intros m. unfold gE. rewrite (we_edges g1 c m1 m2 Hc1 Hc2).
          by rewrite !(pr_edges _ _ P1). }
        assert (forall m, comp (node_at gA m) <> None -> comp (node_at gE m) <> None) as HmE.
        { intros m Hm. unfold gE. rewrite (we_comp_of g1 c m1 m2). by apply P1. }
        assert (comp (node_at gE m1) = Some c /\ comp (node_at gE m2) = Some c) as [Hc1E Hc2E].
        { unfold gE. by rewrite !(we_comp_of g1 c m1 m2). }
        assert (flags gE = flags g) as HfE by (rewrite (fr_flags _ _ FE); done).
        assert (edge_total gE = S (edge_total g)) as HtE.
        { unfold gE. rewrite (edge_total_with_edge g1 c m1 m2 Hc1 Hc2).
          rewrite (edge_total_prep _ _ P1). f_equal. apply R. }
        rewrite (has_flag_same g gE) in H by done.
        destruct (has_flag g GRAPH_DUAL && negb (m1 =? m2)%nat) eqn:Edual.
        -- (* and its reverse *)
           apply andb_true_iff in Edual as [Hd Hne%negb_true_iff%Nat.eqb_neq].
           mcase H Ed2 as r2 w2.
           apply do_add_edge_Ret in Ed2 as (Hsd2 & [Hfail2|Hsucc2]).
           ++ destruct Hfail2 as (_ & _ & Hx & _). rewrite Hgd in Hx. congruence.
           ++ destruct Hsucc2 as (-> & g2 & c2 & P2 & Hc1' & Hc2' & Hg2).
              rewrite Hgd in P2. change (1 <? 0) with false in H. cbv beta iota in H.
              injection H as <- <-. rewrite Hg2.
              set (g' := with_edge c2 m2 m1 g2).
              pose proof (frame_trans _ _ _ FE
                            (frame_trans _ _ _ (pr_frame _ _ P2) (frame_with_edge g2 c2 m2 m1)))
                as F'. fold g' in F'.
              assert (forall m, out_edges (node_at g' m) =
                        if decide (m = m1) then m2 :: out_edges (node_at gA m1)
                        else if decide (m = m2) then m1 :: out_edges (node_at gA m2)
                        else out_edges (node_at gA m)) as He'.
              { intros m. unfold g'. rewrite (we_edges g2 c2 m2 m1 Hc1' Hc2').
                rewrite !(pr_edges _ _ P2), !HeE.
                destruct (decide (m = m1)) as [->|?].
                - by rewrite (decide_False (P := m1 = m2)) by done.
                - destruct (decide (m = m2)) as [->|?]; [|done].
                  by rewrite (decide_False (P := m2 = m1)) by done. }
              assert (struct_ok g') as Hs'
                by (by apply (with_edge_ok g2 c2 m2 m1 Hc1' Hc2' (pr_ok _ _ P2))).
              assert (edges_ok g') as HeO.
              { apply (edges_ok_add2 gA g' m1 m2); try done.
                - rewrite (fr_flags _ _ F'). done.
                - by rewrite (has_flag_same g gA).
                - rewrite (has_flag_same g gA) by done. done. }
              split; [|split; [|split]].
              ** split; [by apply (frame_mid_ok gA)|].
                 apply Hall; [apply F'| | |].
                 --- intros m Hm. unfold g'. rewrite (we_comp_of g2 c2 m2 m1).
                     apply P2. by apply HmE.
                 --- unfold g'. rewrite (we_comp_of g2 c2 m2 m1). congruence.
                 --- unfold g'. rewrite (we_comp_of g2 c2 m2 m1). congruence.
              ** by eapply osuf_trans.
              ** rewrite (fr_flags _ _ F'). done.
              ** right. right. right. split; [done|].
                 split; [|split; [done|split]].
                 --- unfold g'. rewrite (edge_total_with_edge g2 c2 m2 m1 Hc1' Hc2').
                     by rewrite (edge_total_prep _ _ P2), HtE.
                 --- intros Es. apply Hne. by apply Hsame.
                 --- destruct Hid as [[I1 I2]|(_ & I1 & I2)].
                     +++ exists m1, m2. rewrite !He', !(fr_ident _ _ F').
                         rewrite decide_True by done.
                         rewrite (decide_False (P := m2 = m1)), decide_True by done.
                         split; [left|]. split; [left|]. done.
                     +++ exists m2, m1. rewrite !He', !(fr_ident _ _ F').
                         rewrite (decide_False (P := m2 = m1)), decide_True by done.
                         rewrite decide_True by done.
                         split; [left|]. split; [left|]. done.
           ++ by rewrite Hgd.
           ++ by rewrite Hgd, (fr_length _ _ FE).
           ++ by rewrite Hgd, (fr_length _ _ FE).
        -- (* one edge *)
           injection H as <- <-. rewrite Hgd. fold gE.
           assert (has_flag g GRAPH_DUAL = true -> m1 = m2) as Hd.
           { intros Hd. rewrite Hd in Edual.
             by apply negb_false_iff, Nat.eqb_eq in Edual. }
           assert (edges_ok gE) as HeO.
           { apply (edges_ok_add1 gA gE m1 m2); try done.
             - rewrite (fr_flags _ _ FE). done.
             - by rewrite (has_flag_same g gA).
             - by rewrite (has_flag_same g gA).
             - by rewrite (has_flag_same g gA). }
           split; [|split; [done|split; [done|]]].
           ** split; [by apply (frame_mid_ok gA)|].
              apply Hall; [apply FE|done|congruence|congruence].
           ** right. right. left. split; [done|]. split; [done|].
              split; [intros ?; apply Hsame; auto|].
              exists m1, m2. rewrite HeE, !(fr_ident _ _ FE), decide_True by done.
              split; [left|done].
Qed.

(** [graph_add_edge] keeps the graph well-formed and honours its return
    contract. *)
Lemma graph_add_edge_Ret s1 s2 w r w' :
  graph_ok (gph w) ->
  graph_add_edge s1 s2 w = Ret r w' ->
  graph_ok (gph w') /\ osuf w w' /\ flags (gph w') = flags (gph w) /\
  edge_contract s1 s2 (gph w) (gph w') (oracle w) r.
Proof.
  intros Hok H. unfold Defs.graph_add_edge in H. mred in H.
  mcase H E1 as on1 w1. destruct on1 as [n1|].
  2: { apply graph_add_node_internal_resolve in E1 as (_ & ? & [=] & _). apply Hok. }
  mcase H E2 as on2 w2. destruct on2 as [n2|].
  2: { apply graph_add_node_internal_resolve in E1 as (_ & ? & _ & Hm & _); [|apply Hok].
       apply graph_add_node_internal_resolve in E2 as (_ & ? & [=] & _). done. }
  destruct (resolve_both _ _ _ _ _ _ _ (gok_mid _ Hok) E1 E2)
    as (Hs & n1' & n2' & [= <-] & [= <-] & R & _).
  set (sw := has_flag (gph w2) GRAPH_UNDIRECTED && (0 <? nodes_cmp (gph w2) n1 n2)) in H.
  assert (add_oriented_edge sw (if sw then n2 else n1) (if sw then n1 else n2) w2 = Ret r w')
    as H' by (destruct sw; exact H).
  apply (add_oriented_edge_Ret s1 s2 (gph w) sw _ _ n1 n2) in H'; try done.
  - destruct H' as (K1 & K2 & K3 & K4). split; [done|]. split; [by eapply osuf_trans|].
    split; [done|].
    destruct K4 as [(-> & Hf & Ht)|K4]; [|by right].
    left. split; [done|]. split; [|done]. by eapply osuf_false.
  - by destruct sw.
  - intros Esw. unfold sw in Esw. apply andb_true_iff in Esw as [Hu _].
    by rewrite <- (has_flag_same (gph w) (gph w2)) by apply R.
Qed.

Lemma graph_add_node_internal_table s cc w on w' :
  table_ok (gph w) ->
  graph_add_node_internal s cc w = Ret on w' -> table_ok (gph w').
Proof.
  intros Ht H. unfold Defs.graph_add_node_internal in H. mred in H.
  destruct (bucket_find (gph w) s) as [n|] eqn:Ef.
  - injection H as _ <-. done.
  - mcase H Ea as on1 wa.
    pose proof Ea as Ea'. apply graph_alloc_node_Ret in Ea' as (-> & _).
    edestruct (node_created_find jenkins_hash s (Z.of_nat (String.length s)) w) as [Ht1 _]; [exact Ht|exact Ea|reflexivity|].
    cbn [gph] in Ht1. destruct cc.
    + mcase H Ec as oc wc.
      apply graph_new_component_Ret in Ec as (_ & [(-> & Hg & _)|(-> & Hg)]).
      * mcase H Er as u wr. injection H as _ <-.
        apply graph_remove_last_node_removed in Er as [Hr _].
        rewrite Hg in Hr. cbn [gph] in Hr.
        eapply table_ok_same; [apply Hr|apply Hr|apply Hr|exact Ht1].
      * injection H as _ <-. cbn [gph]. rewrite Hg. cbn [gph]. exact Ht1.
    + injection H as _ <-. exact Ht1.
Qed.

(** [graph_add_node] keeps the graph well-formed and links no edge. *)
Lemma graph_add_node_Ret s w r w' :
  graph_ok (gph w) ->
  graph_add_node s w = Ret r w' ->
  graph_ok (gph w') /\ osuf w w' /\ flags (gph w') = flags (gph w) /\
  edge_total (gph w') = edge_total (gph w) /\
  (r = -1 /\ false ∈ oracle w \/ r = 0 \/ r = 1).
Proof.
  intros Hok H. pose proof Hok as [[HsG HiG HtG HeG] HaG].
  unfold Defs.graph_add_node in H. mred in H.
  mcase H Ei as on wi.
  pose proof (graph_add_node_internal_table _ _ _ _ _ HtG Ei) as Ht'.
  apply graph_add_node_internal_true in Ei
    as (Hs & [(n & -> & Hf & Hg)|(Hnone & g1 & Hc & [(-> & Hg)|(-> & Hfalse & Hr)])]).
  - (* the node exists *)
    mcase H Ea as u wa. apply assert_Ret in Ea as [_ ->]. injection H as <- <-.
    rewrite Hg. split; [done|]. split; [done|]. split; [done|]. split; [done|].
    right. rewrite bool_decide_eq_true_2 by done. by left.
  - (* a new node in a new component *)
    mcase H Ea as u wa. apply assert_Ret in Ea as [_ ->]. injection H as <- <-.
    set (L := length (node_os (gph w))) in *.
    set (c := length (comp_store g1)) in *.
    pose proof (created_struct_ok _ _ _ Hc HsG) as Hs1.
    pose proof (prep_with_component g1 Hs1) as P1.
    assert (c ∈ components (with_component g1)) as Hcc
      by (simpl; apply elem_of_app; right; by apply list_elem_of_singleton).
    assert (L < length (node_os g1))%nat as HL
      by (rewrite (cr_length _ _ _ Hc); fold L; lia).
    assert (comp (node_at g1 L) = None) as HcL
      by (unfold L; rewrite (cr_new _ _ _ Hc); apply Hc).
    pose proof (prep_component_add_node (with_component g1) c L
                  (pr_ok _ _ P1) Hcc HL HcL) as P2.
    pose proof (prep_trans _ _ _ P1 P2) as P. rewrite Hg in *.
    set (g' := component_add_node c L (with_component g1)) in *.
    split; [|split; [done|split; [|split]]].
    + split.
      * split; [apply P| | |].
        -- eapply prep_index_ok; [exact P|]. by eapply created_index_ok.
        -- done.
        -- eapply prep_edges_ok; [exact P|]. by eapply created_edges_ok.
      * intros m Hm. rewrite (fr_length _ _ (pr_frame _ _ P)), (cr_length _ _ _ Hc) in Hm.
        fold L in Hm. destruct (decide (m = L)) as [->|Hne].
        -- unfold g'. rewrite can_node by (done || apply P1). by rewrite decide_True.
        -- apply P. rewrite (cr_old _ _ _ Hc) by (fold L; lia). apply HaG. fold L. lia.
    + rewrite (fr_flags _ _ (pr_frame _ _ P)). apply Hc.
    + rewrite (edge_total_prep _ _ P). by eapply edge_total_created.
    + right. destruct (bool_decide _); auto.
  - (* no component for the new node: it is taken back *)
    injection H as <- <-.
    set (L := length (node_os (gph w))) in *.
    destruct (restored_ok (gph w) (gph wi) Hok) as [Hok' Het]; try done.
    + rewrite (rm_nodes _ _ _ Hr), (cr_nodes _ _ _ Hc). unfold L. by rewrite take_app_length.
    + rewrite (rm_components _ _ _ Hr). apply Hc.
    + rewrite (rm_store _ _ _ Hr). apply Hc.
    + rewrite (rm_flags _ _ _ Hr). apply Hc.
    + eapply removed_index_ok; [apply Hr| |apply Hr|by eapply created_index_ok].
      by rewrite (cr_length _ _ _ Hc).
    + split; [done|]. split; [done|].
      split; [rewrite (rm_flags _ _ _ Hr); apply Hc|]. split; [done|]. left. done.
Qed.

End Hash.

(** * A graph fresh from [graph_init] *)

Lemma graph_init_Ret fl w r w' :
  graph_init fl w = Ret r w' ->
  (r = -1 /\ (gph w' = gph w \/
               gph w' = set_g_nodes (fun _ => []) (set_components (fun _ => []) (gph w)))) \/
  (r = 0 /\ flags (gph w') = fl /\ components (gph w') = [] /\ node_os (gph w') = [] /\
   g_nodes (gph w') = replicate 16 [] /\ hashmask (gph w') = 15 /\
   resize_threshold (gph w') = 64 /\ g_node_count (gph w') = 0 /\
   comp_store (gph w') = comp_store (gph w) /\
   Z.land fl (wrap32 (Z.lnot 15)) = 0 /\
   (Z.land fl GRAPH_UNDIRECTED = 0 \/ Z.land fl GRAPH_DUAL = 0)).
Proof.
  unfold graph_init. intros H.
  destruct (negb (Z.land fl _ =? 0)) eqn:E1.
  { mred in H. injection H as <- <-. left. split; [done|]. by left. }
  destruct (negb (Z.land fl GRAPH_UNDIRECTED =? 0) && negb (Z.land fl GRAPH_DUAL =? 0)) eqn:E2.
  { mred in H. injection H as <- <-. left. split; [done|]. by left. }
  mred in H. mcase H Em as p wm. apply malloc_osuf in Em as (Hg & _ & _).
  cbn [gph] in Hg. destruct p; cbn [negb] in H; mred in H.
  - mcase H Ea1 as u1 wa1. apply assert_Ret in Ea1 as [_ <-].
    mcase H Ea2 as u2 wa2. apply assert_Ret in Ea2 as [_ <-].
    mcase H Eo1 as u3 wo1. apply obstack_begin_Ret in Eo1 as [Hg1 _]. cbn [gph] in Hg1.
    mcase H Eo2 as u4 wo2. apply obstack_begin_Ret in Eo2 as [Hg2 _]. cbn [gph] in Hg2.
    injection H as <- <-. cbn [gph]. rewrite Hg2. simpl. rewrite Hg1. simpl. rewrite Hg. simpl.
    right. split_and!; try done.
    + apply negb_false_iff, Z.eqb_eq in E1. exact E1.
    + apply andb_false_iff in E2 as [E2|E2]; apply negb_false_iff, Z.eqb_eq in E2; auto.
  - injection H as <- <-. left. split; [done|]. right. cbn [gph]. by rewrite Hg.
Qed.

Lemma graph_init_ok fl w w' :
  comp_store (gph w) = [] ->
  graph_init fl w = Ret 0 w' ->
  graph_ok (gph w') /\ flags (gph w') = fl /\ edge_total (gph w') = 0%nat.
Proof.
  intros Hst H. apply graph_init_Ret in H as [[[=] _]|(_ & Hf & Hc & Hn & Hb & Hm & Ht & _ & Hs & _)].
  rewrite Hst in Hs.
  assert (forall c, comp_at (gph w') c = inhabitant) as Hca.
  { intros c. unfold comp_at. by rewrite Hs. }
  assert (forall n, node_at (gph w') n = inhabitant) as Hna.
  { intros n. unfold node_at. by rewrite Hn. }
  split; [|split; [done|unfold edge_total; by rewrite Hn]].
  split; [split|].
  - split.
    + rewrite Hc. constructor.
    + intros c. unfold alive. rewrite Hs, Hc. simpl. split.
      * intros [x [=]].
      * intros []%elem_of_nil.
    + intros c n. rewrite Hca. intros []%elem_of_nil.
    + intros n c. rewrite Hna. done.
    + intros c. rewrite Hca. constructor.
    + intros c. rewrite Hca. done.
    + intros n m. rewrite Hna. intros []%elem_of_nil.
  - split; rewrite Hb; simpl.
    + intros n []%elem_of_nil.
    + constructor.
  - exists 4. rewrite Hm, Hb, Ht. simpl. split; [lia|]. split; [done|]. split; [done|].
    right. split; [lia|done].
  - split; intros _ n; rewrite ?Hna; simpl.
    + apply not_elem_of_nil.
    + intros m []%elem_of_nil.
    + constructor.
  - intros n. rewrite Hn. simpl. lia.
Qed.

(** * Runs that end the process *)

(** Case on the next call of a run known to end the process. *)
Tactic Notation "fcase" hyp(H) ident(E) "as" ident(a) ident(s) :=
  match type of H with
  | match ?m with Ret _ _ => _ | Fatal _ => _ end = Fatal _ =>
      destruct m as [a s|?] eqn:E; [mred in H|]
  end.

Lemma malloc_Fatal w f : malloc w = Fatal f -> False.
Proof. unfold malloc. by destruct (oracle w) as [|[] ?]. Qed.

Lemma xmalloc_Fatal w f : xmalloc w = Fatal f -> f = Exit2 /\ false ∈ oracle w.
Proof.
  unfold xmalloc. mred. destruct (malloc w) as [b w1|] eqn:E.
  - apply malloc_osuf in E as (_ & _ & Hf). destruct b; [done|]. intros [= <-]. auto.
  - by apply malloc_Fatal in E.
Qed.

Lemma obstack_begin_Fatal w f :
  obstack_begin w = Fatal f -> f = Exit2 /\ false ∈ oracle w.
Proof.
  unfold obstack_begin. mred. destruct (xmalloc w) eqn:E; [done|].
  intros [= <-]. by apply xmalloc_Fatal in E.
Qed.

Lemma obstack_alloc_Fatal len h w f :
  obstack_alloc len h w = Fatal f -> f = Exit2 /\ false ∈ oracle w.
Proof.
  unfold obstack_alloc. mred. destruct (os_room h <? len); [|done].
  destruct (xmalloc w) eqn:E; [done|].
  intros [= <-]. by apply xmalloc_Fatal in E.
Qed.

Lemma node_os_alloc_Fatal len w f :
  node_os_alloc len w = Fatal f -> f = Exit2 /\ false ∈ oracle w.
Proof.
  unfold node_os_alloc. mred.
  destruct (obstack_alloc len (node_chunk w) w) eqn:E; [done|].
  intros [= <-]. by apply obstack_alloc_Fatal in E.
Qed.

Lemma edge_os_alloc_Fatal len w f :
  edge_os_alloc len w = Fatal f -> f = Exit2 /\ false ∈ oracle w.
Proof.
  unfold edge_os_alloc. mred.
  destruct (obstack_alloc len (edge_chunk w) w) eqn:E; [done|].
  intros [= <-]. by apply obstack_alloc_Fatal in E.
Qed.

Lemma graph_new_component_Fatal w f : graph_new_component w = Fatal f -> False.
Proof.
  unfold graph_new_component. mred. destruct (malloc w) as [b w1|] eqn:E.
  - by destruct b.
  - by apply malloc_Fatal in E.
Qed.

Lemma graph_attempt_hash_resize_Fatal w f :
  graph_attempt_hash_resize w = Fatal f -> False.
Proof.
  unfold graph_attempt_hash_resize. mred. destruct (malloc w) as [b w1|] eqn:E.
  - by destruct b.
  - by apply malloc_Fatal in E.
Qed.

Lemma graph_alloc_node_Fatal len w f :
  graph_alloc_node len w = Fatal f -> f = Exit2 /\ false ∈ oracle w.
Proof.
  unfold graph_alloc_node. mred. intros H. fcase H E as b w1.
  - apply node_os_alloc_Ret in E as (-> & _). cbn [negb] in H. mred in H.
    destruct (_ <? _); [|done].
    fcase H E2 as u w2; [done|]. by apply graph_attempt_hash_resize_Fatal in E2.
  - injection H as <-. by apply node_os_alloc_Fatal in E.
Qed.

Lemma node_add_out_edge_total src tgt c w :
  comp (node_at (gph w) src) = Some c -> comp (node_at (gph w) tgt) = Some c ->
  node_add_out_edge src tgt w =
  Ret tt (mkWorld (with_edge c src tgt (gph w)) (errno w) (oracle w)
                  (node_chunk w) (edge_chunk w)).
Proof.
  intros H1 H2. unfold node_add_out_edge. mred. rewrite H1, H2.
  rewrite bool_decide_eq_true_2 by done. done.
Qed.

Lemma graph_merge_components_Fatal c1 c2 w f :
  c1 <> c2 -> graph_merge_components c1 c2 w = Fatal f -> False.
Proof.
  intros Hne. unfold graph_merge_components. mred.
  destruct (Nat.eqb_spec c1 c2) as [|_]; [done|]. cbn [negb assert]. mred.
  destruct (node_count (comp_at (gph w) c1) <? node_count (comp_at (gph w) c2)) eqn:E.
  - apply Z.ltb_lt in E.
    destruct (Z.leb_spec (node_count (comp_at (gph w) c1)) (node_count (comp_at (gph w) c2)));
      [done|lia].
  - apply Z.ltb_ge in E.
    destruct (Z.leb_spec (node_count (comp_at (gph w) c2)) (node_count (comp_at (gph w) c1)));
      [done|lia].
Qed.

Lemma slist_remove_None n l : slist_remove n l = None -> n ∉ l.
Proof.
  induction l as [|x l IH]; simpl; [intros _; apply not_elem_of_nil|].
  destruct (Nat.eqb_spec x n) as [->|Hne]; [done|].
  destruct (slist_remove n l); [done|]. intros _.
  apply not_elem_of_cons. split; [done|]. by apply IH.
Qed.

Lemma graph_remove_last_node_Fatal n w f :
  graph_remove_last_node n w = Fatal f ->
  comp (node_at (gph w) n) = None -> f = Segv /\ ~ homed (gph w) n.
Proof.
  unfold graph_remove_last_node. mred. intros H Hc.
  rewrite bool_decide_eq_true_2 in H by done. cbn [assert] in H. mred in H.
  destruct (slist_remove n _) eqn:E; [done|]. injection H as <-.
  split; [done|]. by apply slist_remove_None in E.
Qed.

Lemma do_add_edge_Fatal src tgt w f :
  struct_ok (gph w) ->
  (src < length (node_os (gph w)))%nat -> (tgt < length (node_os (gph w)))%nat ->
  do_add_edge src tgt w = Fatal f -> f = Exit2 /\ false ∈ oracle w.
Proof.
  intros Hok Hsrc Htgt H. unfold do_add_edge in H. mred in H.
  fcase H E1 as b w1; [|injection H as <-; by apply edge_os_alloc_Fatal in E1].
  exfalso.
  apply edge_os_alloc_Ret in E1 as (-> & Hg1 & Hs1).
  cbn [negb] in H. mred in H. rewrite Hg1 in H.
  pose proof (prep_set_edge_os (gph w) S Hok) as P0.
  set (g0 := set_edge_os S (gph w)) in *.
  change (node_at g0 src) with (node_at (gph w) src) in H.
  change (node_at g0 tgt) with (node_at (gph w) tgt) in H.
  destruct (comp (node_at (gph w) src)) as [cs|] eqn:Ecs;
    destruct (comp (node_at (gph w) tgt)) as [ct|] eqn:Ect.
  - destruct (Nat.eqb_spec cs ct) as [->|Hne]; mred in H.
    + rewrite (node_add_out_edge_total src tgt ct) in H by done. done.
    + fcase H E2 as ca wa; [|by apply graph_merge_components_Fatal in E2].
      apply graph_merge_components_Ret in E2 as (_ & a & b & Hab & -> & ->).
      destruct (ok_owner _ (pr_ok _ _ P0) src cs Ecs) as [? _].
      destruct (ok_owner _ (pr_ok _ _ P0) tgt ct Ect) as [? _].
      rewrite (node_add_out_edge_total src tgt a) in H; [done|..]; cbn [gph];
        (rewrite mg_comp_of; [|apply P0|..]);
        destruct Hab as [[-> ->]|[-> ->]]; try done;
        change (node_at g0 ?m) with (node_at (gph w) m); rewrite ?Ecs, ?Ect;
        case_decide; congruence.
  - destruct (ok_owner _ (pr_ok _ _ P0) src cs Ecs) as [? _].
    rewrite (node_add_out_edge_total src tgt cs) in H; [done|..]; cbn [gph];
      rewrite can_node by (done || apply P0); case_decide; subst; simpl; (done || congruence).
  - destruct (ok_owner _ (pr_ok _ _ P0) tgt ct Ect) as [? _].
    rewrite (node_add_out_edge_total src tgt ct) in H; [done|..]; cbn [gph];
      rewrite can_node by (done || apply P0); case_decide; subst; simpl; (done || congruence).
  - fcase H E2 as oc wc; [|by apply graph_new_component_Fatal in E2].
    apply graph_new_component_Ret in E2 as (Hs2 & [(-> & Hg2 & Hf)|(-> & Hg2)]).
    + done.
    + mred in H. rewrite Hg2 in H.
      set (c := length (comp_store g0)) in *.
      pose proof (prep_with_component g0 (pr_ok _ _ P0)) as P1.
      assert (c ∈ components (with_component g0)) as Hc
        by (simpl; apply elem_of_app; right; by apply list_elem_of_singleton).
      pose proof (prep_component_add_node (with_component g0) c src
                    (pr_ok _ _ P1) Hc Hsrc Ecs) as P2.
      assert (comp (node_at (component_add_node c src (with_component g0)) src) = Some c) as Es.
      { rewrite can_node by (done || apply P1). by rewrite decide_True. }
      set (g2 := component_add_node c src (with_component g0)) in *.
      destruct (Nat.eqb_spec src tgt) as [->|Hne]; cbn [negb] in H; mred in H.
      * rewrite (node_add_out_edge_total tgt tgt c) in H by done. done.
      * assert (comp (node_at g2 tgt) = None) as Etgt.
        { unfold g2. rewrite can_node by (done || apply P1).
          by rewrite decide_False by done. }
        assert (tgt < length (node_os g2))%nat as Htgt2
          by (by rewrite (fr_length _ _ (pr_frame _ _ P2))).
        rewrite (node_add_out_edge_total src tgt c) in H; [done|..]; cbn [gph];
          rewrite can_node by (done || apply P2).
        -- by rewrite decide_False by done.
        -- by rewrite decide_True.
Qed.

Lemma add_oriented_edge_Fatal sw m1 m2 w f :
  struct_ok (gph w) ->
  (m1 < length (node_os (gph w)))%nat -> (m2 < length (node_os (gph w)))%nat ->
  add_oriented_edge sw m1 m2 w = Fatal f ->
  false ∈ oracle w /\ (f = Exit2 \/ f = Segv).
Proof.
  intros Hok Hv1 Hv2 H. unfold add_oriented_edge in H. mred in H.
  destruct (Nat.eqb m1 m2 && has_flag (gph w) GRAPH_NOLOOP).
  - destruct (bool_decide (comp (node_at (gph w) m1) = None)) eqn:Ec; [|done].
    apply bool_decide_eq_true in Ec.
    fcase H En as oc wn; [|by apply graph_new_component_Fatal in En].
    apply graph_new_component_Ret in En as (Hs2 & [(-> & Hg & Hf)|(-> & Hg)]); [|done].
    fcase H Er as u wr; [done|]. injection H as <-.
    apply graph_remove_last_node_Fatal in Er as [-> _]; [auto|by rewrite Hg].
  - destruct (has_flag (gph w) GRAPH_NOPARALLEL && _ && _ && _); [done|].
    fcase H Ed as r0 wd.
    + apply do_add_edge_Ret in Ed as (Hsd & [Hfail|Hsucc]); [| |done..].
      * destruct Hfail as (-> & Hgd & Hc1 & Hc2 & Hf).
        change (-1 <? 0) with true in H. cbv iota in H.
        destruct (if sw then (m2, m1) else (m1, m2)) as [a b].
        destruct (bool_decide (comp (node_at (gph wd) b) = None)) eqn:Eb.
        -- apply bool_decide_eq_true in Eb.
           fcase H Er2 as u2 w2.
           ++ destruct (negb (Nat.eqb a b) && bool_decide (comp (node_at (gph w2) a) = None))
                eqn:Ea; [|done].
              apply andb_true_iff in Ea as [_ Ea%bool_decide_eq_true].
              fcase H Er1 as u1 w3; [done|]. injection H as <-.
              apply graph_remove_last_node_Fatal in Er1 as [-> _]; auto.
           ++ injection H as <-.
              apply graph_remove_last_node_Fatal in Er2 as [-> _]; auto.
        -- mred in H.
           destruct (negb (Nat.eqb a b) && bool_decide (comp (node_at (gph wd) a) = None))
             eqn:Ea; [|done].
           apply andb_true_iff in Ea as [_ Ea%bool_decide_eq_true].
           fcase H Er1 as u1 w3; [done|]. injection H as <-.
           apply graph_remove_last_node_Fatal in Er1 as [-> _]; auto.
      * destruct Hsucc as (-> & g1 & c & P1 & Hc1 & Hc2 & Hgd).
        change (1 <? 0) with false in H. cbv beta iota in H.
        rewrite Hgd in H.
        pose proof (with_edge_ok g1 c m1 m2 Hc1 Hc2 (pr_ok _ _ P1)) as HsE.
        pose proof (frame_trans _ _ _ (pr_frame _ _ P1) (frame_with_edge g1 c m1 m2)) as FE.
        set (gE := with_edge c m1 m2 g1) in *.
        assert (comp (node_at gE m1) = Some c /\ comp (node_at gE m2) = Some c) as [Hc1E Hc2E].
        { unfold gE. by rewrite !(we_comp_of g1 c m1 m2). }
        rewrite Hc1E, Hc2E in H.
        rewrite !bool_decide_eq_true_2 in H by done. cbn [assert] in H. mred in H.
        destruct (has_flag gE GRAPH_DUAL && negb (Nat.eqb m1 m2)); [|done].
        fcase H Ed2 as r2 w2; [by destruct (r2 <? 0)|]. injection H as <-.
        apply do_add_edge_Fatal in Ed2 as [-> Hf].
        -- split; [by eapply osuf_false|by left].
        -- by rewrite Hgd.
        -- rewrite Hgd. fold gE. by rewrite (fr_length _ _ FE).
        -- rewrite Hgd. fold gE. by rewrite (fr_length _ _ FE).
    + injection H as <-. apply do_add_edge_Fatal in Ed as [-> Hf]; auto.
Qed.

Section Hash.

Variable jenkins_hash : string -> Z -> Z -> Z.

Abbreviation hash_of := (hash_of jenkins_hash).
Abbreviation bucket_find := (bucket_find jenkins_hash).
Abbreviation graph_add_node_internal := (graph_add_node_internal jenkins_hash).
Abbreviation graph_add_node := (graph_add_node jenkins_hash).
Abbreviation graph_add_edge := (graph_add_edge jenkins_hash).
Abbreviation fresh_node s := (new_node (hash_of s) s).

Lemma bucket_find_homed g s n : bucket_find g s = Some n -> homed g n.
Proof.
  unfold bucket_find, Defs.bucket_find, homed. intros H. apply find_some in H as [Hin Hp].
  apply andb_true_iff in Hp as [Hh%Z.eqb_eq _]. rewrite <- Hh.
  by apply list_elem_of_In.
Qed.

Lemma graph_add_node_internal_Fatal s cc w f :
  table_ok (gph w) ->
  graph_add_node_internal s cc w = Fatal f -> f = Exit2 /\ false ∈ oracle w.
Proof.
  intros Ht H. unfold Defs.graph_add_node_internal in H. mred in H.
  destruct (bucket_find (gph w) s) as [n|] eqn:Ef; [done|].
  fcase H Ea as on1 wa; [|injection H as <-; by apply graph_alloc_node_Fatal in Ea].
  exfalso.
  pose proof Ea as Ea'. apply graph_alloc_node_Ret in Ea' as (-> & _).
  edestruct (node_created_find jenkins_hash s (Z.of_nat (String.length s)) w) as [Ht1 Hf1]; [exact Ht|exact Ea|reflexivity|].
  edestruct (node_created_intro jenkins_hash s (Z.of_nat (String.length s)) w) as [Hc _]; [exact Ea|reflexivity|].
  cbn [gph] in Hf1, Hc. destruct cc; [|done].
  fcase H Ec as oc wc; [|by apply graph_new_component_Fatal in Ec].
  apply graph_new_component_Ret in Ec as (_ & [(-> & Hg & _)|(-> & Hg)]); [|done].
  fcase H Er as u wr; [done|].
  apply graph_remove_last_node_Fatal in Er as [_ Hh].
  - apply Hh. rewrite Hg. cbn [gph]. by apply bucket_find_homed in Hf1.
  - rewrite Hg. exact (eq_trans (f_equal comp (cr_new _ _ _ Hc)) (cr_comp _ _ _ Hc)).
Qed.

Lemma graph_add_node_Fatal s w f :
  graph_ok (gph w) ->
  graph_add_node s w = Fatal f -> f = Exit2 /\ false ∈ oracle w.
Proof.
  intros Hok H. pose proof Hok as [[HsG HiG HtG HeG] HaG].
  unfold Defs.graph_add_node in H. mred in H.
  fcase H Ei as on wi; [|injection H as <-; by apply graph_add_node_internal_Fatal in Ei].
  exfalso.
  apply graph_add_node_internal_true in Ei
    as (Hs & [(n & -> & Hf & Hg)|(Hnone & g1 & Hc & [(-> & Hg)|(-> & Hfalse & Hr)])]);
    [| |done].
  - rewrite bool_decide_eq_true_2 in H; [done|]. rewrite Hg. apply HaG.
    apply bucket_find_Some in Hf as [Hin _]. by apply HiG.
  - set (L := length (node_os (gph w))) in *.
    pose proof (created_struct_ok _ _ _ Hc HsG) as Hs1.
    pose proof (prep_with_component g1 Hs1) as P1.
    assert (length (comp_store g1) ∈ components (with_component g1)) as Hcc
      by (simpl; apply elem_of_app; right; by apply list_elem_of_singleton).
    assert (L < length (node_os g1))%nat as HL
      by (rewrite (cr_length _ _ _ Hc); fold L; lia).
    assert (comp (node_at g1 L) = None) as HcL
      by (unfold L; rewrite (cr_new _ _ _ Hc); apply Hc).
    rewrite bool_decide_eq_true_2 in H; [done|]. rewrite Hg.
    rewrite can_node by (done || apply P1). by rewrite decide_True.
Qed.

Lemma graph_add_edge_Fatal s1 s2 w f :
  mid_ok (gph w) ->
  graph_add_edge s1 s2 w = Fatal f ->
  false ∈ oracle w /\ (f = Exit2 \/ f = Segv).
Proof.
  intros Hmid H. unfold Defs.graph_add_edge in H. mred in H.
  fcase H E1 as on1 w1;
    [|injection H as <-; apply graph_add_node_internal_Fatal in E1 as [-> ?];
      [auto|apply Hmid]].
  pose proof E1 as E1'.
  apply graph_add_node_internal_resolve in E1' as (Hs1 & n1 & -> & Hm1 & _); [|done].
  fcase H E2 as on2 w2;
    [|injection H as <-; apply graph_add_node_internal_Fatal in E2 as [-> ?];
      [split; [by eapply osuf_false|by left]|apply Hm1]].
  destruct (resolve_both jenkins_hash s1 s2 w _ w1 _ w2 Hmid E1 E2)
    as (Hs & m1 & m2 & [= <-] & -> & R & _).
  pose proof (rs_valid1 _ _ _ _ _ _ R) as Hv1.
  pose proof (rs_valid2 _ _ _ _ _ _ R) as Hv2.
  destruct (has_flag (gph w2) GRAPH_UNDIRECTED && (0 <? nodes_cmp (gph w2) n1 m2));
    apply add_oriented_edge_Fatal in H as [Hf Hk]; try done; try apply R;
    (split; [by eapply osuf_false|done]).
Qed.

End Hash.

(** * Reachable worlds *)

Lemma built_ok h fl w : built h fl w -> graph_ok (gph w) /\ flags (gph w) = fl.
Proof.
  induction 1 as [w0 w Hst Hi|w s r w' Hb [IH1 IH2] Hn|w s1 s2 r w' Hb [IH1 IH2] He].
  - apply graph_init_ok in Hi as (? & ? & _); done.
  - apply graph_add_node_Ret in Hn as (? & _ & Hf & _); [|done].
    split; [done|congruence].
  - apply graph_add_edge_Ret in He as (? & _ & Hf & _); [|done].
    split; [done|congruence].
Qed.

Lemma plentiful_osuf w w' : osuf w w' -> plentiful w -> plentiful w'.
Proof. intros Hs Hp Hf. apply Hp. by eapply osuf_false. Qed.

(** With allocations that succeed, adding a node returns 0 or 1. *)
Lemma graph_add_node_total h s w :
  graph_ok (gph w) -> plentiful w ->
  exists r w', graph_add_node h s w = Ret r w' /\ (r = 0 \/ r = 1) /\ plentiful w'.
Proof.
  intros Hok Hp. destruct (graph_add_node h s w) as [r w'|f] eqn:E.
  - exists r, w'. split; [done|].
    apply graph_add_node_Ret in E as (_ & Hs & _ & _ & [[_ Hf]|Hr]);
      [by destruct (Hp Hf)| |done].
    split; [done|by eapply plentiful_osuf].
  - apply graph_add_node_Fatal in E as [_ Hf]; [by destruct (Hp Hf)|done].
Qed.

(** With allocations that succeed, adding an edge returns 0, 1 or 2. *)
Lemma graph_add_edge_total h s1 s2 w :
  graph_ok (gph w) -> plentiful w ->
  exists r w', graph_add_edge h s1 s2 w = Ret r w' /\ (r = 0 \/ r = 1 \/ r = 2) /\
               plentiful w'.
Proof.
  intros Hok Hp. destruct (graph_add_edge h s1 s2 w) as [r w'|f] eqn:E.
  - exists r, w'. split; [done|].
    apply graph_add_edge_Ret in E as (_ & Hs & _ & [(_ & Hf & _)|Hr]);
      [by destruct (Hp Hf)| |done].
    split; [|by eapply plentiful_osuf].
    destruct Hr as [[-> _]|[[-> _]|[-> _]]]; auto.
  - apply graph_add_edge_Fatal in E as [Hf _]; [by destruct (Hp Hf)|apply Hok].
Qed.

(** * What a resize does to the index *)

Lemma elem_of_bucket_push_new i n (b : list (list nptr)) :
  (Z.to_nat i < length b)%nat -> n ∈ concat (bucket_push i n b).
Proof.
  unfold bucket_push. generalize (Z.to_nat i) as j. clear i.
  induction b as [|x b IH]; intros j Hj; simpl in *; [lia|].
  destruct j as [|j]; simpl.
  - left.
  - apply elem_of_app. right. apply IH. lia.
Qed.

Lemma elem_of_push_all (idx : nptr -> Z) l (nb : list (list nptr)) x :
  (forall n, (Z.to_nat (idx n) < length nb)%nat) ->
  x ∈ l \/ x ∈ concat nb ->
  x ∈ concat (foldl (fun nb n => bucket_push (idx n) n nb) nb l).
Proof.
  revert nb. induction l as [|y l IH]; intros nb Hidx H; cbn [foldl].
  - destruct H as [H|H]; [by apply not_elem_of_nil in H|done].
  - apply IH; [intros n; by rewrite length_bucket_push|].
    destruct H as [[->|H]%elem_of_cons|H].
    + right. by apply elem_of_bucket_push_new.
    + by left.
    + right. by apply elem_of_concat_bucket_push.
Qed.

Lemma elem_of_push_buckets (idx : nptr -> Z) (bs : list (list nptr)) is_ nb x :
  (forall n, (Z.to_nat (idx n) < length nb)%nat) ->
  (exists i, i ∈ is_ /\ x ∈ bs !!! i) \/ x ∈ concat nb ->
  x ∈ concat (foldl (fun nb i => foldl (fun nb n => bucket_push (idx n) n nb) nb (bs !!! i))
                    nb is_).
Proof.
  revert nb. induction is_ as [|i is_ IH]; intros nb Hidx H; cbn [foldl].
  - destruct H as [(i & H & _)|H]; [by apply not_elem_of_nil in H|done].
  - apply IH; [intros n; by rewrite length_push_all|].
    destruct H as [(j & [->|Hj]%elem_of_cons & Hx)|H].
    + right. apply elem_of_push_all; [done|by left].
    + left. by exists j.
    + right. apply elem_of_push_all; [done|by right].
Qed.

(** The nodes that were in the index are all still in the new array. *)
Lemma elem_of_rehash g k x :
  0 <= k -> hashmask g = 2 ^ k - 1 -> Z.of_nat (length (g_nodes g)) = 2 ^ k ->
  x ∈ concat (g_nodes g) -> x ∈ concat (rehash g (2 ^ k) (2 * 2 ^ k)).
Proof.
  intros Hk Hm Hl Hx. unfold rehash.
  assert (0 < 2 ^ k) as Hpos by (by apply Z.pow_pos_nonneg).
  apply elem_of_push_buckets.
  - intros n. rewrite length_replicate, Hm.
    pose proof (land_mask_range (hv (node_at g n)) k Hk). lia.
  - left. apply list_elem_of_In, in_concat in Hx as (b & Hb & Hx).
    apply list_elem_of_In, list_elem_of_lookup in Hb as [i Hi].
    exists i. split.
    + apply elem_of_seq. apply lookup_lt_Some in Hi. lia.
    + rewrite (list_lookup_total_correct _ _ _ Hi). by apply list_elem_of_In.
Qed.

Lemma land_bit x k :
  0 <= k -> Z.testbit x k = true -> 2 ^ k <= Z.land (2 ^ (k + 1) - 1) x.
Proof.
  intros Hk Hb.
  replace (2 ^ (k + 1) - 1) with (Z.ones (k + 1)) by (rewrite Z.ones_equiv; lia).
  rewrite Z.land_comm, Z.land_ones by lia.
  assert (0 < 2 ^ k) as Hpos by (by apply Z.pow_pos_nonneg).
  pose proof (Z.mod_pos_bound x (2 ^ (k + 1)) ltac:(apply Z.pow_pos_nonneg; lia)) as Hr.
  destruct (Z_lt_le_dec (x mod 2 ^ (k + 1)) (2 ^ k)) as [Hlt|]; [|done].
  assert (Z.testbit (x mod 2 ^ (k + 1)) k = true) as Hb'
    by (rewrite Z.mod_pow2_bits_low by lia; done).
  rewrite Z.testbit_true in Hb' by done.
  rewrite Z.div_small in Hb' by lia. done.
Qed.

(** The growth of the table: when the node about to be created exceeds the
    threshold and the new array is granted, the mask gets one more bit
    and the upper half of the new array is left empty. *)
Lemma graph_alloc_node_resize len w k on wa :
  table_ok (gph w) -> 0 <= k -> hashmask (gph w) = 2 ^ k - 1 ->
  g_node_count (gph w) = resize_threshold (gph w) ->
  resize_threshold (gph w) < UINT32_MAX -> plentiful w ->
  graph_alloc_node len w = Ret on wa ->
  hashmask (gph wa) = 2 ^ (k + 1) - 1 /\
  (forall j, 2 ^ k <= Z.of_nat j -> g_nodes (gph wa) !!! j = []) /\
  (forall x, x ∈ concat (g_nodes (gph w)) -> x ∈ concat (g_nodes (gph wa))).
Proof.
  intros (k' & Hk' & Hm' & Hl & Ht) Hk Hm Hc Hlt Hp H.
  assert (k' = k) as ->.
  { rewrite Hm in Hm'. apply (Z.pow_inj_r 2); lia. }
  destruct Ht as [Ht|[Hk27 Ht]]; [lia|].
  unfold graph_alloc_node in H. mred in H.
  mcase H Eo as b wo. apply node_os_alloc_Ret in Eo as (-> & Hg & Hso).
  cbn [negb] in H. mred in H. rewrite Hg in H.
  assert (0 < 2 ^ k) as Hpos by (by apply Z.pow_pos_nonneg).
  assert (wrap32 (g_node_count (gph w) + 1) = g_node_count (gph w) + 1) as Hw.
  { unfold wrap32. apply Z.mod_small. unfold UINT32_MAX in Hlt. nia. }
  simpl in H. rewrite Hw, Hc in H.
  destruct (Z.ltb_spec (resize_threshold (gph w)) (resize_threshold (gph w) + 1)) as [_|?];
    [|lia].
  mcase H Er as u wr. injection H as _ <-.
  unfold graph_attempt_hash_resize in Er. mred in Er.
  mcase Er Em as p wm.
  apply malloc_osuf in Em as (_ & _ & Hf).
  destruct p; [|exfalso; apply Hp; eapply osuf_false; [exact Hso|by apply Hf]].
  cbn [negb] in Er. mred in Er. injection Er as _ <-. cbn [gph]. simpl.
  rewrite Hm. destruct (resize_arith k) as (A1 & A2 & _); [lia|].
  cbv zeta in A1, A2. rewrite A1.
  replace (2 ^ k - 1 + 1) with (2 ^ k) by lia.
  split; [done|]. split.
  - intros j Hj. by apply rehash_upper_empty.
  - intros x Hx. by apply elem_of_rehash.
Qed.

(** Growing the table loses no node of the index. *)
Lemma graph_alloc_node_keeps len w on wa :
  table_ok (gph w) -> graph_alloc_node len w = Ret on wa ->
  forall x, x ∈ concat (g_nodes (gph w)) -> x ∈ concat (g_nodes (gph wa)).
Proof.
  intros (k & Hk & Hm & Hl & _) H x Hx.
  unfold graph_alloc_node in H. mred in H.
  mcase H Eo as b wo. apply node_os_alloc_Ret in Eo as (-> & Hg & _).
  cbn [negb] in H. mred in H. rewrite Hg in H.
  destruct (_ <? _).
  - mcase H Er as u wr. injection H as _ <-.
    unfold graph_attempt_hash_resize in Er. mred in Er.
    mcase Er Em as p wm. apply malloc_osuf in Em as (Hgm & _ & _). cbn [gph] in Hgm.
    destruct p; cbn [negb] in Er; mred in Er; injection Er as _ <-.
    + cbn [gph]. simpl. rewrite Hm. replace (2 ^ k - 1 + 1) with (2 ^ k) by lia.
      apply elem_of_rehash; try done. lia.
    + cbn [gph]. simpl. by rewrite Hgm.
  - mred in H. by injection H as _ <-.
Qed.

Lemma bucket_push_lookup i n (b : list (list nptr)) j x :
  x ∈ bucket_push i n b !!! j -> x = n \/ x ∈ b !!! j.
Proof.
  destruct (decide (Z.to_nat i = j)) as [<-|Hne].
  - unfold bucket_push. rewrite list_lookup_total_alter.
    destruct (decide _); [intros [->|?]%elem_of_cons; auto|auto].
  - rewrite bucket_push_above by done. auto.
Qed.

Lemma find_ext {A} (p q : A -> bool) l :
  (forall x, p x = q x) -> List.find p l = List.find q l.
Proof. intros H. induction l as [|x l IH]; simpl; [done|]. by rewrite H, IH. Qed.

Lemma find_none_intro {A} (p : A -> bool) (l : list A) :
  (forall x, x ∈ l -> p x = false) -> List.find p l = None.
Proof.
  induction l as [|x l IH]; intros H; simpl; [done|].
  rewrite (H x) by left. apply IH. intros y Hy. apply H. by right.
Qed.

Lemma plentiful_malloc w b w' : plentiful w -> malloc w = Ret b w' -> b = true.
Proof.
  intros Hp (_ & _ & Hf)%malloc_osuf. destruct b; [done|]. by destruct (Hp (Hf eq_refl)).
Qed.

Section Hash.

Variable jenkins_hash : string -> Z -> Z -> Z.

Abbreviation hash_of := (hash_of jenkins_hash).
Abbreviation bucket_find := (bucket_find jenkins_hash).
Abbreviation graph_add_node_internal := (graph_add_node_internal jenkins_hash).
Abbreviation graph_add_node := (graph_add_node jenkins_hash).
Abbreviation graph_add_edge := (graph_add_edge jenkins_hash).
Abbreviation fresh_node s := (new_node (hash_of s) s).
Abbreviation resize_due := (resize_due jenkins_hash).

(** The lookup depends on the buckets, the mask and the identity of the
    nodes only. *)
Lemma bucket_find_frame g g' s : frame g g' -> bucket_find g' s = bucket_find g s.
Proof.
  intros F. unfold Defs.bucket_find.
  rewrite (fr_buckets _ _ F), (fr_hashmask _ _ F).
  apply find_ext. intros x. by rewrite (fr_hv _ _ F), (fr_ident _ _ F).
Qed.

Lemma bucket_find_hit s n w :
  bucket_find (gph w) s = Some n ->
  forall cc, graph_add_node_internal s cc w = Ret (Some n) w.
Proof. intros H cc. unfold Defs.graph_add_node_internal. mred. by rewrite H. Qed.

(** With allocations that succeed, an identifier the lookup misses gets a
    new node at the end of the obstack. *)
Lemma graph_add_node_internal_new s cc w :
  table_ok (gph w) -> plentiful w -> bucket_find (gph w) s = None ->
  exists w', graph_add_node_internal s cc w = Ret (Some (length (node_os (gph w)))) w' /\
             plentiful w'.
Proof.
  intros Ht Hp Hf. destruct (graph_add_node_internal s cc w) as [on w'|f] eqn:E.
  - exists w'. destruct cc.
    + apply graph_add_node_internal_true in E
        as (Hs & [(n & _ & Hf' & _)|(_ & g1 & Hc & [(-> & Hg)|(-> & Hfalse & Hr)])]).
      * congruence.
      * split; [done|by eapply plentiful_osuf].
      * by destruct (Hp Hfalse).
    + apply graph_add_node_internal_false in E
        as (Hs & n & -> & [(Hf' & _)|(_ & -> & Hc)]); [congruence|].
      split; [done|by eapply plentiful_osuf].
  - apply graph_add_node_internal_Fatal in E as [_ Hfalse]; [|done]. by destruct (Hp Hfalse).
Qed.

(** The defect of the resize: once the table has grown, the lookup misses
    every identifier of the index whose hash value has the new bit set. *)
Lemma resize_loses s t n cc w k on w1 :
  table_ok (gph w) -> resize_due w k s n t ->
  graph_add_node_internal t cc w = Ret on w1 ->
  hashmask (gph w1) = 2 ^ (k + 1) - 1 /\
  bucket_find (gph w1) s = None /\
  (forall x, x ∈ concat (g_nodes (gph w)) -> x ∈ concat (g_nodes (gph w1))).
Proof.
  intros Ht [Hp Hk Hm Hc Hlt Hold Hbit Hnew] H.
  assert (s <> t) as Hst by (intros ->; congruence).
  unfold Defs.graph_add_node_internal in H. mred in H. rewrite Hnew in H.
  mcase H Ea as on1 wa.
  pose proof Ea as Ea'. apply graph_alloc_node_Ret in Ea' as (-> & _ & _ & _ & _ & _ & _ & Hsa).
  destruct (graph_alloc_node_resize _ w k _ wa Ht Hk Hm Hc Hlt Hp Ea) as (Hm1 & Hup & Hin).
  edestruct (node_created_intro jenkins_hash t (Z.of_nat (String.length t)) w) as [Hcr _]; [exact Ea|reflexivity|].
  cbn [gph] in Hcr.
  set (L := length (node_os (gph w))) in *.
  set (g1 := set_g_nodes _ _) in *.
  assert (hashmask g1 = 2 ^ (k + 1) - 1) as Hm1' by exact Hm1.
  assert (bucket_find g1 s = None) as Hlost.
  { unfold Defs.bucket_find. apply find_none_intro. intros x Hx.
    rewrite Hm1' in Hx. unfold g1 in Hx. simpl in Hx.
    apply bucket_push_lookup in Hx as [->|Hx].
    - apply andb_false_iff. right. apply Z.eqb_neq. intros E%strcmp_eq.
      apply Hst. rewrite E. exact (f_equal ident (cr_new _ _ _ Hcr)).
    - rewrite Hup in Hx; [by apply not_elem_of_nil in Hx|].
      pose proof (land_bit (hash_of s) k Hk Hbit).
      pose proof (land_mask_range (hash_of s) (k + 1) ltac:(lia)) as Hr.
      rewrite Z.land_comm in Hr. lia. }
  assert (forall x, x ∈ concat (g_nodes (gph w)) -> x ∈ concat (g_nodes g1)) as Hin1.
  { intros x Hx. unfold g1. simpl. by apply elem_of_concat_bucket_push, Hin. }
  assert (forall g', frame g1 g' ->
            hashmask g' = 2 ^ (k + 1) - 1 /\ bucket_find g' s = None /\
            (forall x, x ∈ concat (g_nodes (gph w)) -> x ∈ concat (g_nodes g'))) as Hfr.
  { intros g' F. rewrite (bucket_find_frame g1 g' s F), (fr_hashmask _ _ F), (fr_buckets _ _ F).
    done. }
  destruct cc.
  - mcase H Ec as oc wc.
    apply graph_new_component_Ret in Ec as (_ & [(_ & _ & Hf)|(-> & Hg)]).
    + exfalso. apply Hp. by eapply osuf_false.
    + injection H as _ <-. cbn [gph]. rewrite Hg. cbn [gph]. apply Hfr.
      eapply frame_trans; [apply frame_with_component|apply frame_component_add_node].
  - injection H as _ <-. apply Hfr, frame_refl.
Qed.

(** The node [graph_add_node_internal] returns is the one a lookup of the
    identifier finds afterwards. *)
Lemma graph_add_node_internal_indexed s cc w n w' :
  table_ok (gph w) ->
  graph_add_node_internal s cc w = Ret (Some n) w' ->
  bucket_find (gph w') s = Some n.
Proof.
  intros Ht H. unfold Defs.graph_add_node_internal in H. mred in H.
  destruct (bucket_find (gph w) s) as [m|] eqn:Ef.
  - by injection H as <- <-.
  - mcase H Ea as on1 wa.
    pose proof Ea as Ea'. apply graph_alloc_node_Ret in Ea' as (-> & _).
    edestruct (node_created_find jenkins_hash s (Z.of_nat (String.length s)) w) as [_ Hf1]; [exact Ht|exact Ea|reflexivity|].
    cbn [gph] in Hf1. destruct cc.
    + mcase H Ec as oc wc.
      apply graph_new_component_Ret in Ec as (_ & [(-> & Hg & _)|(-> & Hg)]).
      * mcase H Er as u wr. discriminate H.
      * injection H as <- <-. cbn [gph]. rewrite Hg. cbn [gph].
        rewrite <- Hf1. apply bucket_find_frame.
        eapply frame_trans; [apply frame_with_component|apply frame_component_add_node].
    + by injection H as <- <-.
Qed.

Lemma graph_add_node_internal_keeps s cc w n w' :
  table_ok (gph w) ->
  graph_add_node_internal s cc w = Ret (Some n) w' ->
  forall x, x ∈ concat (g_nodes (gph w)) -> x ∈ concat (g_nodes (gph w')).
Proof.
  intros Ht H x Hx. unfold Defs.graph_add_node_internal in H. mred in H.
  destruct (bucket_find (gph w) s) as [m|] eqn:Ef.
  - by injection H as _ <-.
  - mcase H Ea as on1 wa.
    pose proof (graph_alloc_node_keeps _ _ _ _ Ht Ea x Hx) as Hx1.
    destruct on1 as [L|]; [|discriminate H]. mred in H.
    assert (x ∈ concat (g_nodes (set_g_nodes
              (bucket_push (Z.land (hashmask (gph wa)) (hash_of s)) L)
              (upd_node L (fun _ => fresh_node s) (gph wa))))) as Hx2
      by (simpl; by apply elem_of_concat_bucket_push).
    destruct cc.
    + mcase H Ec as oc wc.
      apply graph_new_component_Ret in Ec as (_ & [(-> & Hg & _)|(-> & Hg)]).
      * mcase H Er as u wr. discriminate H.
      * injection H as _ <-. cbn [gph]. rewrite Hg. exact Hx2.
    + injection H as _ <-. exact Hx2.
Qed.

(** With allocations that succeed, [graph_add_node] on an identifier the
    lookup misses returns 1: a new node in a component of its own. *)
Lemma graph_add_node_new s w :
  graph_ok (gph w) -> plentiful w -> bucket_find (gph w) s = None ->
  let L := length (node_os (gph w)) in
  exists w', graph_add_node s w = Ret 1 w' /\
    graph_add_node_internal s true w = Ret (Some L) w' /\
    plentiful w' /\ graph_ok (gph w') /\
    length (node_os (gph w')) = S L /\
    ident (node_at (gph w') L) = s /\
    (forall m, (m < L)%nat -> ident (node_at (gph w') m) = ident (node_at (gph w) m)) /\
    components (gph w') = components (gph w) ++ [length (comp_store (gph w))] /\
    edge_total (gph w') = edge_total (gph w) /\
    L ∈ concat (g_nodes (gph w')) /\
    (forall x, x ∈ concat (g_nodes (gph w)) -> x ∈ concat (g_nodes (gph w'))).
Proof.
  intros Hok Hp Hf L.
  destruct (graph_add_node_internal_new s true w) as (wi & Ei & Hpi); [apply Hok|done..|].
  destruct (graph_add_node_total jenkins_hash s w Hok Hp) as (r & w' & E & _ & _).
  pose proof (graph_add_node_Ret _ _ _ _ _ Hok E) as (Hok' & _ & _ & Het & _).
  unfold Defs.graph_add_node in E. mred in E. fold L in Ei. rewrite Ei in E. mred in E.
  mcase E Ea as u wa. apply assert_Ret in Ea as [_ <-]. injection E as _ Hw. subst w'.
  exists wi. pose proof Ei as Ei'.
  apply graph_add_node_internal_true in Ei'
    as (_ & [(n & _ & Hf' & _)|(_ & g1 & Hc & [(_ & Hg)|([=] & _)])]); [congruence|].
  pose proof (created_struct_ok _ _ _ Hc (mok_struct _ (gok_mid _ Hok))) as Hs1.
  pose proof (frame_trans _ _ _ (frame_with_component g1)
                (frame_component_add_node (with_component g1) (length (comp_store g1)) L))
    as F.
  fold L in Hg. rewrite <- Hg in F.
  assert (components (gph wi) = components (gph w) ++ [length (comp_store (gph w))]) as Hcs.
  { rewrite Hg. simpl. by rewrite (cr_components _ _ _ Hc), (cr_store _ _ _ Hc). }
  split; [|split; [done|split; [done|split; [done|split; [|split; [|split; [|split]]]]]]].
  - unfold Defs.graph_add_node. mred. fold L. rewrite Ei. mred.
    rewrite bool_decide_eq_true_2 by (apply Hok'; rewrite (fr_length _ _ F), (cr_length _ _ _ Hc); fold L; lia).
    cbn [assert]. mred. rewrite Hcs, last_snoc.
    rewrite bool_decide_eq_false_2; [done|]. intros Hl%last_Some_elem_of.
    apply (ok_comps_alive _ (mok_struct _ (gok_mid _ Hok))), alive_lt in Hl. lia.
  - by rewrite (fr_length _ _ F), (cr_length _ _ _ Hc).
  - rewrite (fr_ident _ _ F). unfold L. by rewrite (cr_new _ _ _ Hc).
  - intros m Hm. rewrite (fr_ident _ _ F). by rewrite (cr_old _ _ _ Hc).
  - done.
  - split; [done|]. split.
    + apply graph_add_node_internal_indexed in Ei; [|apply Hok].
      by apply bucket_find_Some in Ei as [Hin _].
    + eapply graph_add_node_internal_keeps; [|exact Ei]. apply Hok.
Qed.

End Hash.

(** * Calls of [graph_add_edge] that do not fail *)

(** A call that does not return -1 leaves the index and the identity of
    the nodes alone, and it returns 0 only for a loop or for two nodes that
    both have a component already. *)
Lemma add_oriented_edge_succ sw m1 m2 w r w' :
  struct_ok (gph w) ->
  (m1 < length (node_os (gph w)))%nat -> (m2 < length (node_os (gph w)))%nat ->
  add_oriented_edge sw m1 m2 w = Ret r w' -> r <> -1 ->
  frame (gph w) (gph w') /\
  (r = 0 -> m1 = m2 \/
            (comp (node_at (gph w) m1) <> None /\ comp (node_at (gph w) m2) <> None)).
Proof.
  intros Hok Hv1 Hv2 H Hr. unfold add_oriented_edge in H. mred in H.
  destruct (Nat.eqb m1 m2 && has_flag (gph w) GRAPH_NOLOOP) eqn:Eloop.
  - apply andb_true_iff in Eloop as [Heq%Nat.eqb_eq _].
    destruct (bool_decide (comp (node_at (gph w) m1) = None)) eqn:Ec.
    + mcase H En as oc wn.
      apply graph_new_component_Ret in En as (_ & [(-> & Hg & _)|(-> & Hg)]).
      * mcase H Er as u wr. injection H as <- _. done.
      * injection H as <- <-. cbn [gph]. rewrite Hg. split; [|auto].
        eapply frame_trans; [apply frame_with_component|apply frame_component_add_node].
    + injection H as <- <-. split; [apply frame_refl|auto].
  - destruct (has_flag (gph w) GRAPH_NOPARALLEL
              && bool_decide (comp (node_at (gph w) m1) <> None)
              && bool_decide (comp (node_at (gph w) m1) = comp (node_at (gph w) m2))
              && graph_edge_exists (gph w) m1 m2) eqn:Epar.
    + injection H as <- <-. split; [apply frame_refl|]. intros _. right.
      apply andb_true_iff in Epar as [Epar _].
      apply andb_true_iff in Epar as [Epar Hc2%bool_decide_eq_true].
      apply andb_true_iff in Epar as [_ Hc1%bool_decide_eq_true].
      split; congruence.
    + mcase H Ed as r0 wd.
      apply do_add_edge_Ret in Ed as (Hsd & [Hfail|Hsucc]); [| |done..].
      * destruct Hfail as (-> & _). change (-1 <? 0) with true in H. cbv iota in H.
        destruct (if sw then (m2, m1) else (m1, m2)) as [a b].
        destruct (bool_decide (comp (node_at (gph wd) b) = None)).
        -- mcase H Er2 as u2 w2.
           destruct (negb (Nat.eqb a b) && bool_decide (comp (node_at (gph w2) a) = None)).
           ++ mcase H Er1 as u1 w3. injection H as <- _. done.
           ++ injection H as <- _. done.
        -- mred in H.
           destruct (negb (Nat.eqb a b) && bool_decide (comp (node_at (gph wd) a) = None)).
           ++ mcase H Er1 as u1 w3. injection H as <- _. done.
           ++ injection H as <- _. done.
      * destruct Hsucc as (-> & g1 & c & P1 & Hc1 & Hc2 & Hgd).
        change (1 <? 0) with false in H. cbv beta iota in H.
        mcase H Ea1 as u1 wa1. apply assert_Ret in Ea1 as [_ <-].
        mcase H Ea2 as u2 wa2. apply assert_Ret in Ea2 as [_ <-].
        pose proof (frame_trans _ _ _ (pr_frame _ _ P1) (frame_with_edge g1 c m1 m2)) as FE.
        rewrite <- Hgd in FE.
        destruct (has_flag (gph wd) GRAPH_DUAL && negb (Nat.eqb m1 m2)).
        -- mcase H Ed2 as r2 w2.
           assert (struct_ok (gph wd)) as Hsd'
             by (rewrite Hgd; by apply with_edge_ok; [| |apply P1]).
           apply do_add_edge_Ret in Ed2 as (_ & [Hfail2|Hsucc2]);
             [| |done|by rewrite (fr_length _ _ FE)..].
           ++ destruct Hfail2 as (-> & _). injection H as <- _. done.
           ++ destruct Hsucc2 as (-> & g2 & c2 & P2 & _ & _ & Hg2).
              injection H as <- <-. split; [|done].
              eapply frame_trans; [exact FE|]. rewrite Hg2.
              eapply frame_trans; [apply P2|apply frame_with_edge].
        -- injection H as <- <-. done.
Qed.

Lemma elem_of_identifiers g x :
  x ∈ identifiers g <-> exists m, (m < length (node_os g))%nat /\ ident (node_at g m) = x.
Proof.
  unfold identifiers, node_at. rewrite list_elem_of_fmap. split.
  - intros (y & -> & Hy). apply list_elem_of_lookup in Hy as [m Hm].
    exists m. split; [by eapply lookup_lt_Some|].
    by rewrite (list_lookup_total_correct _ _ _ Hm).
  - intros (m & Hm & <-). exists (node_os g !!! m). split; [done|].
    by apply list_elem_of_lookup_total_2.
Qed.

Section Hash.

Variable jenkins_hash : string -> Z -> Z -> Z.

Abbreviation hash_of := (hash_of jenkins_hash).
Abbreviation bucket_find := (bucket_find jenkins_hash).
Abbreviation graph_add_node_internal := (graph_add_node_internal jenkins_hash).
Abbreviation graph_add_node := (graph_add_node jenkins_hash).
Abbreviation graph_add_edge := (graph_add_edge jenkins_hash).

(** The steps of a call of [graph_add_edge] that does not return -1. *)
Lemma graph_add_edge_steps s1 s2 w r w' :
  mid_ok (gph w) -> graph_add_edge s1 s2 w = Ret r w' -> r <> -1 ->
  exists n1 w1 n2 wA,
    graph_add_node_internal s1 false w = Ret (Some n1) w1 /\
    graph_add_node_internal s2 false w1 = Ret (Some n2) wA /\
    resolved s1 s2 (gph w) (gph wA) n1 n2 /\
    frame (gph wA) (gph w') /\
    (r = 0 -> n1 = n2 \/
       (comp (node_at (gph wA) n1) <> None /\ comp (node_at (gph wA) n2) <> None)).
Proof.
  intros Hmid H Hr. unfold Defs.graph_add_edge in H. mred in H.
  mcase H E1 as on1 w1.
  destruct on1 as [n1|]; [|injection H as <- _; done]. mred in H.
  mcase H E2 as on2 wA.
  destruct (resolve_both jenkins_hash s1 s2 w _ w1 _ wA Hmid E1 E2)
    as (_ & n1' & n2 & [= <-] & -> & R & _).
  exists n1, w1, n2, wA. split; [done|]. split; [done|]. split; [done|].
  pose proof (rs_valid1 _ _ _ _ _ _ R) as Hv1.
  pose proof (rs_valid2 _ _ _ _ _ _ R) as Hv2.
  pose proof (mok_struct _ (rs_mid _ _ _ _ _ _ R)) as Hs.
  destruct (has_flag (gph wA) GRAPH_UNDIRECTED && (0 <? nodes_cmp (gph wA) n1 n2)).
  - apply add_oriented_edge_succ in H as [F Hz]; try done.
    split; [done|]. intros Hr0. destruct (Hz Hr0) as [->|[? ?]]; auto.
  - apply add_oriented_edge_succ in H as [F Hz]; try done.
Qed.

End Hash.

(** * A table that has given up growing *)

Lemma table_of_frame g g' : frame g g' -> table_of g' = table_of g.
Proof.
  intros F. unfold table_of.
  by rewrite (fr_buckets _ _ F), (fr_hashmask _ _ F), (fr_threshold _ _ F).
Qed.

Lemma table_of_removed n g g' : node_removed n g g' -> table_of g' = table_of g.
Proof.
  intros R. unfold table_of.
  by rewrite (rm_size _ _ _ R), (rm_hashmask _ _ _ R), (rm_threshold _ _ _ R).
Qed.

Lemma graph_alloc_node_saturated len w on w' :
  resize_threshold (gph w) = UINT32_MAX ->
  graph_alloc_node len w = Ret on w' -> table_of (gph w') = table_of (gph w).
Proof.
  intros Ht H. unfold graph_alloc_node in H. mred in H.
  mcase H Eo as b wo. apply node_os_alloc_Ret in Eo as (-> & Hg & _).
  cbn [negb] in H. mred in H. rewrite Hg in H. simpl in H. rewrite Ht in H.
  destruct (Z.ltb_spec UINT32_MAX (wrap32 (g_node_count (gph w) + 1))) as [Hlt|_].
  - exfalso. unfold wrap32, UINT32_MAX in Hlt.
    pose proof (Z.mod_pos_bound (g_node_count (gph w) + 1) 4294967296). lia.
  - mred in H. by injection H as _ <-.
Qed.

(** The rest of [graph_add_edge] never touches the table. *)
Lemma add_oriented_edge_table sw m1 m2 w r w' :
  struct_ok (gph w) ->
  (m1 < length (node_os (gph w)))%nat -> (m2 < length (node_os (gph w)))%nat ->
  add_oriented_edge sw m1 m2 w = Ret r w' -> table_of (gph w') = table_of (gph w).
Proof.
  intros Hok Hv1 Hv2 H.
  destruct (decide (r = -1)) as [->|Hr];
    [|by apply add_oriented_edge_succ in H as [F%table_of_frame _]].
  unfold add_oriented_edge in H. mred in H.
  destruct (Nat.eqb m1 m2 && has_flag (gph w) GRAPH_NOLOOP).
  - destruct (bool_decide (comp (node_at (gph w) m1) = None)); [|discriminate H].
    mcase H En as oc wn.
    apply graph_new_component_Ret in En as (_ & [(-> & Hg & _)|(-> & Hg)]);
      [|discriminate H].
    mcase H Er as u wr. injection H as <-.
    apply graph_remove_last_node_removed in Er as [R%table_of_removed _]. congruence.
  - destruct (has_flag (gph w) GRAPH_NOPARALLEL && _ && _ && _); [discriminate H|].
    mcase H Ed as r0 wd.
    apply do_add_edge_Ret in Ed as (_ & [Hfail|Hsucc]); [| |done..].
    + destruct Hfail as (-> & Hgd & _). change (-1 <? 0) with true in H. cbv iota in H.
      destruct (if sw then (m2, m1) else (m1, m2)) as [a b].
      assert (forall (c : bool) x (v v' : world),
                (if c then graph_remove_last_node x else ret tt) v = Ret tt v' ->
                table_of (gph v') = table_of (gph v)) as Hstep.
      { intros c x v v' E. destruct c; [|by injection E as <-].
        by apply graph_remove_last_node_removed in E as [R%table_of_removed _]. }
      mcase H E2 as u2 w2. destruct u2. apply Hstep in E2.
      mcase H E1 as u1 w3. destruct u1. apply Hstep in E1.
      injection H as <-. congruence.
    + destruct Hsucc as (-> & g1 & c & P1 & Hc1 & Hc2 & Hgd).
      change (1 <? 0) with false in H. cbv beta iota in H.
      mcase H Ea1 as u1 wa1. apply assert_Ret in Ea1 as [_ <-].
      mcase H Ea2 as u2 wa2. apply assert_Ret in Ea2 as [_ <-].
      destruct (has_flag (gph wd) GRAPH_DUAL && negb (Nat.eqb m1 m2)); [|discriminate H].
      mcase H Ed2 as r2 w2.
      assert (struct_ok (gph wd)) as Hsd'
        by (rewrite Hgd; by apply with_edge_ok; [| |apply P1]).
      pose proof (frame_trans _ _ _ (pr_frame _ _ P1) (frame_with_edge g1 c m1 m2)) as FE.
      rewrite <- Hgd in FE.
      apply do_add_edge_Ret in Ed2 as (_ & [Hfail2|Hsucc2]);
        [| |done|by rewrite (fr_length _ _ FE)..].
      * destruct Hfail2 as (-> & Hg2 & _). injection H as <-.
        rewrite Hg2. by apply table_of_frame.
      * destruct Hsucc2 as (-> & _). discriminate H.
Qed.

Section Hash.

Variable jenkins_hash : string -> Z -> Z -> Z.

Abbreviation hash_of := (hash_of jenkins_hash).
Abbreviation bucket_find := (bucket_find jenkins_hash).
Abbreviation graph_add_node_internal := (graph_add_node_internal jenkins_hash).
Abbreviation graph_add_node := (graph_add_node jenkins_hash).
Abbreviation graph_add_edge := (graph_add_edge jenkins_hash).
Abbreviation fresh_node s := (new_node (hash_of s) s).

Lemma graph_add_node_internal_saturated s cc w on w' :
  resize_threshold (gph w) = UINT32_MAX ->
  graph_add_node_internal s cc w = Ret on w' -> table_of (gph w') = table_of (gph w).
Proof.
  intros Ht H. unfold Defs.graph_add_node_internal in H. mred in H.
  destruct (bucket_find (gph w) s) as [m|] eqn:Ef.
  - by injection H as _ <-.
  - mcase H Ea as on1 wa.
    pose proof (graph_alloc_node_saturated _ _ _ _ Ht Ea) as Hta.
    destruct on1 as [L|]; [|by injection H as _ <-]. mred in H.
    set (g1 := set_g_nodes _ _) in H.
    assert (table_of g1 = table_of (gph w)) as Ht1.
    { rewrite <- Hta. unfold table_of, g1. simpl. by rewrite length_bucket_push. }
    destruct cc.
    + mcase H Ec as oc wc.
      apply graph_new_component_Ret in Ec as (_ & [(-> & Hg & _)|(-> & Hg)]).
      * mcase H Er as u wr. injection H as _ <-.
        apply graph_remove_last_node_removed in Er as [R%table_of_removed _].
        rewrite R, Hg. done.
      * injection H as _ <-. cbn [gph]. rewrite Hg. cbn [gph]. rewrite <- Ht1.
        apply table_of_frame.
        eapply frame_trans; [apply frame_with_component|apply frame_component_add_node].
    + by injection H as _ <-.
Qed.

Lemma graph_add_node_saturated s w r w' :
  resize_threshold (gph w) = UINT32_MAX ->
  graph_add_node s w = Ret r w' -> table_of (gph w') = table_of (gph w).
Proof.
  intros Ht H. unfold Defs.graph_add_node in H. mred in H.
  mcase H Ei as on wi. apply graph_add_node_internal_saturated in Ei; [|done].
  destruct on as [n|]; mred in H.
  - mcase H Ea as u wa. apply assert_Ret in Ea as [_ <-]. by injection H as _ <-.
  - by injection H as _ <-.
Qed.

Lemma graph_add_edge_saturated s1 s2 w r w' :
  mid_ok (gph w) -> resize_threshold (gph w) = UINT32_MAX ->
  graph_add_edge s1 s2 w = Ret r w' -> table_of (gph w') = table_of (gph w).
Proof.
  intros Hmid Ht H. unfold Defs.graph_add_edge in H. mred in H.
  mcase H E1 as on1 w1.
  pose proof (graph_add_node_internal_saturated _ _ _ _ _ Ht E1) as T1.
  destruct on1 as [n1|]; [|by injection H as _ <-]. mred in H.
  mcase H E2 as on2 wA.
  assert (resize_threshold (gph w1) = UINT32_MAX) as Ht1.
  { unfold table_of in T1. injection T1 as _ _ ->. done. }
  pose proof (graph_add_node_internal_saturated _ _ _ _ _ Ht1 E2) as T2.
  destruct (resolve_both jenkins_hash s1 s2 w _ w1 _ wA Hmid E1 E2)
    as (_ & n1' & n2 & [= <-] & -> & R & _).
  pose proof (rs_valid1 _ _ _ _ _ _ R) as Hv1.
  pose proof (rs_valid2 _ _ _ _ _ _ R) as Hv2.
  pose proof (mok_struct _ (rs_mid _ _ _ _ _ _ R)) as Hs.
  destruct (has_flag (gph wA) GRAPH_UNDIRECTED && (0 <? nodes_cmp (gph wA) n1 n2));
    apply add_oriented_edge_table in H; try done; congruence.
Qed.

End Hash.

(** * Loops under no-loop *)

Section Hash.

Variable jenkins_hash : string -> Z -> Z -> Z.

Abbreviation hash_of := (hash_of jenkins_hash).
Abbreviation bucket_find := (bucket_find jenkins_hash).
Abbreviation graph_add_node_internal := (graph_add_node_internal jenkins_hash).
Abbreviation graph_add_node := (graph_add_node jenkins_hash).
Abbreviation graph_add_edge := (graph_add_edge jenkins_hash).
Abbreviation fresh_node s := (new_node (hash_of s) s).

Lemma graph_add_edge_loop x w r w' :
  graph_ok (gph w) -> has_flag (gph w) GRAPH_NOLOOP = true ->
  graph_add_edge x x w = Ret r w' ->
  (r = 0 \/ (r = -1 /\ false ∈ oracle w)) /\
  (forall c, c ∈ components (gph w) -> comp_at (gph w') c = comp_at (gph w) c) /\
  (forall c, c ∈ components (gph w') -> c ∉ components (gph w) ->
             edge_count (comp_at (gph w') c) = 0) /\
  (r = 0 -> exists n, bucket_find (gph w') x = Some n /\
                      comp (node_at (gph w') n) <> None).
Proof.
  intros Hok Hnl H.
  pose proof (graph_add_edge_Ret jenkins_hash _ _ _ _ _ Hok H) as (Hok' & _ & _ & _).
  pose proof Hok as [Hmid Hall].
  unfold Defs.graph_add_edge in H. mred in H.
  mcase H E1 as on1 w1.
  pose proof E1 as E1'.
  apply graph_add_node_internal_resolve in E1' as (Hs1 & n & -> & Hm1 & Hf1 & Hcase); [|done].
  mred in H. rewrite (bucket_find_hit jenkins_hash x n w1 Hf1 false) in H. mred in H.
  assert (add_oriented_edge (has_flag (gph w1) GRAPH_UNDIRECTED && (0 <? nodes_cmp (gph w1) n n))
            n n w1 = Ret r w') as H'.
  { by destruct (has_flag (gph w1) GRAPH_UNDIRECTED && (0 <? nodes_cmp (gph w1) n n)). }
  clear H. revert H'. generalize (has_flag (gph w1) GRAPH_UNDIRECTED
                                   && (0 <? nodes_cmp (gph w1) n n)).
  intros sw H.
  assert (flags (gph w1) = flags (gph w) /\ comp_store (gph w1) = comp_store (gph w) /\
          components (gph w1) = components (gph w)) as (Hfl & Hst & Hcs).
  { destruct Hcase as [[_ ->]|(_ & _ & Hc)]; [done|]. split_and!; apply Hc. }
  assert (forall c, comp_at (gph w1) c = comp_at (gph w) c) as Hca.
  { intros c. unfold comp_at. by rewrite Hst. }
  unfold add_oriented_edge in H. mred in H.
  rewrite Nat.eqb_refl, (has_flag_same (gph w) (gph w1)), Hnl in H by done.
  cbn [andb] in H.
  destruct (bool_decide (comp (node_at (gph w1) n) = None)) eqn:Ec.
  - apply bool_decide_eq_true in Ec.
    mcase H En as oc wn.
    apply graph_new_component_Ret in En as (Hs2 & [(-> & Hg & Hf)|(-> & Hg)]).
    + mcase H Er as u wr. injection H as <- <-.
      apply graph_remove_last_node_removed in Er as [Hr _].
      rewrite Hg in Hr.
      assert (forall c, comp_at (gph wr) c = comp_at (gph w) c) as Hcr.
      { intros c. rewrite <- Hca. unfold comp_at. by rewrite (rm_store _ _ _ Hr). }
      split; [right; split; [done|by eapply osuf_false]|].
      split; [auto|]. split; [|done].
      intros c Hc Hn. rewrite (rm_components _ _ _ Hr), Hcs in Hc. done.
    + injection H as <- <-. cbn [gph]. rewrite Hg.
      set (c' := length (comp_store (gph w1))).
      pose proof (mok_struct _ Hm1) as Hs.
      pose proof (prep_with_component (gph w1) Hs) as P1.
      assert (c' ∈ components (with_component (gph w1))) as Hc'
        by (simpl; apply elem_of_app; right; by apply list_elem_of_singleton).
      assert (n < length (node_os (gph w1)))%nat as Hv.
      { apply bucket_find_Some in Hf1 as [Hin _]. by apply (ok_bucket_valid _ (mok_index _ Hm1)). }
      assert (forall d, comp_at (component_add_node c' n (with_component (gph w1))) d =
                if decide (d = c')
                then mkComponent ([] ++ [n]) (wrap32 (0 + 1)) 0
                else comp_at (gph w) d) as Hcomp.
      { intros d. rewrite can_comp by (done || apply P1).
        rewrite !wc_comp by done. fold c'.
        destruct (decide (d = c')) as [->|?]; [by rewrite decide_True|by rewrite Hca]. }
      split; [by left|]. split; [|split].
      * intros c Hc. rewrite Hcomp. rewrite decide_False; [done|].
        intros ->. rewrite <- Hcs in Hc.
        apply (ok_comps_alive _ Hs), alive_lt in Hc. unfold c' in Hc. lia.
      * intros c Hc Hn. rewrite Hcomp.
        destruct (decide (c = c')) as [->|Hne]; [done|].
        simpl in Hc. rewrite Hcs in Hc. apply elem_of_app in Hc as [Hc|Hc]; [done|].
        apply list_elem_of_singleton in Hc. done.
      * intros _. exists n. split.
        -- rewrite <- Hf1. apply bucket_find_frame.
           eapply frame_trans; [apply frame_with_component|apply frame_component_add_node].
        -- rewrite can_node by (done || apply P1). by rewrite decide_True.
  - apply bool_decide_eq_false in Ec. injection H as <- <-.
    split; [by left|]. split; [auto|]. split.
    + intros c Hc Hn. by rewrite Hcs in Hc.
    + intros _. by exists n.
Qed.

End Hash.

(** * Sorted arrays of node pointers *)

Lemma sorted_lookup_lt (l : list nat) i j :
  StronglySorted lt l -> (i < j)%nat -> (j < length l)%nat -> (l !!! i < l !!! j)%nat.
Proof.
  intros Hs. revert i j. induction Hs as [|x l Hs IH Hx]; intros i j Hij Hj; simpl in *.
  - lia.
  - destruct j as [|j]; [lia|]. destruct i as [|i]; simpl.
    + rewrite Forall_forall in Hx. apply Hx, list_elem_of_lookup_total_2. lia.
    + apply IH; lia.
Qed.

Lemma sorted_NoDup (l : list nat) : StronglySorted lt l -> NoDup l.
Proof.
  induction 1 as [|x l Hs IH Hx]; constructor; [|done].
  rewrite Forall_forall in Hx. intros Hin. specialize (Hx x Hin). lia.
Qed.

Lemma sorted_snoc (l : list nat) x :
  StronglySorted lt l -> (forall y, y ∈ l -> (y < x)%nat) -> StronglySorted lt (l ++ [x]).
Proof.
  intros Hs Hx. apply StronglySorted_app_2; [|done|repeat constructor].
  intros a b Ha ->%list_elem_of_singleton. by apply Hx.
Qed.

Lemma sorted_insert (l : list nat) x p :
  StronglySorted lt l ->
  (forall i, (i < p)%nat -> (i < length l)%nat -> (l !!! i < x)%nat) ->
  (forall i, (p <= i)%nat -> (i < length l)%nat -> (x < l !!! i)%nat) ->
  StronglySorted lt (take p l ++ x :: drop p l).
Proof.
  intros Hs Hlo Hhi. rewrite <- (take_drop p l) in Hs.
  apply StronglySorted_app in Hs as (Hcross & Hs1 & Hs2).
  assert (forall a, a ∈ take p l -> (a < x)%nat) as H1.
  { intros a (i & Hi & Hip)%elem_of_take.
    rewrite <- (list_lookup_total_correct _ _ _ Hi). apply Hlo; [done|].
    by eapply lookup_lt_Some. }
  assert (forall b, b ∈ drop p l -> (x < b)%nat) as H2.
  { intros b (i & Hi)%list_elem_of_lookup. rewrite lookup_drop in Hi.
    rewrite <- (list_lookup_total_correct _ _ _ Hi). apply Hhi; [lia|].
    by eapply lookup_lt_Some. }
  apply StronglySorted_app_2; [|done|].
  - intros a b Ha [->|Hb]%elem_of_cons; [by apply H1|by apply Hcross].
  - constructor; [done|]. apply Forall_forall. exact H2.
Qed.

Lemma sorted_filter (P : nat -> Prop) `{forall x, Decision (P x)} (l : list nat) :
  StronglySorted lt l -> StronglySorted lt (filter P l).
Proof.
  induction 1 as [|x l Hs IH Hx]; [constructor|].
  rewrite filter_cons. destruct (decide (P x)); [|done].
  constructor; [done|]. rewrite Forall_forall in *.
  intros y [_ Hy]%list_elem_of_filter. by apply Hx.
Qed.

(** A set of [n] distinct nodes below [N] has at most [N] members. *)
Lemma bounded_length (l : list nat) N :
  NoDup l -> (forall x, x ∈ l -> (x < N)%nat) -> (length l <= N)%nat.
Proof.
  intros Hnd Hb. replace N with (length (seq 0 N)) at 1 by apply length_seq.
  apply submseteq_length.
  apply NoDup_submseteq; [done|]. intros x Hx. apply elem_of_seq. specialize (Hb x Hx). lia.
Qed.

Lemma cmp_nodeptr_cases x y :
  (cmp_nodeptr x y = -1 /\ (x < y)%nat) \/
  (cmp_nodeptr x y = 1 /\ (y < x)%nat) \/
  (cmp_nodeptr x y = 0 /\ x = y).
Proof.
  unfold cmp_nodeptr.
  destruct (Nat.ltb_spec x y); [by left|]. destruct (Nat.ltb_spec y x); [right; by left|].
  right. right. split; [done|lia].
Qed.

Lemma midpoint lower upper :
  0 <= lower -> lower < upper -> upper < 2 ^ 31 ->
  let idx := wrap32 (lower + upper) / 2 in
  lower <= idx < upper /\ wrap32 (idx + 1) = idx + 1.
Proof.
  intros H0 H1 H2. unfold wrap32. cbv zeta.
  rewrite (Z.mod_small (lower + upper)) by lia.
  assert (lower <= (lower + upper) / 2 < upper) as Hm.
  { split; [apply Z.div_le_lower_bound; lia|apply Z.div_lt_upper_bound; lia]. }
  split; [done|]. apply Z.mod_small. lia.
Qed.

(** The binary search of [nodeset_contains] on a sorted array of fewer
    than 2^31 nodes ends and tells whether the node is a member. *)
Lemma contains_loop_spec (l : list nat) node :
  StronglySorted lt l -> Z.of_nat (length l) < 2 ^ 31 ->
  forall fuel lower upper,
    0 <= lower <= upper -> upper <= Z.of_nat (length l) ->
    upper - lower <= Z.of_nat fuel ->
    (forall i, Z.of_nat i < lower -> (l !!! i < node)%nat) ->
    (forall i, upper <= Z.of_nat i -> (i < length l)%nat -> (node < l !!! i)%nat) ->
    contains_loop fuel l node lower upper = Some (bool_decide (node ∈ l)).
Proof.
  intros Hs Hlen. induction fuel as [|fuel IH]; intros lower upper Hlu Hu Hf Hlo Hhi.
  - simpl. destruct (Z.ltb_spec lower upper); [lia|].
    rewrite bool_decide_eq_false_2; [done|].
    intros (i & Hi & <-)%list_elem_of_lookup_total.
    destruct (decide (Z.of_nat i < lower)) as [Hc|Hc].
    + specialize (Hlo i Hc). lia.
    + specialize (Hhi i ltac:(lia) Hi). lia.
  - cbn [contains_loop]. destruct (Z.ltb_spec lower upper) as [Hlt|Hge].
    + destruct (midpoint lower upper) as [Hidx Hw]; [lia..|]. cbv zeta in Hidx, Hw.
      set (idx := wrap32 (lower + upper) / 2) in *.
      assert (Z.to_nat idx < length l)%nat as Hil by lia.
      destruct (cmp_nodeptr_cases (l !!! Z.to_nat idx) node) as [[-> Hc]|[[-> Hc]|[-> Hc]]];
        simpl.
      * rewrite Hw. apply IH; try lia; try done.
        intros i Hi. destruct (decide (i = Z.to_nat idx)) as [->|Hne]; [done|].
        pose proof (sorted_lookup_lt l i (Z.to_nat idx) Hs ltac:(lia) Hil). lia.
      * apply IH; try lia; try done.
        intros i Hi Hi'. destruct (decide (i = Z.to_nat idx)) as [->|Hne]; [done|].
        pose proof (sorted_lookup_lt l (Z.to_nat idx) i Hs ltac:(lia) Hi'). lia.
      * rewrite bool_decide_eq_true_2; [done|].
        rewrite <- Hc. by apply list_elem_of_lookup_total_2.
    + rewrite bool_decide_eq_false_2; [done|].
      intros (i & Hi & <-)%list_elem_of_lookup_total.
      destruct (decide (Z.of_nat i < lower)) as [Hc|Hc].
      * specialize (Hlo i Hc). lia.
      * specialize (Hhi i ltac:(lia) Hi). lia.
Qed.

Lemma insert_loop_spec (l : list nat) node :
  StronglySorted lt l -> Z.of_nat (length l) < 2 ^ 31 -> node ∉ l ->
  forall fuel lower upper idx cmp,
    0 <= lower <= upper -> upper <= Z.of_nat (length l) ->
    upper - lower <= Z.of_nat fuel ->
    (forall i, Z.of_nat i < lower -> (l !!! i < node)%nat) ->
    (forall i, upper <= Z.of_nat i -> (i < length l)%nat -> (node < l !!! i)%nat) ->
    (lower < upper \/ (if cmp <? 0 then wrap32 (idx + 1) else idx) = lower) ->
    exists idx' cmp',
      insert_loop fuel l node lower upper idx cmp = Some (Some (idx', cmp')) /\
      insertion_point l node (if cmp' <? 0 then wrap32 (idx' + 1) else idx').
Proof.
  intros Hs Hlen Hnot.
  induction fuel as [|fuel IH]; intros lower upper idx0 cmp0 Hlu Hu Hf Hlo Hhi Hp.
  - simpl. destruct (Z.ltb_spec lower upper); [lia|].
    destruct Hp as [?|Hp]; [lia|]. exists idx0, cmp0. split; [done|].
    rewrite Hp. split; [lia|]. split; [done|]. intros i ? ?. apply Hhi; lia.
  - cbn [insert_loop]. destruct (Z.ltb_spec lower upper) as [Hlt|Hge].
    + destruct (midpoint lower upper) as [Hidx Hw]; [lia..|]. cbv zeta in Hidx, Hw.
      set (idx := wrap32 (lower + upper) / 2) in *.
      assert (Z.to_nat idx < length l)%nat as Hil by lia.
      destruct (cmp_nodeptr_cases (l !!! Z.to_nat idx) node) as [[-> Hc]|[[-> Hc]|[-> Hc]]];
        simpl.
      * rewrite Hw. apply IH; try lia; try done.
        -- intros i Hi. destruct (decide (i = Z.to_nat idx)) as [->|Hne]; [done|].
           pose proof (sorted_lookup_lt l i (Z.to_nat idx) Hs ltac:(lia) Hil). lia.
        -- right. exact Hw.
      * apply IH; try lia; try done.
        -- intros i Hi Hi'. destruct (decide (i = Z.to_nat idx)) as [->|Hne]; [done|].
           pose proof (sorted_lookup_lt l (Z.to_nat idx) i Hs ltac:(lia) Hi'). lia.
        -- change (1 <? 0) with false. cbv iota. lia.
      * exfalso. apply Hnot. rewrite <- Hc. by apply list_elem_of_lookup_total_2.
    + destruct Hp as [?|Hp]; [lia|]. exists idx0, cmp0. split; [done|].
      rewrite Hp. split; [lia|]. split; [done|]. intros i ? ?. apply Hhi; lia.
Qed.

(** * Steps of the clique search that return *)

Lemma total_ret {A} (a : A) s (Q : A -> cstate -> Prop) : Q a s -> total (ret a) s Q.
Proof. intros H. by exists a, s. Qed.

Lemma total_bind {A B} (m : M cstate A) (k : A -> M cstate B) s Q :
  total m s (fun a s1 => total (k a) s1 Q) -> total (bind m k) s Q.
Proof.
  intros (a & s1 & E & b & s2 & E2 & HQ). exists b, s2. split; [|done].
  unfold bind. by rewrite E.
Qed.

Lemma total_mono {A} (m : M cstate A) s (Q Q' : A -> cstate -> Prop) :
  total m s Q -> (forall a s', Q a s' -> Q' a s') -> total m s Q'.
Proof. intros (a & s' & E & HQ) H. exists a, s'. auto. Qed.

(** Run the step [m] with what is known of it, then go on. *)
Lemma total_step {A B} (m : M cstate A) (k : A -> M cstate B) s Q Q' :
  total m s Q' -> (forall a s1, Q' a s1 -> total (k a) s1 Q) -> total (bind m k) s Q.
Proof. intros H Hk. apply total_bind. by eapply total_mono. Qed.

Lemma total_assert (b : bool) s (Q : unit -> cstate -> Prop) :
  b = true -> Q tt s -> total (assert b) s Q.
Proof. intros -> H. by exists tt, s. Qed.

Lemma total_or_hang {A} (o : option A) a s (Q : A -> cstate -> Prop) :
  o = Some a -> Q a s -> total (or_hang o) s Q.
Proof. intros -> H. by exists a, s. Qed.

Lemma quiet_refl s : quiet s s.
Proof. by split. Qed.

Lemma quiet_trans s1 s2 s3 : quiet s1 s2 -> quiet s2 s3 -> quiet s1 s3.
Proof. intros [? ?] [? ?]. split; congruence. Qed.

Lemma cmalloc_total s : total cmalloc s (fun _ s' => quiet s s').
Proof.
  unfold total, cmalloc. destruct (mem s) as [|[] o]; eexists _, _; (split; [reflexivity|]);
    by split.
Qed.

Lemma set_R_total f s :
  total (set_R f) s (fun _ s' => ctx_R s' = f (ctx_R s) /\ calls s' = calls s).
Proof. eexists _, _. split; [reflexivity|]. by split. Qed.

Lemma nodeset_increase_capacity_total ns s :
  total (nodeset_increase_capacity ns) s (fun rn s' =>
    quiet s s' /\ ns_nodes (snd rn) = ns_nodes ns /\ sorted (snd rn) = sorted ns /\
    (fst rn = 0 /\ cap (snd rn) = wrap32 (cap ns + cap ns / 2 + 1) \/
     fst rn = -1 /\ snd rn = ns)).
Proof.
  unfold nodeset_increase_capacity. eapply total_step; [apply cmalloc_total|].
  intros b s1 Hq. destruct b; simpl; apply total_ret; split_and!; auto.
Qed.

(** The capacity check at the head of [nodeset_append] and
    [nodeset_insert_sorted]. *)
Lemma room_total ns s :
  total (if len ns =? cap ns then nodeset_increase_capacity ns else ret (0, ns)) s
    (fun rn s' =>
       quiet s s' /\ ns_nodes (snd rn) = ns_nodes ns /\ sorted (snd rn) = sorted ns /\
       (fst rn = 0 \/ fst rn = -1) /\
       (len ns <> cap ns -> rn = (0, ns)) /\
       (fst rn = 0 -> len ns = cap ns -> cap (snd rn) = wrap32 (cap ns + cap ns / 2 + 1))).
Proof.
  destruct (Z.eqb_spec (len ns) (cap ns)) as [E|E].
  - eapply total_mono; [apply nodeset_increase_capacity_total|].
    intros [r ns'] s' (Hq & Hn & Hs & Hr); simpl in *.
    split_and!; try done.
    + destruct Hr as [[-> _]|[-> _]]; auto.
    + intros Hr0 _. destruct Hr as [[_ ?]|[? _]]; [done|lia].
  - apply total_ret. simpl. split_and!; auto using quiet_refl. done.
Qed.

Lemma nodeset_append_total ns x s :
  total (nodeset_append ns x) s (fun rn s' =>
    quiet s s' /\ (fst rn = 0 \/ fst rn = -1) /\
    (fst rn = 0 -> ns_nodes (snd rn) = ns_nodes ns ++ [x]) /\
    (len ns <> cap ns -> fst rn = 0 /\ cap (snd rn) = cap ns)).
Proof.
  unfold nodeset_append. eapply total_step; [apply room_total|].
  intros [r ns'] s1 (Hq & Hn & Hs & Hr & Hroom & _); simpl in *.
  destruct Hr as [->| ->]; simpl; apply total_ret; simpl.
  - split_and!; auto.
    + intros _. by rewrite Hn.
    + intros Hne. split; [done|]. by injection (Hroom Hne) as ->.
  - split_and!; auto; try done. intros Hne. by injection (Hroom Hne).
Qed.

Lemma sorted_last_max (l : list nat) y :
  StronglySorted lt l -> y ∈ l -> (y <= List.last l 0)%nat.
Proof.
  intros Hs. revert y.
  induction Hs as [|x l Hs IH Hx]; intros y Hy; [by apply not_elem_of_nil in Hy|].
  rewrite Forall_forall in Hx.
  destruct l as [|z l]; simpl.
  - apply list_elem_of_singleton in Hy. lia.
  - apply elem_of_cons in Hy as [->|Hy]; [|by apply IH].
    assert (z <= List.last (z :: l) 0)%nat by (apply IH; left).
    specialize (Hx z ltac:(left)). simpl in *. lia.
Qed.

Lemma last_elem {A} (l : list A) d : l <> [] -> List.last l d ∈ l.
Proof.
  intros Hl. rewrite (app_removelast_last d Hl) at 2.
  apply elem_of_app. right. by apply list_elem_of_singleton.
Qed.

Lemma existsb_eqb (l : list nat) x : existsb (Nat.eqb x) l = bool_decide (x ∈ l).
Proof.
  induction l as [|y l IH]; cbn [existsb].
  - symmetry. apply bool_decide_eq_false_2, not_elem_of_nil.
  - destruct (Nat.eqb_spec x y) as [->|Hne]; cbn [orb].
    + symmetry. apply bool_decide_eq_true_2. left.
    + rewrite IH. apply bool_decide_ext. rewrite elem_of_cons. naive_solver.
Qed.

Section Sets.

(** [N] nodes in the obstack, fewer than 2^31: the sums of two indices in
    the binary searches do not wrap. *)
Variable N : nat.
Hypothesis HN : Z.of_nat N < 2 ^ 31.

Lemma wf_set_length ns : wf_set N ns -> Z.of_nat (length (ns_nodes ns)) < 2 ^ 31.
Proof.
  intros (_ & Hs & Hb).
  pose proof (bounded_length _ N (sorted_NoDup _ Hs) Hb). lia.
Qed.

Lemma wf_set_clear ns : wf_set N (nodeset_clear ns).
Proof.
  split; [done|]. split; [constructor|]. intros x Hx. by apply not_elem_of_nil in Hx.
Qed.

Lemma nodeset_contains_spec ns x :
  wf_set N ns -> nodeset_contains ns x = Some (bool_decide (x ∈ ns_nodes ns)).
Proof.
  intros Hwf. pose proof (wf_set_length ns Hwf) as Hlen. destruct Hwf as (Hf & Hs & Hb).
  unfold nodeset_contains. rewrite Hf. cbn [andb].
  destruct (7 <=? len ns).
  - unfold len. apply contains_loop_spec; try done; lia.
  - by rewrite existsb_eqb.
Qed.

Lemma intersect_loop_spec B src :
  wf_set N B ->
  intersect_loop B src = Some (filter (fun x => x ∈ ns_nodes B) src).
Proof.
  intros Hwf. induction src as [|x src IH]; [done|].
  cbn [intersect_loop]. rewrite (nodeset_contains_spec B x Hwf), IH, filter_cons.
  destruct (decide (x ∈ ns_nodes B)) as [Hx|Hx].
  - by rewrite bool_decide_eq_true_2.
  - by rewrite bool_decide_eq_false_2.
Qed.

Lemma nodeset_intersect_spec A B :
  wf_set N A -> wf_set N B ->
  exists A', nodeset_intersect A B = Some A' /\ wf_set N A' /\
             forall y, y ∈ ns_nodes A' <-> y ∈ ns_nodes A /\ y ∈ ns_nodes B.
Proof.
  intros (Hf & Hs & Hb) HB. unfold nodeset_intersect.
  rewrite (intersect_loop_spec B _ HB). eexists. split; [done|]. split.
  - split; [done|]. split; [by apply sorted_filter|].
    simpl. intros x [_ Hx]%list_elem_of_filter. by apply Hb.
  - intros y. simpl. rewrite list_elem_of_filter. naive_solver.
Qed.

Lemma nodeset_insert_sorted_total ns x s :
  wf_set N ns -> x ∉ ns_nodes ns -> (x < N)%nat ->
  total (nodeset_insert_sorted ns x) s (fun rn s' =>
    quiet s s' /\ (fst rn = 0 \/ fst rn = -1) /\
    (fst rn = 0 -> wf_set N (snd rn) /\
                   forall y, y ∈ ns_nodes (snd rn) <-> y = x \/ y ∈ ns_nodes ns)).
Proof.
  intros Hwf Hx HxN. pose proof (wf_set_length ns Hwf) as Hlen.
  destruct Hwf as (Hf & Hs & Hb).
  unfold nodeset_insert_sorted. eapply total_step; [apply room_total|].
  intros [r ns'] s1 (Hq & Hn & Hs' & Hr & _); simpl in *.
  destruct Hr as [->| ->]; simpl; [|apply total_ret; simpl; split_and!; auto; done].
  unfold len. rewrite Hs', Hf, !Hn. cbn [negb orb andb].
  assert (forall l', l' ≡ₚ x :: ns_nodes ns ->
            forall y, y ∈ l' <-> y = x \/ y ∈ ns_nodes ns) as Hperm.
  { intros l' Hp y. rewrite Hp. apply elem_of_cons. }
  assert (forall l', l' ≡ₚ x :: ns_nodes ns -> forall y, y ∈ l' -> (y < N)%nat) as Hbnd.
  { intros l' Hp y [->|Hy]%Hperm; auto. }
  destruct (Z.eqb_spec (Z.of_nat (length (ns_nodes ns))) 0) as [E0|E0].
  - (* the first node of the set *)
    apply total_ret. simpl. split; [done|]. split; [by left|]. intros _.
    assert (ns_nodes ns = []) as El by (destruct (ns_nodes ns); [done|simpl in E0; lia]).
    unfold nodeset_sort. simpl. rewrite El. simpl.
    split; [|intros y; rewrite elem_of_cons; naive_solver].
    split; [done|]. split; [repeat constructor|].
    intros y ->%list_elem_of_singleton. done.
  - destruct (cmp_nodeptr_cases (List.last (ns_nodes ns) 0%nat) x)
      as [[Ec Hc]|[[Ec Hc]|[Ec Hc]]]; rewrite Ec; simpl.
    + (* after the last node *)
      apply total_ret. simpl. split; [done|]. split; [by left|]. intros _.
      assert (ns_nodes ns ++ [x] ≡ₚ x :: ns_nodes ns) as Hp
        by (by rewrite Permutation_app_comm).
      split; [|by apply Hperm].
      split; [done|]. split; [|by apply Hbnd].
      apply sorted_snoc; [done|]. intros y Hy.
      pose proof (sorted_last_max _ y Hs Hy). lia.
    + (* somewhere before: the binary search *)
      destruct (insert_loop_spec (ns_nodes ns) x Hs Hlen Hx (length (ns_nodes ns))
                  0 (Z.of_nat (length (ns_nodes ns))) 0 0)
        as (idx & cmp & Eloop & Hp0 & Hplo & Hphi); try lia.
      eapply (total_step _ _ _ _ (fun found s2 => found = Some (idx, cmp) /\ quiet s s2));
        [eapply total_or_hang; [exact Eloop|]; by split|].
      intros found s2 [-> Hq2]. apply total_ret. simpl.
      split; [done|]. split; [by left|]. intros _.
      set (p := if cmp <? 0 then wrap32 (idx + 1) else idx) in *.
      assert (take (Z.to_nat p) (ns_nodes ns) ++ x :: drop (Z.to_nat p) (ns_nodes ns)
              ≡ₚ x :: ns_nodes ns) as Hp.
      { rewrite <- Permutation_middle. by rewrite take_drop. }
      split; [|by apply Hperm].
      split; [done|]. split; [|by apply Hbnd].
      apply sorted_insert; [done|intros i ? ?; apply Hplo; lia|intros i ? ?; apply Hphi; lia].
    + (* the last node itself: but the node is not a member *)
      exfalso. apply Hx. rewrite <- Hc.
      apply last_elem. intros El. rewrite El in E0. simpl in E0. lia.
Qed.

Lemma insert_all_total ns l s :
  wf_set N ns -> NoDup l ->
  (forall x, x ∈ l -> (x ∉ ns_nodes ns) /\ (x < N)%nat) ->
  total (insert_all ns l) s (fun rn s' =>
    quiet s s' /\ (fst rn = 0 \/ fst rn = -1) /\
    (fst rn = 0 -> wf_set N (snd rn) /\
                   forall y, y ∈ ns_nodes (snd rn) <-> y ∈ l \/ y ∈ ns_nodes ns)).
Proof.
  revert ns s. induction l as [|x l IH]; intros ns s Hwf Hnd Hl; cbn [insert_all].
  - apply total_ret. simpl. split; [apply quiet_refl|]. split; [by left|]. intros _.
    split; [done|]. intros y. rewrite elem_of_nil. naive_solver.
  - apply NoDup_cons in Hnd as [Hx Hnd]. assert (x ∈ x :: l) as Hxin by left. destruct (Hl x Hxin) as [Hxn HxN].
    eapply total_step; [by apply nodeset_insert_sorted_total|].
    intros [r ns'] s1 (Hq & Hr & Hok); simpl in *.
    destruct Hr as [->| ->]; simpl; [|apply total_ret; simpl; split_and!; auto; done].
    destruct (Hok eq_refl) as [Hwf' Hel].
    eapply total_mono; [apply IH; [done|done|]|].
    + intros y Hy. split; [|by apply Hl; right].
      rewrite Hel. intros [->|Hy']; [done|]. by apply (Hl y); [right|].
    + intros [r ns''] s2 (Hq2 & Hr2 & Hok2); simpl in *.
      split; [by eapply quiet_trans|]. split; [done|]. intros Hr0.
      destruct (Hok2 Hr0) as [Hwf'' Hel'']. split; [done|].
      intros y. rewrite Hel'', Hel, elem_of_cons. naive_solver.
Qed.

Lemma insert_members_total nX nP l s :
  wf_set N nX -> wf_set N nP -> NoDup l ->
  (forall x, x ∈ l -> (x ∉ ns_nodes nP) /\ (x < N)%nat) ->
  total (insert_members nX nP l) s (fun rn s' =>
    quiet s s' /\ (fst rn = 0 \/ fst rn = -1) /\
    (fst rn = 0 -> wf_set N (snd rn) /\
       forall y, y ∈ ns_nodes (snd rn) <->
                 (y ∈ l /\ y ∈ ns_nodes nX) \/ y ∈ ns_nodes nP)).
Proof.
  intros HX. revert nP s.
  induction l as [|x l IH]; intros nP s Hwf Hnd Hl; cbn [insert_members].
  - apply total_ret. simpl. split; [apply quiet_refl|]. split; [by left|]. intros _.
    split; [done|]. intros y. rewrite elem_of_nil. naive_solver.
  - apply NoDup_cons in Hnd as [Hx Hnd]. assert (x ∈ x :: l) as Hxin by left. destruct (Hl x Hxin) as [Hxn HxN].
    eapply (total_step _ _ _ _ (fun b s1 => b = bool_decide (x ∈ ns_nodes nX) /\ s1 = s));
      [eapply total_or_hang; [by apply nodeset_contains_spec|done]|].
    intros b s1 [-> ->]. destruct (decide (x ∈ ns_nodes nX)) as [Hin|Hout].
    + rewrite bool_decide_eq_true_2 by done.
      eapply total_step; [by apply nodeset_insert_sorted_total|].
      intros [r nP'] s1 (Hq & Hr & Hok); simpl in *.
      destruct Hr as [->| ->]; simpl; [|apply total_ret; simpl; split_and!; auto; done].
      destruct (Hok eq_refl) as [Hwf' Hel].
      eapply total_mono; [apply IH; [done|done|]|].
      * intros y Hy. split; [|by apply Hl; right].
        rewrite Hel. intros [->|Hy']; [done|]. by apply (Hl y); [right|].
      * intros [r nP''] s2 (Hq2 & Hr2 & Hok2); simpl in *.
        split; [by eapply quiet_trans|]. split; [done|]. intros Hr0.
        destruct (Hok2 Hr0) as [Hwf'' Hel'']. split; [done|].
        intros y. rewrite Hel'', Hel, elem_of_cons. naive_solver.
    + rewrite bool_decide_eq_false_2 by done.
      eapply total_mono; [apply IH; [done|done|]|].
      * intros y Hy. apply Hl. by right.
      * intros [r nP''] s2 (Hq2 & Hr2 & Hok2); simpl in *.
        split; [done|]. split; [done|]. intros Hr0.
        destruct (Hok2 Hr0) as [Hwf'' Hel'']. split; [done|].
        intros y. rewrite Hel'', elem_of_cons. naive_solver.
Qed.

End Sets.

Lemma nodeset_alloc_total init s :
  total (nodeset_alloc init) s (fun o s' =>
    quiet s s' /\
    forall ns, o = Some ns ->
      ns_nodes ns = [] /\ sorted ns = true /\ cap ns = if init <? 7 then 7 else init).
Proof.
  unfold nodeset_alloc. eapply total_step; [apply cmalloc_total|].
  intros b s1 Hq1. destruct b; simpl; [|by apply total_ret].
  eapply total_step; [apply cmalloc_total|].
  intros b s2 Hq2. destruct b; simpl; apply total_ret.
  - split; [by eapply quiet_trans|]. by intros ns [= <-].
  - split; [by eapply quiet_trans|]. done.
Qed.

Lemma nsp_get_total cap_ s : total (nsp_get cap_) s (fun _ s' => quiet s s').
Proof.
  unfold nsp_get, get, put. unfold total, bind.
  destruct (pool_sets s) as [|ns rest] eqn:E; simpl.
  - destruct (nodeset_alloc_total cap_ s) as (o & s' & Ea & Hq & _).
    exists o, s'. done.
  - eexists _, _. split; [reflexivity|]. by split.
Qed.

Lemma nsp_put_total o s : total (nsp_put o) s (fun _ s' => quiet s s').
Proof.
  destruct o; simpl; eexists _, _; (split; [reflexivity|]); by split.
Qed.

(** * The search for maximal cliques *)

Lemma good_report_refl g c s s' : calls s' = calls s -> good_report g c s s'.
Proof. intros E. exists []. by rewrite app_nil_r. Qed.

Lemma good_report_trans g c s1 s2 s3 :
  good_report g c s1 s2 -> good_report g c s2 s3 -> good_report g c s1 s3.
Proof.
  intros (n1 & E1 & F1) (n2 & E2 & F2). exists (n1 ++ n2).
  split; [by rewrite E2, E1, (assoc_L (++))|by apply Forall_app].
Qed.

Lemma good_report_quiet_l g c s1 s2 s3 :
  calls s2 = calls s1 -> good_report g c s2 s3 -> good_report g c s1 s3.
Proof. intros E (n & E' & F). exists n. by rewrite E', E. Qed.

Lemma good_report_quiet_r g c s1 s2 s3 :
  good_report g c s1 s2 -> calls s3 = calls s2 -> good_report g c s1 s3.
Proof. intros (n & E' & F) E. exists n. by rewrite E, E'. Qed.

Section BK.

Variable user_cb : list (list nptr) -> list nptr -> Z.
Variable g : Graph.
Variable c : cptr.

Let V := nodes (comp_at g c).
Let N := length (node_os g).

Hypothesis HN : Z.of_nat N < 2 ^ 31.
Hypothesis Hnoloop : forall n, ~ adjacent g n n.
Hypothesis Hsym : forall a b, adjacent g a b -> adjacent g b a.
Hypothesis Hnodup : forall n, NoDup (out_edges (node_at g n)).
Hypothesis Hvalid : forall a b, adjacent g a b -> (b < N)%nat.
Hypothesis HV : forall u, u ∈ V -> (u < N)%nat.

Lemma graph_edge_exists_adjacent a b : graph_edge_exists g a b = true <-> adjacent g a b.
Proof.
  unfold graph_edge_exists, adjacent. rewrite existsb_eqb. apply bool_decide_eq_true.
Qed.

Lemma common_snoc R v u :
  common g V (R ++ [v]) u <-> common g V R u /\ adjacent g v u.
Proof.
  unfold common. split.
  - intros [Hu Hr]. split; [split; [done|]|].
    + intros r Hin. apply Hr, elem_of_app. by left.
    + apply Hr, elem_of_app. right. by apply list_elem_of_singleton.
  - intros [[Hu Hr] Hv]. split; [done|].
    intros r [Hin|Hin]%elem_of_app; [auto|].
    apply list_elem_of_singleton in Hin as ->. done.
Qed.

Lemma common_not_member R u : common g V R u -> u ∉ R.
Proof. intros [_ Hr] Hin. by apply (Hnoloop u), Hr. Qed.

(** The base case: with P and X empty R is a maximal clique. *)
Lemma bk_inv_maximal R P X :
  bk_inv g V N R P X -> ns_nodes P = [] -> ns_nodes X = [] -> maximal_clique g c R.
Proof.
  intros [H1 H2 H3 H4 H5 H6 H7] HP HX. split; [done|]. split; [done|]. split; [done|].
  intros u Hu Hn Hall.
  assert (common g V R u) as Hc by (by split).
  apply H6 in Hc. rewrite HP, HX in Hc. destruct Hc as [Hc|Hc]; by apply not_elem_of_nil in Hc.
Qed.

(** One more member of R: the sets for the call on R ++ [v]. *)
Lemma bk_inv_step R (still rest Xc : list nptr) v nP nX :
  NoDup R -> (forall r, r ∈ R -> r ∈ V) -> is_clique g R ->
  (forall u, (u ∈ still \/ u ∈ v :: rest \/ u ∈ Xc) <-> common g V R u) ->
  (forall u, u ∈ still -> u ∉ Xc) -> (forall u, u ∈ rest -> u ∉ Xc) ->
  wf_set N nP -> wf_set N nX ->
  (forall u, u ∈ ns_nodes nP <-> (u ∈ rest \/ u ∈ still) /\ adjacent g v u) ->
  (forall u, u ∈ ns_nodes nX <-> adjacent g v u /\ u ∈ Xc) ->
  bk_inv g V N (R ++ [v]) nP nX.
Proof.
  intros HR1 HR2 HR3 Hcov Hd1 Hd2 HwP HwX HnP HnX.
  assert (common g V R v) as Hv by (apply Hcov; right; left; left).
  pose proof (common_not_member R v Hv) as HvR. destruct Hv as [HvV Hvadj].
  split; try done.
  - apply NoDup_app. split; [done|]. split; [|apply NoDup_singleton].
    intros x Hx Hx'. apply list_elem_of_singleton in Hx' as ->. done.
  - intros r [Hin|Hin]%elem_of_app; [auto|].
    apply list_elem_of_singleton in Hin as ->. done.
  - intros a b [Ha|Ha]%elem_of_app [Hb|Hb]%elem_of_app Hab;
      try apply list_elem_of_singleton in Ha as ->;
      try apply list_elem_of_singleton in Hb as ->; auto.
    done.
  - intros u. rewrite common_snoc, <- Hcov, HnP, HnX, elem_of_cons. split.
    + intros [[[?|?] ?]|[? ?]]; auto.
    + intros [[?|[[->|?]|?]] Hadj]; auto. by apply Hnoloop in Hadj.
  - intros u [[Hu|Hu] _]%HnP [_ Hx]%HnX; [by apply (Hd2 u)|by apply (Hd1 u)].
Qed.

Lemma total_get s (Q : cstate -> cstate -> Prop) : Q s s -> total get s Q.
Proof. intros H. by exists s, s. Qed.

Lemma length_le_disjoint (l still rest : list nptr) :
  NoDup l -> NoDup still -> NoDup rest -> (forall u, u ∈ rest -> u ∉ still) ->
  (forall u, u ∈ l -> u ∈ rest \/ u ∈ still) ->
  (length l <= length still + length rest)%nat.
Proof.
  intros Hl Hs Hr Hd Hin. rewrite <- length_app. apply submseteq_length.
  apply NoDup_submseteq; [done|]. intros u Hu. apply elem_of_app.
  destruct (Hin u Hu); auto.
Qed.

Lemma length_inserted (l' l : list nptr) v :
  NoDup l' -> (forall y, y ∈ l' <-> y = v \/ y ∈ l) -> (length l' <= S (length l))%nat.
Proof.
  intros Hnd Hel. change (S (length l)) with (length (v :: l)).
  apply submseteq_length, NoDup_submseteq; [done|].
  intros y Hy. apply elem_of_cons. by apply Hel.
Qed.

(** The loop of [BronKerbosch] over the nodes of P from [v] on. *)
Lemma BK_loop_total rec bound pivot :
  rec_ok g c bound rec ->
  forall rest t s,
    NoDup (ns_nodes (ctx_R s)) ->
    (forall r, r ∈ ns_nodes (ctx_R s) -> r ∈ V) ->
    is_clique g (ns_nodes (ctx_R s)) ->
    wf_set N (still_in_P t) -> wf_set N (bk_X t) -> NoDup rest ->
    (forall u, (u ∈ ns_nodes (still_in_P t) \/ u ∈ rest \/ u ∈ ns_nodes (bk_X t)) <->
               common g V (ns_nodes (ctx_R s)) u) ->
    (forall u, u ∈ ns_nodes (still_in_P t) -> u ∉ ns_nodes (bk_X t)) ->
    (forall u, u ∈ rest -> u ∉ ns_nodes (bk_X t)) ->
    (forall u, u ∈ rest -> u ∉ ns_nodes (still_in_P t)) ->
    len (ctx_R s) < cap (ctx_R s) ->
    (length (ns_nodes (still_in_P t)) + length rest <= bound)%nat ->
    total (BK_loop g rec pivot rest t) s (fun rt s' =>
      good_report g c s s' /\
      (fst rt = 0 -> ns_nodes (ctx_R s') = ns_nodes (ctx_R s) /\
                     len (ctx_R s') < cap (ctx_R s'))).
Proof.
  intros Hrec rest. induction rest as [|v rest IH];
    intros t s HR1 HR2 HR3 Hst HX Hnd Hcov Hd1 Hd2 Hd3 Hcap Hbound; cbn [BK_loop].
  - apply total_ret. split; [by apply good_report_refl|]. done.
  - apply NoDup_cons in Hnd as [Hv Hnd].
    assert (common g V (ns_nodes (ctx_R s)) v) as Hcv by (apply Hcov; right; left; left).
    assert (v < N)%nat as HvN by (apply HV, Hcv).
    assert (v ∉ ns_nodes (still_in_P t)) as Hvs by (apply Hd3; left).
    assert (v ∉ ns_nodes (bk_X t)) as HvX by (apply Hd2; left).
    destruct (graph_edge_exists g pivot v).
    + (* v is a neighbour of the pivot: it stays in P *)
      eapply total_step; [by apply (nodeset_insert_sorted_total N HN)|].
      intros [r still'] s1 (Hq & Hr & Hok); simpl in *.
      destruct Hr as [->| ->]; simpl.
      * destruct (Hok eq_refl) as [Hwf Hel]. destruct Hq as [HqR Hqc].
        eapply total_mono; [apply IH; simpl; rewrite ?HqR; try done|].
        -- intros u. rewrite Hel, <- Hcov, elem_of_cons. naive_solver.
        -- intros u [->|Hu]%Hel; auto.
        -- intros u Hu. apply Hd2. by right.
        -- intros u Hu [->|Hu']%Hel; [done|]. by apply (Hd3 u); [right|].
        -- pose proof (length_inserted _ _ v (sorted_NoDup _ (proj1 (proj2 Hwf))) Hel).
           simpl in Hbound. lia.
        -- intros [r t'] s' [Hg Hr0]. simpl in *. rewrite HqR in Hr0.
           split; [by eapply good_report_quiet_l|done].
      * apply total_ret. simpl. split; [apply good_report_refl, Hq|done].
    + (* v joins R for a call on its neighbours *)
      eapply (total_step _ _ _ _ (fun a s' => a = s /\ s' = s)); [by apply total_get|].
      intros s0 s0' [-> ->].
      eapply total_step; [apply nodeset_append_total|].
      intros [r R'] s1 (Hq & _ & Hnodes & Hroom); simpl in *.
      destruct (Hroom ltac:(lia)) as [-> HcapR]. specialize (Hnodes eq_refl).
      destruct Hq as [HqR Hqc].
      eapply total_step; [apply set_R_total|]. intros u2 s2 [HR2s Hc2].
      eapply (total_step _ _ _ _ (fun _ s' => s' = s2)); [by apply total_assert|].
      intros _ s2' ->. simpl.
      eapply total_step.
      { apply (insert_all_total N HN (nodeset_clear (newX t)) (out_edges (node_at g v)));
          [apply wf_set_clear|apply Hnodup|].
        intros x Hx. split; [apply not_elem_of_nil|by apply (Hvalid v)]. }
      intros [r nX] s3 (Hq3 & Hr3 & Hok3); simpl in *.
      destruct Hr3 as [->| ->]; simpl;
        [|apply total_ret; simpl; split; [|done];
          apply good_report_refl; destruct Hq3 as [_ ->]; congruence].
      destruct (Hok3 eq_refl) as [HwX HelX]. clear Hok3.
      eapply total_step.
      { apply (insert_members_total N HN nX (nodeset_clear (newP t)) (ns_nodes (still_in_P t)));
          [done|apply wf_set_clear|apply sorted_NoDup, Hst|].
        intros x Hx. split; [apply not_elem_of_nil|by apply Hst]. }
      intros [r nP1] s4 (Hq4 & Hr4 & Hok4); simpl in *.
      destruct Hr4 as [->| ->]; simpl;
        [|apply total_ret; simpl; split; [|done];
          apply good_report_refl; destruct Hq3 as [_ ?], Hq4 as [_ ?]; congruence].
      destruct (Hok4 eq_refl) as [HwP1 HelP1]. clear Hok4.
      eapply total_step.
      { apply (insert_members_total N HN nX nP1 rest); [done|done|done|].
        intros x Hx. split.
        - rewrite HelP1. intros [[Hxs _]|Hxe]; [|by apply not_elem_of_nil in Hxe].
          by apply (Hd3 x); [right|].
        - apply HV. assert (common g V (ns_nodes (ctx_R s)) x) as Hcx; [|apply Hcx].
          apply Hcov. right. left. by right. }
      intros [r nP] s5 (Hq5 & Hr5 & Hok5); simpl in *.
      destruct Hr5 as [->| ->]; simpl;
        [|apply total_ret; simpl; split; [|done];
          apply good_report_refl; destruct Hq3 as [_ ?], Hq4 as [_ ?], Hq5 as [_ ?];
          congruence].
      destruct (Hok5 eq_refl) as [HwP HelP]. clear Hok5.
      destruct (nodeset_intersect_spec N HN nX (bk_X t) HwX HX) as (nX' & Ei & HwX' & HelX').
      eapply (total_step _ _ _ _ (fun a s6 => a = nX' /\ s6 = s5));
        [eapply total_or_hang; [exact Ei|done]|].
      intros ? ? [-> ->].
      assert (ctx_R s5 = R' /\ calls s5 = calls s) as [HR5 Hc5].
      { destruct Hq3 as [? ?], Hq4 as [? ?], Hq5 as [? ?]. split; congruence. }
      assert (bk_inv g V N (ns_nodes (ctx_R s5)) nP nX') as Hinv.
      { rewrite HR5, Hnodes.
        apply (bk_inv_step (ns_nodes (ctx_R s)) (ns_nodes (still_in_P t)) rest
                 (ns_nodes (bk_X t))); try done.
        - intros u Hu. apply Hd2. by right.
        - intros u. rewrite HelP, HelP1, HelX. rewrite elem_of_nil. unfold adjacent.
          naive_solver.
        - intros u. rewrite HelX', HelX. simpl. rewrite elem_of_nil. unfold adjacent.
          naive_solver. }
      eapply total_step.
      { apply Hrec; [exact Hinv| |].
        - rewrite HR5. unfold len. rewrite Hnodes, length_app, HcapR. simpl.
          unfold len in Hcap. lia.
        - pose proof (length_le_disjoint (ns_nodes nP) (ns_nodes (still_in_P t)) rest
                        (sorted_NoDup _ (proj1 (proj2 HwP)))
                        (sorted_NoDup _ (proj1 (proj2 Hst))) Hnd) as Hlen.
          simpl in Hbound. 
          assert (length (ns_nodes nP) <= length (ns_nodes (still_in_P t)) + length rest)%nat;
            [|lia].
          apply Hlen.
          + intros u Hu. apply Hd3. by right.
          + intros u. rewrite HelP, HelP1. rewrite elem_of_nil. naive_solver. }
      intros [r nX''] s6 [Hg6 Hr6]; simpl in *.
      destruct (Z.eqb_spec r 0) as [->|Hne]; simpl.
      * destruct (Hr6 eq_refl) as [HR6 Hcap6]. clear Hr6.
        eapply total_step; [apply set_R_total|]. intros u7 s7 [HR7 Hc7].
        eapply total_step; [by apply (nodeset_insert_sorted_total N HN (bk_X t) v)|].
        intros [r X'] s8 (Hq8 & Hr8 & Hok8); simpl in *.
        assert (good_report g c s s8) as Hg8.
        { eapply good_report_quiet_r; [|destruct Hq8 as [_ ->]; exact Hc7].
          by eapply good_report_quiet_l. }
        destruct Hr8 as [->| ->]; simpl; [|apply total_ret; simpl; split; [done|done]].
        destruct (Hok8 eq_refl) as [HwX8 HelX8]. clear Hok8.
        assert (ns_nodes (ctx_R s8) = ns_nodes (ctx_R s)) as HR8.
        { destruct Hq8 as [-> _]. rewrite HR7. unfold pop_R. simpl.
          rewrite HR6, HR5, Hnodes. apply removelast_last. }
        assert (len (ctx_R s8) < cap (ctx_R s8)) as Hcap8.
        { destruct Hq8 as [-> _]. rewrite HR7. unfold pop_R, len in *. simpl.
          rewrite HR6, HR5, Hnodes, removelast_last.
          rewrite HR6, HR5, Hnodes, length_app in Hcap6. simpl in Hcap6. lia. }
        eapply total_mono; [apply IH; simpl; rewrite ?HR8; try done|].
        -- intros u. rewrite HelX8, <- Hcov, elem_of_cons. naive_solver.
        -- intros u Hu [->|Hu']%HelX8; [done|]. by apply (Hd1 u).
        -- intros u Hu [->|Hu']%HelX8; [done|]. by apply (Hd2 u); [right|].
        -- intros u Hu. apply Hd3. by right.
        -- simpl in Hbound. lia.
        -- intros [r t'] s' [Hg Hr0]. simpl in *. rewrite HR8 in Hr0.
           split; [by eapply good_report_trans|done].
      * apply total_ret. simpl. split; [|done]. by eapply good_report_quiet_l.
Qed.

Lemma call_user_cb_total s :
  total (call_user_cb user_cb) s (fun r s' =>
    ctx_R s' = ctx_R s /\ calls s' = calls s ++ [ns_nodes (ctx_R s)]).
Proof. eexists _, _. split; [reflexivity|]. by split. Qed.

(** One call of [BronKerbosch], given what the calls it makes do. *)
Lemma BK_call_total rec P X s :
  bk_inv g V N (ns_nodes (ctx_R s)) P X ->
  len (ctx_R s) <= cap (ctx_R s) ->
  rec_ok g c (length (ns_nodes P)) rec ->
  total (BK_call user_cb g rec P X) s (bk_post g c s).
Proof.
  intros Hinv Hcap Hrec. unfold BK_call.
  destruct (Z.eqb_spec (len P) 0) as [EP|EP].
  - assert (ns_nodes P = []) as HP
      by (unfold len in EP; destruct (ns_nodes P); [done|simpl in EP; lia]).
    destruct (Z.eqb_spec (len X) 0) as [EX|EX].
    + assert (ns_nodes X = []) as HX
        by (unfold len in EX; destruct (ns_nodes X); [done|simpl in EX; lia]).
      eapply total_step; [apply call_user_cb_total|].
      intros r s1 [HR1 Hc1]. apply total_ret. split; simpl.
      * exists [ns_nodes (ctx_R s)]. split; [done|].
        apply Forall_singleton. by eapply bk_inv_maximal.
      * intros _. by rewrite HR1.
    + apply total_ret. split; [by apply good_report_refl|]. done.
  - eapply (total_step _ _ _ _ (fun a s' => a = s /\ s' = s)); [by apply total_get|].
    intros s0 s0' [-> ->].
    eapply total_step; [apply room_total|].
    intros [r R'] s1 (Hq1 & Hn1 & _ & Hr1 & Hroom & Hgrow); simpl in *.
    eapply total_step; [apply set_R_total|]. intros u2 s2 [HR2 Hc2].
    destruct Hq1 as [HqR1 Hqc1].
    destruct Hr1 as [->| ->]; simpl;
      [|apply total_ret; split; [apply good_report_refl; congruence|done]].
    assert (len R' < cap R') as Hcap'.
    { pose proof (bounded_length _ N (inv_R_nodup _ _ _ _ _ _ Hinv)
                    (fun x Hx => HV x (inv_R_in _ _ _ _ _ _ Hinv x Hx))) as Hlen.
      unfold len in *. rewrite Hn1.
      destruct (decide (Z.of_nat (length (ns_nodes (ctx_R s))) = cap (ctx_R s))) as [E|E].
      - rewrite (Hgrow eq_refl E). rewrite <- E. unfold wrap32.
        rewrite Z.mod_small.
        + pose proof (Z.div_pos (Z.of_nat (length (ns_nodes (ctx_R s)))) 2). lia.
        + pose proof (Z.div_pos (Z.of_nat (length (ns_nodes (ctx_R s)))) 2).
          pose proof (Z.div_le_upper_bound (Z.of_nat (length (ns_nodes (ctx_R s)))) 2
                        (Z.of_nat (length (ns_nodes (ctx_R s))))). lia.
      - injection (Hroom E) as ->. lia. }
    eapply total_step; [apply nsp_get_total|]. intros onP s3 Hq3.
    eapply total_step; [apply nsp_get_total|]. intros onX s4 Hq4.
    assert (forall s5, quiet s4 s5 -> good_report g c s s5) as Hquiet.
    { intros s5 Hq5. apply good_report_refl.
      destruct Hq3 as [_ ?], Hq4 as [_ ?], Hq5 as [_ ?]. congruence. }
    assert (forall (o1 o2 : option NodeSet) s5, quiet s4 s5 ->
              total (nsp_put o1 ;;; nsp_put o2 ;;; ret (-1, X)) s5 (bk_post g c s)) as Hout.
    { intros o1 o2 s5 Hq5.
      eapply total_step; [apply nsp_put_total|]. intros u1_ s6 Hq6.
      eapply total_step; [apply nsp_put_total|]. intros u2_ s7 Hq7.
      apply total_ret. split; [|done]. apply Hquiet.
      exact (quiet_trans _ _ _ Hq5 (quiet_trans _ _ _ Hq6 Hq7)). }
    destruct onP as [nP_|], onX as [nX_|]; try (by apply Hout, quiet_refl).
    eapply total_step; [apply nsp_get_total|]. intros ostill s5 Hq5.
    destruct ostill as [still_|]; [|by apply Hout].
    assert (ctx_R s5 = R' /\ calls s5 = calls s) as [HR5 Hc5].
    { destruct Hq3 as [? ?], Hq4 as [? ?], Hq5 as [? ?]. split; congruence. }
    destruct Hinv as [H1 H2 H3 H4 H5 H6 H7].
    eapply total_step.
    { apply (BK_loop_total rec (length (ns_nodes P)) (choose_pivot g P X) Hrec
               (ns_nodes P) (mkSets (nodeset_clear still_) nP_ nX_ X) s5);
        simpl; rewrite ?HR5, ?Hn1; try done.
      - apply wf_set_clear.
      - apply sorted_NoDup, H4.
      - intros u. rewrite <- H6, elem_of_nil. naive_solver.
      - intros u Hu. by apply not_elem_of_nil in Hu.
      - intros u Hu. apply not_elem_of_nil. }
    intros [r t] s6 [Hg6 Hr6]; cbn [fst snd] in *.
    eapply total_step; [exact (nsp_put_total (Some (still_in_P t)) s6)|].
    intros u3_ s7 Hq7. cbv beta in Hq7.
    eapply total_step; [exact (nsp_put_total (Some (newX t)) s7)|].
    intros u4_ s8 Hq8. cbv beta in Hq8.
    eapply total_step; [exact (nsp_put_total (Some (newP t)) s8)|].
    intros u5_ s9 Hq9. cbv beta in Hq9.
    assert (quiet s6 s9) as [HqR Hqc]
      by exact (quiet_trans _ _ _ Hq7 (quiet_trans _ _ _ Hq8 Hq9)).
    apply total_ret. split; simpl.
    + eapply good_report_quiet_r; [|exact Hqc]. by eapply good_report_quiet_l.
    + intros Hr0. destruct (Hr6 Hr0) as [E1 E2]. rewrite HqR.
      rewrite HR5, Hn1 in E1. split; [done|lia].
Qed.

(** [BronKerbosch] returns when its fuel exceeds the size of P: every call
    it makes to itself has a smaller P. *)
Lemma BronKerbosch_total fuel : rec_ok g c fuel (BronKerbosch user_cb g fuel).
Proof.
  induction fuel as [|fuel IH]; intros P X s Hinv Hcap Hlen; [lia|].
  cbn [BronKerbosch]. apply BK_call_total; [done|done|].
  intros P' X' s' Hinv' Hcap' Hlen'. apply IH; [done|done|lia].
Qed.

Lemma nodeset_append_room ns x s :
  len ns <> cap ns ->
  nodeset_append ns x s =
  Ret (0, mkNodeSet (ns_nodes ns ++ [x]) (cap ns)
            ((len ns =? 0) ||
             (sorted ns && (cmp_nodeptr (List.last (ns_nodes ns) 0%nat) x <? 0)))) s.
Proof.
  intros Hne. unfold nodeset_append, bind, ret.
  destruct (Z.eqb_spec (len ns) (cap ns)); [done|]. done.
Qed.

(** The nodes of the component are appended to P one by one; the flag of
    P stays set only while they come in increasing order. *)
Lemma append_all_total l ns s :
  len ns + Z.of_nat (length l) <= cap ns ->
  (sorted ns = true -> StronglySorted lt (ns_nodes ns)) ->
  total (append_all ns l) s (fun P' s' =>
    s' = s /\ ns_nodes P' = ns_nodes ns ++ l /\
    (sorted P' = true -> StronglySorted lt (ns_nodes P'))).
Proof.
  revert ns. induction l as [|x l IH]; intros ns Hcap Hsort; cbn [append_all].
  - apply total_ret. by rewrite app_nil_r.
  - simpl in Hcap.
    eapply (total_step _ _ _ _ (fun rn s' => rn = (0, _) /\ s' = s)).
    { eexists _, _. split; [apply nodeset_append_room; lia|done]. }
    intros rn s1 [-> ->].
    eapply (total_step _ _ _ _ (fun _ s' => s' = s)); [by apply total_assert|].
    intros _ s1 ->.
    eapply total_mono; [apply IH|].
    + unfold len in *. simpl. rewrite length_app. simpl. lia.
    + simpl. intros [E0|[Hs Hc]%andb_true_iff]%orb_true_iff.
      * apply Z.eqb_eq in E0. unfold len in E0.
        destruct (ns_nodes ns); [repeat constructor|simpl in E0; lia].
      * apply Z.ltb_lt in Hc.
        destruct (cmp_nodeptr_cases (List.last (ns_nodes ns) 0%nat) x)
          as [[_ Hlt]|[[E _]|[E _]]]; [|lia|lia].
        apply sorted_snoc; [by apply Hsort|]. intros y Hy.
        pose proof (sorted_last_max _ y (Hsort Hs) Hy). lia.
    + intros P' s' (-> & Hn & Hs). split; [done|]. split; [|done].
      rewrite Hn. simpl. by rewrite <- (assoc_L (++)).
Qed.

Lemma sorted_le_lt (l : list nat) :
  StronglySorted Nat.le l -> NoDup l -> StronglySorted lt l.
Proof.
  induction 1 as [|x l Hs IH Hx]; intros Hnd; [constructor|].
  apply NoDup_cons in Hnd as [Hxl Hnd]. constructor; [by apply IH|].
  rewrite Forall_forall in *. intros y Hy.
  specialize (Hx y Hy). assert (x <> y) by (by intros ->). unfold Nat.le in Hx. lia.
Qed.

Lemma nodeset_sort_wf ns :
  (sorted ns = true -> StronglySorted lt (ns_nodes ns)) ->
  NoDup (ns_nodes ns) -> (forall x, x ∈ ns_nodes ns -> (x < N)%nat) ->
  wf_set N (nodeset_sort ns) /\ ns_nodes (nodeset_sort ns) ≡ₚ ns_nodes ns.
Proof.
  intros Hsort Hnd Hb. unfold nodeset_sort.
  destruct (sorted ns) eqn:Es; [by split; [split; [|split]; auto|]|].
  simpl. destruct (Z.ltb_spec 1 (len ns)) as [Hlen|Hlen].
  - pose proof (merge_sort_Permutation Nat.le (ns_nodes ns)) as Hp.
    split; [|done]. split; [done|]. split; simpl.
    + apply sorted_le_lt; [|by rewrite Hp].
      apply (StronglySorted_merge_sort Nat.le).
    + intros x Hx. apply Hb. by rewrite <- Hp.
  - split; [|done]. split; [done|]. split; [|done]. simpl.
    unfold len in Hlen. destruct (ns_nodes ns) as [|x [|y l]]; simpl in Hlen;
      [repeat constructor..|lia].
Qed.

Hypothesis HVnd : NoDup V.
Hypothesis Hcount : node_count (comp_at g c) = wrap32 (Z.of_nat (length V)).

(** [component_iterate_maximal_cliques] returns, and every clique it has
    handed to the callback is a maximal clique of the component. *)
Lemma component_iterate_total s :
  total (component_iterate_maximal_cliques user_cb g c) s (fun _ s' =>
    good_report g c s s').
Proof.
  assert (Z.of_nat (length V) < 2 ^ 31) as HlV.
  { pose proof (bounded_length V N HVnd HV). lia. }
  assert (node_count (comp_at g c) = Z.of_nat (length V)) as Hcnt.
  { rewrite Hcount. unfold wrap32. apply Z.mod_small. lia. }
  unfold component_iterate_maximal_cliques.
  eapply (total_step _ _ _ _ (fun _ s' => quiet s s')).
  { eexists _, _. split; [reflexivity|]. by split. }
  intros u0 s0 Hq0.
  eapply total_step; [apply nodeset_alloc_total|]. intros oR s1 [Hq1 HR].
  eapply total_step; [apply nodeset_alloc_total|]. intros oP s2 [Hq2 HP].
  eapply total_step; [apply nodeset_alloc_total|]. intros oX s3 [Hq3 HX].
  assert (quiet s s3) as Hq
    by exact (quiet_trans _ _ _ Hq0 (quiet_trans _ _ _ Hq1 (quiet_trans _ _ _ Hq2 Hq3))).
  assert (total (nsp_destroy ;;; ret (-1)) s3 (fun _ s' => good_report g c s s')) as Hout.
  { eapply (total_step _ _ _ _ (fun _ s' => quiet s3 s')).
    { eexists _, _. split; [reflexivity|]. by split. }
    intros u4 s4 Hq4. apply total_ret. apply good_report_refl.
    destruct Hq as [_ ?], Hq4 as [_ ?]. congruence. }
  destruct oR as [R0|], oP as [P0|], oX as [X0|]; try exact Hout. clear Hout.
  destruct (HR _ eq_refl) as (HR1 & HR2 & HR3).
  destruct (HP _ eq_refl) as (HP1 & HP2 & HP3).
  destruct (HX _ eq_refl) as (HX1 & HX2 & HX3).
  eapply total_step; [apply set_R_total|]. intros u4 s4 [HR4 Hc4].
  eapply total_step.
  { apply (append_all_total V P0).
    - unfold len. rewrite HP1, HP3, Hcnt. simpl.
      destruct (Z.ltb_spec (Z.of_nat (length V)) 7); lia.
    - intros _. rewrite HP1. constructor. }
  intros P1 s5 (-> & HnP & HsP). rewrite HP1 in HnP. simpl in HnP.
  destruct (nodeset_sort_wf P1) as [HwP Hperm]; [done|by rewrite HnP|by rewrite HnP|].
  rewrite HnP in Hperm.
  eapply (total_step _ _ _ _ (fun _ s' => s' = s4)).
  { apply total_assert; [|done]. apply Z.eqb_eq. unfold len. by rewrite Hperm, Hcnt. }
  intros _ s5 ->.
  eapply (total_step _ _ _ _ (fun _ s' => s' = s4)).
  { apply total_assert; [|done]. unfold len. by rewrite HX1. }
  intros _ s5 ->.
  eapply (total_step _ _ _ _ (fun _ s' => s' = s4)).
  { apply total_assert; [|done]. unfold len. by rewrite HR1. }
  intros _ s5 ->.
  eapply total_step.
  { apply (BronKerbosch_total (S (length (ns_nodes (nodeset_sort P1)))) (nodeset_sort P1) X0 s4).
    - rewrite HR4. cbv beta. rewrite HR1. split.
      + constructor.
      + intros r Hr. by apply not_elem_of_nil in Hr.
      + intros a b Ha. by apply not_elem_of_nil in Ha.
      + done.
      + split; [done|]. rewrite HX1. split; [constructor|].
        intros x Hx. by apply not_elem_of_nil in Hx.
      + intros u. rewrite HX1, Hperm, elem_of_nil. unfold common.
        split; [intros [?|[]]|intros [? _]; by left].
        split; [done|]. intros r Hr. by apply not_elem_of_nil in Hr.
      + intros u _. rewrite HX1. apply not_elem_of_nil.
    - rewrite HR4. cbv beta. unfold len. rewrite HR1, HR3. simpl. lia.
    - lia. }
  intros rx s5 [Hg5 _].
  eapply (total_step _ _ _ _ (fun _ s' => quiet s5 s')).
  { eexists _, _. split; [reflexivity|]. by split. }
  intros u6 s6 [_ Hc6]. apply total_ret.
  eapply good_report_quiet_r; [|exact Hc6].
  eapply good_report_quiet_l; [|exact Hg5]. destruct Hq as [_ ?]. congruence.
Qed.

End BK.

(** * Steps of the clique search that report nothing *)

Lemma silent_ret {A} (a : A) : silent (ret a).
Proof. intros s a' s' [= _ <-]. done. Qed.

Lemma silent_die {A} f : silent (die f : M cstate A).
Proof. intros s a s' [=]. Qed.

Lemma silent_bind {A B} (m : M cstate A) (k : A -> M cstate B) :
  silent m -> (forall a, silent (k a)) -> silent (bind m k).
Proof.
  intros Hm Hk s b s' H. apply bind_Ret in H as (a & s1 & E1 & E2).
  rewrite (Hk a _ _ _ E2). by eapply Hm.
Qed.

Lemma silent_assert b : silent (assert b).
Proof. destruct b; [apply silent_ret|apply silent_die]. Qed.

Lemma silent_or_hang {A} (o : option A) : silent (or_hang o).
Proof. destruct o; [apply silent_ret|apply silent_die]. Qed.

Lemma silent_get : silent (get : M cstate cstate).
Proof. intros s a s' [= _ <-]. done. Qed.

Lemma silent_total {A} (m : M cstate A) :
  (forall s, total m s (fun _ s' => quiet s s')) -> silent m.
Proof.
  intros H s a s' E. destruct (H s) as (a' & s'' & E' & _ & Hc).
  rewrite E in E'. by injection E' as _ <-.
Qed.

Create HintDb silent.

#[export] Hint Resolve silent_ret silent_die silent_assert silent_or_hang silent_get : silent.

(** Take a step of the clique search apart, down to the steps known to
    be silent. *)
Ltac silent_step :=
  lazymatch goal with
  | |- silent (bind _ _) => apply silent_bind; [|intros ?]
  | |- silent (if ?b then _ else _) => destruct b
  | |- silent (match ?x with Some _ => _ | None => _ end) => destruct x
  | |- silent (let '(_, _) := ?x in _) => destruct x
  | |- silent (match ?x with (_, _) => _ end) => destruct x
  | |- _ => solve [auto with silent]
  end.

Lemma silent_cmalloc : silent cmalloc.
Proof. apply silent_total. intros s. apply cmalloc_total. Qed.

Lemma silent_set_R f : silent (set_R f).
Proof. intros s a s' [= _ <-]. done. Qed.

#[export] Hint Resolve silent_cmalloc silent_set_R : silent.

Lemma silent_nodeset_increase_capacity ns : silent (nodeset_increase_capacity ns).
Proof. unfold nodeset_increase_capacity. repeat silent_step. Qed.

#[export] Hint Resolve silent_nodeset_increase_capacity : silent.

Lemma silent_nodeset_append ns x : silent (nodeset_append ns x).
Proof. unfold nodeset_append. repeat silent_step. Qed.

Lemma silent_nodeset_insert_sorted ns x : silent (nodeset_insert_sorted ns x).
Proof. unfold nodeset_insert_sorted. repeat silent_step. Qed.

#[export] Hint Resolve silent_nodeset_append silent_nodeset_insert_sorted : silent.

Lemma silent_insert_all l : forall ns, silent (insert_all ns l).
Proof. induction l as [|x l IH]; intros ns; cbn [insert_all]; repeat silent_step. Qed.

Lemma silent_insert_members nX l : forall nP, silent (insert_members nX nP l).
Proof. induction l as [|x l IH]; intros nP; cbn [insert_members]; repeat silent_step. Qed.

Lemma silent_nodeset_alloc init : silent (nodeset_alloc init).
Proof. unfold nodeset_alloc. repeat silent_step. Qed.

Lemma silent_nsp_get cap_ : silent (nsp_get cap_).
Proof. apply silent_total. intros s. apply nsp_get_total. Qed.

Lemma silent_nsp_put o : silent (nsp_put o).
Proof. apply silent_total. intros s. apply nsp_put_total. Qed.

#[export] Hint Resolve silent_insert_all silent_insert_members silent_nodeset_alloc
  silent_nsp_get silent_nsp_put : silent.

(** * Refused allocations in the clique search *)

Lemma noalloc_ret {A} (a : A) : noalloc (ret a).
Proof. intros s a' s' [= _ <-]. done. Qed.

Lemma noalloc_die {A} f : noalloc (die f : M cstate A).
Proof. intros s a s' [=]. Qed.

Lemma noalloc_bind {A B} (m : M cstate A) (k : A -> M cstate B) :
  noalloc m -> (forall a, noalloc (k a)) -> noalloc (bind m k).
Proof.
  intros Hm Hk s b s' H. apply bind_Ret in H as (a & s1 & E1 & E2).
  destruct (Hm _ _ _ E1) as [? ?], (Hk a _ _ _ E2) as [? ?]. split; congruence.
Qed.

Lemma noalloc_assert b : noalloc (assert b).
Proof. destruct b; [apply noalloc_ret|apply noalloc_die]. Qed.

Lemma noalloc_or_hang {A} (o : option A) : noalloc (or_hang o).
Proof. destruct o; [apply noalloc_ret|apply noalloc_die]. Qed.

Lemma noalloc_get : noalloc (get : M cstate cstate).
Proof. intros s a s' [= _ <-]. done. Qed.

Lemma noalloc_set_R f : noalloc (set_R f).
Proof. intros s a s' [= _ <-]. done. Qed.

Lemma noalloc_nsp_put o : noalloc (nsp_put o).
Proof. destruct o; intros s a s' [= _ <-]; done. Qed.

Lemma noalloc_nsp_init : noalloc nsp_init.
Proof. intros s a s' [= _ <-]. done. Qed.

Lemma noalloc_nsp_destroy : noalloc nsp_destroy.
Proof. intros s a s' [= _ <-]. done. Qed.

Lemma noalloc_call_user_cb cb : noalloc (call_user_cb cb).
Proof. intros s a s' [= _ <-]. done. Qed.

Create HintDb noalloc.

#[export] Hint Resolve noalloc_ret noalloc_die noalloc_assert noalloc_or_hang noalloc_get
  noalloc_set_R noalloc_nsp_put noalloc_nsp_init noalloc_nsp_destroy
  noalloc_call_user_cb : noalloc.

Ltac noalloc_step :=
  lazymatch goal with
  | |- noalloc (bind _ _) => apply noalloc_bind; [|intros ?]
  | |- noalloc (if ?b then _ else _) => destruct b
  | |- noalloc (match ?x with Some _ => _ | None => _ end) => destruct x
  | |- noalloc (let '(_, _) := ?x in _) => destruct x
  | |- noalloc (match ?x with (_, _) => _ end) => destruct x
  | |- _ => solve [auto with noalloc]
  end.

Lemma alloc_run_refl s r : alloc_run s r s.
Proof.
  exists []. split; [done|]. split; [|done]. intros H. by apply elem_of_nil in H.
Qed.

Lemma alloc_run_noalloc s r s' : mem s' = mem s -> c_errno s' = c_errno s -> alloc_run s r s'.
Proof.
  intros Hm He. exists []. rewrite Hm. split; [done|]. split; [|done].
  intros H. by apply elem_of_nil in H.
Qed.

Lemma alloc_run_then s r1 s1 r2 s2 :
  alloc_run s r1 s1 -> alloc_run s1 r2 s2 -> (r1 = -1 -> r2 = -1) -> alloc_run s r2 s2.
Proof.
  intros (u1 & Hm1 & Hf1 & Hn1) (u2 & Hm2 & Hf2 & Hn2) Hr. exists (u1 ++ u2).
  split; [by rewrite Hm1, Hm2, app_assoc|]. split.
  - intros [H1|H2]%elem_of_app.
    + destruct (Hf1 H1) as [-> He1]. split; [by apply Hr|].
      destruct (decide (false ∈ u2)) as [H2|H2]; [by apply Hf2|].
      rewrite (Hn2 H2). done.
    + by apply Hf2.
  - intros H. rewrite Hn2, Hn1; [done|..]; intros ?; apply H; apply elem_of_app; auto.
Qed.

Lemma allocs_noalloc {A} (val : A -> Z) (m : M cstate A) : noalloc m -> allocs val m.
Proof. intros Hm s a s' E. destruct (Hm _ _ _ E). by apply alloc_run_noalloc. Qed.

Lemma allocs_bind_noalloc {A B} (val : B -> Z) (m : M cstate A) (k : A -> M cstate B) :
  noalloc m -> (forall a, allocs val (k a)) -> allocs val (bind m k).
Proof.
  intros Hm Hk s b s' H. apply bind_Ret in H as (a & s1 & E1 & E2).
  destruct (Hm _ _ _ E1) as [Hm1 He1].
  eapply (alloc_run_then _ 0); [by apply alloc_run_noalloc|by eapply Hk|lia].
Qed.

(** A step that reports a refusal, followed by steps that return -1 when
    it has returned -1. *)
Lemma allocs_bind {A B} (v1 : A -> Z) (v2 : B -> Z) (m : M cstate A) (k : A -> M cstate B) :
  allocs v1 m ->
  (forall a, allocs v2 (k a)) ->
  (forall a, v1 a = -1 -> forall s b s', k a s = Ret b s' -> v2 b = -1) ->
  allocs v2 (bind m k).
Proof.
  intros Hm Hk Hf s b s' H. apply bind_Ret in H as (a & s1 & E1 & E2).
  eapply alloc_run_then; [by eapply Hm|by eapply Hk|].
  intros Ha. by eapply Hf.
Qed.

Lemma allocs_cmalloc : allocs (fun b : bool => if b then 0 else -1) cmalloc.
Proof.
  intros s b s'. unfold cmalloc. destruct (mem s) as [|[] o] eqn:E; intros [= <- <-].
  - apply alloc_run_refl.
  - exists [true]. cbn [mem c_errno]. split; [by rewrite E|]. split; [|done].
    intros H. apply list_elem_of_singleton in H. done.
  - exists [false]. cbn [mem c_errno]. split; [by rewrite E|]. split; [done|].
    intros H. destruct H. by apply list_elem_of_singleton.
Qed.

(** The result of the steps that follow a failed one. *)
Ltac failed :=
  let a := fresh "a" in
  let s := fresh "s" in
  let H := fresh "H" in
  intros a H s ? ? ?;
  repeat match goal with
         | x : (_ * _)%type |- _ => destruct x
         | x : option _ |- _ => destruct x
         | x : bool |- _ => destruct x
         end;
  cbn in *; unfold ret, die in *; simplify_eq/=; done.

Lemma allocs_nodeset_alloc init : allocs oval (nodeset_alloc init).
Proof.
  unfold nodeset_alloc.
  eapply allocs_bind; [apply allocs_cmalloc| |].
  - intros [|]; cbn [negb]; [|apply allocs_noalloc; repeat noalloc_step].
    eapply allocs_bind; [apply allocs_cmalloc| |].
    + intros [|]; apply allocs_noalloc; repeat noalloc_step.
    + failed.
  - failed.
Qed.

Lemma allocs_nodeset_increase_capacity ns : allocs fst (nodeset_increase_capacity ns).
Proof.
  unfold nodeset_increase_capacity.
  eapply allocs_bind; [apply allocs_cmalloc| |].
  - intros [|]; apply allocs_noalloc; repeat noalloc_step.
  - failed.
Qed.

Lemma allocs_room ns :
  allocs fst (if len ns =? cap ns then nodeset_increase_capacity ns else ret (0, ns)).
Proof.
  destruct (len ns =? cap ns); [apply allocs_nodeset_increase_capacity|].
  apply allocs_noalloc. repeat noalloc_step.
Qed.

Lemma allocs_nodeset_append ns x : allocs fst (nodeset_append ns x).
Proof.
  unfold nodeset_append.
  eapply allocs_bind; [apply allocs_room| |].
  - intros [r ns']. apply allocs_noalloc. repeat noalloc_step.
  - failed.
Qed.

Lemma allocs_nodeset_insert_sorted ns x : allocs fst (nodeset_insert_sorted ns x).
Proof.
  unfold nodeset_insert_sorted.
  eapply allocs_bind; [apply allocs_room| |].
  - intros [r ns']. apply allocs_noalloc. repeat noalloc_step.
  - failed.
Qed.

Lemma allocs_insert_all l : forall ns, allocs fst (insert_all ns l).
Proof.
  induction l as [|x l IH]; intros ns; cbn [insert_all].
  - apply allocs_noalloc. repeat noalloc_step.
  - eapply allocs_bind; [apply allocs_nodeset_insert_sorted| |].
    + intros [r ns']. destruct (negb (r =? 0)); [|apply IH].
      apply allocs_noalloc. repeat noalloc_step.
    + failed.
Qed.

Lemma allocs_insert_members nX l : forall nP, allocs fst (insert_members nX nP l).
Proof.
  induction l as [|x l IH]; intros nP; cbn [insert_members].
  - apply allocs_noalloc. repeat noalloc_step.
  - apply allocs_bind_noalloc; [auto with noalloc|]. intros [|]; [|apply IH].
    eapply allocs_bind; [apply allocs_nodeset_insert_sorted| |].
    + intros [r ns']. destruct (negb (r =? 0)); [|apply IH].
      apply allocs_noalloc. repeat noalloc_step.
    + failed.
Qed.

Lemma allocs_nsp_get cap_ : allocs oval (nsp_get cap_).
Proof.
  unfold nsp_get. intros s a s' H.
  apply bind_Ret in H as (s0 & s1 & [= <- <-] & H).
  destruct (pool_sets s) as [|ns rest]; [by apply allocs_nodeset_alloc in H|].
  cbv [bind put ret] in H. injection H as <- <-. by apply alloc_run_noalloc.
Qed.

Lemma allocs_append_all l : forall P, allocs (fun _ => 0) (append_all P l).
Proof.
  induction l as [|x l IH]; intros P; cbn [append_all].
  - apply allocs_noalloc. repeat noalloc_step.
  - eapply allocs_bind; [apply allocs_nodeset_append| |].
    + intros [r P']. apply allocs_bind_noalloc; [auto with noalloc|]. intros _. apply IH.
    + intros [r P'] Hr s b s' H. cbn in Hr. subst r. cbn in H. discriminate H.
Qed.

Section Search.

Variable cb : list (list nptr) -> list nptr -> Z.
Variable g : Graph.
Variable rec : NodeSet -> NodeSet -> M cstate (Z * NodeSet).
Hypothesis Hrec : forall P X, allocs fst (rec P X).

Lemma fst_BK_loop_failed pivot rest :
  forall t r s b s', (if negb (r =? 0) then ret (-1, t) else BK_loop g rec pivot rest t) s
                     = Ret b s' -> r = -1 -> fst b = -1.
Proof. intros t r s b s' H ->. cbn in H. by injection H as <- _. Qed.

Lemma allocs_BK_loop pivot rest : forall t, allocs fst (BK_loop g rec pivot rest t).
Proof.
  induction rest as [|v rest IH]; intros t; cbn [BK_loop].
  { apply allocs_noalloc. repeat noalloc_step. }
  destruct (graph_edge_exists g pivot v).
  - eapply allocs_bind; [apply allocs_nodeset_insert_sorted| |].
    + intros [r still]. destruct (negb (r =? 0)); [|apply IH].
      apply allocs_noalloc. repeat noalloc_step.
    + failed.
  - apply allocs_bind_noalloc; [auto with noalloc|]. intros s0.
    eapply allocs_bind; [apply allocs_nodeset_append| |].
    2:{ intros [r R'] Hr s b s' H. cbn in Hr. subst r. cbn in H. discriminate H. }
    intros [r R']. apply allocs_bind_noalloc; [auto with noalloc|]. intros _.
    apply allocs_bind_noalloc; [auto with noalloc|]. intros _.
    eapply allocs_bind; [apply allocs_insert_all| |]; [|failed].
    intros [r1 nX]. destruct (negb (r1 =? 0)); [apply allocs_noalloc; repeat noalloc_step|].
    eapply allocs_bind; [apply allocs_insert_members| |]; [|failed].
    intros [r2 nP1]. destruct (negb (r2 =? 0)); [apply allocs_noalloc; repeat noalloc_step|].
    eapply allocs_bind; [apply allocs_insert_members| |]; [|failed].
    intros [r3 nP]. destruct (negb (r3 =? 0)); [apply allocs_noalloc; repeat noalloc_step|].
    apply allocs_bind_noalloc; [auto with noalloc|]. intros nX'.
    eapply allocs_bind; [apply Hrec| |]; [|failed].
    intros [r4 nX'']. destruct (negb (r4 =? 0)); [apply allocs_noalloc; repeat noalloc_step|].
    apply allocs_bind_noalloc; [auto with noalloc|]. intros _.
    eapply allocs_bind; [apply allocs_nodeset_insert_sorted| |]; [|failed].
    intros [r5 X']. destruct (negb (r5 =? 0)); [|apply IH].
    apply allocs_noalloc. repeat noalloc_step.
Qed.

Lemma allocs_BK_call P X : allocs fst (BK_call cb g rec P X).
Proof.
  unfold BK_call. destruct (len P =? 0).
  { apply allocs_noalloc. repeat noalloc_step. }
  apply allocs_bind_noalloc; [auto with noalloc|]. intros s0.
  eapply allocs_bind; [apply allocs_room| |]; [|failed].
  intros [r R']. apply allocs_bind_noalloc; [auto with noalloc|]. intros _.
  destruct (negb (r =? 0)); [apply allocs_noalloc; repeat noalloc_step|].
  eapply allocs_bind; [apply allocs_nsp_get| |].
  2:{ intros [nP|] HnP s b s' H; [done|].
      apply bind_Ret in H as (nX & s1 & _ & H). destruct nX; cbn in H; by injection H as <- _. }
  intros nP.
  eapply allocs_bind; [apply allocs_nsp_get| |].
  2:{ intros [nX|] HnX s b s' H; [done|]. destruct nP; cbn in H; by injection H as <- _. }
  intros nX.
  destruct nP as [nP_|]; [|apply allocs_noalloc; repeat noalloc_step].
  destruct nX as [nX_|]; [|apply allocs_noalloc; repeat noalloc_step].
  eapply allocs_bind; [apply allocs_nsp_get| |]; [|failed].
  intros [still_|]; [|apply allocs_noalloc; repeat noalloc_step].
  eapply allocs_bind; [apply allocs_BK_loop| |]; [|failed].
  intros [r1 t]. apply allocs_noalloc. repeat noalloc_step.
Qed.

End Search.

Lemma allocs_BronKerbosch cb g fuel : forall P X, allocs fst (BronKerbosch cb g fuel P X).
Proof.
  induction fuel as [|fuel IH]; intros P X; cbn [BronKerbosch].
  - intros s a s' [=].
  - by apply allocs_BK_call.
Qed.

(** When [component_iterate_maximal_cliques] returns after an allocation
    has been refused, it returns -1, and [errno] is [ENOMEM]; when it
    returns and no allocation has been refused, [errno] is what it was. *)
Lemma allocs_component_iterate cb g c :
  allocs id (component_iterate_maximal_cliques cb g c).
Proof.
  unfold component_iterate_maximal_cliques.
  apply allocs_bind_noalloc; [auto with noalloc|]. intros _.
  eapply allocs_bind; [apply allocs_nodeset_alloc| |].
  2:{ intros [R|] HR s b s' H; [done|].
      apply bind_Ret in H as (P & s1 & _ & H). apply bind_Ret in H as (X & s2 & _ & H).
      destruct P, X; cbn in H; by injection H as <- _. }
  intros R.
  eapply allocs_bind; [apply allocs_nodeset_alloc| |].
  2:{ intros [P|] HP s b s' H; [done|].
      apply bind_Ret in H as (X & s2 & _ & H).
      destruct R, X; cbn in H; by injection H as <- _. }
  intros P.
  eapply allocs_bind; [apply allocs_nodeset_alloc| |].
  2:{ intros [X|] HX s b s' H; [done|]. destruct R, P; cbn in H; by injection H as <- _. }
  intros X.
  destruct R as [R|]; [|apply allocs_noalloc; repeat noalloc_step].
  destruct P as [P|]; [|apply allocs_noalloc; repeat noalloc_step].
  destruct X as [X|]; [|apply allocs_noalloc; repeat noalloc_step].
  apply allocs_bind_noalloc; [auto with noalloc|]. intros _.
  eapply (allocs_bind (fun _ => 0)); [apply allocs_append_all| |]; [|intros ? [=]].
  intros P'. do 3 (apply allocs_bind_noalloc; [auto with noalloc|]; intros _).
  eapply allocs_bind; [apply allocs_BronKerbosch| |].
  - intros rx. apply allocs_noalloc. repeat noalloc_step.
  - intros [r X'] Hr s b s' H. cbn in Hr. subst r.
    apply bind_Ret in H as (u & s1 & _ & H). by injection H as <- _.
Qed.

Lemma allocs_foreach_components cb g cs :
  allocs id (foreach (component_iterate_maximal_cliques cb g) cs).
Proof.
  induction cs as [|c cs IH]; cbn [foreach].
  - apply allocs_noalloc. repeat noalloc_step.
  - eapply allocs_bind; [apply allocs_component_iterate| |].
    + intros r. destruct (negb (r =? 0)); [|apply IH].
      apply allocs_noalloc. repeat noalloc_step.
    + intros r Hr s b s' H. cbn in Hr. subst r. cbn in H. by injection H as <- _.
Qed.

(** * The clique search on any number of nodes *)

(** With 2^31 nodes or more the sum of two indices of a binary search can
    wrap, and the search may go back; what it has established stays true,
    so that what it returns, when it returns, is right. *)

Lemma partial_ret {A} (a : A) s (Q : A -> cstate -> Prop) : Q a s -> partial (ret a) s Q.
Proof. intros H a' s' [= <- <-]. done. Qed.

Lemma partial_die {A} f s (Q : A -> cstate -> Prop) : partial (die f) s Q.
Proof. intros a' s' [=]. Qed.

Lemma partial_mono {A} (m : M cstate A) s (Q Q' : A -> cstate -> Prop) :
  partial m s Q -> (forall a s', Q a s' -> Q' a s') -> partial m s Q'.
Proof. intros Hm H a s' E. eauto. Qed.

(** Run the step [m] with what is known of it, then go on. *)
Lemma partial_step {A B} (m : M cstate A) (k : A -> M cstate B) s Q Q' :
  partial m s Q' -> (forall a s1, Q' a s1 -> partial (k a) s1 Q) -> partial (bind m k) s Q.
Proof.
  intros Hm Hk b s2 E. apply bind_Ret in E as (a & s1 & E1 & E2).
  by eapply Hk; [eapply Hm|].
Qed.

Lemma partial_conj {A} (m : M cstate A) s (Q Q' : A -> cstate -> Prop) :
  partial m s Q -> partial m s Q' -> partial m s (fun a s' => Q a s' /\ Q' a s').
Proof. intros H H' a s' E. split; eauto. Qed.

Lemma partial_assert (b : bool) s (Q : unit -> cstate -> Prop) :
  (b = true -> Q tt s) -> partial (assert b) s Q.
Proof. destruct b; intros H [] s' [= <-]. by apply H. Qed.

Lemma partial_or_hang {A} (o : option A) s (Q : A -> cstate -> Prop) :
  (forall a, o = Some a -> Q a s) -> partial (or_hang o) s Q.
Proof. destruct o; intros H a' s' [= <- <-]. by apply H. Qed.

Lemma partial_get s (Q : cstate -> cstate -> Prop) : Q s s -> partial get s Q.
Proof. intros H a s' [= <- <-]. done. Qed.

(** A step that returns has one result. *)
Lemma total_partial {A} (m : M cstate A) s Q : total m s Q -> partial m s Q.
Proof. intros (a & s' & E & H) a' s'' E'. rewrite E in E'. by injection E' as <- <-. Qed.

(** ** Steps that leave R alone *)

Lemma steady_ret {A} (a : A) : steady (ret a).
Proof. intros s a' s' [= _ <-]. done. Qed.

Lemma steady_die {A} f : steady (die f : M cstate A).
Proof. intros s a s' [=]. Qed.

Lemma steady_bind {A B} (m : M cstate A) (k : A -> M cstate B) :
  steady m -> (forall a, steady (k a)) -> steady (bind m k).
Proof.
  intros Hm Hk s b s' H. apply bind_Ret in H as (a & s1 & E1 & E2).
  rewrite (Hk a _ _ _ E2). by eapply Hm.
Qed.

Lemma steady_assert b : steady (assert b).
Proof. destruct b; [apply steady_ret|apply steady_die]. Qed.

Lemma steady_or_hang {A} (o : option A) : steady (or_hang o).
Proof. destruct o; [apply steady_ret|apply steady_die]. Qed.

Lemma steady_get : steady (get : M cstate cstate).
Proof. intros s a s' [= _ <-]. done. Qed.

Lemma steady_total {A} (m : M cstate A) :
  (forall s, total m s (fun _ s' => quiet s s')) -> steady m.
Proof.
  intros H s a s' E. destruct (H s) as (a' & s'' & E' & Hc & _).
  rewrite E in E'. by injection E' as _ <-.
Qed.

Lemma steady_cmalloc : steady cmalloc.
Proof. apply steady_total. intros s. apply cmalloc_total. Qed.

Lemma steady_nsp_get cap_ : steady (nsp_get cap_).
Proof. apply steady_total. intros s. apply nsp_get_total. Qed.

Lemma steady_nsp_put o : steady (nsp_put o).
Proof. apply steady_total. intros s. apply nsp_put_total. Qed.

Create HintDb steady.

#[export] Hint Resolve steady_ret steady_die steady_assert steady_or_hang steady_get
  steady_cmalloc steady_nsp_get steady_nsp_put : steady.

Ltac steady_step :=
  lazymatch goal with
  | |- steady (bind _ _) => apply steady_bind; [|intros ?]
  | |- steady (if ?b then _ else _) => destruct b
  | |- steady (match ?x with Some _ => _ | None => _ end) => destruct x
  | |- steady (let '(_, _) := ?x in _) => destruct x
  | |- steady (match ?x with (_, _) => _ end) => destruct x
  | |- _ => solve [auto with steady]
  end.

Lemma steady_nodeset_increase_capacity ns : steady (nodeset_increase_capacity ns).
Proof. unfold nodeset_increase_capacity. repeat steady_step. Qed.

#[export] Hint Resolve steady_nodeset_increase_capacity : steady.

Lemma steady_nodeset_append ns x : steady (nodeset_append ns x).
Proof. unfold nodeset_append. repeat steady_step. Qed.

Lemma steady_nodeset_insert_sorted ns x : steady (nodeset_insert_sorted ns x).
Proof. unfold nodeset_insert_sorted. repeat steady_step. Qed.

#[export] Hint Resolve steady_nodeset_append steady_nodeset_insert_sorted : steady.

Lemma steady_insert_all l : forall ns, steady (insert_all ns l).
Proof. induction l as [|x l IH]; intros ns; cbn [insert_all]; repeat steady_step. Qed.

Lemma steady_insert_members nX l : forall nP, steady (insert_members nX nP l).
Proof. induction l as [|x l IH]; intros nP; cbn [insert_members]; repeat steady_step. Qed.

#[export] Hint Resolve steady_insert_all steady_insert_members : steady.

(** A step that neither reports nor touches R. *)
Lemma partial_quiet {A} (m : M cstate A) s :
  steady m -> silent m -> partial m s (fun _ s' => quiet s s').
Proof. intros H1 H2 a s' E. split; eauto. Qed.

(** ** The binary searches *)

Lemma midpoint_below lower upper :
  0 <= lower -> lower < upper ->
  let idx := wrap32 (lower + upper) / 2 in
  0 <= idx < upper /\ 0 <= wrap32 (idx + 1) <= idx + 1.
Proof.
  intros H0 H1. cbv zeta. unfold wrap32.
  pose proof (Z.mod_pos_bound (lower + upper) 4294967296 ltac:(lia)) as Hm.
  pose proof (Z.mod_le (lower + upper) 4294967296 ltac:(lia) ltac:(lia)) as Hle.
  assert (0 <= (lower + upper) mod 4294967296 / 2 < upper) as Hidx.
  { split; [apply Z.div_pos; lia|apply Z.div_lt_upper_bound; lia]. }
  split; [done|].
  pose proof (Z.mod_pos_bound ((lower + upper) mod 4294967296 / 2 + 1) 4294967296
                ltac:(lia)).
  pose proof (Z.mod_le ((lower + upper) mod 4294967296 / 2 + 1) 4294967296
                ltac:(lia) ltac:(lia)).
  lia.
Qed.

Lemma sorted_lookup_le (l : list nat) i j :
  StronglySorted lt l -> (i <= j)%nat -> (j < length l)%nat -> (l !!! i <= l !!! j)%nat.
Proof.
  intros Hs Hij Hj. destruct (decide (i = j)) as [->|Hne]; [done|].
  pose proof (sorted_lookup_lt l i j Hs ltac:(lia) Hj). lia.
Qed.

(** When the binary search of [nodeset_contains] on a sorted array ends,
    it tells whether the node is a member. *)
Lemma contains_loop_sound (l : list nat) node :
  StronglySorted lt l ->
  forall fuel lower upper b,
    0 <= lower -> upper <= Z.of_nat (length l) ->
    (forall i, Z.of_nat i < lower -> (i < length l)%nat -> (l !!! i < node)%nat) ->
    (forall i, upper <= Z.of_nat i -> (i < length l)%nat -> (node < l !!! i)%nat) ->
    contains_loop fuel l node lower upper = Some b ->
    b = bool_decide (node ∈ l).
Proof.
  intros Hs. induction fuel as [|fuel IH]; intros lower upper b Hl Hu Hlo Hhi E.
  - simpl in E. destruct (Z.ltb_spec lower upper); [done|]. injection E as <-.
    symmetry. apply bool_decide_eq_false_2.
    intros (i & Hi & <-)%list_elem_of_lookup_total.
    destruct (decide (Z.of_nat i < lower)) as [Hc|Hc].
    + specialize (Hlo i Hc Hi). lia.
    + specialize (Hhi i ltac:(lia) Hi). lia.
  - cbn [contains_loop] in E. destruct (Z.ltb_spec lower upper) as [Hlt|Hge].
    + destruct (midpoint_below lower upper) as [Hidx Hw]; [lia..|]. cbv zeta in Hidx, Hw, E.
      set (idx := wrap32 (lower + upper) / 2) in *.
      assert (Z.to_nat idx < length l)%nat as Hil by lia.
      destruct (cmp_nodeptr_cases (l !!! Z.to_nat idx) node) as [[Ec Hc]|[[Ec Hc]|[Ec Hc]]];
        rewrite Ec in E; simpl in E.
      * eapply (IH (wrap32 (idx + 1)) upper b); [lia|done| |done|exact E].
        intros i Hi Hi'.
        pose proof (sorted_lookup_le l i (Z.to_nat idx) Hs ltac:(lia) Hil). lia.
      * eapply (IH lower idx b); [done|lia|done| |exact E].
        intros i Hi Hi'.
        pose proof (sorted_lookup_le l (Z.to_nat idx) i Hs ltac:(lia) Hi'). lia.
      * injection E as <-. symmetry. apply bool_decide_eq_true_2.
        rewrite <- Hc. by apply list_elem_of_lookup_total_2.
    + injection E as <-. symmetry. apply bool_decide_eq_false_2.
      intros (i & Hi & <-)%list_elem_of_lookup_total.
      destruct (decide (Z.of_nat i < lower)) as [Hc|Hc].
      * specialize (Hlo i Hc Hi). lia.
      * specialize (Hhi i ltac:(lia) Hi). lia.
Qed.

(** When the search of [nodeset_insert_sorted] ends, it has found the
    place of the node. *)
Lemma insert_loop_sound (l : list nat) node :
  StronglySorted lt l ->
  forall fuel lower upper idx cmp idx' cmp',
    0 <= lower <= upper -> upper <= Z.of_nat (length l) ->
    (forall i, Z.of_nat i < lower -> (i < length l)%nat -> (l !!! i < node)%nat) ->
    (forall i, upper <= Z.of_nat i -> (i < length l)%nat -> (node < l !!! i)%nat) ->
    (lower < upper \/ (if cmp <? 0 then wrap32 (idx + 1) else idx) = lower) ->
    insert_loop fuel l node lower upper idx cmp = Some (Some (idx', cmp')) ->
    insertion_point l node (if cmp' <? 0 then wrap32 (idx' + 1) else idx').
Proof.
  intros Hs.
  assert (forall lower upper idx0 cmp0,
            0 <= lower <= upper -> upper <= Z.of_nat (length l) ->
            (forall i, Z.of_nat i < lower -> (i < length l)%nat -> (l !!! i < node)%nat) ->
            (forall i, upper <= Z.of_nat i -> (i < length l)%nat -> (node < l !!! i)%nat) ->
            (lower < upper \/ (if cmp0 <? 0 then wrap32 (idx0 + 1) else idx0) = lower) ->
            upper <= lower ->
            insertion_point l node (if cmp0 <? 0 then wrap32 (idx0 + 1) else idx0)) as Hend.
  { intros lower upper idx0 cmp0 Hlu Hu Hlo Hhi Hp Hge.
    destruct Hp as [?|Hp]; [lia|]. rewrite Hp. split; [lia|]. split.
    - intros i Hi. destruct (decide (i < length l)%nat) as [Hi'|Hi']; [by apply Hlo|].
      lia.
    - intros i ? ?. apply Hhi; [lia|done]. }
  induction fuel as [|fuel IH]; intros lower upper idx0 cmp0 idx' cmp' Hlu Hu Hlo Hhi Hp E.
  - simpl in E. destruct (Z.ltb_spec lower upper); [done|]. injection E as <- <-.
    by eapply Hend.
  - cbn [insert_loop] in E. destruct (Z.ltb_spec lower upper) as [Hlt|Hge].
    + destruct (midpoint_below lower upper) as [Hidx Hw]; [lia..|]. cbv zeta in Hidx, Hw, E.
      set (idx := wrap32 (lower + upper) / 2) in *.
      assert (Z.to_nat idx < length l)%nat as Hil by lia.
      destruct (cmp_nodeptr_cases (l !!! Z.to_nat idx) node) as [[Ec Hc]|[[Ec Hc]|[Ec Hc]]];
        rewrite Ec in E; simpl in E.
      * eapply (IH (wrap32 (idx + 1)) upper idx (-1)); [lia|done| |done| |exact E].
        -- intros i Hi Hi'.
           pose proof (sorted_lookup_le l i (Z.to_nat idx) Hs ltac:(lia) Hil). lia.
        -- right. done.
      * assert (lower <= idx) as Hli.
        { destruct (decide (lower <= idx)) as [|Hn]; [done|].
          specialize (Hlo (Z.to_nat idx) ltac:(lia) Hil). lia. }
        eapply (IH lower idx idx 1); [lia|lia|done| | |exact E].
        -- intros i Hi Hi'.
           pose proof (sorted_lookup_le l (Z.to_nat idx) i Hs ltac:(lia) Hi'). lia.
        -- change (1 <? 0) with false. cbv iota. lia.
      * done.
    + injection E as <- <-. by eapply Hend.
Qed.

Section Sound.

Variable N : nat.

Lemma nodeset_contains_sound ns x b :
  wf_set N ns -> nodeset_contains ns x = Some b -> b = bool_decide (x ∈ ns_nodes ns).
Proof.
  intros (Hf & Hs & Hb). unfold nodeset_contains. rewrite Hf. cbn [andb].
  destruct (7 <=? len ns).
  - unfold len. apply contains_loop_sound; try done; lia.
  - rewrite existsb_eqb. by intros [= <-].
Qed.

Lemma intersect_loop_sound B src kept :
  wf_set N B ->
  intersect_loop B src = Some kept -> kept = filter (fun x => x ∈ ns_nodes B) src.
Proof.
  intros Hwf. revert kept. induction src as [|x src IH]; intros kept E.
  - by injection E as <-.
  - cbn [intersect_loop] in E.
    destruct (nodeset_contains B x) as [b|] eqn:Ec; [|done].
    destruct (intersect_loop B src) as [kept'|]; [|done]. injection E as <-.
    rewrite (nodeset_contains_sound B x b Hwf Ec), (IH kept' eq_refl), filter_cons.
    destruct (decide (x ∈ ns_nodes B)) as [Hx|Hx].
    + by rewrite bool_decide_eq_true_2.
    + by rewrite bool_decide_eq_false_2.
Qed.

Lemma nodeset_intersect_sound A B A' :
  wf_set N A -> wf_set N B -> nodeset_intersect A B = Some A' ->
  wf_set N A' /\ forall y, y ∈ ns_nodes A' <-> y ∈ ns_nodes A /\ y ∈ ns_nodes B.
Proof.
  intros (Hf & Hs & Hb) HB. unfold nodeset_intersect.
  destruct (intersect_loop B (ns_nodes A)) as [kept|] eqn:E; [|done]. intros [= <-].
  rewrite (intersect_loop_sound B _ kept HB E). split.
  - split; [done|]. split; [by apply sorted_filter|].
    simpl. intros x [_ Hx]%list_elem_of_filter. by apply Hb.
  - intros y. simpl. rewrite list_elem_of_filter. naive_solver.
Qed.

Lemma nodeset_insert_sorted_sound ns x s :
  wf_set N ns -> x ∉ ns_nodes ns -> (x < N)%nat ->
  partial (nodeset_insert_sorted ns x) s (fun rn s' =>
    quiet s s' /\ (fst rn = 0 \/ fst rn = -1) /\
    (fst rn = 0 -> wf_set N (snd rn) /\
                   forall y, y ∈ ns_nodes (snd rn) <-> y = x \/ y ∈ ns_nodes ns)).
Proof.
  intros Hwf Hx HxN. destruct Hwf as (Hf & Hs & Hb).
  unfold nodeset_insert_sorted. eapply partial_step; [apply total_partial, room_total|].
  intros [r ns'] s1 (Hq & Hn & Hs' & Hr & _); simpl in *.
  destruct Hr as [->| ->]; simpl; [|apply partial_ret; simpl; split_and!; auto; done].
  unfold len. rewrite Hs', Hf, !Hn. cbn [negb orb andb].
  assert (forall l', l' ≡ₚ x :: ns_nodes ns ->
            forall y, y ∈ l' <-> y = x \/ y ∈ ns_nodes ns) as Hperm.
  { intros l' Hp y. rewrite Hp. apply elem_of_cons. }
  assert (forall l', l' ≡ₚ x :: ns_nodes ns -> forall y, y ∈ l' -> (y < N)%nat) as Hbnd.
  { intros l' Hp y [->|Hy]%Hperm; auto. }
  destruct (Z.eqb_spec (Z.of_nat (length (ns_nodes ns))) 0) as [E0|E0].
  - (* the first node of the set *)
    apply partial_ret. simpl. split; [done|]. split; [by left|]. intros _.
    assert (ns_nodes ns = []) as El by (destruct (ns_nodes ns); [done|simpl in E0; lia]).
    unfold nodeset_sort. simpl. rewrite El. simpl.
    split; [|intros y; rewrite elem_of_cons; naive_solver].
    split; [done|]. split; [repeat constructor|].
    intros y ->%list_elem_of_singleton. done.
  - destruct (cmp_nodeptr_cases (List.last (ns_nodes ns) 0%nat) x)
      as [[Ec Hc]|[[Ec Hc]|[Ec Hc]]]; rewrite Ec; simpl.
    + (* after the last node *)
      apply partial_ret. simpl. split; [done|]. split; [by left|]. intros _.
      assert (ns_nodes ns ++ [x] ≡ₚ x :: ns_nodes ns) as Hp
        by (by rewrite Permutation_app_comm).
      split; [|by apply Hperm].
      split; [done|]. split; [|by apply Hbnd].
      apply sorted_snoc; [done|]. intros y Hy.
      pose proof (sorted_last_max _ y Hs Hy). lia.
    + (* somewhere before: the binary search *)
      eapply (partial_step _ _ _ _ (fun found s2 =>
                insert_loop (length (ns_nodes ns)) (ns_nodes ns) x 0
                  (Z.of_nat (length (ns_nodes ns))) 0 0 = Some found /\ s2 = s1)).
      { apply partial_or_hang. by intros found ->. }
      intros [[idx cmp]|] s2 [Eloop ->]; [|apply partial_die].
      apply insert_loop_sound in Eloop as (Hp0 & Hplo & Hphi); try done; try lia.
      apply partial_ret. simpl.
      split; [done|]. split; [by left|]. intros _.
      set (p := if cmp <? 0 then wrap32 (idx + 1) else idx) in *.
      assert (take (Z.to_nat p) (ns_nodes ns) ++ x :: drop (Z.to_nat p) (ns_nodes ns)
              ≡ₚ x :: ns_nodes ns) as Hp.
      { rewrite <- Permutation_middle. by rewrite take_drop. }
      split; [|by apply Hperm].
      split; [done|]. split; [|by apply Hbnd].
      apply sorted_insert; [done|intros i ? ?; apply Hplo; lia|intros i ? ?; apply Hphi; lia].
    + (* the last node itself: but the node is not a member *)
      exfalso. apply Hx. rewrite <- Hc.
      apply last_elem. intros El. rewrite El in E0. simpl in E0. lia.
Qed.

Lemma insert_all_sound ns l s :
  wf_set N ns -> NoDup l ->
  (forall x, x ∈ l -> (x ∉ ns_nodes ns) /\ (x < N)%nat) ->
  partial (insert_all ns l) s (fun rn s' =>
    quiet s s' /\ (fst rn = 0 \/ fst rn = -1) /\
    (fst rn = 0 -> wf_set N (snd rn) /\
                   forall y, y ∈ ns_nodes (snd rn) <-> y ∈ l \/ y ∈ ns_nodes ns)).
Proof.
  revert ns s. induction l as [|x l IH]; intros ns s Hwf Hnd Hl; cbn [insert_all].
  - apply partial_ret. simpl. split; [apply quiet_refl|]. split; [by left|]. intros _.
    split; [done|]. intros y. rewrite elem_of_nil. naive_solver.
  - apply NoDup_cons in Hnd as [Hx Hnd]. assert (x ∈ x :: l) as Hxin by left.
    destruct (Hl x Hxin) as [Hxn HxN].
    eapply partial_step; [by apply nodeset_insert_sorted_sound|].
    intros [r ns'] s1 (Hq & Hr & Hok); simpl in *.
    destruct Hr as [->| ->]; simpl; [|apply partial_ret; simpl; split_and!; auto; done].
    destruct (Hok eq_refl) as [Hwf' Hel].
    eapply partial_mono; [apply IH; [done|done|]|].
    + intros y Hy. split; [|by apply Hl; right].
      rewrite Hel. intros [->|Hy']; [done|]. by apply (Hl y); [right|].
    + intros [r ns''] s2 (Hq2 & Hr2 & Hok2); simpl in *.
      split; [by eapply quiet_trans|]. split; [done|]. intros Hr0.
      destruct (Hok2 Hr0) as [Hwf'' Hel'']. split; [done|].
      intros y. rewrite Hel'', Hel, elem_of_cons. naive_solver.
Qed.

Lemma insert_members_sound nX nP l s :
  wf_set N nX -> wf_set N nP -> NoDup l ->
  (forall x, x ∈ l -> (x ∉ ns_nodes nP) /\ (x < N)%nat) ->
  partial (insert_members nX nP l) s (fun rn s' =>
    quiet s s' /\ (fst rn = 0 \/ fst rn = -1) /\
    (fst rn = 0 -> wf_set N (snd rn) /\
       forall y, y ∈ ns_nodes (snd rn) <->
                 (y ∈ l /\ y ∈ ns_nodes nX) \/ y ∈ ns_nodes nP)).
Proof.
  intros HX. revert nP s.
  induction l as [|x l IH]; intros nP s Hwf Hnd Hl; cbn [insert_members].
  - apply partial_ret. simpl. split; [apply quiet_refl|]. split; [by left|]. intros _.
    split; [done|]. intros y. rewrite elem_of_nil. naive_solver.
  - apply NoDup_cons in Hnd as [Hx Hnd]. assert (x ∈ x :: l) as Hxin by left.
    destruct (Hl x Hxin) as [Hxn HxN].
    eapply (partial_step _ _ _ _ (fun b s1 => b = bool_decide (x ∈ ns_nodes nX) /\ s1 = s)).
    { apply partial_or_hang. intros b Hb. split; [|done].
      by eapply nodeset_contains_sound. }
    intros b s1 [-> ->]. destruct (decide (x ∈ ns_nodes nX)) as [Hin|Hout].
    + rewrite bool_decide_eq_true_2 by done.
      eapply partial_step; [by apply nodeset_insert_sorted_sound|].
      intros [r nP'] s1 (Hq & Hr & Hok); simpl in *.
      destruct Hr as [->| ->]; simpl; [|apply partial_ret; simpl; split_and!; auto; done].
      destruct (Hok eq_refl) as [Hwf' Hel].
      eapply partial_mono; [apply IH; [done|done|]|].
      * intros y Hy. split; [|by apply Hl; right].
        rewrite Hel. intros [->|Hy']; [done|]. by apply (Hl y); [right|].
      * intros [r nP''] s2 (Hq2 & Hr2 & Hok2); simpl in *.
        split; [by eapply quiet_trans|]. split; [done|]. intros Hr0.
        destruct (Hok2 Hr0) as [Hwf'' Hel'']. split; [done|].
        intros y. rewrite Hel'', Hel, elem_of_cons. naive_solver.
    + rewrite bool_decide_eq_false_2 by done.
      eapply partial_mono; [apply IH; [done|done|]|].
      * intros y Hy. apply Hl. by right.
      * intros [r nP''] s2 (Hq2 & Hr2 & Hok2); simpl in *.
        split; [done|]. split; [done|]. intros Hr0.
        destruct (Hok2 Hr0) as [Hwf'' Hel'']. split; [done|].
        intros y. rewrite Hel'', elem_of_cons. naive_solver.
Qed.

End Sound.

(** [nodeset_append] with the flag it leaves. *)
Lemma nodeset_append_sound ns x s :
  partial (nodeset_append ns x) s (fun rn s' =>
    quiet s s' /\
    (fst rn = 0 ->
     ns_nodes (snd rn) = ns_nodes ns ++ [x] /\
     sorted (snd rn) =
       (len ns =? 0) || (sorted ns && (cmp_nodeptr (List.last (ns_nodes ns) 0%nat) x <? 0)))).
Proof.
  unfold nodeset_append. eapply partial_step; [apply total_partial, room_total|].
  intros [r ns'] s1 (Hq & Hn & Hs & Hr & _); simpl in *.
  destruct Hr as [->| ->]; simpl; apply partial_ret; simpl; (split; [done|]); [|done].
  intros _. unfold len. by rewrite Hn, Hs.
Qed.

(** The nodes of the component are appended to P one by one; the flag of
    P stays set only while they come in increasing order. *)
Lemma append_all_sound l ns s :
  (sorted ns = true -> StronglySorted lt (ns_nodes ns)) ->
  partial (append_all ns l) s (fun P' s' =>
    quiet s s' /\ ns_nodes P' = ns_nodes ns ++ l /\
    (sorted P' = true -> StronglySorted lt (ns_nodes P'))).
Proof.
  revert ns s. induction l as [|x l IH]; intros ns s Hsort; cbn [append_all].
  - apply partial_ret. split; [apply quiet_refl|]. by rewrite app_nil_r.
  - eapply partial_step; [apply nodeset_append_sound|].
    intros [r ns'] s1 [Hq Hok]; simpl in *.
    eapply (partial_step _ _ _ _ (fun _ s' => s' = s1 /\ r = 0)).
    { apply partial_assert. by intros ->%Z.eqb_eq. }
    intros _ s1' [-> ->]. destruct (Hok eq_refl) as [Hn Hs].
    eapply partial_mono; [apply IH|].
    + rewrite Hs, Hn. intros [E0|[Hs' Hc]%andb_true_iff]%orb_true_iff.
      * apply Z.eqb_eq in E0. unfold len in E0.
        destruct (ns_nodes ns); [repeat constructor|simpl in E0; lia].
      * apply Z.ltb_lt in Hc.
        destruct (cmp_nodeptr_cases (List.last (ns_nodes ns) 0%nat) x)
          as [[_ Hlt]|[[E _]|[E _]]]; [|lia|lia].
        apply sorted_snoc; [by apply Hsort|]. intros y Hy.
        pose proof (sorted_last_max _ y (Hsort Hs') Hy). lia.
    + intros P' s' (Hq' & Hn' & Hs'). split; [by eapply quiet_trans|]. split; [|done].
      rewrite Hn', Hn. by rewrite <- (assoc_L (++)).
Qed.

Section Search.

Variable user_cb : list (list nptr) -> list nptr -> Z.
Variable g : Graph.
Variable c : cptr.

Let V := nodes (comp_at g c).
Let N := length (node_os g).

Hypothesis Hnoloop : forall n, ~ adjacent g n n.
Hypothesis Hsym : forall a b, adjacent g a b -> adjacent g b a.
Hypothesis Hnodup : forall n, NoDup (out_edges (node_at g n)).
Hypothesis Hvalid : forall a b, adjacent g a b -> (b < N)%nat.
Hypothesis HV : forall u, u ∈ V -> (u < N)%nat.

(** The loop of [BronKerbosch] over the nodes of P from [v] on. *)
Lemma BK_loop_sound rec pivot :
  rec_sound g c rec ->
  forall rest t s,
    NoDup (ns_nodes (ctx_R s)) ->
    (forall r, r ∈ ns_nodes (ctx_R s) -> r ∈ V) ->
    is_clique g (ns_nodes (ctx_R s)) ->
    wf_set N (still_in_P t) -> wf_set N (bk_X t) -> NoDup rest ->
    (forall u, (u ∈ ns_nodes (still_in_P t) \/ u ∈ rest \/ u ∈ ns_nodes (bk_X t)) <->
               common g V (ns_nodes (ctx_R s)) u) ->
    (forall u, u ∈ ns_nodes (still_in_P t) -> u ∉ ns_nodes (bk_X t)) ->
    (forall u, u ∈ rest -> u ∉ ns_nodes (bk_X t)) ->
    (forall u, u ∈ rest -> u ∉ ns_nodes (still_in_P t)) ->
    partial (BK_loop g rec pivot rest t) s (fun rt s' =>
      good_report g c s s' /\
      (fst rt = 0 -> ns_nodes (ctx_R s') = ns_nodes (ctx_R s))).
Proof.
  intros Hrec rest. induction rest as [|v rest IH];
    intros t s HR1 HR2 HR3 Hst HX Hnd Hcov Hd1 Hd2 Hd3; cbn [BK_loop].
  - apply partial_ret. split; [by apply good_report_refl|]. done.
  - apply NoDup_cons in Hnd as [Hv Hnd].
    assert (common g V (ns_nodes (ctx_R s)) v) as Hcv by (apply Hcov; right; left; left).
    assert (v < N)%nat as HvN by (apply HV, Hcv).
    assert (v ∉ ns_nodes (still_in_P t)) as Hvs by (apply Hd3; left).
    assert (v ∉ ns_nodes (bk_X t)) as HvX by (apply Hd2; left).
    destruct (graph_edge_exists g pivot v).
    + (* v is a neighbour of the pivot: it stays in P *)
      eapply partial_step; [by apply (nodeset_insert_sorted_sound N)|].
      intros [r still'] s1 (Hq & Hr & Hok); simpl in *.
      destruct Hr as [->| ->]; simpl.
      * destruct (Hok eq_refl) as [Hwf Hel]. destruct Hq as [HqR Hqc].
        eapply partial_mono; [apply IH; simpl; rewrite ?HqR; try done|].
        -- intros u. rewrite Hel, <- Hcov, elem_of_cons. naive_solver.
        -- intros u [->|Hu]%Hel; auto.
        -- intros u Hu. apply Hd2. by right.
        -- intros u Hu [->|Hu']%Hel; [done|]. by apply (Hd3 u); [right|].
        -- intros [r t'] s' [Hg Hr0]. simpl in *. rewrite HqR in Hr0.
           split; [by eapply good_report_quiet_l|done].
      * apply partial_ret. simpl. split; [apply good_report_refl, Hq|done].
    + (* v joins R for a call on its neighbours *)
      eapply (partial_step _ _ _ _ (fun a s' => a = s /\ s' = s)); [by apply partial_get|].
      intros s0 s0' [-> ->].
      eapply partial_step; [apply nodeset_append_sound|].
      intros [r R'] s1 (Hq & Hnodes); simpl in *.
      destruct Hq as [HqR Hqc].
      eapply partial_step; [apply total_partial, set_R_total|]. intros u2 s2 [HR2s Hc2].
      eapply (partial_step _ _ _ _ (fun _ s' => s' = s2 /\ r = 0)).
      { apply partial_assert. by intros ->%Z.eqb_eq. }
      intros _ s2' [-> ->]. simpl. destruct (Hnodes eq_refl) as [Hnodes' _].
      clear Hnodes. rename Hnodes' into Hnodes.
      eapply partial_step.
      { apply (insert_all_sound N (nodeset_clear (newX t)) (out_edges (node_at g v)));
          [apply wf_set_clear|apply Hnodup|].
        intros x Hx. split; [apply not_elem_of_nil|by apply (Hvalid v)]. }
      intros [r nX] s3 (Hq3 & Hr3 & Hok3); simpl in *.
      destruct Hr3 as [->| ->]; simpl;
        [|apply partial_ret; simpl; split; [|done];
          apply good_report_refl; destruct Hq3 as [_ ->]; congruence].
      destruct (Hok3 eq_refl) as [HwX HelX]. clear Hok3.
      eapply partial_step.
      { apply (insert_members_sound N nX (nodeset_clear (newP t)) (ns_nodes (still_in_P t)));
          [done|apply wf_set_clear|apply sorted_NoDup, Hst|].
        intros x Hx. split; [apply not_elem_of_nil|by apply Hst]. }
      intros [r nP1] s4 (Hq4 & Hr4 & Hok4); simpl in *.
      destruct Hr4 as [->| ->]; simpl;
        [|apply partial_ret; simpl; split; [|done];
          apply good_report_refl; destruct Hq3 as [_ ?], Hq4 as [_ ?]; congruence].
      destruct (Hok4 eq_refl) as [HwP1 HelP1]. clear Hok4.
      eapply partial_step.
      { apply (insert_members_sound N nX nP1 rest); [done|done|done|].
        intros x Hx. split.
        - rewrite HelP1. intros [[Hxs _]|Hxe]; [|by apply not_elem_of_nil in Hxe].
          by apply (Hd3 x); [right|].
        - apply HV. assert (common g V (ns_nodes (ctx_R s)) x) as Hcx; [|apply Hcx].
          apply Hcov. right. left. by right. }
      intros [r nP] s5 (Hq5 & Hr5 & Hok5); simpl in *.
      destruct Hr5 as [->| ->]; simpl;
        [|apply partial_ret; simpl; split; [|done];
          apply good_report_refl; destruct Hq3 as [_ ?], Hq4 as [_ ?], Hq5 as [_ ?];
          congruence].
      destruct (Hok5 eq_refl) as [HwP HelP]. clear Hok5.
      eapply (partial_step _ _ _ _ (fun a s6 =>
                nodeset_intersect nX (bk_X t) = Some a /\ s6 = s5)).
      { apply partial_or_hang. by intros a ->. }
      intros nX' ? [Ei ->].
      destruct (nodeset_intersect_sound N nX (bk_X t) nX' HwX HX Ei) as [HwX' HelX'].
      assert (ctx_R s5 = R' /\ calls s5 = calls s) as [HR5 Hc5].
      { destruct Hq3 as [? ?], Hq4 as [? ?], Hq5 as [? ?]. split; congruence. }
      assert (bk_inv g V N (ns_nodes (ctx_R s5)) nP nX') as Hinv.
      { rewrite HR5, Hnodes.
        apply (bk_inv_step g c Hnoloop Hsym (ns_nodes (ctx_R s)) (ns_nodes (still_in_P t))
                 rest (ns_nodes (bk_X t))); try done.
        - intros u Hu. apply Hd2. by right.
        - intros u. rewrite HelP, HelP1, HelX. rewrite elem_of_nil. unfold adjacent.
          naive_solver.
        - intros u. rewrite HelX', HelX. simpl. rewrite elem_of_nil. unfold adjacent.
          naive_solver. }
      eapply partial_step; [apply Hrec; exact Hinv|].
      intros [r nX''] s6 [Hg6 Hr6]; simpl in *.
      destruct (Z.eqb_spec r 0) as [->|Hne]; simpl.
      * pose proof (Hr6 eq_refl) as HR6. clear Hr6.
        eapply partial_step; [apply total_partial, set_R_total|]. intros u7 s7 [HR7 Hc7].
        eapply partial_step; [by apply (nodeset_insert_sorted_sound N (bk_X t) v)|].
        intros [r X'] s8 (Hq8 & Hr8 & Hok8); simpl in *.
        assert (good_report g c s s8) as Hg8.
        { eapply good_report_quiet_r; [|destruct Hq8 as [_ ->]; exact Hc7].
          by eapply good_report_quiet_l. }
        destruct Hr8 as [->| ->]; simpl; [|apply partial_ret; simpl; split; [done|done]].
        destruct (Hok8 eq_refl) as [HwX8 HelX8]. clear Hok8.
        assert (ns_nodes (ctx_R s8) = ns_nodes (ctx_R s)) as HR8.
        { destruct Hq8 as [-> _]. rewrite HR7. unfold pop_R. simpl.
          rewrite HR6, HR5, Hnodes. apply removelast_last. }
        eapply partial_mono; [apply IH; simpl; rewrite ?HR8; try done|].
        -- intros u. rewrite HelX8, <- Hcov, elem_of_cons. naive_solver.
        -- intros u Hu [->|Hu']%HelX8; [done|]. by apply (Hd1 u).
        -- intros u Hu [->|Hu']%HelX8; [done|]. by apply (Hd2 u); [right|].
        -- intros u Hu. apply Hd3. by right.
        -- intros [r t'] s' [Hg Hr0]. simpl in *. rewrite HR8 in Hr0.
           split; [by eapply good_report_trans|done].
      * apply partial_ret. simpl. split; [|done]. by eapply good_report_quiet_l.
Qed.

(** One call of [BronKerbosch], given what the calls it makes do. *)
Lemma BK_call_sound rec P X s :
  bk_inv g V N (ns_nodes (ctx_R s)) P X ->
  rec_sound g c rec ->
  partial (BK_call user_cb g rec P X) s (bk_sound g c s).
Proof.
  intros Hinv Hrec. unfold BK_call.
  destruct (Z.eqb_spec (len P) 0) as [EP|EP].
  - assert (ns_nodes P = []) as HP
      by (unfold len in EP; destruct (ns_nodes P); [done|simpl in EP; lia]).
    destruct (Z.eqb_spec (len X) 0) as [EX|EX].
    + assert (ns_nodes X = []) as HX
        by (unfold len in EX; destruct (ns_nodes X); [done|simpl in EX; lia]).
      eapply partial_step; [apply total_partial, call_user_cb_total|].
      intros r s1 [HR1 Hc1]. apply partial_ret. split; simpl.
      * exists [ns_nodes (ctx_R s)]. split; [done|].
        apply Forall_singleton. by eapply bk_inv_maximal.
      * intros _. by rewrite HR1.
    + apply partial_ret. split; [by apply good_report_refl|]. done.
  - eapply (partial_step _ _ _ _ (fun a s' => a = s /\ s' = s)); [by apply partial_get|].
    intros s0 s0' [-> ->].
    eapply partial_step; [apply total_partial, room_total|].
    intros [r R'] s1 (Hq1 & Hn1 & _ & Hr1 & _); simpl in *.
    eapply partial_step; [apply total_partial, set_R_total|]. intros u2 s2 [HR2 Hc2].
    destruct Hq1 as [HqR1 Hqc1].
    destruct Hr1 as [->| ->]; simpl;
      [|apply partial_ret; split; [apply good_report_refl; congruence|done]].
    eapply partial_step; [apply total_partial, nsp_get_total|]. intros onP s3 Hq3.
    eapply partial_step; [apply total_partial, nsp_get_total|]. intros onX s4 Hq4.
    assert (forall s5, quiet s4 s5 -> good_report g c s s5) as Hquiet.
    { intros s5 Hq5. apply good_report_refl.
      destruct Hq3 as [_ ?], Hq4 as [_ ?], Hq5 as [_ ?]. congruence. }
    assert (forall (o1 o2 : option NodeSet) s5, quiet s4 s5 ->
              partial (nsp_put o1 ;;; nsp_put o2 ;;; ret (-1, X)) s5 (bk_sound g c s))
      as Hout.
    { intros o1 o2 s5 Hq5.
      eapply partial_step; [apply total_partial, nsp_put_total|]. intros u1_ s6 Hq6.
      eapply partial_step; [apply total_partial, nsp_put_total|]. intros u2_ s7 Hq7.
      apply partial_ret. split; [|done]. apply Hquiet.
      exact (quiet_trans _ _ _ Hq5 (quiet_trans _ _ _ Hq6 Hq7)). }
    destruct onP as [nP_|], onX as [nX_|]; try (by apply Hout, quiet_refl).
    eapply partial_step; [apply total_partial, nsp_get_total|]. intros ostill s5 Hq5.
    destruct ostill as [still_|]; [|by apply Hout].
    assert (ctx_R s5 = R' /\ calls s5 = calls s) as [HR5 Hc5].
    { destruct Hq3 as [? ?], Hq4 as [? ?], Hq5 as [? ?]. split; congruence. }
    destruct Hinv as [H1 H2 H3 H4 H5 H6 H7].
    eapply partial_step.
    { apply (BK_loop_sound rec (choose_pivot g P X) Hrec
               (ns_nodes P) (mkSets (nodeset_clear still_) nP_ nX_ X) s5);
        simpl; rewrite ?HR5, ?Hn1; try done.
      - apply wf_set_clear.
      - apply sorted_NoDup, H4.
      - intros u. rewrite <- H6, elem_of_nil. naive_solver.
      - intros u Hu. by apply not_elem_of_nil in Hu.
      - intros u Hu. apply not_elem_of_nil. }
    intros [r t] s6 [Hg6 Hr6]; cbn [fst snd] in *.
    eapply partial_step; [exact (total_partial _ _ _ (nsp_put_total (Some (still_in_P t)) s6))|].
    intros u3_ s7 Hq7. cbv beta in Hq7.
    eapply partial_step; [exact (total_partial _ _ _ (nsp_put_total (Some (newX t)) s7))|].
    intros u4_ s8 Hq8. cbv beta in Hq8.
    eapply partial_step; [exact (total_partial _ _ _ (nsp_put_total (Some (newP t)) s8))|].
    intros u5_ s9 Hq9. cbv beta in Hq9.
    assert (quiet s6 s9) as [HqR Hqc]
      by exact (quiet_trans _ _ _ Hq7 (quiet_trans _ _ _ Hq8 Hq9)).
    apply partial_ret. split; simpl.
    + eapply good_report_quiet_r; [|exact Hqc]. by eapply good_report_quiet_l.
    + intros Hr0. rewrite HqR, (Hr6 Hr0), HR5. done.
Qed.

Lemma BronKerbosch_sound fuel : rec_sound g c (BronKerbosch user_cb g fuel).
Proof.
  induction fuel as [|fuel IH]; intros P X s Hinv; [apply partial_die|].
  cbn [BronKerbosch]. by apply BK_call_sound.
Qed.

Hypothesis HVnd : NoDup V.

(** When [component_iterate_maximal_cliques] returns, every clique it has
    handed to the callback is a maximal clique of the component. *)
Lemma component_iterate_sound s :
  partial (component_iterate_maximal_cliques user_cb g c) s (fun _ s' =>
    good_report g c s s').
Proof.
  unfold component_iterate_maximal_cliques.
  eapply (partial_step _ _ _ _ (fun _ s' => quiet s s')).
  { intros a s' [= _ <-]. by split. }
  intros u0 s0 Hq0.
  eapply partial_step; [apply total_partial, nodeset_alloc_total|]. intros oR s1 [Hq1 HR].
  eapply partial_step; [apply total_partial, nodeset_alloc_total|]. intros oP s2 [Hq2 HP].
  eapply partial_step; [apply total_partial, nodeset_alloc_total|]. intros oX s3 [Hq3 HX].
  assert (quiet s s3) as Hq
    by exact (quiet_trans _ _ _ Hq0 (quiet_trans _ _ _ Hq1 (quiet_trans _ _ _ Hq2 Hq3))).
  assert (partial (nsp_destroy ;;; ret (-1)) s3 (fun _ s' => good_report g c s s')) as Hout.
  { eapply (partial_step _ _ _ _ (fun _ s' => quiet s3 s')).
    { intros a s' [= _ <-]. by split. }
    intros u4 s4 Hq4. apply partial_ret. apply good_report_refl.
    destruct Hq as [_ ?], Hq4 as [_ ?]. congruence. }
  destruct oR as [R0|], oP as [P0|], oX as [X0|]; try exact Hout. clear Hout.
  destruct (HR _ eq_refl) as (HR1 & HR2 & HR3).
  destruct (HP _ eq_refl) as (HP1 & HP2 & HP3).
  destruct (HX _ eq_refl) as (HX1 & HX2 & HX3).
  eapply partial_step; [apply total_partial, set_R_total|]. intros u4 s4 [HR4 Hc4].
  eapply partial_step.
  { apply (append_all_sound V P0). intros _. rewrite HP1. constructor. }
  intros P1 s5 ([HqR5 Hqc5] & HnP & HsP). rewrite HP1 in HnP. simpl in HnP.
  destruct (nodeset_sort_wf g P1) as [HwP Hperm]; [done|by rewrite HnP|by rewrite HnP|].
  rewrite HnP in Hperm.
  eapply (partial_step _ _ _ _ (fun _ s' => s' = s5)); [by apply partial_assert|].
  intros _ ? ->.
  eapply (partial_step _ _ _ _ (fun _ s' => s' = s5)); [by apply partial_assert|].
  intros _ ? ->.
  eapply (partial_step _ _ _ _ (fun _ s' => s' = s5)); [by apply partial_assert|].
  intros _ ? ->.
  eapply partial_step.
  { apply (BronKerbosch_sound (S (length (ns_nodes (nodeset_sort P1)))) (nodeset_sort P1)
             X0 s5).
    rewrite HqR5, HR4. cbv beta. rewrite HR1. split.
    - constructor.
    - intros r Hr. by apply not_elem_of_nil in Hr.
    - intros a b Ha. by apply not_elem_of_nil in Ha.
    - done.
    - split; [done|]. rewrite HX1. split; [constructor|].
      intros x Hx. by apply not_elem_of_nil in Hx.
    - intros u. rewrite HX1, Hperm, elem_of_nil. unfold common.
      split; [intros [?|[]]|intros [? _]; by left].
      split; [done|]. intros r Hr. by apply not_elem_of_nil in Hr.
    - intros u _. rewrite HX1. apply not_elem_of_nil. }
  intros rx s6 [Hg6 _].
  eapply (partial_step _ _ _ _ (fun _ s' => quiet s6 s')).
  { intros a s' [= _ <-]. by split. }
  intros u7 s7 [_ Hc7]. apply partial_ret.
  eapply good_report_quiet_r; [|exact Hc7].
  eapply good_report_quiet_l; [|exact Hg6]. destruct Hq as [_ ?]. congruence.
Qed.

End Search.

(** * When BronKerbosch reports the prefix R *)

(** What a call on the prefix R ++ [v] reports starts with R and v. *)
Lemma bk_reports_extend P X s rx s' R v :
  bk_reports P X s rx s' -> ns_nodes (ctx_R s) = R ++ [v] ->
  exists new, calls s' = calls s ++ new /\
    forall K, K ∈ new -> exists tl, K = R ++ v :: tl.
Proof.
  intros (new & Hc & HP0 & HPn & _) HR. exists new. split; [done|]. intros K HK.
  destruct (decide (len P = 0)) as [E|E].
  - rewrite (HP0 E) in HK. destruct (len X =? 0).
    + apply list_elem_of_singleton in HK as ->. exists []. done.
    + by apply not_elem_of_nil in HK.
  - destruct (HPn E K HK) as (v' & tl & _ & ->). exists (v' :: tl).
    by rewrite HR, <- (assoc_L (++)).
Qed.

Section Reports.

Variable user_cb : list (list nptr) -> list nptr -> Z.
Variable g : Graph.
Variable rec : NodeSet -> NodeSet -> M cstate (Z * NodeSet).
Hypothesis Hrec : rec_reports rec.

(** The loop of [BronKerbosch] over the nodes of P from [v] on: every
    array handed over starts with R and goes on with one of these nodes. *)
Lemma BK_loop_extends pivot rest :
  forall t s,
    partial (BK_loop g rec pivot rest t) s (fun rt s' =>
      (exists new, calls s' = calls s ++ new /\
         forall K, K ∈ new ->
           exists v tl, v ∈ rest /\ K = ns_nodes (ctx_R s) ++ v :: tl) /\
      (fst rt = 0 -> ns_nodes (ctx_R s') = ns_nodes (ctx_R s))).
Proof.
  assert (forall (s s' : cstate) (l : list nptr), calls s' = calls s ->
            exists new : list (list nptr), calls s' = calls s ++ new /\
              forall K, K ∈ new ->
                exists v tl, v ∈ l /\ K = ns_nodes (ctx_R s) ++ v :: tl) as Hnone.
  { intros s s' l E. exists []. rewrite app_nil_r. split; [done|].
    intros K HK. by apply not_elem_of_nil in HK. }
  induction rest as [|v rest IH]; intros t s; cbn [BK_loop].
  - apply partial_ret. split; [by apply Hnone|done].
  - destruct (graph_edge_exists g pivot v).
    + eapply partial_step; [apply partial_quiet; auto with steady silent|].
      intros [r still'] s1 [HqR Hqc]; simpl.
      destruct (Z.eqb_spec r 0) as [->|Hne]; simpl.
      * eapply partial_mono; [apply IH|].
        intros [r t'] s' [(new & Hc & Hnew) Hr0]. simpl in *.
        rewrite HqR in Hnew, Hr0. rewrite Hqc in Hc. split; [|done].
        exists new. split; [done|]. intros K HK.
        destruct (Hnew K HK) as (v' & tl & Hv' & ->). exists v', tl. split; [by right|done].
      * apply partial_ret. split; [by apply Hnone|done].
    + eapply (partial_step _ _ _ _ (fun a s' => a = s /\ s' = s)); [by apply partial_get|].
      intros s0 s0' [-> ->].
      eapply partial_step; [apply nodeset_append_sound|].
      intros [r R'] s1 ([HqR Hqc] & Hnodes); simpl in *.
      eapply partial_step; [apply total_partial, set_R_total|]. intros u2 s2 [HR2 Hc2].
      eapply (partial_step _ _ _ _ (fun _ s' => s' = s2 /\ r = 0)).
      { apply partial_assert. by intros ->%Z.eqb_eq. }
      intros _ s2' [-> ->]. simpl. destruct (Hnodes eq_refl) as [Hn _]. clear Hnodes.
      eapply partial_step; [apply partial_quiet; auto with steady silent|].
      intros [r nX] s3 [HqR3 Hqc3]; simpl.
      destruct (Z.eqb_spec r 0) as [->|Hne]; simpl;
        [|apply partial_ret; split; [apply Hnone; congruence|done]].
      eapply partial_step; [apply partial_quiet; auto with steady silent|].
      intros [r nP1] s4 [HqR4 Hqc4]; simpl.
      destruct (Z.eqb_spec r 0) as [->|Hne]; simpl;
        [|apply partial_ret; split; [apply Hnone; congruence|done]].
      eapply partial_step; [apply partial_quiet; auto with steady silent|].
      intros [r nP] s5 [HqR5 Hqc5]; simpl.
      destruct (Z.eqb_spec r 0) as [->|Hne]; simpl;
        [|apply partial_ret; split; [apply Hnone; congruence|done]].
      eapply partial_step; [apply partial_quiet; auto with steady silent|].
      intros nX' s6 [HqR6 Hqc6].
      assert (ns_nodes (ctx_R s6) = ns_nodes (ctx_R s) ++ [v] /\ calls s6 = calls s)
        as [HR6 Hc6] by (split; congruence).
      eapply partial_step; [apply Hrec|].
      intros [r nX''] s7 Hrep; simpl.
      destruct (bk_reports_extend _ _ _ _ _ _ _ Hrep HR6) as (new & Hc7 & Hnew).
      destruct Hrep as (_ & _ & _ & _ & HR7). simpl in HR7.
      assert (forall K, K ∈ new ->
                exists v' tl, v' ∈ v :: rest /\ K = ns_nodes (ctx_R s) ++ v' :: tl) as Hnew'.
      { intros K HK. destruct (Hnew K HK) as (tl & ->). exists v, tl. split; [left|done]. }
      destruct (Z.eqb_spec r 0) as [->|Hne]; simpl.
      * specialize (HR7 eq_refl).
        eapply partial_step; [apply total_partial, set_R_total|]. intros u8 s8 [HR8 Hc8].
        eapply partial_step; [apply partial_quiet; auto with steady silent|].
        intros [r X'] s9 [HqR9 Hqc9]; simpl.
        assert (ns_nodes (ctx_R s9) = ns_nodes (ctx_R s)) as HR9.
        { rewrite HqR9, HR8. unfold pop_R. simpl. rewrite HR7, HR6. apply removelast_last. }
        destruct (Z.eqb_spec r 0) as [->|Hne]; simpl.
        -- eapply partial_mono; [apply IH|].
           intros [r t'] s' [(new' & Hc' & Hnew'') Hr0]. simpl in *.
           rewrite HR9 in Hnew'', Hr0. split; [|done].
           exists (new ++ new'). split.
           ++ rewrite Hc', Hqc9, Hc8, Hc7, Hc6. by rewrite (assoc_L (++)).
           ++ intros K [HK|HK]%elem_of_app; [by apply Hnew'|].
              destruct (Hnew'' K HK) as (v' & tl & Hv' & ->). exists v', tl.
              split; [by right|done].
        -- apply partial_ret. split; [|done]. exists new. split; [|done].
           rewrite Hqc9, Hc8, Hc7, Hc6. done.
      * apply partial_ret. split; [|done]. exists new. split; [|done].
        rewrite Hc7, Hc6. done.
Qed.

(** One call of [BronKerbosch], given what the calls it makes report. *)
Lemma BK_call_extends P X s :
  partial (BK_call user_cb g rec P X) s (bk_reports P X s).
Proof.
  unfold BK_call. destruct (Z.eqb_spec (len P) 0) as [EP|EP].
  - destruct (Z.eqb_spec (len X) 0) as [EX|EX].
    + eapply partial_step; [apply total_partial, call_user_cb_total|].
      intros r s1 [HR1 Hc1]. apply partial_ret.
      exists [ns_nodes (ctx_R s)]. split; [done|]. split; [|split; [done|]].
      * intros _. destruct (Z.eqb_spec (len X) 0); done.
      * intros _. by rewrite HR1.
    + apply partial_ret. exists []. rewrite app_nil_r. split; [done|].
      split; [|split; [done|done]].
      intros _. destruct (Z.eqb_spec (len X) 0); done.
  - assert (forall (rx : Z * NodeSet) s', calls s' = calls s ->
              (fst rx = 0 -> ns_nodes (ctx_R s') = ns_nodes (ctx_R s)) ->
              bk_reports P X s rx s') as Hnone.
    { intros rx s' E HR. exists []. rewrite app_nil_r. split; [done|].
      split; [done|]. split; [|done]. intros _ K HK. by apply not_elem_of_nil in HK. }
    eapply (partial_step _ _ _ _ (fun a s' => a = s /\ s' = s)); [by apply partial_get|].
    intros s0 s0' [-> ->].
    eapply partial_step; [apply total_partial, room_total|].
    intros [r R'] s1 ([HqR1 Hqc1] & Hn1 & _); simpl in *.
    eapply partial_step; [apply total_partial, set_R_total|]. intros u2 s2 [HR2 Hc2].
    destruct (Z.eqb_spec r 0) as [->|Hne]; simpl;
      [|apply partial_ret, Hnone; [congruence|done]].
    eapply partial_step; [apply total_partial, nsp_get_total|]. intros onP s3 [HqR3 Hqc3].
    eapply partial_step; [apply total_partial, nsp_get_total|]. intros onX s4 [HqR4 Hqc4].
    assert (forall (o1 o2 : option NodeSet) s5, quiet s4 s5 ->
              partial (nsp_put o1 ;;; nsp_put o2 ;;; ret (-1, X)) s5 (bk_reports P X s))
      as Hout.
    { intros o1 o2 s5 [HqR5 Hqc5].
      eapply partial_step; [apply total_partial, nsp_put_total|]. intros u1_ s6 [_ Hqc6].
      eapply partial_step; [apply total_partial, nsp_put_total|]. intros u2_ s7 [_ Hqc7].
      apply partial_ret, Hnone; [congruence|done]. }
    destruct onP as [nP_|], onX as [nX_|]; try (by apply Hout, quiet_refl).
    eapply partial_step; [apply total_partial, nsp_get_total|]. intros ostill s5 Hq5.
    destruct ostill as [still_|]; [|by apply Hout].
    destruct Hq5 as [HqR5 Hqc5].
    assert (ns_nodes (ctx_R s5) = ns_nodes (ctx_R s) /\ calls s5 = calls s) as [HR5 Hc5].
    { split; [|congruence]. rewrite HqR5, HqR4, HqR3, HR2. done. }
    eapply partial_step; [apply BK_loop_extends|].
    intros [r t] s6 [(new & Hc6 & Hnew) HR6]; cbn [fst snd] in *.
    eapply partial_step; [exact (total_partial _ _ _ (nsp_put_total (Some (still_in_P t)) s6))|].
    intros u3_ s7 [HqR7 Hqc7].
    eapply partial_step; [exact (total_partial _ _ _ (nsp_put_total (Some (newX t)) s7))|].
    intros u4_ s8 [HqR8 Hqc8].
    eapply partial_step; [exact (total_partial _ _ _ (nsp_put_total (Some (newP t)) s8))|].
    intros u5_ s9 [HqR9 Hqc9].
    apply partial_ret. exists new. split; [congruence|]. split; [done|]. split.
    + intros _ K HK. rewrite <- HR5. by apply Hnew.
    + simpl. intros Hr0. rewrite HqR9, HqR8, HqR7, (HR6 Hr0). done.
Qed.

End Reports.

Lemma BronKerbosch_extends user_cb g fuel : rec_reports (BronKerbosch user_cb g fuel).
Proof.
  induction fuel as [|fuel IH]; intros P X s; [apply partial_die|].
  cbn [BronKerbosch]. by apply BK_call_extends.
Qed.

(** An array that starts with R and goes on is not R. *)
Lemma extension_differs (R : list nptr) v tl : R <> R ++ v :: tl.
Proof.
  intros E. apply (f_equal length) in E. rewrite length_app in E. simpl in E. lia.
Qed.

(** * The claims about the graph *)

Lemma built_add_nodes h fl ids w u w' :
  built h fl w -> add_nodes h ids w = Ret u w' -> built h fl w'.
Proof.
  revert w. induction ids as [|s ids IH]; intros w Hb H; simpl in H.
  - by injection H as _ <-.
  - mred in H. mcase H E as r w1. eapply IH; [|exact H]. by eapply built_node.
Qed.

Lemma built_ops h fl ops w u w' :
  built h fl w -> run_ops h ops w = Ret u w' -> built h fl w'.
Proof.
  revert w. induction ops as [|[s|s1 s2] ops IH]; intros w Hb H; simpl in H.
  - by injection H as _ <-.
  - mred in H. mcase H E as r w1. eapply IH; [|exact H]. by eapply built_node.
  - mred in H. mcase H E as r w1. eapply IH; [|exact H]. by eapply built_edge.
Qed.

Lemma built_run h fl ids w0 w1 u w :
  comp_store (gph w0) = [] -> graph_init fl w0 = Ret 0 w1 ->
  add_nodes h ids w1 = Ret u w -> built h fl w.
Proof.
  intros H0 H1 H2. eapply built_add_nodes; [|exact H2]. by eapply built_init.
Qed.

Lemma sample_world_built fl w0 :
  graph_init fl (world0 []) = Ret 0 w0 ->
  add_nodes sample_hash (take 64 sample_ids) w0 = Ret tt (sample_world fl) ->
  built sample_hash fl (sample_world fl).
Proof. intros H1 H2. by eapply (built_run _ _ _ (world0 [])). Qed.

(** C1 (defect). The lookup-or-create operation does not return the node
    that exists for an identifier once the table has grown: when the node
    [n] of the identifier [s] is in the index, bit [k] of the hash value of
    [s] is set and the creation of a node for the new identifier [t] makes
    the table grow from 2^k to 2^(k+1) buckets, the next
    [graph_add_node s] creates a second node [m] for [s] and returns 1.
    Both [n] and [m] are then in the index, with the same identifier. *)
Theorem resize_forgets_identifier h fl w k s n t :
  built h fl w -> resize_due h w k s n t ->
  let m := S (length (node_os (gph w))) in
  exists w1 w2,
    graph_add_node h t w = Ret 1 w1 /\
    graph_add_node_internal h s true w1 = Ret (Some m) w2 /\
    graph_add_node h s w1 = Ret 1 w2 /\
    n <> m /\
    ident (node_at (gph w2) n) = s /\ ident (node_at (gph w2) m) = s /\
    n ∈ concat (g_nodes (gph w2)) /\ m ∈ concat (g_nodes (gph w2)).
Proof.
  intros Hb Hrd m. destruct (built_ok _ _ _ Hb) as [Hok _].
  pose proof Hrd as [Hp Hk Hm Hc Hlt Hold Hbit Hnew].
  destruct (graph_add_node_new h t w Hok Hp Hnew)
    as (w1 & E1 & Ei1 & Hp1 & Hok1 & Hl1 & Hid1 & Hold1 & _ & _ & _ & Hin1).
  destruct (resize_loses h s t n true w k _ w1 (mok_table _ (gok_mid _ Hok)) Hrd Ei1)
    as (_ & Hlost & _).
  destruct (graph_add_node_new h s w1 Hok1 Hp1 Hlost)
    as (w2 & E2 & Ei2 & Hp2 & Hok2 & Hl2 & Hid2 & Hold2 & _ & _ & Hm2 & Hin2).
  rewrite Hl1 in *. fold m in Ei2, Hid2, Hold2, Hm2.
  apply bucket_find_Some in Hold as (Hn & Hidn & _).
  pose proof (ok_bucket_valid _ (mok_index _ (gok_mid _ Hok)) n Hn) as Hlt_n.
  exists w1, w2. split_and!; try done.
  - unfold m. lia.
  - rewrite Hold2 by (unfold m; lia). by rewrite Hold1.
  - auto.
Qed.

Lemma resize_forgets_identifier_witness :
  built sample_hash 14 (sample_world 14) /\
  resize_due sample_hash (sample_world 14) 4 "a" 49 "p" /\
  exists w1 w2,
    graph_add_node sample_hash "p" (sample_world 14) = Ret 1 w1 /\
    graph_add_node_internal sample_hash "a" true w1 =
      Ret (Some (S (length (node_os (gph (sample_world 14)))))) w2 /\
    graph_add_node sample_hash "a" w1 = Ret 1 w2 /\
    49%nat <> S (length (node_os (gph (sample_world 14)))) /\
    ident (node_at (gph w2) 49) = "a" /\
    ident (node_at (gph w2) (S (length (node_os (gph (sample_world 14)))))) = "a" /\
    49%nat ∈ concat (g_nodes (gph w2)) /\
    S (length (node_os (gph (sample_world 14)))) ∈ concat (g_nodes (gph w2)).
Proof.
  assert (built sample_hash 14 (sample_world 14)) as Hb.
  { eapply sample_world_built; [vm_compute; reflexivity|vm_compute; reflexivity]. }
  assert (resize_due sample_hash (sample_world 14) 4 "a" 49 "p") as Hd.
  { split; try (vm_compute; reflexivity).
    - intros H. vm_compute in H. inversion H.
    - lia. }
  split; [exact Hb|]. split; [exact Hd|].
  exact (resize_forgets_identifier sample_hash 14 (sample_world 14) 4 "a" 49 "p" Hb Hd).
Defined.

(** C2 (defect, the one of C1). The number of components does not follow
    the connected components of the graph the insertions imply: in the
    situation of C1, [graph_add_node s] for the identifier [s] that is a
    node of the graph already returns 1 and appends a component, although
    the identifiers of the graph and its edges are what they were. *)
Theorem component_for_known_identifier h fl w k s n t :
  built h fl w -> resize_due h w k s n t ->
  exists w1 w2,
    graph_add_node h t w = Ret 1 w1 /\
    graph_add_node h s w1 = Ret 1 w2 /\
    s ∈ identifiers (gph w1) /\
    (forall x, x ∈ identifiers (gph w2) <-> x ∈ identifiers (gph w1)) /\
    edge_total (gph w2) = edge_total (gph w1) /\
    length (components (gph w2)) = S (length (components (gph w1))).
Proof.
  intros Hb Hrd. destruct (built_ok _ _ _ Hb) as [Hok _].
  pose proof Hrd as [Hp Hk Hm Hc Hlt Hold Hbit Hnew].
  destruct (graph_add_node_new h t w Hok Hp Hnew)
    as (w1 & E1 & Ei1 & Hp1 & Hok1 & Hl1 & Hid1 & Hold1 & _ & _ & _ & Hin1).
  destruct (resize_loses h s t n true w k _ w1 (mok_table _ (gok_mid _ Hok)) Hrd Ei1)
    as (_ & Hlost & _).
  destruct (graph_add_node_new h s w1 Hok1 Hp1 Hlost)
    as (w2 & E2 & Ei2 & Hp2 & Hok2 & Hl2 & Hid2 & Hold2 & Hcs2 & Het2 & _).
  apply bucket_find_Some in Hold as (Hn & Hidn & _).
  pose proof (ok_bucket_valid _ (mok_index _ (gok_mid _ Hok)) n Hn) as Hlt_n.
  assert (s ∈ identifiers (gph w1)) as Hs1.
  { apply elem_of_identifiers. exists n. split; [lia|]. by rewrite Hold1. }
  exists w1, w2. split_and!; try done.
  - intros x. rewrite !elem_of_identifiers. split.
    + intros (m & Hm2 & <-).
      destruct (decide (m = length (node_os (gph w1)))) as [->|Hne].
      * rewrite Hid2. by apply elem_of_identifiers.
      * exists m. split; [lia|]. symmetry. apply Hold2. lia.
    + intros (m & Hm1 & <-). exists m. split; [lia|]. by apply Hold2.
  - rewrite Hcs2, length_app. simpl. lia.
Qed.

Lemma component_for_known_identifier_witness :
  built sample_hash 14 (sample_world 14) /\
  resize_due sample_hash (sample_world 14) 4 "a" 49 "p" /\
  exists w1 w2,
    graph_add_node sample_hash "p" (sample_world 14) = Ret 1 w1 /\
    graph_add_node sample_hash "a" w1 = Ret 1 w2 /\
    "a" ∈ identifiers (gph w1) /\
    (forall x, x ∈ identifiers (gph w2) <-> x ∈ identifiers (gph w1)) /\
    edge_total (gph w2) = edge_total (gph w1) /\
    length (components (gph w2)) = S (length (components (gph w1))).
Proof.
  assert (built sample_hash 14 (sample_world 14)) as Hb.
  { eapply sample_world_built; [vm_compute; reflexivity|vm_compute; reflexivity]. }
  assert (resize_due sample_hash (sample_world 14) 4 "a" 49 "p") as Hd.
  { split; try (vm_compute; reflexivity).
    - intros H. vm_compute in H. inversion H.
    - lia. }
  split; [exact Hb|]. split; [exact Hd|].
  exact (component_for_known_identifier sample_hash 14 (sample_world 14) 4 "a" 49 "p" Hb Hd).
Defined.

(** C7 (defect, the one of C1). With no-parallel set, the second of two
    equal calls of [graph_add_edge] does not return 0 when the first one
    made the table grow: in the situation of C1, with [b] the new
    identifier, both [graph_add_edge a b] link an edge, the second one from
    a second node for [a], and the graph ends with more edges than after
    the first call. *)
Theorem parallel_edge_after_resize h fl w k a n b :
  built h fl w -> Z.land fl GRAPH_NOPARALLEL <> 0 -> resize_due h w k a n b ->
  exists r1 w1 r2 w2,
    graph_add_edge h a b w = Ret r1 w1 /\ 0 < r1 /\
    graph_add_edge h a b w1 = Ret r2 w2 /\ 0 < r2 /\
    (edge_total (gph w1) < edge_total (gph w2))%nat.
Proof.
  intros Hb _ Hrd. destruct (built_ok _ _ _ Hb) as [Hok _].
  pose proof Hrd as [Hp Hk Hm Hc Hlt Hold Hbit Hnew].
  assert (a <> b) as Hab by (intros ->; congruence).
  pose proof (bucket_find_Some _ _ _ _ Hold) as (Hn & Hidn & _).
  pose proof (ok_bucket_valid _ (mok_index _ (gok_mid _ Hok)) n Hn) as Hlt_n.
  (* the first call *)
  destruct (graph_add_edge_total h a b w Hok Hp) as (r1 & w1 & E1 & Hr1 & Hp1).
  pose proof (graph_add_edge_Ret h _ _ _ _ _ Hok E1) as (Hok1 & _).
  destruct (graph_add_edge_steps h a b w r1 w1 (gok_mid _ Hok) E1)
    as (n1 & wa & n2 & wA & Ea & Eb & R & F & Hz); [lia|].
  rewrite (bucket_find_hit h a n w Hold false) in Ea. injection Ea as <- <-.
  destruct (resize_loses h a b n false w k _ wA (mok_table _ (gok_mid _ Hok)) Hrd Eb)
    as (_ & Hlost & _).
  apply graph_add_node_internal_false in Eb
    as (_ & n2' & [= <-] & [[Hf' _]|(_ & -> & _)]); [congruence|].
  pose proof (rs_new _ _ _ _ _ _ R (length (node_os (gph w))) (le_n _)) as Hnew2.
  assert (r1 <> 0) as Hr1'.
  { intros Hr0. destruct (Hz Hr0) as [->|[_ ?]]; [lia|done]. }
  rewrite <- (bucket_find_frame h _ _ a F) in Hlost.
  (* the second call *)
  destruct (graph_add_edge_total h a b w1 Hok1 Hp1) as (r2 & w2 & E2 & Hr2 & Hp2).
  pose proof (graph_add_edge_Ret h _ _ _ _ _ Hok1 E2) as (_ & _ & _ & Hct).
  destruct (graph_add_edge_steps h a b w1 r2 w2 (gok_mid _ Hok1) E2)
    as (m1 & wb & m2 & wB & Ea' & Eb' & R' & F' & Hz'); [lia|].
  apply graph_add_node_internal_false in Ea'
    as (_ & m1' & [= <-] & [[Hf' _]|(_ & -> & _)]); [congruence|].
  pose proof (rs_new _ _ _ _ _ _ R' (length (node_os (gph w1))) (le_n _)) as Hnew1.
  assert (r2 <> 0) as Hr2'.
  { intros Hr0. destruct (Hz' Hr0) as [E|[? _]]; [|done].
    apply Hab. rewrite <- (rs_id1 _ _ _ _ _ _ R'), <- (rs_id2 _ _ _ _ _ _ R'). by rewrite E. }
  exists r1, w1, r2, w2. split; [done|]. split; [lia|]. split; [done|]. split; [lia|].
  destruct Hct as [(-> & _)|[(-> & _)|[(_ & -> & _)|(_ & -> & _)]]]; lia.
Qed.

Lemma parallel_edge_after_resize_witness :
  built sample_hash 14 (sample_world 14) /\
  Z.land 14 GRAPH_NOPARALLEL <> 0 /\
  resize_due sample_hash (sample_world 14) 4 "a" 49 "p" /\
  exists r1 w1 r2 w2,
    graph_add_edge sample_hash "a" "p" (sample_world 14) = Ret r1 w1 /\ 0 < r1 /\
    graph_add_edge sample_hash "a" "p" w1 = Ret r2 w2 /\ 0 < r2 /\
    (edge_total (gph w1) < edge_total (gph w2))%nat.
Proof.
  assert (built sample_hash 14 (sample_world 14)) as Hb.
  { eapply sample_world_built; [vm_compute; reflexivity|vm_compute; reflexivity]. }
  assert (Z.land 14 GRAPH_NOPARALLEL <> 0) as Hf by (vm_compute; discriminate).
  assert (resize_due sample_hash (sample_world 14) 4 "a" 49 "p") as Hd.
  { split; try (vm_compute; reflexivity).
    - intros H. vm_compute in H. inversion H.
    - lia. }
  split; [exact Hb|]. split; [exact Hf|]. split; [exact Hd|].
  exact (parallel_edge_after_resize sample_hash 14 (sample_world 14) 4 "a" 49 "p" Hb Hf Hd).
Defined.

(** C8 (defect, the one of C1). With undirected and no-parallel set,
    [graph_add_edge a b] and [graph_add_edge b a] on the same graph do not
    leave the same graph when the call makes the table grow: in the
    situation of C1, with [b] the new identifier, the first links the node
    of [a] with one new node, the second creates two nodes, one of them a
    second node for [a]. *)
Theorem swapped_edge_after_resize h fl w k a n b :
  built h fl w -> Z.land fl GRAPH_UNDIRECTED <> 0 -> Z.land fl GRAPH_NOPARALLEL <> 0 ->
  resize_due h w k a n b ->
  exists r1 w1 r2 w2,
    graph_add_edge h a b w = Ret r1 w1 /\ 0 < r1 /\
    graph_add_edge h b a w = Ret r2 w2 /\ 0 < r2 /\
    length (node_os (gph w1)) = S (length (node_os (gph w))) /\
    length (node_os (gph w2)) = S (S (length (node_os (gph w)))) /\
    ident (node_at (gph w2) n) = a /\
    ident (node_at (gph w2) (S (length (node_os (gph w))))) = a.
Proof.
  intros Hb _ _ Hrd. destruct (built_ok _ _ _ Hb) as [Hok _].
  pose proof Hrd as [Hp Hk Hm Hc Hlt Hold Hbit Hnew].
  assert (a <> b) as Hab by (intros ->; congruence).
  pose proof (bucket_find_Some _ _ _ _ Hold) as (Hn & Hidn & _).
  pose proof (ok_bucket_valid _ (mok_index _ (gok_mid _ Hok)) n Hn) as Hlt_n.
  set (L := length (node_os (gph w))) in *.
  (* a first, then b *)
  destruct (graph_add_edge_total h a b w Hok Hp) as (r1 & w1 & E1 & Hr1 & Hp1).
  destruct (graph_add_edge_steps h a b w r1 w1 (gok_mid _ Hok) E1)
    as (n1 & wa & n2 & wA & Ea & Eb & R & F & Hz); [lia|].
  rewrite (bucket_find_hit h a n w Hold false) in Ea. injection Ea as <- <-.
  apply graph_add_node_internal_false in Eb
    as (_ & n2' & [= <-] & [[Hf' _]|(_ & -> & _)]); [congruence|].
  pose proof (rs_new _ _ _ _ _ _ R L (le_n _)) as Hnew2.
  assert (r1 <> 0) as Hr1'.
  { intros Hr0. destruct (Hz Hr0) as [E|[_ ?]]; [fold L in E; lia|done]. }
  pose proof (rs_len _ _ _ _ _ _ R) as Hl1. fold L in Hl1.
  (* b first, then a *)
  destruct (graph_add_edge_total h b a w Hok Hp) as (r2 & w2 & E2 & Hr2 & Hp2).
  destruct (graph_add_edge_steps h b a w r2 w2 (gok_mid _ Hok) E2)
    as (m1 & wb & m2 & wB & Ea' & Eb' & R' & F' & Hz'); [lia|].
  destruct (resize_loses h a b n false w k _ wb (mok_table _ (gok_mid _ Hok)) Hrd Ea')
    as (_ & Hlost & _).
  apply graph_add_node_internal_false in Ea'
    as (_ & m1' & [= <-] & [[Hf' _]|(_ & -> & Hcb)]); [congruence|].
  apply graph_add_node_internal_false in Eb'
    as (_ & m2' & [= <-] & [[Hf' _]|(_ & -> & Hca)]); [congruence|].
  rewrite (cr_length _ _ _ Hcb) in *. fold L in R', Hz', Hca |- *.
  pose proof (rs_new _ _ _ _ _ _ R' (S L) ltac:(fold L; lia)) as Hnew1.
  assert (r2 <> 0) as Hr2'.
  { intros Hr0. destruct (Hz' Hr0) as [E|[_ ?]]; [lia|done]. }
  pose proof (rs_len _ _ _ _ _ _ R') as Hl2. fold L in Hl2.
  exists r1, w1, r2, w2. split; [done|]. split; [lia|]. split; [done|]. split; [lia|].
  split; [rewrite (fr_length _ _ F); lia|]. split; [rewrite (fr_length _ _ F'); lia|].
  rewrite !(fr_ident _ _ F'). split.
  - rewrite (cr_old _ _ _ Hca) by (rewrite (cr_length _ _ _ Hcb); fold L; lia).
    rewrite (cr_old _ _ _ Hcb) by done. done.
  - apply (rs_id2 _ _ _ _ _ _ R').
Qed.

Lemma swapped_edge_after_resize_witness :
  built sample_hash 3 (sample_world 3) /\
  Z.land 3 GRAPH_UNDIRECTED <> 0 /\ Z.land 3 GRAPH_NOPARALLEL <> 0 /\
  resize_due sample_hash (sample_world 3) 4 "a" 49 "p" /\
  exists r1 w1 r2 w2,
    graph_add_edge sample_hash "a" "p" (sample_world 3) = Ret r1 w1 /\ 0 < r1 /\
    graph_add_edge sample_hash "p" "a" (sample_world 3) = Ret r2 w2 /\ 0 < r2 /\
    length (node_os (gph w1)) = S (length (node_os (gph (sample_world 3)))) /\
    length (node_os (gph w2)) = S (S (length (node_os (gph (sample_world 3))))) /\
    ident (node_at (gph w2) 49) = "a" /\
    ident (node_at (gph w2) (S (length (node_os (gph (sample_world 3)))))) = "a".
Proof.
  assert (built sample_hash 3 (sample_world 3)) as Hb.
  { eapply sample_world_built; [vm_compute; reflexivity|vm_compute; reflexivity]. }
  assert (Z.land 3 GRAPH_UNDIRECTED <> 0) as Hu by (vm_compute; discriminate).
  assert (Z.land 3 GRAPH_NOPARALLEL <> 0) as Hf by (vm_compute; discriminate).
  assert (resize_due sample_hash (sample_world 3) 4 "a" 49 "p") as Hd.
  { split; try (vm_compute; reflexivity).
    - intros H. vm_compute in H. inversion H.
    - lia. }
  split; [exact Hb|]. split; [exact Hu|]. split; [exact Hf|]. split; [exact Hd|].
  exact (swapped_edge_after_resize sample_hash 3 (sample_world 3) 4 "a" 49 "p" Hb Hu Hf Hd).
Defined.

(** C10. A flags argument with a bit set beyond the four flags makes
    [graph_init] return -1 with [errno] set to [EINVAL]; the graph is not
    touched and the allocator is not called. The conflict of undirected
    with dual has the same outcome. *)
Theorem graph_init_rejects_flags fl w :
  0 <= fl < 2 ^ 32 ->
  (exists i, 4 <= i /\ Z.testbit fl i = true) \/
  (Z.testbit fl 0 = true /\ Z.testbit fl 3 = true) ->
  graph_init fl w = Ret (-1) (rejected w).
Proof.
  intros Hfl H. unfold graph_init.
  destruct H as [(i & Hi & Hb)|[H0 H3]].
  - assert (Z.land fl (wrap32 (Z.lnot (Z.lor (Z.lor (Z.lor GRAPH_UNDIRECTED GRAPH_NOPARALLEL)
                                 GRAPH_NOLOOP) GRAPH_DUAL))) <> 0) as Hne.
    { intros E. apply (f_equal (fun z => Z.testbit z i)) in E.
      rewrite Z.land_spec, Hb, Z.bits_0 in E. simpl in E.
      assert (i < 32) as Hi32.
      { destruct (Z_lt_le_dec i 32) as [|Hge]; [done|].
        rewrite (Z.bits_above_log2 fl i) in Hb; [done|lia|].
        destruct (decide (fl = 0)) as [->|]; [simpl; lia|].
        apply Z.log2_lt_pow2; [lia|].
        pose proof (Z.pow_le_mono_r 2 32 i ltac:(lia) Hge). lia. }
      change (wrap32 _) with (Z.shiftl (Z.ones 28) 4) in E.
      rewrite Z.shiftl_spec, Z.ones_spec_low in E by lia. done. }
    apply Z.eqb_neq in Hne. rewrite Hne. done.
  - destruct (negb (Z.land fl _ =? 0)); [done|].
    assert (Z.land fl GRAPH_UNDIRECTED <> 0) as H0'.
    { intros E. apply (f_equal (fun z => Z.testbit z 0)) in E.
      rewrite Z.land_spec, H0 in E. done. }
    assert (Z.land fl GRAPH_DUAL <> 0) as H3'.
    { intros E. apply (f_equal (fun z => Z.testbit z 3)) in E.
      rewrite Z.land_spec, H3 in E. done. }
    apply Z.eqb_neq in H0', H3'. rewrite H0', H3'. done.
Qed.

Lemma graph_init_rejects_flags_witness :
  graph_init 16 (world0 [false]) = Ret (-1) (rejected (world0 [false])) /\
  graph_init 9 (world0 [false]) = Ret (-1) (rejected (world0 [false])).
Proof.
  split.
  - apply (graph_init_rejects_flags 16 (world0 [false])); [lia|].
    left. exists 4. split; [lia|reflexivity].
  - apply (graph_init_rejects_flags 9 (world0 [false])); [lia|].
    right. split; reflexivity.
Defined.

(** C6, as the claim has it, fails: a resize that failed is not tried
    again. The 65th node asks for the larger array and is refused; the
    66th node, with memory at hand and 66 nodes against the threshold of
    64 the table had, leaves the 16 buckets. *)
Lemma failed_resize_not_retried :
  exists w1 w2,
    graph_add_node sample_hash "p" (with_oracle [false] (sample_world 14)) = Ret 1 w1 /\
    table_of (gph w1) = (16%nat, 15, UINT32_MAX) /\ oracle w1 = [] /\
    graph_add_node sample_hash "q" w1 = Ret 1 w2 /\
    g_node_count (gph w2) = 66 /\ table_of (gph w2) = (16%nat, 15, UINT32_MAX).
Proof. eexists _, _. split_and!; [> vm_compute; reflexivity ..]. Qed.

(** C6, amended. When the new array of buckets is refused, the resize lets
    the table be and sets the threshold to [UINT32_MAX]; from then on no
    insertion of a node or an edge changes the number of buckets, the mask
    or the threshold: the table has given up growing. *)
Theorem failed_resize_is_final h fl w :
  built h fl w ->
  (forall o, graph_attempt_hash_resize (with_oracle (false :: o) w) =
             Ret tt (mkWorld (set_resize_threshold UINT32_MAX (gph w)) ENOMEM o
                             (node_chunk w) (edge_chunk w))) /\
  (resize_threshold (gph w) = UINT32_MAX ->
     (forall s r w', graph_add_node h s w = Ret r w' ->
        table_of (gph w') = table_of (gph w)) /\
     (forall s1 s2 r w', graph_add_edge h s1 s2 w = Ret r w' ->
        table_of (gph w') = table_of (gph w))).
Proof.
  intros Hb. destruct (built_ok _ _ _ Hb) as [Hok _]. split.
  - intros o. reflexivity.
  - intros Ht. split.
    + intros s r w' E. by eapply graph_add_node_saturated.
    + intros s1 s2 r w' E. eapply graph_add_edge_saturated; [apply Hok|done..].
Qed.

Lemma failed_resize_is_final_witness :
  built sample_hash 14 sample_saturated /\
  resize_threshold (gph sample_saturated) = UINT32_MAX /\
  (forall o, graph_attempt_hash_resize (with_oracle (false :: o) sample_saturated) =
             Ret tt (mkWorld (set_resize_threshold UINT32_MAX (gph sample_saturated))
                             ENOMEM o (node_chunk sample_saturated)
                             (edge_chunk sample_saturated))) /\
  (forall s r w', graph_add_node sample_hash s sample_saturated = Ret r w' ->
     table_of (gph w') = table_of (gph sample_saturated)) /\
  (forall s1 s2 r w', graph_add_edge sample_hash s1 s2 sample_saturated = Ret r w' ->
     table_of (gph w') = table_of (gph sample_saturated)).
Proof.
  assert (built sample_hash 14 sample_saturated) as Hb.
  { eapply (built_run _ _ sample_ids (world0 sample_refusal));
      [reflexivity|vm_compute; reflexivity|vm_compute; reflexivity]. }
  assert (resize_threshold (gph sample_saturated) = UINT32_MAX) as Ht
    by (vm_compute; reflexivity).
  destruct (failed_resize_is_final sample_hash 14 sample_saturated Hb) as [Ha Hr].
  split; [exact Hb|]. split; [exact Ht|]. split; [exact Ha|]. exact (Hr Ht).
Defined.

(** C9, as the claim has it, fails: when the component for the new node
    is refused, the call returns -1 and the node is taken back. *)
Lemma loop_without_component :
  exists w w',
    graph_init 14 (world0 [true; true; true; false]) = Ret 0 w /\
    graph_add_edge sample_hash "x" "x" w = Ret (-1) w' /\
    bucket_find sample_hash (gph w') "x" = None /\
    components (gph w') = [].
Proof. eexists _, _. split_and!; [> vm_compute; reflexivity ..]. Qed.

(** C9, amended. With no-loop set, [graph_add_edge x x] on a graph the
    library has built returns 0, or -1 when an allocation has failed. It
    links no edge and leaves every component as it was; a component it
    adds has the edge count 0. When it returns 0 the node of [x] is in the
    index and belongs to a component. When no allocation fails it returns
    0. *)
Theorem loop_is_not_added h fl w x :
  built h fl w -> Z.land fl GRAPH_NOLOOP <> 0 ->
  (forall r w', graph_add_edge h x x w = Ret r w' ->
     (r = 0 \/ (r = -1 /\ false ∈ oracle w)) /\
     edge_total (gph w') = edge_total (gph w) /\
     (forall c, c ∈ components (gph w) -> comp_at (gph w') c = comp_at (gph w) c) /\
     (forall c, c ∈ components (gph w') -> c ∉ components (gph w) ->
                edge_count (comp_at (gph w') c) = 0) /\
     (r = 0 -> exists n c, bucket_find h (gph w') x = Some n /\
                           comp (node_at (gph w') n) = Some c /\
                           c ∈ components (gph w'))) /\
  (plentiful w -> exists w', graph_add_edge h x x w = Ret 0 w').
Proof.
  intros Hb Hfl. destruct (built_ok _ _ _ Hb) as [Hok Hflags].
  assert (has_flag (gph w) GRAPH_NOLOOP = true) as Hnl.
  { unfold has_flag. rewrite Hflags. by apply negb_true_iff, Z.eqb_neq. }
  assert (forall r w', graph_add_edge h x x w = Ret r w' ->
            (r = 0 \/ (r = -1 /\ false ∈ oracle w)) /\
            edge_total (gph w') = edge_total (gph w) /\
            (forall c, c ∈ components (gph w) -> comp_at (gph w') c = comp_at (gph w) c) /\
            (forall c, c ∈ components (gph w') -> c ∉ components (gph w) ->
                       edge_count (comp_at (gph w') c) = 0) /\
            (r = 0 -> exists n c, bucket_find h (gph w') x = Some n /\
                                  comp (node_at (gph w') n) = Some c /\
                                  c ∈ components (gph w'))) as Hmain.
  { intros r w' E.
    pose proof (graph_add_edge_Ret h _ _ _ _ _ Hok E) as (Hok' & _ & _ & Hct).
    destruct (graph_add_edge_loop h x w r w' Hok Hnl E) as (Hr & Hold & Hnew & Hin).
    split; [done|]. split; [|split; [done|split; [done|]]].
    - destruct Hr as [->|[-> _]];
        destruct Hct as [(? & _ & ?)|[(? & ? & _)|[(? & _)|(? & _)]]]; done.
    - intros Hr0. destruct (Hin Hr0) as (n & Hf & Hc).
      destruct (comp (node_at (gph w') n)) as [c|] eqn:Ec; [|done].
      exists n, c. split; [done|]. split; [done|].
      by apply (ok_owner _ (mok_struct _ (gok_mid _ Hok')) n c). }
  split; [exact Hmain|].
  intros Hp. destruct (graph_add_edge_total h x x w Hok Hp) as (r & w' & E & _ & _).
  destruct (Hmain r w' E) as ([->|[_ Hf]] & _); [by exists w'|by destruct (Hp Hf)].
Qed.

Lemma loop_is_not_added_witness :
  built sample_hash 14 (sample_world 14) /\ Z.land 14 GRAPH_NOLOOP <> 0 /\
  (forall r w', graph_add_edge sample_hash "p" "p" (sample_world 14) = Ret r w' ->
     (r = 0 \/ (r = -1 /\ false ∈ oracle (sample_world 14))) /\
     edge_total (gph w') = edge_total (gph (sample_world 14)) /\
     (forall c, c ∈ components (gph (sample_world 14)) ->
                comp_at (gph w') c = comp_at (gph (sample_world 14)) c) /\
     (forall c, c ∈ components (gph w') -> c ∉ components (gph (sample_world 14)) ->
                edge_count (comp_at (gph w') c) = 0) /\
     (r = 0 -> exists n c, bucket_find sample_hash (gph w') "p" = Some n /\
                           comp (node_at (gph w') n) = Some c /\
                           c ∈ components (gph w'))) /\
  (plentiful (sample_world 14) ->
     exists w', graph_add_edge sample_hash "p" "p" (sample_world 14) = Ret 0 w').
Proof.
  assert (built sample_hash 14 (sample_world 14)) as Hb.
  { eapply sample_world_built; [vm_compute; reflexivity|vm_compute; reflexivity]. }
  assert (Z.land 14 GRAPH_NOLOOP <> 0) as Hf by (vm_compute; discriminate).
  split; [exact Hb|]. split; [exact Hf|].
  exact (loop_is_not_added sample_hash 14 (sample_world 14) "p" Hb Hf).
Defined.

(** * A run of the clique search *)

(** The cliques of the sample graph: a-b and b-c in the component of a, b
    and c (the nodes 0, 1 and 2), and d alone. *)
Example sample_cliques :
  let cb := fun (_ : list (list nptr)) (_ : list nptr) => 0 in
  components (gph sample_graph) = [0%nat; 1%nat] /\
  (exists s, component_iterate_maximal_cliques cb (gph sample_graph) 0 cstate0 = Ret 0 s /\
             calls s = [[1%nat; 0%nat]; [1%nat; 2%nat]]) /\
  (exists s, component_iterate_maximal_cliques cb (gph sample_graph) 1 cstate0 = Ret 0 s /\
             calls s = [[3%nat]]).
Proof.
  split; [vm_compute; reflexivity|].
  split; eexists; (split; [vm_compute; reflexivity|reflexivity]).
Qed.

(** * The iterators *)

Lemma foreach_app {S B} (body : B -> M S Z) l1 l2 s :
  foreach body (l1 ++ l2) s =
  (r <- foreach body l1 ;; if negb (r =? 0) then ret r else foreach body l2) s.
Proof.
  revert s. induction l1 as [|x l1 IH]; intros s; [done|].
  cbn [app foreach]. unfold bind in *. destruct (body x s) as [r s1|f]; [|done].
  destruct (r =? 0) eqn:Er; cbn [negb].
  - apply IH.
  - unfold ret. by rewrite Er.
Qed.

(** Two nested loops are one loop over the elements of the inner queues. *)
Lemma foreach_bind {S B C} (body : C -> M S Z) (f : B -> list C) l s :
  foreach (fun x => foreach body (f x)) l s = foreach body (l ≫= f) s.
Proof.
  revert s. induction l as [|x l IH]; intros s; [done|].
  cbn [foreach mbind list_bind]. rewrite foreach_app. unfold bind.
  destruct (foreach body (f x) s) as [r s1|]; [|done].
  destruct (negb (r =? 0)); [done|]. apply IH.
Qed.

Lemma foreach_call_cb {A} (cb : list A -> A -> Z) l seen :
  exists r visited,
    foreach (call_cb cb) l seen = Ret r (seen ++ visited) /\ relayed cb seen l visited r.
Proof.
  revert seen. induction l as [|x l IH]; intros seen.
  - exists 0, []. rewrite app_nil_r. split; [done|]. split_and!.
    + done.
    + intros pre y post E. by destruct pre.
    + intros _. split; [done|]. intros pre y post E. by destruct pre.
    + done.
  - cbn [foreach]. unfold bind, call_cb at 1.
    destruct (cb seen x =? 0) eqn:E0; cbn [negb].
    + apply Z.eqb_eq in E0.
      destruct (IH (seen ++ [x])) as (r & visited & -> & Hp & Hmid & Hz & Hnz).
      exists r, (x :: visited). rewrite <- app_assoc. split; [done|].
      assert (forall pre y post, x :: visited = pre ++ y :: post ->
                (pre = [] /\ y = x /\ post = visited) \/
                exists pre', pre = x :: pre' /\ visited = pre' ++ y :: post) as Hsplit.
      { intros [|p pre] y post E; injection E as -> ->; [by left|right; by eexists]. }
      assert (forall p, seen ++ x :: p = (seen ++ [x]) ++ p) as Hassoc.
      { intros p. by rewrite <- app_assoc. }
      split_and!.
      * by apply prefix_cons.
      * intros pre y post E Hpost.
        destruct (Hsplit _ _ _ E) as [(-> & -> & _)|(pre' & -> & E')].
        -- by rewrite app_nil_r.
        -- rewrite Hassoc. by eapply Hmid.
      * intros Hr. destruct (Hz Hr) as [-> Hall]. split; [done|].
        intros pre y post E.
        destruct (Hsplit _ _ _ E) as [(-> & -> & _)|(pre' & -> & E')].
        -- by rewrite app_nil_r.
        -- rewrite Hassoc. by eapply Hall.
      * intros Hr. destruct (Hnz Hr) as (pre & y & -> & Hy).
        exists (x :: pre), y. split; [done|]. by rewrite Hassoc.
    + apply Z.eqb_neq in E0. exists (cb seen x), [x]. split; [done|]. split_and!.
      * by apply prefix_cons, prefix_nil.
      * intros [|p pre] y post E Hpost; injection E as -> E; [by subst|by destruct pre].
      * done.
      * intros _. exists [], x. by rewrite app_nil_r.
Qed.

(** The two loops of [component_iterate_edges] are one loop over the
    edges of the nodes. *)
Lemma foreach_edges g (cb : list (nptr * nptr) -> nptr * nptr -> Z) l seen :
  foreach (fun src => foreach (fun tgt => call_cb cb (src, tgt))
                              (out_edges (node_at g src))) l seen =
  foreach (call_cb cb) (l ≫= edges_from g) seen.
Proof.
  rewrite <- foreach_bind. revert seen.
  induction l as [|x l IH]; intros seen; [done|].
  cbn [foreach]. unfold bind.
  assert (forall (tg : list nptr) s0,
            foreach (fun tgt => call_cb cb (x, tgt)) tg s0 =
            foreach (call_cb cb) (pair x <$> tg) s0) as Hin.
  { induction tg as [|t tg IHt]; intros s0; [done|].
    cbn [foreach fmap list_fmap]. unfold bind.
    destruct (call_cb cb (x, t) s0) as [r0 s1|]; [|done].
    destruct (negb (r0 =? 0)); [done|]. apply IHt. }
  unfold edges_from at 1. rewrite Hin.
  destruct (foreach (call_cb cb) _ seen) as [r0 s1|]; [|done].
  destruct (negb (r0 =? 0)); [done|]. apply IH.
Qed.

(** ** The nodes of a well-formed graph are iterated once each *)

Lemma node_order_elem g n :
  struct_ok g -> all_assigned g ->
  n ∈ node_order g <-> (n < length (node_os g))%nat.
Proof.
  intros Hs Ha. unfold node_order. rewrite list_elem_of_bind. split.
  - intros (c & Hn & _). apply (ok_member _ Hs) in Hn.
    destruct (decide (n < length (node_os g))%nat) as [|Hge]; [done|].
    unfold node_at in Hn. rewrite list_lookup_total_alt, lookup_ge_None_2 in Hn by lia.
    done.
  - intros Hn. specialize (Ha n Hn).
    destruct (comp (node_at g n)) as [c|] eqn:Ec; [|done].
    destruct (ok_owner _ Hs n c Ec) as [Hc Hin]. by exists c.
Qed.

Lemma node_order_NoDup g : struct_ok g -> NoDup (node_order g).
Proof.
  intros Hs. unfold node_order. apply NoDup_bind.
  - intros c1 c2 n _ _ H1 H2.
    apply (ok_member _ Hs) in H1, H2. congruence.
  - intros c _. apply (ok_nodes_nodup _ Hs).
  - apply (ok_comps_nodup _ Hs).
Qed.

Lemma node_order_perm g :
  graph_ok g -> node_order g ≡ₚ seq 0 (length (node_os g)).
Proof.
  intros [Hm Ha]. apply NoDup_Permutation.
  - apply node_order_NoDup, Hm.
  - apply NoDup_seq.
  - intros n. rewrite node_order_elem by (done || apply Hm).
    rewrite elem_of_seq. lia.
Qed.

Lemma length_edge_bind g l :
  length (l ≫= edges_from g) = sum_list_with (fun m => length (out_edges (node_at g m))) l.
Proof.
  induction l as [|x l IH]; [done|].
  cbn [mbind list_bind sum_list_with]. rewrite length_app, IH.
  unfold edges_from. by rewrite length_fmap.
Qed.

Lemma sum_list_with_perm {A} (f : A -> nat) l1 l2 :
  l1 ≡ₚ l2 -> sum_list_with f l1 = sum_list_with f l2.
Proof. induction 1; simpl; lia. Qed.

Lemma sample_graph_built : built sample_hash 14 sample_graph.
Proof.
  eapply (built_ops _ _ [AddEdge "a" "b"; AddEdge "b" "c"; AddNode "d"]).
  - eapply (built_init _ _ (world0 [])); [reflexivity|vm_compute; reflexivity].
  - vm_compute. reflexivity.
Qed.

(** In a graph the library has built, the node queues of the components
    in the component list hold every node of the graph exactly once: the
    order in which [graph_iterate_nodes] goes through the nodes is a
    permutation of the node obstack. *)
Theorem components_partition_nodes h fl w :
  built h fl w ->
  node_order (gph w) ≡ₚ seq 0 (length (node_os (gph w))).
Proof. intros Hb. apply node_order_perm. by destruct (built_ok _ _ _ Hb). Qed.

Lemma components_partition_nodes_witness :
  built sample_hash 14 sample_graph /\
  node_order (gph sample_graph) ≡ₚ seq 0 (length (node_os (gph sample_graph))).
Proof.
  split; [exact sample_graph_built|].
  exact (components_partition_nodes sample_hash 14 sample_graph sample_graph_built).
Defined.

(** [graph_iterate_nodes] on a graph the library has built calls the
    callback on nodes of the graph and on none twice, in the order of the
    components and their node queues; it stops at the first call the
    callback answers with a non-zero value and returns that value;
    otherwise it returns 0 after it has called the callback on every node
    of the graph. *)
Theorem graph_iterate_nodes_visits h fl w cb seen :
  built h fl w ->
  exists r visited,
    graph_iterate_nodes (gph w) cb seen = Ret r (seen ++ visited) /\
    relayed cb seen (node_order (gph w)) visited r /\
    NoDup visited /\
    (forall n, n ∈ visited -> (n < length (node_os (gph w)))%nat) /\
    (r = 0 -> visited ≡ₚ seq 0 (length (node_os (gph w)))).
Proof.
  intros Hb. destruct (built_ok _ _ _ Hb) as [Hok _].
  destruct (foreach_call_cb cb (node_order (gph w)) seen) as (r & visited & E & Hr).
  exists r, visited. split.
  { unfold graph_iterate_nodes, component_iterate_nodes.
    by rewrite (foreach_bind (call_cb cb) (fun c => nodes (comp_at (gph w) c))). }
  split; [done|]. destruct Hr as ([rest Hrest] & _ & Hz & _).
  pose proof (node_order_NoDup _ (mok_struct _ (gok_mid _ Hok))) as Hnd.
  rewrite Hrest in Hnd. apply NoDup_app in Hnd as (Hnd & _ & _).
  split; [done|]. split.
  - intros n Hn.
    apply (node_order_elem (gph w) n (mok_struct _ (gok_mid _ Hok)) (gok_assigned _ Hok)).
    rewrite Hrest. apply elem_of_app. by left.
  - intros Hr0. destruct (Hz Hr0) as [-> _]. by apply node_order_perm.
Qed.

Lemma graph_iterate_nodes_visits_witness :
  built sample_hash 14 sample_graph /\
  exists r visited,
    graph_iterate_nodes (gph sample_graph) (fun _ n => Z.of_nat n - 2) [] = Ret r ([] ++ visited) /\
    relayed (fun _ n => Z.of_nat n - 2) [] (node_order (gph sample_graph)) visited r /\
    NoDup visited /\
    (forall n, n ∈ visited -> (n < length (node_os (gph sample_graph)))%nat) /\
    (r = 0 -> visited ≡ₚ seq 0 (length (node_os (gph sample_graph)))).
Proof.
  split; [exact sample_graph_built|].
  exact (graph_iterate_nodes_visits sample_hash 14 sample_graph
           (fun _ n => Z.of_nat n - 2) [] sample_graph_built).
Defined.

(** [graph_iterate_edges] on a graph the library has built hands the
    callback edges of the graph only, as source and target, in the order
    of the components, their node queues and the edge lists of the nodes;
    it stops at the first non-zero answer and returns it; otherwise it
    returns 0 after one call for every edge stored in the graph. *)
Theorem graph_iterate_edges_visits h fl w cb seen :
  built h fl w ->
  exists r visited,
    graph_iterate_edges (gph w) cb seen = Ret r (seen ++ visited) /\
    relayed cb seen (edge_order (gph w)) visited r /\
    (forall a b, (a, b) ∈ visited -> adjacent (gph w) a b) /\
    (r = 0 -> visited ≡ₚ seq 0 (length (node_os (gph w))) ≫= edges_from (gph w) /\
              length visited = edge_total (gph w)).
Proof.
  intros Hb. destruct (built_ok _ _ _ Hb) as [Hok _].
  destruct (foreach_call_cb cb (edge_order (gph w)) seen) as (r & visited & E & Hr).
  exists r, visited. split.
  { unfold graph_iterate_edges, component_iterate_edges.
    rewrite (foreach_bind _ (fun c => nodes (comp_at (gph w) c))).
    fold (node_order (gph w)). by rewrite foreach_edges. }
  split; [done|]. destruct Hr as ([rest Hrest] & _ & Hz & _). split.
  - intros a b Hab. assert ((a, b) ∈ edge_order (gph w)) as Hin.
    { rewrite Hrest. apply elem_of_app. by left. }
    unfold edge_order in Hin. apply list_elem_of_bind in Hin as (n & Hin & _).
    unfold edges_from in Hin. apply list_elem_of_fmap in Hin as (t & [= -> ->] & Ht).
    exact Ht.
  - intros Hr0. destruct (Hz Hr0) as [-> _].
    pose proof (node_order_perm _ Hok) as Hperm. split.
    + unfold edge_order. by rewrite Hperm.
    + unfold edge_order. rewrite length_edge_bind, edge_total_seq.
      by apply sum_list_with_perm.
Qed.

Lemma graph_iterate_edges_visits_witness :
  built sample_hash 14 sample_graph /\
  exists r visited,
    graph_iterate_edges (gph sample_graph) (fun _ _ => 0) [] = Ret r ([] ++ visited) /\
    relayed (fun _ _ => 0) [] (edge_order (gph sample_graph)) visited r /\
    (forall a b, (a, b) ∈ visited -> adjacent (gph sample_graph) a b) /\
    (r = 0 -> visited ≡ₚ seq 0 (length (node_os (gph sample_graph)))
                           ≫= edges_from (gph sample_graph) /\
              length visited = edge_total (gph sample_graph)).
Proof.
  split; [exact sample_graph_built|].
  exact (graph_iterate_edges_visits sample_hash 14 sample_graph
           (fun _ _ => 0) [] sample_graph_built).
Defined.

(** The iterators over one queue, [graph_iterate_components] and
    [component_iterate_nodes], and [component_iterate_edges] call the
    callback on the elements of the queue in order, stop at the first
    call it answers with a non-zero value and return that value; they
    return 0 when every element has been handed over and answered with
    0. They return in every case. *)
Theorem iterators_stop_at_nonzero g c :
  (forall cb seen, exists r visited,
     graph_iterate_components g cb seen = Ret r (seen ++ visited) /\
     relayed cb seen (components g) visited r) /\
  (forall cb seen, exists r visited,
     component_iterate_nodes g c cb seen = Ret r (seen ++ visited) /\
     relayed cb seen (nodes (comp_at g c)) visited r) /\
  (forall cb seen, exists r visited,
     component_iterate_edges g c cb seen = Ret r (seen ++ visited) /\
     relayed cb seen (nodes (comp_at g c) ≫= edges_from g) visited r).
Proof.
  split_and!; intros cb seen.
  - apply foreach_call_cb.
  - apply foreach_call_cb.
  - destruct (foreach_call_cb cb (nodes (comp_at g c) ≫= edges_from g) seen)
      as (r & visited & E & Hr).
    exists r, visited. split; [|done]. rewrite <- E.
    unfold component_iterate_edges. apply foreach_edges.
Qed.

(** * What [graph_add_node] does *)

Section Hash.

Variable jenkins_hash : string -> Z -> Z -> Z.

Abbreviation hash_of := (hash_of jenkins_hash).
Abbreviation bucket_find := (bucket_find jenkins_hash).
Abbreviation graph_add_node_internal := (graph_add_node_internal jenkins_hash).
Abbreviation graph_add_node := (graph_add_node jenkins_hash).
Abbreviation graph_add_edge := (graph_add_edge jenkins_hash).
Abbreviation fresh_node s := (new_node (hash_of s) s).

(** A node found in the index of a well-formed graph has its component. *)
Lemma found_assigned g s n :
  graph_ok g -> bucket_find g s = Some n ->
  (n < length (node_os g))%nat /\ comp (node_at g n) <> None.
Proof.
  intros Hok Hf. apply bucket_find_Some in Hf as (Hin & _).
  pose proof (ok_bucket_valid _ (mok_index _ (gok_mid _ Hok)) n Hin) as Hlt.
  split; [done|]. by apply (gok_assigned _ Hok).
Qed.

Lemma graph_add_node_known s n w :
  graph_ok (gph w) -> bucket_find (gph w) s = Some n -> graph_add_node s w = Ret 0 w.
Proof.
  intros Hok Hf. destruct (found_assigned _ _ _ Hok Hf) as [_ Hc].
  unfold Defs.graph_add_node. mred.
  rewrite (bucket_find_hit jenkins_hash s n w Hf true). mred.
  rewrite bool_decide_eq_true_2 by done. cbn [assert]. mred.
  by rewrite bool_decide_eq_true_2.
Qed.

Lemma graph_add_node_cases s w r w' :
  graph_ok (gph w) -> graph_add_node s w = Ret r w' ->
  let L := length (node_os (gph w)) in
  let c := length (comp_store (gph w)) in
  (r = 0 /\ w' = w /\ exists n, bucket_find (gph w) s = Some n) \/
  (r = 1 /\ bucket_find (gph w) s = None /\ bucket_find (gph w') s = Some L /\
   length (node_os (gph w')) = S L /\
   node_at (gph w') L = mkNode (Some c) [] 0 0 (hash_of s) s /\
   (forall m, (m < L)%nat -> node_at (gph w') m = node_at (gph w) m) /\
   components (gph w') = components (gph w) ++ [c] /\
   comp_at (gph w') c = mkComponent [L] 1 0 /\
   (forall d, d ∈ components (gph w) -> comp_at (gph w') d = comp_at (gph w) d)) \/
  (r = -1 /\ false ∈ oracle w /\ bucket_find (gph w) s = None /\
   node_os (gph w') = node_os (gph w) /\ components (gph w') = components (gph w) /\
   comp_store (gph w') = comp_store (gph w) /\ flags (gph w') = flags (gph w)).
Proof.
  intros Hok H L c. pose proof Hok as [[HsG HiG HtG HeG] HaG].
  pose proof H as H0.
  unfold Defs.graph_add_node in H. mred in H.
  mcase H Ei as on wi. pose proof Ei as Ei0.
  apply graph_add_node_internal_true in Ei
    as (Hs & [(n & -> & Hf & Hg)|(Hnone & g1 & Hc & [(-> & Hg)|(-> & Hfalse & Hr)])]).
  - left. rewrite (graph_add_node_known s n w Hok Hf) in H0. injection H0 as <- <-.
    split; [done|]. split; [done|]. by exists n.
  - right. left.
    mcase H Ea as u wa. apply assert_Ret in Ea as [_ <-]. injection H as <- <-.
    fold L in Hg. pose proof (cr_store _ _ _ Hc) as Hst.
    assert (length (comp_store g1) = c) as Hcl by (by rewrite Hst).
    rewrite Hcl in Hg.
    pose proof (created_struct_ok _ _ _ Hc HsG) as Hs1.
    pose proof (prep_with_component g1 Hs1) as P1.
    assert (c ∈ components (with_component g1)) as Hcc.
    { simpl. apply elem_of_app. right. apply list_elem_of_singleton. by rewrite Hcl. }
    assert (L < length (node_os g1))%nat as HL
      by (rewrite (cr_length _ _ _ Hc); fold L; lia).
    assert (comp (node_at g1 L) = None) as HcL
      by (unfold L; rewrite (cr_new _ _ _ Hc); apply Hc).
    assert (L < length (node_os (with_component g1)))%nat as HL' by done.
    assert (comp (node_at (with_component g1) L) = None) as HcL' by done.
    pose proof (frame_trans _ _ _ (frame_with_component g1)
                  (frame_component_add_node (with_component g1) c L)) as F.
    rewrite <- Hg in F.
    assert (components (gph wi) = components (gph w) ++ [c]) as Hcs.
    { rewrite Hg. simpl. by rewrite (cr_components _ _ _ Hc), Hcl. }
    assert (c ∉ components (gph w)) as Hfresh.
    { intros Hin. apply (ok_comps_alive _ HsG), alive_lt in Hin. unfold c in Hin. lia. }
    split_and!.
    + rewrite Hcs, last_snoc. rewrite bool_decide_eq_false_2; [done|].
      intros Hl. by apply last_Some_elem_of in Hl.
    + done.
    + by eapply graph_add_node_internal_indexed.
    + by rewrite (fr_length _ _ F), (cr_length _ _ _ Hc).
    + rewrite Hg, (can_node (with_component g1) c L) by (done || apply P1).
      rewrite decide_True by done.
      change (node_at (with_component g1) L) with (node_at g1 L).
      unfold L. by rewrite (cr_new _ _ _ Hc).
    + intros m Hm. rewrite Hg, (can_node (with_component g1) c L) by (done || apply P1).
      rewrite decide_False by lia.
      change (node_at (with_component g1) m) with (node_at g1 m).
      by apply (cr_old _ _ _ Hc).
    + done.
    + rewrite Hg, (can_comp (with_component g1) c L) by (done || apply P1).
      rewrite decide_True by done.
      rewrite <- Hcl at 1 2 3. rewrite (wc_comp g1), decide_True by done. done.
    + intros d Hd.
      rewrite Hg, (can_comp (with_component g1) c L) by (done || apply P1).
      rewrite decide_False by (intros ->; done).
      rewrite (wc_comp g1), decide_False by (rewrite Hcl; intros ->; done).
      unfold comp_at. by rewrite Hst.
  - right. right. injection H as <- <-.
    split; [done|]. split; [done|]. split; [done|]. split_and!.
    + rewrite (rm_nodes _ _ _ Hr), (cr_nodes _ _ _ Hc). by rewrite take_app_length.
    + rewrite (rm_components _ _ _ Hr). apply Hc.
    + rewrite (rm_store _ _ _ Hr). apply Hc.
    + rewrite (rm_flags _ _ _ Hr). apply Hc.
Qed.


End Hash.

Lemma nodes_cmp_frame g g' a b : frame g g' -> nodes_cmp g' a b = nodes_cmp g a b.
Proof.
  intros F. unfold nodes_cmp. by rewrite !(fr_hv _ _ F), !(fr_ident _ _ F).
Qed.

(** ** Edges between nodes that have their component *)

Lemma add_oriented_edge_loop_assigned sw m w :
  has_flag (gph w) GRAPH_NOLOOP = true -> comp (node_at (gph w) m) <> None ->
  add_oriented_edge sw m m w = Ret 0 w.
Proof.
  intros Hf Hc. unfold add_oriented_edge. mred.
  rewrite Nat.eqb_refl, Hf. cbn [andb].
  by rewrite bool_decide_eq_false_2.
Qed.

Lemma add_oriented_edge_present sw m1 m2 w :
  has_flag (gph w) GRAPH_NOPARALLEL = true ->
  comp (node_at (gph w) m1) <> None ->
  comp (node_at (gph w) m1) = comp (node_at (gph w) m2) ->
  m2 ∈ out_edges (node_at (gph w) m1) ->
  add_oriented_edge sw m1 m2 w = Ret 0 w.
Proof.
  intros Hf Hc Hcc He. unfold add_oriented_edge. mred.
  destruct (Nat.eqb m1 m2 && has_flag (gph w) GRAPH_NOLOOP).
  - by rewrite bool_decide_eq_false_2.
  - rewrite Hf, !bool_decide_eq_true_2 by done.
    apply graph_edge_exists_true in He. by rewrite He.
Qed.

Lemma add_oriented_edge_assigned sw m1 m2 w r w' :
  struct_ok (gph w) ->
  (m1 < length (node_os (gph w)))%nat -> (m2 < length (node_os (gph w)))%nat ->
  comp (node_at (gph w) m1) <> None -> comp (node_at (gph w) m2) <> None ->
  add_oriented_edge sw m1 m2 w = Ret r w' ->
  (r = 0 /\ w' = w /\
   ((m1 = m2 /\ has_flag (gph w) GRAPH_NOLOOP = true) \/
    (has_flag (gph w) GRAPH_NOPARALLEL = true /\
     comp (node_at (gph w) m1) = comp (node_at (gph w) m2) /\
     m2 ∈ out_edges (node_at (gph w) m1)))) \/
  ((r = 1 \/ r = 2) /\ frame (gph w) (gph w') /\
   comp (node_at (gph w') m1) <> None /\
   comp (node_at (gph w') m1) = comp (node_at (gph w') m2) /\
   m2 ∈ out_edges (node_at (gph w') m1)).
Proof.
  intros Hok Hv1 Hv2 Ha1 Ha2 H. unfold add_oriented_edge in H. mred in H.
  destruct (Nat.eqb m1 m2 && has_flag (gph w) GRAPH_NOLOOP) eqn:Eloop.
  - apply andb_true_iff in Eloop as [Heq%Nat.eqb_eq Hf].
    rewrite bool_decide_eq_false_2 in H by done. injection H as <- <-.
    left. split; [done|]. split; [done|]. by left.
  - destruct (has_flag (gph w) GRAPH_NOPARALLEL
              && bool_decide (comp (node_at (gph w) m1) <> None)
              && bool_decide (comp (node_at (gph w) m1) = comp (node_at (gph w) m2))
              && graph_edge_exists (gph w) m1 m2) eqn:Epar.
    + injection H as <- <-. left. split; [done|]. split; [done|]. right.
      apply andb_true_iff in Epar as [Epar He%graph_edge_exists_true].
      apply andb_true_iff in Epar as [Epar Hc2%bool_decide_eq_true].
      apply andb_true_iff in Epar as [Hf _]. done.
    + mcase H Ed as r0 wd.
      apply do_add_edge_Ret in Ed as (Hsd & [Hfail|Hsucc]); [| |done..].
      { by destruct Hfail as (_ & _ & ? & _). }
      destruct Hsucc as (-> & g1 & c & P1 & Hc1 & Hc2 & Hgd).
      change (1 <? 0) with false in H. cbv beta iota in H.
      mcase H Ea1 as u1 wa1. apply assert_Ret in Ea1 as [_ <-].
      mcase H Ea2 as u2 wa2. apply assert_Ret in Ea2 as [_ <-].
      pose proof (frame_trans _ _ _ (pr_frame _ _ P1) (frame_with_edge g1 c m1 m2)) as FE.
      rewrite <- Hgd in FE.
      assert (comp (node_at (gph wd) m1) = Some c) as Hd1
        by (by rewrite Hgd, (we_comp_of g1 c m1 m2)).
      assert (comp (node_at (gph wd) m2) = Some c) as Hd2
        by (by rewrite Hgd, (we_comp_of g1 c m1 m2)).
      assert (m2 ∈ out_edges (node_at (gph wd) m1)) as Hde.
      { rewrite Hgd, (we_edges g1 c m1 m2 Hc1 Hc2), decide_True by done. by left. }
      destruct (has_flag (gph wd) GRAPH_DUAL && negb (Nat.eqb m1 m2)) eqn:Edual.
      * mcase H Ed2 as r2 w2.
        assert (struct_ok (gph wd)) as Hsd'
          by (rewrite Hgd; by apply with_edge_ok; [| |apply P1]).
        apply do_add_edge_Ret in Ed2 as (_ & [Hfail2|Hsucc2]);
          [| |done|by rewrite (fr_length _ _ FE)..].
        { destruct Hfail2 as (_ & _ & ? & _). congruence. }
        destruct Hsucc2 as (-> & g2 & c2 & P2 & Hc1' & Hc2' & Hg2).
        injection H as <- <-. right. split; [by right|].
        apply andb_true_iff in Edual as [_ Hne%negb_true_iff%Nat.eqb_neq].
        split; [|split; [|split]].
        -- eapply frame_trans; [exact FE|]. rewrite Hg2.
           eapply frame_trans; [apply P2|apply frame_with_edge].
        -- rewrite Hg2, (we_comp_of g2 c2 m2 m1). congruence.
        -- rewrite Hg2, !(we_comp_of g2 c2 m2 m1). congruence.
        -- rewrite Hg2, (we_edges g2 c2 m2 m1 Hc1' Hc2'), decide_False by done.
           by rewrite (pr_edges _ _ P2).
      * injection H as <- <-. right. split; [by left|].
        split; [done|]. split; [congruence|]. split; [congruence|done].
Qed.

(** The rollback is the only place that looks at the swap, and an edge
    between nodes that have their component is never rolled back. *)
Lemma add_oriented_edge_swap sw sw' m1 m2 w :
  struct_ok (gph w) ->
  (m1 < length (node_os (gph w)))%nat -> (m2 < length (node_os (gph w)))%nat ->
  comp (node_at (gph w) m1) <> None ->
  add_oriented_edge sw m1 m2 w = add_oriented_edge sw' m1 m2 w.
Proof.
  intros Hok Hv1 Hv2 Ha1. unfold add_oriented_edge. mred.
  destruct (Nat.eqb m1 m2 && has_flag (gph w) GRAPH_NOLOOP); [done|].
  destruct (has_flag (gph w) GRAPH_NOPARALLEL && _ && _ && _); [done|].
  destruct (do_add_edge m1 m2 w) as [r0 wd|f] eqn:Ed; [|done].
  apply do_add_edge_Ret in Ed as (_ & [Hfail|Hsucc]); [| |done..].
  - by destruct Hfail as (_ & _ & ? & _).
  - destruct Hsucc as (-> & _). done.
Qed.

Section Hash.

Variable jenkins_hash : string -> Z -> Z -> Z.

Abbreviation hash_of := (hash_of jenkins_hash).
Abbreviation bucket_find := (bucket_find jenkins_hash).
Abbreviation graph_add_node_internal := (graph_add_node_internal jenkins_hash).
Abbreviation graph_add_node := (graph_add_node jenkins_hash).
Abbreviation graph_add_edge := (graph_add_edge jenkins_hash).

(** [graph_add_edge] on two identifiers the index finds: the call comes
    down to the oriented insertion between their nodes. *)
Lemma graph_add_edge_known s1 s2 n1 n2 w :
  bucket_find (gph w) s1 = Some n1 -> bucket_find (gph w) s2 = Some n2 ->
  graph_add_edge s1 s2 w =
  let swapped := has_flag (gph w) GRAPH_UNDIRECTED && (0 <? nodes_cmp (gph w) n1 n2) in
  add_oriented_edge swapped (if swapped then n2 else n1) (if swapped then n1 else n2) w.
Proof.
  intros H1 H2. unfold Defs.graph_add_edge. mred.
  rewrite (bucket_find_hit jenkins_hash s1 n1 w H1 false). mred.
  rewrite (bucket_find_hit jenkins_hash s2 n2 w H2 false). mred.
  by destruct (has_flag (gph w) GRAPH_UNDIRECTED && (0 <? nodes_cmp (gph w) n1 n2)).
Qed.

End Hash.

(** ** The order of the nodes *)

Lemma strcmp_antisym s1 s2 : strcmp s2 s1 = - strcmp s1 s2.
Proof.
  revert s2. induction s1 as [|c1 s1 IH]; intros [|c2 s2]; simpl; try lia.
  rewrite (Z.eqb_sym (byte c2) (byte c1)).
  destruct (byte c1 =? byte c2); [apply IH|lia].
Qed.

Lemma strcmp_lt_trans s1 s2 s3 : strcmp s1 s2 < 0 -> strcmp s2 s3 < 0 -> strcmp s1 s3 < 0.
Proof.
  revert s2 s3. induction s1 as [|c1 s1 IH]; intros [|c2 s2] [|c3 s3]; simpl; try lia.
  destruct (Z.eqb_spec (byte c1) (byte c2)) as [E12|E12];
    destruct (Z.eqb_spec (byte c2) (byte c3)) as [E23|E23];
    destruct (Z.eqb_spec (byte c1) (byte c3)) as [E13|E13]; try lia.
  apply IH.
Qed.

Lemma nodes_cmp_antisym g a b : nodes_cmp g b a = - nodes_cmp g a b.
Proof.
  unfold nodes_cmp.
  destruct (Z.ltb_spec (hv (node_at g a)) (hv (node_at g b)));
    destruct (Z.ltb_spec (hv (node_at g b)) (hv (node_at g a))); try lia.
  apply strcmp_antisym.
Qed.

Lemma nodes_cmp_zero g a b :
  nodes_cmp g a b = 0 <->
  hv (node_at g a) = hv (node_at g b) /\ ident (node_at g a) = ident (node_at g b).
Proof.
  unfold nodes_cmp.
  destruct (Z.ltb_spec (hv (node_at g a)) (hv (node_at g b)));
    destruct (Z.ltb_spec (hv (node_at g b)) (hv (node_at g a)));
    rewrite ?strcmp_eq; split; try lia; try (intros [? ?]; lia).
  - intros ?. split; [lia|done].
  - intros [_ ?]. done.
Qed.

(** [nodes_cmp] is the three-way comparison of a total order on the pairs
    of hash value and identifier, by the sign of its result: the result
    is negative exactly when the result for the swapped arguments is
    positive; it is 0 exactly for nodes with the same hash value and the
    same identifier; and being smaller is transitive. The result is -1 or
    1 when the hash values differ, and the value of [strcmp] on the
    identifiers when they are equal. *)
Theorem nodes_cmp_total_order g a b c :
  (nodes_cmp g a b < 0 <-> 0 < nodes_cmp g b a) /\
  (nodes_cmp g a b = 0 <->
   hv (node_at g a) = hv (node_at g b) /\ ident (node_at g a) = ident (node_at g b)) /\
  (nodes_cmp g a b < 0 -> nodes_cmp g b c < 0 -> nodes_cmp g a c < 0) /\
  (hv (node_at g a) < hv (node_at g b) -> nodes_cmp g a b = -1) /\
  (hv (node_at g b) < hv (node_at g a) -> nodes_cmp g a b = 1) /\
  (hv (node_at g a) = hv (node_at g b) ->
   nodes_cmp g a b = strcmp (ident (node_at g a)) (ident (node_at g b))).
Proof.
  split_and!.
  - rewrite (nodes_cmp_antisym g a b). lia.
  - apply nodes_cmp_zero.
  - unfold nodes_cmp.
    destruct (Z.ltb_spec (hv (node_at g a)) (hv (node_at g b)));
      destruct (Z.ltb_spec (hv (node_at g b)) (hv (node_at g a)));
      destruct (Z.ltb_spec (hv (node_at g b)) (hv (node_at g c)));
      destruct (Z.ltb_spec (hv (node_at g c)) (hv (node_at g b)));
      destruct (Z.ltb_spec (hv (node_at g a)) (hv (node_at g c)));
      destruct (Z.ltb_spec (hv (node_at g c)) (hv (node_at g a)));
      try lia; apply strcmp_lt_trans.
  - intros H. unfold nodes_cmp. by apply Z.ltb_lt in H as ->.
  - intros H. unfold nodes_cmp.
    destruct (Z.ltb_spec (hv (node_at g a)) (hv (node_at g b))); [lia|].
    by apply Z.ltb_lt in H as ->.
  - intros H. unfold nodes_cmp. rewrite H, Z.ltb_irrefl. done.
Qed.

(** ** Theorems about the insertion of nodes and edges *)

Lemma has_flag_built h fl w f :
  built h fl w -> Z.land fl f <> 0 -> has_flag (gph w) f = true.
Proof.
  intros Hb Hf. destruct (built_ok _ _ _ Hb) as [_ Hfl].
  unfold has_flag. rewrite Hfl. by apply negb_true_iff, Z.eqb_neq.
Qed.

(** What [graph_add_node] does on a graph the library has built. It
    returns 0 when the index finds the identifier, and then it changes
    nothing. It returns 1 when it has created the node: the node is the
    last of the obstack, has the identifier and its hash value, no edge,
    and is the one member of a new component at the end of the component
    list, with the counts 1 and 0; the other nodes and components are as
    they were, and the index finds the identifier from then on. It
    returns -1 when an allocation has failed, and then the nodes and the
    components are as they were. *)
Theorem graph_add_node_outcome h fl w s :
  built h fl w ->
  forall r w', graph_add_node h s w = Ret r w' ->
  let L := length (node_os (gph w)) in
  let c := length (comp_store (gph w)) in
  (r = 0 /\ w' = w /\ exists n, bucket_find h (gph w) s = Some n) \/
  (r = 1 /\ bucket_find h (gph w) s = None /\ bucket_find h (gph w') s = Some L /\
   length (node_os (gph w')) = S L /\
   node_at (gph w') L = mkNode (Some c) [] 0 0 (hash_of h s) s /\
   (forall m, (m < L)%nat -> node_at (gph w') m = node_at (gph w) m) /\
   components (gph w') = components (gph w) ++ [c] /\
   comp_at (gph w') c = mkComponent [L] 1 0 /\
   (forall d, d ∈ components (gph w) -> comp_at (gph w') d = comp_at (gph w) d)) \/
  (r = -1 /\ false ∈ oracle w /\ bucket_find h (gph w) s = None /\
   node_os (gph w') = node_os (gph w) /\ components (gph w') = components (gph w) /\
   comp_store (gph w') = comp_store (gph w) /\ flags (gph w') = flags (gph w)).
Proof.
  intros Hb r w' E. destruct (built_ok _ _ _ Hb) as [Hok _].
  exact (graph_add_node_cases h s w r w' Hok E).
Qed.

Lemma graph_add_node_outcome_witness :
  built sample_hash 14 sample_graph /\
  forall r w', graph_add_node sample_hash "e" sample_graph = Ret r w' ->
  let L := length (node_os (gph sample_graph)) in
  let c := length (comp_store (gph sample_graph)) in
  (r = 0 /\ w' = sample_graph /\
   exists n, bucket_find sample_hash (gph sample_graph) "e" = Some n) \/
  (r = 1 /\ bucket_find sample_hash (gph sample_graph) "e" = None /\
   bucket_find sample_hash (gph w') "e" = Some L /\
   length (node_os (gph w')) = S L /\
   node_at (gph w') L = mkNode (Some c) [] 0 0 (hash_of sample_hash "e") "e" /\
   (forall m, (m < L)%nat -> node_at (gph w') m = node_at (gph sample_graph) m) /\
   components (gph w') = components (gph sample_graph) ++ [c] /\
   comp_at (gph w') c = mkComponent [L] 1 0 /\
   (forall d, d ∈ components (gph sample_graph) ->
              comp_at (gph w') d = comp_at (gph sample_graph) d)) \/
  (r = -1 /\ false ∈ oracle sample_graph /\
   bucket_find sample_hash (gph sample_graph) "e" = None /\
   node_os (gph w') = node_os (gph sample_graph) /\
   components (gph w') = components (gph sample_graph) /\
   comp_store (gph w') = comp_store (gph sample_graph) /\
   flags (gph w') = flags (gph sample_graph)).
Proof.
  split; [exact sample_graph_built|].
  exact (graph_add_node_outcome sample_hash 14 sample_graph "e" sample_graph_built).
Defined.

(** Once [graph_add_node] has returned 0 or 1 for an identifier, the
    next [graph_add_node] for it returns 0 and leaves the graph, [errno]
    and the allocator as they are: the node just added is found, also
    when its creation has made the table grow. *)
Theorem graph_add_node_again h fl w s :
  built h fl w ->
  forall r w', graph_add_node h s w = Ret r w' -> r <> -1 ->
  graph_add_node h s w' = Ret 0 w'.
Proof.
  intros Hb r w' E Hr. destruct (built_ok _ _ _ Hb) as [Hok _].
  assert (built h fl w') as Hb' by (by eapply built_node).
  destruct (built_ok _ _ _ Hb') as [Hok' _].
  destruct (graph_add_node_cases h s w r w' Hok E)
    as [(_ & -> & n & Hf)|[(_ & _ & Hf & _)|(-> & _)]]; [| |done].
  - by eapply graph_add_node_known.
  - by eapply graph_add_node_known.
Qed.

Lemma graph_add_node_again_witness :
  built sample_hash 14 (sample_world 14) /\
  forall r w', graph_add_node sample_hash "p" (sample_world 14) = Ret r w' -> r <> -1 ->
  graph_add_node sample_hash "p" w' = Ret 0 w'.
Proof.
  assert (built sample_hash 14 (sample_world 14)) as Hb.
  { eapply sample_world_built; [vm_compute; reflexivity|vm_compute; reflexivity]. }
  split; [exact Hb|].
  exact (graph_add_node_again sample_hash 14 (sample_world 14) "p" Hb).
Defined.

(** When [graph_add_edge] has linked an edge, the graph has a node with
    the first identifier and a node with the second one that are joined
    by an edge and are members of the same component of the component
    list. *)
Theorem graph_add_edge_joins h fl w s1 s2 :
  built h fl w ->
  forall r w', graph_add_edge h s1 s2 w = Ret r w' -> 0 < r ->
  exists a b c,
    ident (node_at (gph w') a) = s1 /\ ident (node_at (gph w') b) = s2 /\
    (adjacent (gph w') a b \/ adjacent (gph w') b a) /\
    c ∈ components (gph w') /\
    a ∈ nodes (comp_at (gph w') c) /\ b ∈ nodes (comp_at (gph w') c).
Proof.
  intros Hb r w' E Hr. destruct (built_ok _ _ _ Hb) as [Hok _].
  apply graph_add_edge_Ret in E as (Hok' & _ & _ & Hct); [|done].
  pose proof (mok_struct _ (gok_mid _ Hok')) as Hs.
  assert (forall a b, b ∈ out_edges (node_at (gph w') a) ->
            exists c, c ∈ components (gph w') /\
                      a ∈ nodes (comp_at (gph w') c) /\ b ∈ nodes (comp_at (gph w') c))
    as Hsame.
  { intros a b Hab. destruct (ok_edge _ Hs a b Hab) as [Hca Hcb].
    destruct (comp (node_at (gph w') a)) as [c|] eqn:Ec; [|done].
    destruct (ok_owner _ Hs a c Ec) as [Hc Ha].
    destruct (ok_owner _ Hs b c Hcb) as [_ Hb'].
    by exists c. }
  destruct Hct as [(-> & _)|[(-> & _)|[(_ & _ & _ & a & b & Hab & Hid)|
                                        (_ & _ & _ & _ & a & b & Hab & _ & Ha & Hb')]]];
    [lia|lia| |].
  - destruct (Hsame a b Hab) as (c & Hc & Hca & Hcb).
    destruct Hid as [[Ha Hb']|(_ & Ha & Hb')].
    + exists a, b, c. split_and!; try done. by left.
    + exists b, a, c. split_and!; try done. by right.
  - destruct (Hsame a b Hab) as (c & Hc & Hca & Hcb).
    exists a, b, c. split_and!; try done. by left.
Qed.

Lemma graph_add_edge_joins_witness :
  built sample_hash 14 sample_graph /\
  forall r w', graph_add_edge sample_hash "c" "d" sample_graph = Ret r w' -> 0 < r ->
  exists a b c,
    ident (node_at (gph w') a) = "c" /\ ident (node_at (gph w') b) = "d" /\
    (adjacent (gph w') a b \/ adjacent (gph w') b a) /\
    c ∈ components (gph w') /\
    a ∈ nodes (comp_at (gph w') c) /\ b ∈ nodes (comp_at (gph w') c).
Proof.
  split; [exact sample_graph_built|].
  exact (graph_add_edge_joins sample_hash 14 sample_graph "c" "d" sample_graph_built).
Defined.

(** With no-parallel set, and for two identifiers the index finds, the
    second of two equal calls of [graph_add_edge] returns 0 and leaves
    the graph, [errno] and the allocator as the first call has left
    them. *)
Theorem known_edge_again h fl w a b na nb :
  built h fl w -> Z.land fl GRAPH_NOPARALLEL <> 0 ->
  bucket_find h (gph w) a = Some na -> bucket_find h (gph w) b = Some nb ->
  forall r w', graph_add_edge h a b w = Ret r w' ->
  (r = 0 \/ r = 1 \/ r = 2) /\ graph_add_edge h a b w' = Ret 0 w'.
Proof.
  intros Hb Hfl Ha Hb2 r w' E. destruct (built_ok _ _ _ Hb) as [Hok Hflags].
  assert (built h fl w') as Hb' by (by eapply built_edge).
  destruct (built_ok _ _ _ Hb') as [Hok' Hflags'].
  pose proof (has_flag_built _ _ _ _ Hb' Hfl) as Hnp.
  destruct (found_assigned h _ _ _ Hok Ha) as [Hva Hca].
  destruct (found_assigned h _ _ _ Hok Hb2) as [Hvb Hcb].
  rewrite (graph_add_edge_known h a b na nb w Ha Hb2) in E. cbv zeta in E.
  set (sw := has_flag (gph w) GRAPH_UNDIRECTED && (0 <? nodes_cmp (gph w) na nb)) in *.
  assert (exists o1 o2, (if sw then nb else na) = o1 /\ (if sw then na else nb) = o2 /\
            (o1 < length (node_os (gph w)))%nat /\ (o2 < length (node_os (gph w)))%nat /\
            comp (node_at (gph w) o1) <> None /\ comp (node_at (gph w) o2) <> None)
    as (o1 & o2 & Ho1 & Ho2 & Hv1 & Hv2 & Hc1 & Hc2).
  { destruct sw; eexists _, _; split_and!; done. }
  rewrite Ho1, Ho2 in E.
  assert (frame (gph w) (gph w') ->
          graph_add_edge h a b w' = add_oriented_edge sw o1 o2 w') as Hnext.
  { intros F.
    rewrite (graph_add_edge_known h a b na nb w'); [|by rewrite (bucket_find_frame h _ _ _ F)..].
    cbv zeta. rewrite (nodes_cmp_frame _ _ _ _ F).
    unfold has_flag. rewrite (fr_flags _ _ F). fold (has_flag (gph w) GRAPH_UNDIRECTED).
    fold sw. by rewrite Ho1, Ho2. }
  destruct (add_oriented_edge_assigned sw o1 o2 w r w'
              (mok_struct _ (gok_mid _ Hok)) Hv1 Hv2 Hc1 Hc2 E)
    as [(-> & -> & Hwhy)|(Hr & F & Hc' & Hcc' & He')].
  - split; [by left|]. rewrite (Hnext (frame_refl _)).
    destruct Hwhy as [[-> Hnl]|(_ & Hcc & He)].
    + by apply add_oriented_edge_loop_assigned.
    + by apply add_oriented_edge_present.
  - split; [by right|]. rewrite (Hnext F). by apply add_oriented_edge_present.
Qed.

Lemma known_edge_again_witness :
  built sample_hash 14 sample_graph /\ Z.land 14 GRAPH_NOPARALLEL <> 0 /\
  bucket_find sample_hash (gph sample_graph) "a" = Some 0%nat /\
  bucket_find sample_hash (gph sample_graph) "c" = Some 2%nat /\
  forall r w', graph_add_edge sample_hash "a" "c" sample_graph = Ret r w' ->
  (r = 0 \/ r = 1 \/ r = 2) /\ graph_add_edge sample_hash "a" "c" w' = Ret 0 w'.
Proof.
  assert (Z.land 14 GRAPH_NOPARALLEL <> 0) as Hf by (vm_compute; discriminate).
  assert (bucket_find sample_hash (gph sample_graph) "a" = Some 0%nat) as Ha
    by (vm_compute; reflexivity).
  assert (bucket_find sample_hash (gph sample_graph) "c" = Some 2%nat) as Hc
    by (vm_compute; reflexivity).
  split; [exact sample_graph_built|]. split; [exact Hf|].
  split; [exact Ha|]. split; [exact Hc|].
  exact (known_edge_again sample_hash 14 sample_graph "a" "c" 0%nat 2%nat
           sample_graph_built Hf Ha Hc).
Defined.

(** With undirected set, and for two identifiers the index finds,
    [graph_add_edge a b] and [graph_add_edge b a] are the same call: the
    same result, the same graph, the same end of the process when one
    ends it. *)
Theorem undirected_known_symmetric h fl w a b na nb :
  built h fl w -> Z.land fl GRAPH_UNDIRECTED <> 0 ->
  bucket_find h (gph w) a = Some na -> bucket_find h (gph w) b = Some nb ->
  graph_add_edge h a b w = graph_add_edge h b a w.
Proof.
  intros Hb Hfl Ha Hb2. destruct (built_ok _ _ _ Hb) as [Hok _].
  pose proof (has_flag_built _ _ _ _ Hb Hfl) as Hu.
  destruct (found_assigned h _ _ _ Hok Ha) as [Hva Hca].
  destruct (found_assigned h _ _ _ Hok Hb2) as [Hvb Hcb].
  pose proof (mok_struct _ (gok_mid _ Hok)) as Hs.
  rewrite (graph_add_edge_known h a b na nb w Ha Hb2).
  rewrite (graph_add_edge_known h b a nb na w Hb2 Ha).
  cbv zeta. rewrite Hu. cbn [andb].
  pose proof (nodes_cmp_antisym (gph w) na nb) as Hanti.
  destruct (Z.ltb_spec 0 (nodes_cmp (gph w) na nb));
    destruct (Z.ltb_spec 0 (nodes_cmp (gph w) nb na)); try lia.
  - by apply add_oriented_edge_swap.
  - by apply add_oriented_edge_swap.
  - assert (nodes_cmp (gph w) na nb = 0) as Hz by lia.
    apply nodes_cmp_zero in Hz as [_ Hid].
    pose proof (bucket_find_Some _ _ _ _ Ha) as (_ & Hia & _).
    pose proof (bucket_find_Some _ _ _ _ Hb2) as (_ & Hib & _).
    assert (a = b) as <- by congruence.
    assert (na = nb) as <- by congruence. done.
Qed.

Lemma undirected_known_symmetric_witness :
  built sample_hash 3 (sample_world 3) /\ Z.land 3 GRAPH_UNDIRECTED <> 0 /\
  bucket_find sample_hash (gph (sample_world 3)) "a" = Some 49%nat /\
  bucket_find sample_hash (gph (sample_world 3)) "b" = Some 50%nat /\
  graph_add_edge sample_hash "a" "b" (sample_world 3) =
  graph_add_edge sample_hash "b" "a" (sample_world 3).
Proof.
  assert (built sample_hash 3 (sample_world 3)) as Hb.
  { eapply sample_world_built; [vm_compute; reflexivity|vm_compute; reflexivity]. }
  assert (Z.land 3 GRAPH_UNDIRECTED <> 0) as Hf by (vm_compute; discriminate).
  assert (bucket_find sample_hash (gph (sample_world 3)) "a" = Some 49%nat) as Ha
    by (vm_compute; reflexivity).
  assert (bucket_find sample_hash (gph (sample_world 3)) "b" = Some 50%nat) as Hc
    by (vm_compute; reflexivity).
  split; [exact Hb|]. split; [exact Hf|]. split; [exact Ha|]. split; [exact Hc|].
  exact (undirected_known_symmetric sample_hash 3 (sample_world 3) "a" "b" 49%nat 50%nat
           Hb Hf Ha Hc).
Defined.

(** * The outcomes of [graph_init] *)

(** [graph_init] with flags it accepts: when the array of buckets is
    refused it returns -1, with [errno] set by [malloc], the component
    list emptied and the null pointer in [g->nodes]; when the first chunk
    of the node obstack or of the edge obstack is refused the process ends
    with exit status 2; otherwise it returns 0 and leaves a graph with no
    component and no node, 16 empty buckets, the mask 15, the threshold 64
    and the flags given, and two obstacks of one fresh chunk each. The
    graph it leaves when it returns 0 on storage that holds no component
    is well formed and has no edge. *)
Theorem graph_init_outcomes fl w :
  0 <= fl < 16 -> ~ (Z.testbit fl 0 = true /\ Z.testbit fl 3 = true) ->
  match oracle w with
  | false :: o =>
      graph_init fl w =
      Ret (-1) (mkWorld (set_g_nodes (fun _ => []) (set_components (fun _ => []) (gph w)))
                        ENOMEM o (node_chunk w) (edge_chunk w))
  | true :: false :: _ => graph_init fl w = Fatal Exit2
  | true :: true :: false :: _ => graph_init fl w = Fatal Exit2
  | o =>
      graph_init fl w =
      Ret 0 (mkWorld (mkGraph [] (comp_store (gph w)) (replicate 16 []) 15 fl 0 64 [] 0)
                     (errno w) (drop 3 o) (mkObstack 2032 []) (mkObstack 2032 []))
  end /\
  (forall w', comp_store (gph w) = [] -> graph_init fl w = Ret 0 w' ->
     graph_ok (gph w') /\ edge_total (gph w') = 0%nat).
Proof.
  intros Hfl Hbits. split.
  2:{ intros w' Hst E. by destruct (graph_init_ok fl w w' Hst E) as (? & _ & ?). }
  destruct w as [g e o nc ec]. cbn [oracle gph errno node_chunk edge_chunk].
  assert (fl = 0 \/ fl = 1 \/ fl = 2 \/ fl = 3 \/ fl = 4 \/ fl = 5 \/ fl = 6 \/ fl = 7 \/
          fl = 8 \/ fl = 10 \/ fl = 12 \/ fl = 14 \/
          fl = 9 \/ fl = 11 \/ fl = 13 \/ fl = 15) as Hcases by lia.
  repeat (destruct Hcases as [->|Hcases]); try subst fl;
    try (exfalso; apply Hbits; split; reflexivity);
    destruct o as [|[] [|[] [|[] o]]]; reflexivity.
Qed.

Lemma graph_init_outcomes_witness :
  0 <= 14 < 16 /\ ~ (Z.testbit 14 0 = true /\ Z.testbit 14 3 = true) /\
  graph_init 14 (world0 [true; false]) = Fatal Exit2 /\
  (forall w', comp_store (gph (world0 [true; false])) = [] ->
     graph_init 14 (world0 [true; false]) = Ret 0 w' ->
     graph_ok (gph w') /\ edge_total (gph w') = 0%nat).
Proof.
  assert (0 <= 14 < 16) as H1 by lia.
  assert (~ (Z.testbit 14 0 = true /\ Z.testbit 14 3 = true)) as H2.
  { intros [H _]. vm_compute in H. discriminate H. }
  split; [exact H1|]. split; [exact H2|].
  exact (graph_init_outcomes 14 (world0 [true; false]) H1 H2).
Defined.

(** * [graph_add_file] *)

Lemma blank_empty : blank EmptyString.
Proof. intros c Hc. by apply elem_of_nil in Hc. Qed.

Lemma blank_cons c s : is_delim c = true -> blank s -> blank (String c s).
Proof.
  intros Hc Hs d Hd. cbn in Hd. apply elem_of_cons in Hd as [->|Hd]; auto.
Qed.

Lemma skip_delims_spec s :
  exists pre, blank pre /\ s = String.append pre (skip_delims s) /\
    match skip_delims s with
    | String c _ => is_delim c = false
    | EmptyString => True
    end.
Proof.
  induction s as [|c s IH].
  - exists EmptyString. split; [apply blank_empty|done].
  - cbn [skip_delims]. destruct (is_delim c) eqn:Ec.
    + destruct IH as (pre & Hb & Hs & Hh). exists (String c pre).
      split; [by apply blank_cons|]. split; [|done].
      change (String c s = String c (String.append pre (skip_delims s))). by rewrite <- Hs.
    + exists EmptyString. split; [apply blank_empty|done].
Qed.

Lemma split_token_spec s :
  (forall c, c ∈ String.list_ascii_of_string (split_token s).1 -> is_delim c = false) /\
  ((s = (split_token s).1 /\ (split_token s).2 = EmptyString) \/
   exists d, is_delim d = true /\
             s = String.append (split_token s).1 (String d (split_token s).2)).
Proof.
  induction s as [|c s [IH1 IH2]].
  - split; [intros c Hc; by apply elem_of_nil in Hc|by left].
  - cbn [split_token]. destruct (is_delim c) eqn:Ec.
    + split; [intros d Hd; by apply elem_of_nil in Hd|].
      right. exists c. done.
    + destruct (split_token s) as [t rest]. cbn [fst snd] in *. split.
      * intros d Hd. cbn in Hd. apply elem_of_cons in Hd as [->|Hd]; auto.
      * destruct IH2 as [[-> ->]|(d & Hd & ->)]; [by left|].
        right. exists d. done.
Qed.

Lemma append_empty_r s : String.append s EmptyString = s.
Proof.
  induction s as [|c s IH]; [done|].
  change (String c (String.append s EmptyString) = String c s). by rewrite IH.
Qed.

Lemma list_ascii_append a b :
  String.list_ascii_of_string (String.append a b) =
  String.list_ascii_of_string a ++ String.list_ascii_of_string b.
Proof.
  induction a as [|c a IH]; [done|].
  change (c :: String.list_ascii_of_string (String.append a b) =
          c :: (String.list_ascii_of_string a ++ String.list_ascii_of_string b)).
  by rewrite IH.
Qed.

Lemma token_not_blank pre tok rest :
  token tok -> ~ blank (String.append pre (String.append tok rest)).
Proof.
  intros [Hne Htok] Hb. destruct tok as [|c tok]; [done|].
  assert (is_delim c = false) as Hc by (apply Htok; left).
  rewrite (Hb c) in Hc; [done|].
  rewrite !list_ascii_append. apply elem_of_app. right. apply elem_of_app. left. left.
Qed.

(** [strtok_r] with the delimiters of [graph_add_file] returns NULL
    exactly on a string of delimiters; otherwise the token it returns
    is not empty and holds no delimiter, the string is delimiters, the
    token and then either nothing, with nothing left to scan, or one
    delimiter and what is left to scan. *)
Theorem strtok_r_token s :
  match strtok_r s with
  | None => blank s
  | Some (tok, save) =>
      ~ blank s /\ token tok /\
      exists pre, blank pre /\
        ((s = String.append pre tok /\ save = EmptyString) \/
         exists d, is_delim d = true /\
                   s = String.append pre (String.append tok (String d save)))
  end.
Proof.
  unfold strtok_r. destruct (skip_delims_spec s) as (pre & Hb & Hs & Hh).
  destruct (skip_delims s) as [|c s'] eqn:E; rewrite ?E in Hs, Hh.
  - by rewrite Hs, append_empty_r.
  - pose proof (split_token_spec (String c s')) as [Ht Hsplit].
    cbn [split_token] in *. rewrite Hh in *.
    destruct (split_token s') as [t rest]. cbn [fst snd] in *.
    assert (token (String c t)) as Htok by (split; [done|exact Ht]).
    assert ((s = String.append pre (String c t) /\ rest = EmptyString) \/
            exists d, is_delim d = true /\
              s = String.append pre (String.append (String c t) (String d rest))) as Hshape.
    { destruct Hsplit as [[E1 ->]|(d & Hd & E1)].
      - left. split; [|done]. by rewrite Hs, E1 at 1.
      - right. exists d. split; [done|]. by rewrite Hs, E1 at 1. }
    split; [|split; [done|by exists pre]].
    destruct Hshape as [[-> _]|(d & _ & ->)].
    + rewrite <- (append_empty_r (String c t)). by apply token_not_blank.
    + by apply token_not_blank.
Qed.

Section File.

Variable h : string -> Z -> Z -> Z.
Variable fl : Z.

Lemma add_lines_Ret lines : forall w r w',
  built h fl w -> add_lines h lines w = Ret r w' ->
  built h fl w' /\ osuf w w' /\ (r = 0 \/ r = -1) /\
  (r = -1 -> false ∈ oracle w) /\
  (r = 0 -> run_ops h (omap line_op (lines_read lines)) w = Ret tt w').
Proof.
  induction lines as [|line lines IH]; intros w r w' Hb H; cbn [add_lines lines_read] in *.
  - injection H as <- <-. split; [done|]. split; [apply osuf_refl|]. split; [by left|]. done.
  - destruct (negb (0 <? Z.of_nat (String.length line))).
    { injection H as <- <-. split; [done|]. split; [apply osuf_refl|]. split; [by left|]. done. }
    cbn [omap list_omap]. unfold line_op.
    destruct (strtok_r (c_str line)) as [[nstr1 save]|]; [|by apply IH].
    destruct (built_ok _ _ _ Hb) as [Hok _].
    destruct (strtok_r save) as [[nstr2 save2]|]; mred in H; mcase H E as r1 w1.
    + assert (built h fl w1) as Hb1 by (by eapply built_edge). pose proof E as E0.
      apply graph_add_edge_Ret in E as (_ & Hs1 & _ & Hct); [|done].
      destruct (r1 <? 0) eqn:Er1.
      * injection H as <- <-. split; [done|]. split; [done|]. split; [by right|].
        split; [|done]. intros _.
        destruct Hct as [(_ & ? & _)|[(-> & _)|[(-> & _)|(-> & _)]]]; done.
      * destruct (IH _ _ _ Hb1 H) as (Hb' & Hs' & Hr & Hf & Hrun).
        split; [done|]. split; [by eapply osuf_trans|]. split; [done|]. split.
        -- intros Hr1. eapply osuf_false; [exact Hs1|auto].
        -- intros Hr0. cbn [run_ops]. mred. rewrite E0. auto.
    + assert (built h fl w1) as Hb1 by (by eapply built_node). pose proof E as E0.
      apply graph_add_node_Ret in E as (_ & Hs1 & _ & _ & Hct); [|done].
      destruct (r1 <? 0) eqn:Er1.
      * injection H as <- <-. split; [done|]. split; [done|]. split; [by right|].
        split; [|done]. intros _. destruct Hct as [[_ ?]|[->| ->]]; done.
      * destruct (IH _ _ _ Hb1 H) as (Hb' & Hs' & Hr & Hf & Hrun).
        split; [done|]. split; [by eapply osuf_trans|]. split; [done|]. split.
        -- intros Hr1. eapply osuf_false; [exact Hs1|auto].
        -- intros Hr0. cbn [run_ops]. mred. rewrite E0. auto.
Qed.

Lemma add_lines_Fatal lines : forall w f,
  built h fl w -> add_lines h lines w = Fatal f ->
  false ∈ oracle w /\ (f = Exit2 \/ f = Segv).
Proof.
  induction lines as [|line lines IH]; intros w f Hb H; cbn [add_lines] in *; [done|].
  destruct (negb (0 <? Z.of_nat (String.length line))); [done|].
  destruct (strtok_r (c_str line)) as [[nstr1 save]|]; [|by apply IH].
  destruct (built_ok _ _ _ Hb) as [Hok _].
  destruct (strtok_r save) as [[nstr2 save2]|]; mred in H.
  - destruct (graph_add_edge h nstr1 nstr2 w) as [r1 w1|f1] eqn:E.
    + assert (built h fl w1) as Hb1 by (by eapply built_edge).
      apply graph_add_edge_Ret in E as (_ & Hs1 & _); [|done].
      destruct (r1 <? 0); [done|].
      destruct (IH _ _ Hb1 H) as [Hf Hk]. split; [|done]. by eapply osuf_false.
    + injection H as <-. apply graph_add_edge_Fatal in E; [|apply Hok]. done.
  - destruct (graph_add_node h nstr1 w) as [r1 w1|f1] eqn:E.
    + assert (built h fl w1) as Hb1 by (by eapply built_node).
      apply graph_add_node_Ret in E as (_ & Hs1 & _); [|done].
      destruct (r1 <? 0); [done|].
      destruct (IH _ _ Hb1 H) as [Hf Hk]. split; [|done]. by eapply osuf_false.
    + injection H as <-. apply graph_add_node_Fatal in E as [-> ?]; [|done]. auto.
Qed.

Lemma add_lines_total lines : forall w,
  built h fl w -> plentiful w ->
  exists w', add_lines h lines w = Ret 0 w' /\ plentiful w'.
Proof.
  induction lines as [|line lines IH]; intros w Hb Hp; cbn [add_lines].
  { by exists w. }
  destruct (negb (0 <? Z.of_nat (String.length line))); [by exists w|].
  destruct (strtok_r (c_str line)) as [[nstr1 save]|]; [|by apply IH].
  destruct (built_ok _ _ _ Hb) as [Hok _].
  destruct (strtok_r save) as [[nstr2 save2]|]; mred.
  - destruct (graph_add_edge_total h nstr1 nstr2 w Hok Hp) as (r1 & w1 & E & Hr & Hp1).
    rewrite E. assert ((r1 <? 0) = false) as -> by lia.
    apply IH; [by eapply built_edge|done].
  - destruct (graph_add_node_total h nstr1 w Hok Hp) as (r1 & w1 & E & Hr & Hp1).
    rewrite E. assert ((r1 <? 0) = false) as -> by lia.
    apply IH; [by eapply built_node|done].
Qed.

End File.

(** [graph_add_file] on a graph the library has built returns 0 or -1
    and leaves a graph the library has built; it returns -1 only when
    the stream has its error indicator set or an allocation has failed;
    it ends the process only when an allocation has failed, as the
    insertions it makes do; when no allocation fails it returns, with -1
    when the error indicator is set and 0 otherwise. *)
Theorem graph_add_file_outcome h fl w fp :
  built h fl w ->
  (forall r w', graph_add_file h fp w = Ret r w' ->
     built h fl w' /\ (r = 0 \/ r = -1) /\
     (r = -1 -> f_error fp = true \/ false ∈ oracle w)) /\
  (forall f, graph_add_file h fp w = Fatal f ->
     false ∈ oracle w /\ (f = Exit2 \/ f = Segv)) /\
  (plentiful w ->
     exists w', graph_add_file h fp w = Ret (if f_error fp then -1 else 0) w').
Proof.
  intros Hb. unfold graph_add_file. split_and!.
  - intros r w' H. mred in H. mcase H E as r1 w1. injection H as <- <-.
    destruct (add_lines_Ret h fl _ _ _ _ Hb E) as (Hb' & _ & Hr & Hf & _).
    split; [done|]. destruct (f_error fp); [auto|].
    split; [done|]. auto.
  - intros f H. mred in H.
    destruct (add_lines h (f_lines fp) w) as [r1 w1|f1] eqn:E; [done|].
    injection H as <-. by eapply add_lines_Fatal.
  - intros Hp. destruct (add_lines_total h fl (f_lines fp) w Hb Hp) as (w' & E & _).
    exists w'. mred. by rewrite E.
Qed.

Lemma graph_add_file_outcome_witness :
  built sample_hash 14 sample_graph /\
  (forall r w', graph_add_file sample_hash sample_file sample_graph = Ret r w' ->
     built sample_hash 14 w' /\ (r = 0 \/ r = -1) /\
     (r = -1 -> f_error sample_file = true \/ false ∈ oracle sample_graph)) /\
  (forall f, graph_add_file sample_hash sample_file sample_graph = Fatal f ->
     false ∈ oracle sample_graph /\ (f = Exit2 \/ f = Segv)) /\
  (plentiful sample_graph ->
     exists w', graph_add_file sample_hash sample_file sample_graph =
                Ret (if f_error sample_file then -1 else 0) w').
Proof.
  split; [exact sample_graph_built|].
  exact (graph_add_file_outcome sample_hash 14 sample_graph sample_file sample_graph_built).
Defined.

(** When [graph_add_file] returns 0 it has made the calls the lines ask
    for, in the order of the lines: [graph_add_node] for a line of one
    word, [graph_add_edge] on the first two words for a line of more,
    nothing for a blank line. When no allocation fails and the stream has
    no error, it returns 0 with the graph these calls leave. *)
Theorem graph_add_file_runs_lines h fl w fp :
  built h fl w ->
  (forall w', graph_add_file h fp w = Ret 0 w' ->
     f_error fp = false /\ run_ops h (file_ops fp) w = Ret tt w') /\
  (plentiful w -> f_error fp = false ->
     forall w', run_ops h (file_ops fp) w = Ret tt w' ->
                graph_add_file h fp w = Ret 0 w').
Proof.
  intros Hb. unfold graph_add_file, file_ops. split.
  - intros w' H. mred in H. mcase H E as r1 w1.
    destruct (add_lines_Ret h fl _ _ _ _ Hb E) as (_ & _ & _ & _ & Hrun).
    destruct (f_error fp); [done|]. injection H as -> <-. auto.
  - intros Hp Hfe w' Hrun.
    destruct (add_lines_total h fl (f_lines fp) w Hb Hp) as (w1 & E & _).
    destruct (add_lines_Ret h fl _ _ _ _ Hb E) as (_ & _ & _ & _ & Hrun1).
    rewrite (Hrun1 eq_refl) in Hrun. injection Hrun as <-.
    mred. by rewrite E, Hfe.
Qed.

Lemma graph_add_file_runs_lines_witness :
  built sample_hash 14 sample_graph /\
  file_ops sample_file = [AddEdge "a" "e"; AddNode "f"; AddEdge "f" "g"] /\
  (forall w', graph_add_file sample_hash sample_file sample_graph = Ret 0 w' ->
     f_error sample_file = false /\
     run_ops sample_hash (file_ops sample_file) sample_graph = Ret tt w') /\
  (plentiful sample_graph -> f_error sample_file = false ->
     forall w', run_ops sample_hash (file_ops sample_file) sample_graph = Ret tt w' ->
                graph_add_file sample_hash sample_file sample_graph = Ret 0 w').
Proof.
  split; [exact sample_graph_built|]. split; [vm_compute; reflexivity|].
  exact (graph_add_file_runs_lines sample_hash 14 sample_graph sample_file
           sample_graph_built).
Defined.

(** * The node sets of the clique search *)


Lemma cmalloc_Ret s b s' :
  cmalloc s = Ret b s' ->
  ctx_R s' = ctx_R s /\ calls s' = calls s /\ (b = false -> false ∈ mem s).
Proof.
  unfold cmalloc. destruct (mem s) as [|[] o] eqn:Em; intros [= <- <-].
  - done.
  - done.
  - split; [done|]. split; [done|]. intros _. by left.
Qed.

(** The step that makes room for one more node. *)
Lemma room_Ret ns s r ns' s' :
  (if len ns =? cap ns then nodeset_increase_capacity ns else ret (0, ns)) s
  = Ret (r, ns') s' ->
  ctx_R s' = ctx_R s /\ calls s' = calls s /\
  ((r = 0 /\ ns_nodes ns' = ns_nodes ns /\ sorted ns' = sorted ns /\
    (len ns <> cap ns -> ns' = ns)) \/
   (r = -1 /\ ns' = ns /\ len ns = cap ns /\ false ∈ mem s)).
Proof.
  destruct (Z.eqb_spec (len ns) (cap ns)) as [El|El].
  - unfold nodeset_increase_capacity, bind.
    destruct (cmalloc s) as [b s1|] eqn:Ec; [|done].
    apply cmalloc_Ret in Ec as (HR & Hc & Hf).
    destruct b; cbn [negb]; intros [= <- <- <-].
    + split; [done|]. split; [done|]. left. done.
    + split; [done|]. split; [done|]. right. auto.
  - intros [= <- <- <-]. split; [done|]. split; [done|]. left. done.
Qed.

Lemma nodeset_insert_sorted_Ret ns x s r ns' s' :
  nodeset_insert_sorted ns x s = Ret (r, ns') s' ->
  ctx_R s' = ctx_R s /\ calls s' = calls s /\
  (r = 0 \/ (r = -1 /\ ns' = ns /\ len ns = cap ns /\ false ∈ mem s)).
Proof.
  unfold nodeset_insert_sorted. intros H. apply bind_Ret in H as ([r1 ns1] & s1 & E & H).
  apply room_Ret in E as (HR & Hc & [(-> & _)|(-> & -> & Hl & Hf)]).
  - cbn [negb Z.eqb] in H.
    destruct (negb (sorted ns1) || (len ns1 =? 0)).
    { injection H as <- _ <-. auto. }
    destruct (sorted ns1 && _).
    { injection H as <- _ <-. auto. }
    apply bind_Ret in H as (found & s2 & Eh & H).
    assert (s2 = s1) as ->.
    { unfold or_hang in Eh. destruct (insert_loop _ _ _ _ _ _ _); [|done].
      by injection Eh as _ <-. }
    destruct found as [[idx cmp]|]; [|done]. injection H as <- _ <-. auto.
  - injection H as <- <- <-. split; [done|]. split; [done|]. right. done.
Qed.

(** [nodeset_contains] on a set as the search keeps them, sorted without
    repetition and of fewer than 2^31 nodes, returns, and it returns true
    exactly for the members: the binary search of the sets of seven
    nodes and more finds what the scan of the smaller ones finds. *)
Theorem nodeset_contains_membership N ns x :
  Z.of_nat N < 2 ^ 31 -> wf_set N ns ->
  nodeset_contains ns x = Some (bool_decide (x ∈ ns_nodes ns)).
Proof. intros HN Hwf. by apply (nodeset_contains_spec N HN). Qed.

Lemma sample_set_wf : wf_set 16 (mkNodeSet [1; 3; 5; 7; 9; 11; 13; 15]%nat 8 true).
Proof.
  split; [done|]. split.
  - repeat (constructor; [|repeat (constructor; [lia|]); constructor]). constructor.
  - intros x Hx. cbn [ns_nodes] in Hx.
    repeat (apply elem_of_cons in Hx as [->|Hx]; [lia|]). by apply elem_of_nil in Hx.
Qed.

Lemma nodeset_contains_membership_witness :
  Z.of_nat 16 < 2 ^ 31 /\ wf_set 16 (mkNodeSet [1; 3; 5; 7; 9; 11; 13; 15]%nat 8 true) /\
  nodeset_contains (mkNodeSet [1; 3; 5; 7; 9; 11; 13; 15]%nat 8 true) 11%nat =
  Some (bool_decide (11%nat ∈ ns_nodes (mkNodeSet [1; 3; 5; 7; 9; 11; 13; 15]%nat 8 true))).
Proof.
  assert (Z.of_nat 16 < 2 ^ 31) as HN by (vm_compute; reflexivity).
  split; [exact HN|]. split; [exact sample_set_wf|].
  exact (nodeset_contains_membership 16 _ 11%nat HN sample_set_wf).
Defined.

(** [nodeset_insert_sorted] of a node that is not a member of such a set
    returns: with 0 and the set, still sorted without repetition, of the
    old members and the node, one node longer; or, when the set was full
    and the larger array is refused, with -1 and the set as it was. It
    reports nothing and leaves the prefix R alone. *)
Theorem nodeset_insert_sorted_adds N ns x s :
  Z.of_nat N < 2 ^ 31 -> wf_set N ns -> x ∉ ns_nodes ns -> (x < N)%nat ->
  exists r ns' s',
    nodeset_insert_sorted ns x s = Ret (r, ns') s' /\
    ctx_R s' = ctx_R s /\ calls s' = calls s /\
    ((r = 0 /\ wf_set N ns' /\
      (forall y, y ∈ ns_nodes ns' <-> y = x \/ y ∈ ns_nodes ns) /\
      length (ns_nodes ns') = S (length (ns_nodes ns))) \/
     (r = -1 /\ ns' = ns /\ len ns = cap ns /\ false ∈ mem s)).
Proof.
  intros HN Hwf Hx HxN.
  destruct (nodeset_insert_sorted_total N HN ns x s Hwf Hx HxN)
    as ([r ns'] & s' & E & _ & _ & Hok).
  exists r, ns', s'. split; [done|].
  destruct (nodeset_insert_sorted_Ret _ _ _ _ _ _ E) as (HR & Hc & Hr).
  split; [done|]. split; [done|].
  destruct Hr as [->|Hfail]; [|by right]. left.
  destruct (Hok eq_refl) as [Hwf' Hel]. cbn [snd] in *.
  split; [done|]. split; [done|]. split; [done|].
  assert (ns_nodes ns' ≡ₚ x :: ns_nodes ns) as Hperm.
  { apply NoDup_Permutation.
    - apply sorted_NoDup, Hwf'.
    - apply NoDup_cons. split; [done|]. apply sorted_NoDup, Hwf.
    - intros y. rewrite Hel. by rewrite elem_of_cons. }
  by rewrite Hperm.
Qed.

Lemma nodeset_insert_sorted_adds_witness :
  Z.of_nat 16 < 2 ^ 31 /\ wf_set 16 (mkNodeSet [1; 3; 5; 7; 9; 11; 13; 15]%nat 8 true) /\
  (4%nat ∉ ns_nodes (mkNodeSet [1; 3; 5; 7; 9; 11; 13; 15]%nat 8 true)) /\ (4 < 16)%nat /\
  exists r ns' s',
    nodeset_insert_sorted (mkNodeSet [1; 3; 5; 7; 9; 11; 13; 15]%nat 8 true) 4%nat cstate0
    = Ret (r, ns') s' /\
    ctx_R s' = ctx_R cstate0 /\ calls s' = calls cstate0 /\
    ((r = 0 /\ wf_set 16 ns' /\
      (forall y, y ∈ ns_nodes ns' <->
                 y = 4%nat \/ y ∈ ns_nodes (mkNodeSet [1; 3; 5; 7; 9; 11; 13; 15]%nat 8 true)) /\
      length (ns_nodes ns') =
      S (length (ns_nodes (mkNodeSet [1; 3; 5; 7; 9; 11; 13; 15]%nat 8 true)))) \/
     (r = -1 /\ ns' = mkNodeSet [1; 3; 5; 7; 9; 11; 13; 15]%nat 8 true /\
      len (mkNodeSet [1; 3; 5; 7; 9; 11; 13; 15]%nat 8 true) =
      cap (mkNodeSet [1; 3; 5; 7; 9; 11; 13; 15]%nat 8 true) /\
      false ∈ mem cstate0)).
Proof.
  assert (Z.of_nat 16 < 2 ^ 31) as HN by (vm_compute; reflexivity).
  assert (4%nat ∉ ns_nodes (mkNodeSet [1; 3; 5; 7; 9; 11; 13; 15]%nat 8 true)) as Hx.
  { intros Hx. cbn [ns_nodes] in Hx.
    repeat (apply elem_of_cons in Hx as [Hx|Hx]; [lia|]). by apply elem_of_nil in Hx. }
  assert (4 < 16)%nat as Hlt by lia.
  split; [exact HN|]. split; [exact sample_set_wf|]. split; [exact Hx|]. split; [exact Hlt|].
  exact (nodeset_insert_sorted_adds 16 _ 4%nat cstate0 HN sample_set_wf Hx Hlt).
Defined.



(** [nodeset_intersect(A, B)] with such a set B keeps the nodes of A
    that are members of B, in their order, and leaves the capacity and
    the sorted flag of A. *)
Theorem nodeset_intersect_filters N A B :
  Z.of_nat N < 2 ^ 31 -> wf_set N B ->
  nodeset_intersect A B =
  Some (mkNodeSet (filter (fun x => x ∈ ns_nodes B) (ns_nodes A)) (cap A) (sorted A)).
Proof.
  intros HN Hwf. unfold nodeset_intersect.
  by rewrite (intersect_loop_spec N HN B (ns_nodes A) Hwf).
Qed.

Lemma nodeset_intersect_filters_witness :
  Z.of_nat 16 < 2 ^ 31 /\ wf_set 16 (mkNodeSet [1; 3; 5; 7; 9; 11; 13; 15]%nat 8 true) /\
  nodeset_intersect (mkNodeSet [9; 2; 3]%nat 7 false)
                    (mkNodeSet [1; 3; 5; 7; 9; 11; 13; 15]%nat 8 true) =
  Some (mkNodeSet (filter (fun x => x ∈ ns_nodes (mkNodeSet [1; 3; 5; 7; 9; 11; 13; 15]%nat 8 true))
                          (ns_nodes (mkNodeSet [9; 2; 3]%nat 7 false)))
                  (cap (mkNodeSet [9; 2; 3]%nat 7 false))
                  (sorted (mkNodeSet [9; 2; 3]%nat 7 false))).
Proof.
  assert (Z.of_nat 16 < 2 ^ 31) as HN by (vm_compute; reflexivity).
  split; [exact HN|]. split; [exact sample_set_wf|].
  exact (nodeset_intersect_filters 16 (mkNodeSet [9; 2; 3]%nat 7 false) _ HN sample_set_wf).
Defined.

(** [nodeset_append] returns: with 0 and the node after the old ones, or,
    when the set was full and the larger array is refused, with -1 and
    the set as it was. The sorted flag it leaves is set exactly when the
    set was empty, or was flagged as sorted and its last node is below the
    new one; when the flag was right before, in that the nodes of a set
    flagged as sorted were strictly increasing, it is right after. *)
Theorem nodeset_append_flag ns x s :
  (sorted ns = true -> StronglySorted lt (ns_nodes ns)) ->
  exists r ns' s',
    nodeset_append ns x s = Ret (r, ns') s' /\
    ((r = 0 /\ ns_nodes ns' = ns_nodes ns ++ [x] /\
      sorted ns' = ((len ns =? 0) ||
                    (sorted ns && (List.last (ns_nodes ns) 0 <? x)%nat)) /\
      (sorted ns' = true -> StronglySorted lt (ns_nodes ns'))) \/
     (r = -1 /\ ns' = ns /\ len ns = cap ns /\ false ∈ mem s)).
Proof.
  intros Hflag. unfold nodeset_append, bind.
  destruct ((if len ns =? cap ns then nodeset_increase_capacity ns else ret (0, ns)) s)
    as [[r ns1] s1|f] eqn:E.
  2:{ exfalso. destruct (room_total ns s) as (a & s2 & E' & _). congruence. }
  apply room_Ret in E as (_ & _ & [(-> & Hn & Hso & _)|(-> & -> & Hl & Hfm)]).
  - cbn [negb Z.eqb]. eexists 0, _, s1. split; [reflexivity|]. left.
    cbn [ns_nodes sorted]. unfold len. rewrite Hn, Hso.
    assert ((cmp_nodeptr (List.last (ns_nodes ns) 0%nat) x <? 0)
            = (List.last (ns_nodes ns) 0 <? x)%nat) as Hcmp.
    { destruct (cmp_nodeptr_cases (List.last (ns_nodes ns) 0%nat) x)
        as [[Ec Hc]|[[Ec Hc]|[Ec Hc]]]; rewrite Ec; symmetry.
      - by apply Nat.ltb_lt.
      - apply Nat.ltb_ge. lia.
      - apply Nat.ltb_ge. lia. }
    rewrite Hcmp. split; [done|]. split; [done|]. split; [done|].
    intros Hs'. apply orb_true_iff in Hs' as [E0|Hs'].
    + apply Z.eqb_eq in E0. destruct (ns_nodes ns); [|simpl in E0; lia].
      repeat constructor.
    + apply andb_true_iff in Hs' as [Hs Hlt%Nat.ltb_lt].
      apply sorted_snoc; [auto|]. intros y Hy.
      pose proof (sorted_last_max _ y (Hflag Hs) Hy). lia.
  - exists (-1), ns, s1. split; [reflexivity|]. right. done.
Qed.

Lemma nodeset_append_flag_witness :
  (sorted (mkNodeSet [1; 3; 5; 7; 9; 11; 13; 15]%nat 8 true) = true ->
   StronglySorted lt (ns_nodes (mkNodeSet [1; 3; 5; 7; 9; 11; 13; 15]%nat 8 true))) /\
  exists r ns' s',
    nodeset_append (mkNodeSet [1; 3; 5; 7; 9; 11; 13; 15]%nat 8 true) 4%nat
                   (mkCstate (mkNodeSet [] 0 true) [] 0 [] [false] 0)
    = Ret (r, ns') s' /\
    ((r = 0 /\
      ns_nodes ns' = ns_nodes (mkNodeSet [1; 3; 5; 7; 9; 11; 13; 15]%nat 8 true) ++ [4%nat] /\
      sorted ns' =
      ((len (mkNodeSet [1; 3; 5; 7; 9; 11; 13; 15]%nat 8 true) =? 0) ||
       (sorted (mkNodeSet [1; 3; 5; 7; 9; 11; 13; 15]%nat 8 true) &&
        (List.last (ns_nodes (mkNodeSet [1; 3; 5; 7; 9; 11; 13; 15]%nat 8 true)) 0 <? 4)%nat)) /\
      (sorted ns' = true -> StronglySorted lt (ns_nodes ns'))) \/
     (r = -1 /\ ns' = mkNodeSet [1; 3; 5; 7; 9; 11; 13; 15]%nat 8 true /\
      len (mkNodeSet [1; 3; 5; 7; 9; 11; 13; 15]%nat 8 true) =
      cap (mkNodeSet [1; 3; 5; 7; 9; 11; 13; 15]%nat 8 true) /\
      false ∈ mem (mkCstate (mkNodeSet [] 0 true) [] 0 [] [false] 0))).
Proof.
  assert (sorted (mkNodeSet [1; 3; 5; 7; 9; 11; 13; 15]%nat 8 true) = true ->
          StronglySorted lt (ns_nodes (mkNodeSet [1; 3; 5; 7; 9; 11; 13; 15]%nat 8 true)))
    as Hflag by (intros _; apply sample_set_wf).
  split; [exact Hflag|].
  exact (nodeset_append_flag _ 4%nat (mkCstate (mkNodeSet [] 0 true) [] 0 [] [false] 0) Hflag).
Defined.

(** * The answer of the callback *)

Section Relay.

Variable cb : list (list nptr) -> list nptr -> Z.

Lemma relay_quiet s r s' : calls s' = calls s -> relay cb s r s'.
Proof.
  intros Hc. exists []. rewrite app_nil_r. split; [done|].
  intros pre K post E. by destruct pre.
Qed.

Lemma relay_then s r s1 s2 : relay cb s 0 s1 -> relay cb s1 r s2 -> relay cb s r s2.
Proof.
  intros (n1 & Hc1 & H1) (n2 & Hc2 & H2). exists (n1 ++ n2).
  split; [by rewrite Hc2, Hc1, app_assoc|].
  intros pre K post E Hnz.
  apply List.app_eq_app in E as [l [[E1 E2]|[E1 E2]]].
  - (* the call is one of the first step, unless [l] is empty *)
    destruct l as [|x l].
    + rewrite app_nil_r in E1. subst n1. simpl in E2. subst n2.
      specialize (H2 [] K post eq_refl). rewrite app_nil_r in H2.
      rewrite <- Hc1. apply H2. by rewrite Hc1.
    + injection E2 as <- ->. destruct (H1 _ _ _ E1 Hnz) as [_ Hr]. congruence.
  - subst pre. rewrite app_assoc, <- Hc1. apply H2; [done|]. by rewrite Hc1, <- app_assoc.
Qed.

Lemma relay_quiet_l s s1 r s2 : calls s1 = calls s -> relay cb s1 r s2 -> relay cb s r s2.
Proof. intros Hc. apply relay_then. by apply relay_quiet. Qed.

Lemma relay_quiet_r s r s1 s2 : relay cb s r s1 -> calls s2 = calls s1 -> relay cb s r s2.
Proof.
  intros (n1 & Hc1 & H1) Hc. exists n1. split; [congruence|done].
Qed.

Lemma relays_silent {A} (val : A -> Z) (m : M cstate A) : silent m -> relays cb val m.
Proof. intros Hm s a s' E. apply relay_quiet. by eapply Hm. Qed.

Lemma relays_bind_silent {A B} (val : B -> Z) (m : M cstate A) (k : A -> M cstate B) :
  silent m -> (forall a, relays cb val (k a)) -> relays cb val (bind m k).
Proof.
  intros Hm Hk s b s' H. apply bind_Ret in H as (a & s1 & E1 & E2).
  eapply relay_quiet_l; [by eapply Hm|]. by eapply Hk.
Qed.

(** A step that hands the answer on, followed by steps that go on only
    when it was 0 and otherwise return it at once. *)
Lemma relays_bind {A B} (v1 : A -> Z) (v2 : B -> Z) (m : M cstate A) (k : A -> M cstate B) :
  relays cb v1 m ->
  (forall a, v1 a = 0 -> relays cb v2 (k a)) ->
  (forall a, v1 a <> 0 -> forall s b s', k a s = Ret b s' -> calls s' = calls s /\ v2 b = v1 a) ->
  relays cb v2 (bind m k).
Proof.
  intros Hm Hz Hnz s b s' H. apply bind_Ret in H as (a & s1 & E1 & E2).
  destruct (decide (v1 a = 0)) as [E0|E0].
  - eapply relay_then; [|by eapply Hz]. rewrite <- E0. by eapply Hm.
  - destruct (Hnz a E0 _ _ _ E2) as [Hc ->]. eapply relay_quiet_r; [by eapply Hm|done].
Qed.

Lemma relays_call_user_cb : relays cb id (call_user_cb cb).
Proof.
  intros s r s' [= <- <-]. exists [ns_nodes (ctx_R s)]. split; [done|].
  intros [|p pre] K post E Hnz.
  - injection E as <- <-. by rewrite app_nil_r.
  - injection E as _ E. by destruct pre.
Qed.

(** Take a step of the search apart, as far as it is silent. *)
Ltac relay_step :=
  lazymatch goal with
  | |- relays _ _ (bind _ _) => apply relays_bind_silent; [solve [repeat silent_step]|intros ?]
  | |- relays _ _ (if ?b then _ else _) => destruct b eqn:?
  | |- relays _ _ (match ?x with Some _ => _ | None => _ end) => destruct x
  | |- relays _ _ (let '(_, _) := ?x in _) => destruct x
  | |- relays _ _ (match ?x with (_, _) => _ end) => destruct x
  | |- relays _ _ (ret _) => apply relays_silent; solve [auto with silent]
  end.

Section Search.

Variable g : Graph.
Variable rec : NodeSet -> NodeSet -> M cstate (Z * NodeSet).
Hypothesis Hrec : forall P X, relays cb fst (rec P X).

Lemma relays_BK_loop pivot rest : forall t, relays cb fst (BK_loop g rec pivot rest t).
Proof.
  induction rest as [|v rest IH]; intros t; cbn [BK_loop].
  { apply relays_silent. auto with silent. }
  repeat relay_step; try (apply IH).
  apply (relays_bind fst fst); [apply Hrec| |].
  - intros [r nX'] Hr. cbn [fst] in Hr. subst r. cbn [negb Z.eqb].
    repeat relay_step. apply IH.
  - intros [r nX'] Hr s0 b s' H. cbn [fst] in Hr.
    apply Z.eqb_neq in Hr. rewrite Hr in H. cbn [negb] in H.
    injection H as <- <-. done.
Qed.

Lemma relays_BK_call P X : relays cb fst (BK_call cb g rec P X).
Proof.
  unfold BK_call. destruct (len P =? 0).
  - destruct (len X =? 0).
    + intros s [r X'] s' H. apply bind_Ret in H as (r0 & s1 & E1 & [= <- <- <-]).
      by apply relays_call_user_cb in E1.
    + apply relays_silent. auto with silent.
  - repeat relay_step.
    apply (relays_bind fst fst); [apply relays_BK_loop| |].
    + intros [r t] _. repeat relay_step.
    + intros [r t] _ s0 b s' H.
      assert (silent (nsp_put (Some (still_in_P t)) ;;; nsp_put (Some (newX t)) ;;;
                      nsp_put (Some (newP t)) ;;; ret (r, bk_X t))) as Hs
        by (repeat silent_step).
      split; [by eapply Hs|].
      cbn in H. by injection H as <- _.
Qed.

End Search.

Lemma relays_BronKerbosch g fuel : forall P X, relays cb fst (BronKerbosch cb g fuel P X).
Proof.
  induction fuel as [|fuel IH]; intros P X; cbn [BronKerbosch].
  - intros s a s' [=].
  - by apply relays_BK_call.
Qed.

Lemma silent_append_all l : forall P, silent (append_all P l).
Proof. induction l as [|x l IH]; intros P; cbn [append_all]; repeat silent_step. Qed.

Lemma silent_nsp_init : silent nsp_init.
Proof. intros s a s' [= _ <-]. done. Qed.

Lemma silent_nsp_destroy : silent nsp_destroy.
Proof. intros s a s' [= _ <-]. done. Qed.

Lemma relays_component_iterate g c :
  relays cb id (component_iterate_maximal_cliques cb g c).
Proof.
  pose proof silent_append_all. pose proof silent_nsp_init. pose proof silent_nsp_destroy.
  unfold component_iterate_maximal_cliques.
  repeat relay_step.
  apply (relays_bind fst id); [apply relays_BronKerbosch| |].
  - intros rx _. repeat relay_step.
  - intros rx _ s0 b s' HH. apply bind_Ret in HH as (u & s1 & E1 & [= <- <-]).
    split; [|done]. by eapply silent_nsp_destroy.
Qed.

End Relay.

(** "If callback ever returns non-zero, returns immediately with that
    return value": when [component_iterate_maximal_cliques] returns, a
    call the callback has answered with a value other than 0 is the last
    call it has received, and its answer is the value returned. So every
    call but the last was answered with 0, and a search that returns 0
    has had 0 for every answer. *)
Theorem clique_search_relays_callback cb g c s r s' :
  component_iterate_maximal_cliques cb g c s = Ret r s' ->
  exists new, calls s' = calls s ++ new /\
    forall pre K post, new = pre ++ K :: post -> cb (calls s ++ pre) K <> 0 ->
      post = [] /\ r = cb (calls s ++ pre) K.
Proof. intros E. exact (relays_component_iterate cb g c s r s' E). Qed.

Lemma clique_search_relays_callback_witness :
  component_iterate_maximal_cliques (fun _ _ => 7) (gph sample_graph) 0 cstate0
  = Ret 7 stopped_search /\
  exists new, calls stopped_search = calls cstate0 ++ new /\
    forall pre K post, new = pre ++ K :: post ->
      (fun (_ : list (list nptr)) (_ : list nptr) => 7) (calls cstate0 ++ pre) K <> 0 ->
      post = [] /\
      7 = (fun (_ : list (list nptr)) (_ : list nptr) => 7) (calls cstate0 ++ pre) K.
Proof.
  assert (component_iterate_maximal_cliques (fun _ _ => 7) (gph sample_graph) 0 cstate0
          = Ret 7 stopped_search) as E by (vm_compute; reflexivity).
  split; [exact E|].
  exact (clique_search_relays_callback (fun _ _ => 7) (gph sample_graph) 0%nat cstate0 7
           stopped_search E).
Defined.

Lemma cmalloc_mem s :
  exists b s', cmalloc s = Ret b s' /\
    ctx_R s' = ctx_R s /\ calls s' = calls s /\
    pool_sets s' = pool_sets s /\ pool_count s' = pool_count s /\
    mem s' = drop 1 (mem s) /\ (b = false <-> false ∈ take 1 (mem s)).
Proof.
  unfold cmalloc. destruct (mem s) as [|b o] eqn:Em.
  - exists true, s. split; [done|]. rewrite Em. split_and!; try done.
    split; [done|]. intros H. by apply elem_of_nil in H.
  - destruct b; eexists _, _; (split; [done|]);
      cbn [ctx_R calls pool_sets pool_count mem take drop];
      split_and!; try done; rewrite list_elem_of_singleton; done.
Qed.

Lemma nodeset_alloc_mem init s :
  exists o s', nodeset_alloc init s = Ret o s' /\
    ctx_R s' = ctx_R s /\ calls s' = calls s /\
    pool_sets s' = pool_sets s /\ pool_count s' = pool_count s /\
    ((o = None /\ false ∈ take 2 (mem s)) \/
     (o <> None /\ (false ∉ take 2 (mem s)) /\ mem s' = drop 2 (mem s))).
Proof.
  unfold nodeset_alloc, bind.
  destruct (cmalloc_mem s) as (b1 & s1 & -> & HR1 & Hc1 & Hp1 & Hn1 & Hm1 & Hb1).
  destruct b1; cbn [negb].
  - destruct (cmalloc_mem s1) as (b2 & s2 & -> & HR2 & Hc2 & Hp2 & Hn2 & Hm2 & Hb2).
    assert (mem s2 = drop 2 (mem s)) as Hm.
    { rewrite Hm2, Hm1. by rewrite drop_drop. }
    destruct b2; cbn [negb]; eexists _, s2; (split; [reflexivity|]);
      (split; [congruence|]); (split; [congruence|]); (split; [congruence|]);
      (split; [congruence|]).
    + right. split; [done|]. split; [|done].
      change 2%nat with (1 + 1)%nat.
      rewrite <- (take_take_drop (mem s) 1 1), elem_of_app, <- Hm1.
      intros [Hf|Hf]; [by apply Hb1 in Hf|by apply Hb2 in Hf].
    + left. split; [done|]. destruct Hb2 as [Hb2 _]. specialize (Hb2 eq_refl).
      rewrite Hm1 in Hb2. destruct (mem s) as [|x [|y o]]; simpl in *;
        try (by apply elem_of_nil in Hb2).
      apply list_elem_of_singleton in Hb2 as <-. right. left.
  - exists None, s1. split; [done|]. split_and!; try done.
    left. split; [done|]. destruct Hb1 as [Hb1 _]. specialize (Hb1 eq_refl).
    destruct (mem s) as [|x o]; simpl in *; [by apply elem_of_nil in Hb1|].
    apply list_elem_of_singleton in Hb1 as <-. left.
Qed.

(** When one of the first six allocations of the search is refused, a
    node set is missing for R, P or X: [component_iterate_maximal_cliques]
    returns -1 without a call of the callback, and leaves the pool
    empty. *)
Theorem clique_search_without_memory cb g c s :
  false ∈ take 6 (mem s) ->
  exists s', component_iterate_maximal_cliques cb g c s = Ret (-1) s' /\
             calls s' = calls s /\ pool_sets s' = [] /\ pool_count s' = 0.
Proof.
  intros H. unfold component_iterate_maximal_cliques, bind, nsp_init.
  set (s0 := mkCstate (ctx_R s) [] 0 (calls s) (mem s) (c_errno s)).
  destruct (nodeset_alloc_mem 0 s0) as (oR & s1 & -> & _ & Hc1 & _ & _ & H1).
  destruct (nodeset_alloc_mem (node_count (comp_at g c)) s1)
    as (oP & s2 & -> & _ & Hc2 & _ & _ & H2).
  destruct (nodeset_alloc_mem (node_count (comp_at g c)) s2)
    as (oX & s3 & -> & _ & Hc3 & _ & _ & H3).
  assert (calls s3 = calls s) as Hc by (rewrite Hc3, Hc2, Hc1; done).
  assert (oR = None \/ oP = None \/ oX = None) as Hnone.
  { destruct H1 as [[-> _]|(HR & Hf1 & Hm1)]; [by left|].
    destruct H2 as [[-> _]|(HP & Hf2 & Hm2)]; [by right; left|].
    destruct H3 as [[-> _]|(HX & Hf3 & Hm3)]; [by right; right|].
    exfalso. rewrite Hm2, Hm1, drop_drop in Hf3. rewrite Hm1 in Hf2.
    change (mem s0) with (mem s) in *.
    change 6%nat with (2 + (2 + 2))%nat in H.
    rewrite <- (take_take_drop (mem s) 2 (2 + 2)), <- (take_take_drop (drop 2 (mem s)) 2 2) in H.
    rewrite drop_drop in H. rewrite !elem_of_app in H. tauto. }
  destruct oR as [R0|], oP as [P0|], oX as [X0|];
    try (eexists; split; [reflexivity|done]).
  by destruct Hnone as [?|[?|?]].
Qed.

Lemma clique_search_without_memory_witness :
  (false ∈ take 6 (mem (mkCstate (mkNodeSet [] 0 true) [] 0 [] [true; true; true; false] 0))) /\
  exists s',
    component_iterate_maximal_cliques (fun _ _ => 0) (gph sample_graph) 0
      (mkCstate (mkNodeSet [] 0 true) [] 0 [] [true; true; true; false] 0) = Ret (-1) s' /\
    calls s' = calls (mkCstate (mkNodeSet [] 0 true) [] 0 [] [true; true; true; false] 0) /\
    pool_sets s' = [] /\ pool_count s' = 0.
Proof.
  assert (false ∈ take 6 (mem (mkCstate (mkNodeSet [] 0 true) [] 0 []
                                  [true; true; true; false] 0))) as H.
  { simpl. do 3 right. left. }
  split; [exact H|].
  exact (clique_search_without_memory (fun _ _ => 0) (gph sample_graph) 0%nat _ H).
Defined.

(** * [graph_iterate_maximal_cliques] *)

Lemma land_pow2 fl i :
  0 <= i -> Z.land fl (2 ^ i) = if Z.testbit fl i then 2 ^ i else 0.
Proof.
  intros Hi. apply Z.bits_inj'. intros n Hn.
  rewrite Z.land_spec, Z.pow2_bits_eqb by done.
  destruct (Z.eqb_spec i n) as [->|Hne].
  - destruct (Z.testbit fl n) eqn:E; rewrite ?E.
    + by rewrite Z.pow2_bits_true.
    + by rewrite Z.bits_0.
  - rewrite andb_false_r. destruct (Z.testbit fl i).
    + rewrite Z.pow2_bits_false; [done|lia].
    + by rewrite Z.bits_0.
Qed.

Lemma required_flags_spec g :
  (Z.land (flags g) (Z.lor (Z.lor GRAPH_NOPARALLEL GRAPH_NOLOOP) GRAPH_DUAL)
   =? Z.lor (Z.lor GRAPH_NOPARALLEL GRAPH_NOLOOP) GRAPH_DUAL) =
  has_flag g GRAPH_NOPARALLEL && has_flag g GRAPH_NOLOOP && has_flag g GRAPH_DUAL.
Proof.
  rewrite !Z.land_lor_distr_r. unfold has_flag.
  change GRAPH_NOPARALLEL with (2 ^ 1). change GRAPH_NOLOOP with (2 ^ 2).
  change GRAPH_DUAL with (2 ^ 3). rewrite !land_pow2 by lia.
  destruct (Z.testbit (flags g) 1), (Z.testbit (flags g) 2), (Z.testbit (flags g) 3);
    reflexivity.
Qed.

(** On a graph that lacks one of the flags no-parallel, no-loop and dual,
    [graph_iterate_maximal_cliques] returns -1 with [errno] set to
    [EINVAL]: it searches no component, allocates nothing and does not
    call the callback. *)
Theorem graph_iterate_maximal_cliques_flags cb g s :
  has_flag g GRAPH_NOPARALLEL = false \/ has_flag g GRAPH_NOLOOP = false \/
  has_flag g GRAPH_DUAL = false ->
  graph_iterate_maximal_cliques cb g s =
  Ret (-1) (mkCstate (ctx_R s) (pool_sets s) (pool_count s) (calls s) (mem s) EINVAL).
Proof.
  intros H. unfold graph_iterate_maximal_cliques. cbv zeta.
  rewrite required_flags_spec.
  destruct H as [->|[->| ->]]; rewrite ?andb_false_r; reflexivity.
Qed.

Lemma graph_iterate_maximal_cliques_flags_witness :
  (has_flag (gph (sample_world 3)) GRAPH_NOPARALLEL = false \/
   has_flag (gph (sample_world 3)) GRAPH_NOLOOP = false \/
   has_flag (gph (sample_world 3)) GRAPH_DUAL = false) /\
  graph_iterate_maximal_cliques (fun _ _ => 0) (gph (sample_world 3)) cstate0
  = Ret (-1) (mkCstate (ctx_R cstate0) (pool_sets cstate0) (pool_count cstate0)
                       (calls cstate0) (mem cstate0) EINVAL).
Proof.
  assert (has_flag (gph (sample_world 3)) GRAPH_NOPARALLEL = false \/
          has_flag (gph (sample_world 3)) GRAPH_NOLOOP = false \/
          has_flag (gph (sample_world 3)) GRAPH_DUAL = false) as H.
  { right. left. vm_compute. reflexivity. }
  split; [exact H|].
  exact (graph_iterate_maximal_cliques_flags (fun _ _ => 0) (gph (sample_world 3))
           cstate0 H).
Defined.

Section Components.

Variable cb : list (list nptr) -> list nptr -> Z.
Variable g : Graph.
Hypothesis Hok : graph_ok g.
Hypothesis HN : Z.of_nat (length (node_os g)) < 2 ^ 31.
Hypothesis Hnl : has_flag g GRAPH_NOLOOP = true.
Hypothesis Hnp : has_flag g GRAPH_NOPARALLEL = true.
Hypothesis Hd : has_flag g GRAPH_DUAL = true.

Lemma foreach_component_search cs :
  (forall c, c ∈ cs -> c ∈ components g) ->
  forall s, exists r s',
    foreach (component_iterate_maximal_cliques cb g) cs s = Ret r s' /\
    relay cb s r s' /\
    exists new, calls s' = calls s ++ new /\
      Forall (fun K => exists c, c ∈ components g /\ maximal_clique g c K) new.
Proof.
  destruct Hok as [[Hs Hi Ht He] Ha].
  induction cs as [|c cs IH]; intros Hcs s.
  - exists 0, s. split; [done|]. split; [by apply relay_quiet|].
    exists []. by rewrite app_nil_r.
  - assert (c ∈ components g) as Hc by (apply Hcs; left).
    destruct (component_iterate_total cb g c HN) with (s := s)
      as (r1 & s1 & E1 & new1 & Hn1 & Hg1).
    + intros n. apply (ok_noloop _ He Hnl).
    + intros a b. apply (ok_dual _ He Hd).
    + intros n. apply (ok_noparallel _ He Hnp).
    + intros a b Hab. apply node_valid.
      destruct (ok_edge _ Hs a b Hab) as [? ->]. done.
    + intros u Hu. apply node_valid. by rewrite (ok_member _ Hs c u Hu).
    + apply (ok_nodes_nodup _ Hs).
    + apply (ok_count _ Hs).
    + pose proof (relays_component_iterate cb g c _ _ _ E1) as Hr1. cbn [id] in Hr1.
      assert (Forall (fun K => exists c, c ∈ components g /\ maximal_clique g c K) new1)
        as Hg1'.
      { eapply Forall_impl; [exact Hg1|]. intros K HK. by exists c. }
      cbn [foreach]. unfold bind at 1. rewrite E1.
      destruct (r1 =? 0) eqn:Er; cbn [negb].
      * apply Z.eqb_eq in Er. subst r1.
        destruct (IH (fun c' Hc' => Hcs c' (list_elem_of_further _ _ _ Hc')) s1)
          as (r & s' & E & Hr & new & Hn & Hg).
        exists r, s'. split; [done|].
        split; [by eapply relay_then|].
        exists (new1 ++ new). split; [by rewrite Hn, Hn1, app_assoc|].
        by apply Forall_app.
      * exists r1, s1. split; [done|]. split; [done|]. by exists new1.
Qed.

End Components.

(** On a graph the library has built with no-loop, no-parallel and dual
    set, and with fewer than 2^31 nodes, [graph_iterate_maximal_cliques]
    returns. Only a refused allocation changes [errno]: when the
    allocator has refused one, the function returns -1 and [errno] is
    [ENOMEM]; when it has refused none, [errno] is what it was. Every node
    array handed to the callback is a maximal clique of a component of the
    graph; a call the callback has answered with a value other than 0 is
    the last call, and its answer is the value returned. *)
Theorem graph_iterate_maximal_cliques_reports h fl w cb s :
  built h fl w ->
  Z.land fl GRAPH_NOLOOP <> 0 -> Z.land fl GRAPH_NOPARALLEL <> 0 ->
  Z.land fl GRAPH_DUAL <> 0 ->
  Z.of_nat (length (node_os (gph w))) < 2 ^ 31 ->
  exists r s',
    graph_iterate_maximal_cliques cb (gph w) s = Ret r s' /\
    (exists used, mem s = used ++ mem s' /\
       (false ∈ used -> r = -1 /\ c_errno s' = ENOMEM) /\
       (false ∉ used -> c_errno s' = c_errno s)) /\
    exists new, calls s' = calls s ++ new /\
      Forall (fun K => exists c, c ∈ components (gph w) /\ maximal_clique (gph w) c K) new /\
      forall pre K post, new = pre ++ K :: post ->
        cb (calls s ++ pre) K <> 0 ->
        post = [] /\ r = cb (calls s ++ pre) K.
Proof.
  intros Hb Hnl Hnp Hd HN. destruct (built_ok _ _ _ Hb) as [Hok _].
  pose proof (has_flag_built _ _ _ _ Hb Hnl) as Fnl.
  pose proof (has_flag_built _ _ _ _ Hb Hnp) as Fnp.
  pose proof (has_flag_built _ _ _ _ Hb Hd) as Fd.
  destruct (foreach_component_search cb (gph w) Hok HN Fnl Fnp Fd (components (gph w))
              (fun c Hc => Hc) s)
    as (r & s' & E & (new' & Hn' & Hrel) & new & Hn & Hg).
  exists r, s'. split.
  { unfold graph_iterate_maximal_cliques. cbv zeta.
    rewrite required_flags_spec, Fnl, Fnp, Fd. exact E. }
  split; [exact (allocs_foreach_components cb (gph w) _ s r s' E)|].
  exists new. split; [done|]. split; [done|].
  assert (new' = new) as -> by (rewrite Hn in Hn'; by apply app_inv_head in Hn').
  exact Hrel.
Qed.

(** The allocator refuses the seventh allocation, the first one the
    search of the component of a, b and c makes after the node sets R, P
    and X. *)
Lemma graph_iterate_maximal_cliques_reports_witness :
  let cb := fun (_ : list (list nptr)) (_ : list nptr) => 0 in
  let s := mkCstate (mkNodeSet [] 0 true) [] 0 [] (replicate 6 true ++ [false]) 0 in
  built sample_hash 14 sample_graph /\
  Z.land 14 GRAPH_NOLOOP <> 0 /\ Z.land 14 GRAPH_NOPARALLEL <> 0 /\
  Z.land 14 GRAPH_DUAL <> 0 /\
  Z.of_nat (length (node_os (gph sample_graph))) < 2 ^ 31 /\
  exists r s',
    graph_iterate_maximal_cliques cb (gph sample_graph) s = Ret r s' /\
    (exists used, mem s = used ++ mem s' /\
       (false ∈ used -> r = -1 /\ c_errno s' = ENOMEM) /\
       (false ∉ used -> c_errno s' = c_errno s)) /\
    exists new, calls s' = calls s ++ new /\
      Forall (fun K => exists c, c ∈ components (gph sample_graph) /\
                                 maximal_clique (gph sample_graph) c K) new /\
      forall pre K post, new = pre ++ K :: post ->
        cb (calls s ++ pre) K <> 0 ->
        post = [] /\ r = cb (calls s ++ pre) K.
Proof.
  intros cb s.
  assert (Z.land 14 GRAPH_NOLOOP <> 0) as H1 by (vm_compute; discriminate).
  assert (Z.land 14 GRAPH_NOPARALLEL <> 0) as H2 by (vm_compute; discriminate).
  assert (Z.land 14 GRAPH_DUAL <> 0) as H3 by (vm_compute; discriminate).
  assert (Z.of_nat (length (node_os (gph sample_graph))) < 2 ^ 31) as H4
    by (vm_compute; reflexivity).
  split; [exact sample_graph_built|]. split; [exact H1|]. split; [exact H2|].
  split; [exact H3|]. split; [exact H4|].
  exact (graph_iterate_maximal_cliques_reports sample_hash 14 sample_graph cb s
           sample_graph_built H1 H2 H3 H4).
Defined.

(** * The search reports every maximal clique *)

Lemma reported_after s s1 s2 n K :
  calls s1 = calls s ++ n -> reported s1 s2 K -> reported s s2 K.
Proof.
  intros Hc (new & K' & Hn & Hin & Hp). exists (n ++ new), K'.
  split; [by rewrite Hn, Hc, app_assoc|]. split; [|done].
  apply elem_of_app. by right.
Qed.

Lemma reported_before s s1 s2 n K :
  reported s s1 K -> calls s2 = calls s1 ++ n -> reported s s2 K.
Proof.
  intros (new & K' & Hn & Hin & Hp) Hc. exists (new ++ n), K'.
  split; [by rewrite Hc, Hn, app_assoc|]. split; [|done].
  apply elem_of_app. by left.
Qed.

Lemma good_report_calls g c s s' : good_report g c s s' -> exists n, calls s' = calls s ++ n.
Proof. intros (n & Hn & _). by exists n. Qed.

Section Complete.

Variable user_cb : list (list nptr) -> list nptr -> Z.
Variable g : Graph.
Variable c : cptr.

Let V := nodes (comp_at g c).
Let N := length (node_os g).

Hypothesis HN : Z.of_nat N < 2 ^ 31.
Hypothesis Hnoloop : forall n, ~ adjacent g n n.
Hypothesis Hsym : forall a b, adjacent g a b -> adjacent g b a.
Hypothesis Hnodup : forall n, NoDup (out_edges (node_at g n)).
Hypothesis Hvalid : forall a b, adjacent g a b -> (b < N)%nat.
Hypothesis HV : forall u, u ∈ V -> (u < N)%nat.


(** The pivot is a node of P or of X. *)
Lemma foldl_better_in (a : nptr) l :
  let better pivot n :=
    if out_degree (node_at g pivot) <? out_degree (node_at g n) then n else pivot in
  foldl better a l = a \/ foldl better a l ∈ l.
Proof.
  intros better. revert a. induction l as [|x l IH]; intros a; cbn [foldl]; [by left|].
  destruct (IH (better a x)) as [E|Hin].
  - rewrite E. unfold better. destruct (_ <? _); [right; left|by left].
  - right. by right.
Qed.

Lemma choose_pivot_in P X :
  ns_nodes P <> [] ->
  choose_pivot g P X ∈ ns_nodes P \/ choose_pivot g P X ∈ ns_nodes X.
Proof.
  intros HP. unfold choose_pivot.
  destruct (ns_nodes P) as [|p ps] eqn:EP; [done|]. cbn [tail].
  change ((p :: ps) !!! 0%nat) with p.
  destruct (foldl_better_in
              (foldl (fun pivot n =>
                        if out_degree (node_at g pivot) <? out_degree (node_at g n)
                        then n else pivot) p ps) (ns_nodes X)) as [E|Hin]; [|by right].
  rewrite E. left. destruct (foldl_better_in p ps) as [E'|Hin'].
  - rewrite E'. left.
  - by right.
Qed.

(** A maximal clique that extends R inside P has a node in P that is not a
    neighbour of the pivot: otherwise the pivot could join it. *)
Lemma pivot_misses R P X K :
  bk_inv g V N R P X -> ns_nodes P <> [] ->
  extends g c R (ns_nodes P) K ->
  exists v, v ∈ ns_nodes P /\ v ∈ K /\ graph_edge_exists g (choose_pivot g P X) v = false.
Proof.
  intros Hinv HP ((HKnd & HKV & HKc & HKmax) & HRK & HKP).
  set (u := choose_pivot g P X).
  destruct (decide (Exists (fun v => v ∈ K /\ graph_edge_exists g u v = false) (ns_nodes P)))
    as [Hex|Hno].
  { apply Exists_exists in Hex as (v & Hv & HvK & Hpv). by exists v. }
  exfalso. rewrite <- Forall_Exists_neg, Forall_forall in Hno.
  assert (forall v, v ∈ ns_nodes P -> v ∈ K -> adjacent g u v) as Hadj.
  { intros v Hv HvK. apply (graph_edge_exists_adjacent g).
    destruct (graph_edge_exists g u v) eqn:E; [done|]. destruct (Hno v Hv). done. }
  assert (common g V R u) as [HuV HuR].
  { apply (inv_cover _ _ _ _ _ _ Hinv). apply choose_pivot_in. done. }
  assert (u ∉ K) as HuK.
  { intros HuK. destruct (HKP u HuK) as [HuR'|HuP].
    - by apply (common_not_member g c Hnoloop R u).
    - by apply (Hnoloop u), Hadj. }
  apply (HKmax u HuV HuK). intros a Ha.
  destruct (HKP a Ha) as [HaR|HaP]; [by apply HuR|]. by apply Hsym, Hadj.
Qed.

(** The loop of [BronKerbosch] over the nodes of P from [v] on: besides what
    [BK_loop_total] says, the cliques that have a node among the ones to
    come that is not a neighbour of the pivot are reported. *)
Lemma BK_loop_complete rec bound pivot :
  rec_ok2 g c bound rec ->
  forall rest t s,
    NoDup (ns_nodes (ctx_R s)) ->
    (forall r, r ∈ ns_nodes (ctx_R s) -> r ∈ V) ->
    is_clique g (ns_nodes (ctx_R s)) ->
    wf_set N (still_in_P t) -> wf_set N (bk_X t) -> NoDup rest ->
    (forall u, (u ∈ ns_nodes (still_in_P t) \/ u ∈ rest \/ u ∈ ns_nodes (bk_X t)) <->
               common g V (ns_nodes (ctx_R s)) u) ->
    (forall u, u ∈ ns_nodes (still_in_P t) -> u ∉ ns_nodes (bk_X t)) ->
    (forall u, u ∈ rest -> u ∉ ns_nodes (bk_X t)) ->
    (forall u, u ∈ rest -> u ∉ ns_nodes (still_in_P t)) ->
    len (ctx_R s) < cap (ctx_R s) ->
    (length (ns_nodes (still_in_P t)) + length rest <= bound)%nat ->
    total (BK_loop g rec pivot rest t) s (fun rt s' =>
      good_report g c s s' /\
      (fst rt = 0 -> ns_nodes (ctx_R s') = ns_nodes (ctx_R s) /\
                     len (ctx_R s') < cap (ctx_R s')) /\
      (fst rt = 0 -> forall K,
         extends g c (ns_nodes (ctx_R s)) (ns_nodes (still_in_P t) ++ rest) K ->
         (exists v', v' ∈ rest /\ v' ∈ K /\ graph_edge_exists g pivot v' = false) ->
         reported s s' K)).
Proof.
  intros Hrec rest. induction rest as [|v rest IH];
    intros t s HR1 HR2 HR3 Hst HX Hnd Hcov Hd1 Hd2 Hd3 Hcap Hbound; cbn [BK_loop].
  - apply total_ret. split; [by apply good_report_refl|]. split; [done|].
    intros _ K _ (v' & Hv' & _). by apply elem_of_nil in Hv'.
  - apply NoDup_cons in Hnd as [Hv Hnd].
    assert (common g V (ns_nodes (ctx_R s)) v) as Hcv by (apply Hcov; right; left; left).
    assert (v < N)%nat as HvN by (apply HV, Hcv).
    assert (v ∉ ns_nodes (still_in_P t)) as Hvs by (apply Hd3; left).
    assert (v ∉ ns_nodes (bk_X t)) as HvX by (apply Hd2; left).
    destruct (graph_edge_exists g pivot v) eqn:Epv.
    + (* v is a neighbour of the pivot: it stays in P *)
      eapply total_step; [by apply (nodeset_insert_sorted_total N HN)|].
      intros [r still'] s1 (Hq & Hr & Hok); simpl in *.
      destruct Hr as [->| ->]; simpl.
      * destruct (Hok eq_refl) as [Hwf Hel]. destruct Hq as [HqR Hqc].
        eapply total_mono; [apply IH; simpl; rewrite ?HqR; try done|].
        -- intros u. rewrite Hel, <- Hcov, elem_of_cons. naive_solver.
        -- intros u [->|Hu]%Hel; auto.
        -- intros u Hu. apply Hd2. by right.
        -- intros u Hu [->|Hu']%Hel; [done|]. by apply (Hd3 u); [right|].
        -- pose proof (length_inserted _ _ v (sorted_NoDup _ (proj1 (proj2 Hwf))) Hel).
           simpl in Hbound. lia.
        -- intros [r t'] s' (Hg & Hr0 & Hcp). simpl in *. rewrite HqR in Hr0, Hcp.
           split; [by eapply good_report_quiet_l|]. split; [done|].
           intros Hr K (Hmax & HRK & HKP) (v' & Hv' & HvK & Hpv').
           apply (reported_after s s1 s' []); [by rewrite app_nil_r|].
           apply (Hcp Hr).
           ++ split; [done|]. split; [done|]. intros x Hx.
              destruct (HKP x Hx) as [?|Hx']; [by left|]. right.
              rewrite elem_of_app, elem_of_cons in Hx'. rewrite elem_of_app, Hel. tauto.
           ++ exists v'. split; [|done].
              apply elem_of_cons in Hv' as [->|?]; [congruence|done].
      * apply total_ret. simpl. split; [apply good_report_refl, Hq|split; done].
    + (* v joins R for a call on its neighbours *)
      eapply (total_step _ _ _ _ (fun a s' => a = s /\ s' = s)); [by apply total_get|].
      intros s0 s0' [-> ->].
      eapply total_step; [apply nodeset_append_total|].
      intros [r R'] s1 (Hq & _ & Hnodes & Hroom); simpl in *.
      destruct (Hroom ltac:(lia)) as [-> HcapR]. specialize (Hnodes eq_refl).
      destruct Hq as [HqR Hqc].
      eapply total_step; [apply set_R_total|]. intros u2 s2 [HR2s Hc2].
      eapply (total_step _ _ _ _ (fun _ s' => s' = s2)); [by apply total_assert|].
      intros _ s2' ->. simpl.
      eapply total_step.
      { apply (insert_all_total N HN (nodeset_clear (newX t)) (out_edges (node_at g v)));
          [apply wf_set_clear|apply Hnodup|].
        intros x Hx. split; [apply not_elem_of_nil|by apply (Hvalid v)]. }
      intros [r nX] s3 (Hq3 & Hr3 & Hok3); simpl in *.
      destruct Hr3 as [->| ->]; simpl;
        [|apply total_ret; simpl; split; [|split; done];
          apply good_report_refl; destruct Hq3 as [_ ->]; congruence].
      destruct (Hok3 eq_refl) as [HwX HelX]. clear Hok3.
      eapply total_step.
      { apply (insert_members_total N HN nX (nodeset_clear (newP t)) (ns_nodes (still_in_P t)));
          [done|apply wf_set_clear|apply sorted_NoDup, Hst|].
        intros x Hx. split; [apply not_elem_of_nil|by apply Hst]. }
      intros [r nP1] s4 (Hq4 & Hr4 & Hok4); simpl in *.
      destruct Hr4 as [->| ->]; simpl;
        [|apply total_ret; simpl; split; [|split; done];
          apply good_report_refl; destruct Hq3 as [_ ?], Hq4 as [_ ?]; congruence].
      destruct (Hok4 eq_refl) as [HwP1 HelP1]. clear Hok4.
      eapply total_step.
      { apply (insert_members_total N HN nX nP1 rest); [done|done|done|].
        intros x Hx. split.
        - rewrite HelP1. intros [[Hxs _]|Hxe]; [|by apply not_elem_of_nil in Hxe].
          by apply (Hd3 x); [right|].
        - apply HV. assert (common g V (ns_nodes (ctx_R s)) x) as Hcx; [|apply Hcx].
          apply Hcov. right. left. by right. }
      intros [r nP] s5 (Hq5 & Hr5 & Hok5); simpl in *.
      destruct Hr5 as [->| ->]; simpl;
        [|apply total_ret; simpl; split; [|split; done];
          apply good_report_refl; destruct Hq3 as [_ ?], Hq4 as [_ ?], Hq5 as [_ ?];
          congruence].
      destruct (Hok5 eq_refl) as [HwP HelP]. clear Hok5.
      destruct (nodeset_intersect_spec N HN nX (bk_X t) HwX HX) as (nX' & Ei & HwX' & HelX').
      eapply (total_step _ _ _ _ (fun a s6 => a = nX' /\ s6 = s5));
        [eapply total_or_hang; [exact Ei|done]|].
      intros ? ? [-> ->].
      assert (ctx_R s5 = R' /\ calls s5 = calls s) as [HR5 Hc5].
      { destruct Hq3 as [? ?], Hq4 as [? ?], Hq5 as [? ?]. split; congruence. }
      assert (bk_inv g V N (ns_nodes (ctx_R s5)) nP nX') as Hinv.
      { rewrite HR5, Hnodes.
        apply (bk_inv_step g c Hnoloop Hsym (ns_nodes (ctx_R s)) (ns_nodes (still_in_P t)) rest
                 (ns_nodes (bk_X t))); try done.
        - intros u Hu. apply Hd2. by right.
        - intros u. rewrite HelP, HelP1, HelX. rewrite elem_of_nil. unfold adjacent.
          naive_solver.
        - intros u. rewrite HelX', HelX. simpl. rewrite elem_of_nil. unfold adjacent.
          naive_solver. }
      eapply total_step.
      { apply Hrec; [exact Hinv| |].
        - rewrite HR5. unfold len. rewrite Hnodes, length_app, HcapR. simpl.
          unfold len in Hcap. lia.
        - pose proof (length_le_disjoint (ns_nodes nP) (ns_nodes (still_in_P t)) rest
                        (sorted_NoDup _ (proj1 (proj2 HwP)))
                        (sorted_NoDup _ (proj1 (proj2 Hst))) Hnd) as Hlen.
          simpl in Hbound. 
          assert (length (ns_nodes nP) <= length (ns_nodes (still_in_P t)) + length rest)%nat;
            [|lia].
          apply Hlen.
          + intros u Hu. apply Hd3. by right.
          + intros u. rewrite HelP, HelP1. rewrite elem_of_nil. naive_solver. }
      intros [r nX''] s6 [[Hg6 Hr6] Hc6]; simpl in *.
      destruct (Z.eqb_spec r 0) as [->|Hne]; simpl.
      * destruct (Hr6 eq_refl) as [HR6 Hcap6]. clear Hr6.
        eapply total_step; [apply set_R_total|]. intros u7 s7 [HR7 Hc7].
        eapply total_step; [by apply (nodeset_insert_sorted_total N HN (bk_X t) v)|].
        intros [r X'] s8 (Hq8 & Hr8 & Hok8); simpl in *.
        assert (good_report g c s s8) as Hg8.
        { eapply good_report_quiet_r; [|destruct Hq8 as [_ ->]; exact Hc7].
          by eapply good_report_quiet_l. }
        destruct Hr8 as [->| ->]; simpl; [|apply total_ret; simpl; split; [done|split; done]].
        destruct (Hok8 eq_refl) as [HwX8 HelX8]. clear Hok8.
        assert (ns_nodes (ctx_R s8) = ns_nodes (ctx_R s)) as HR8.
        { destruct Hq8 as [-> _]. rewrite HR7. unfold pop_R. simpl.
          rewrite HR6, HR5, Hnodes. apply removelast_last. }
        assert (len (ctx_R s8) < cap (ctx_R s8)) as Hcap8.
        { destruct Hq8 as [-> _]. rewrite HR7. unfold pop_R, len in *. simpl.
          rewrite HR6, HR5, Hnodes, removelast_last.
          rewrite HR6, HR5, Hnodes, length_app in Hcap6. simpl in Hcap6. lia. }
        eapply total_mono; [apply IH; simpl; rewrite ?HR8; try done|].
        -- intros u. rewrite HelX8, <- Hcov, elem_of_cons. naive_solver.
        -- intros u Hu [->|Hu']%HelX8; [done|]. by apply (Hd1 u).
        -- intros u Hu [->|Hu']%HelX8; [done|]. by apply (Hd2 u); [right|].
        -- intros u Hu. apply Hd3. by right.
        -- simpl in Hbound. lia.
        -- intros [r t'] s' (Hg & Hr0 & Hcp). simpl in *. rewrite HR8 in Hr0, Hcp.
           split; [by eapply good_report_trans|]. split; [done|].
           intros Hr K (Hmax & HRK & HKP) (v' & Hv' & HvK & Hpv').
           destruct (good_report_calls _ _ _ _ Hg) as [n8 Hn8].
           destruct (good_report_calls _ _ _ _ Hg8) as [n0 Hn0].
           destruct (decide (v ∈ K)) as [HvinK|HvK'].
           ++ (* the clique holds v: the call on R and v reports it *)
              apply (reported_after s s5 s' []); [by rewrite app_nil_r|].
              apply (reported_before s5 s6 s' n8);
                [|rewrite Hn8; destruct Hq8 as [_ ->]; by rewrite Hc7].
              apply (Hc6 eq_refl). rewrite HR5, Hnodes.
              split; [done|]. split.
              ** intros x [Hx|Hx]%elem_of_app; [by apply HRK|].
                 by apply list_elem_of_singleton in Hx as ->.
              ** intros x Hx. rewrite elem_of_app, list_elem_of_singleton.
                 destruct (decide (x = v)) as [->|Hxv]; [left; by right|].
                 destruct (HKP x Hx) as [?|Hx']; [left; by left|]. right.
                 assert (adjacent g v x) as Hadj.
                 { destruct Hmax as (_ & _ & Hcl & _). by apply Hcl. }
                 rewrite HelP, HelP1, HelX, elem_of_nil. unfold adjacent in Hadj.
                 rewrite elem_of_app, elem_of_cons in Hx'. tauto.
           ++ (* it does not: one of the nodes to come is in it *)
              apply (reported_after s s8 s' n0); [done|].
              apply (Hcp Hr).
              ** split; [done|]. split; [done|]. intros x Hx.
                 destruct (HKP x Hx) as [?|Hx']; [by left|]. right.
                 rewrite elem_of_app, elem_of_cons in Hx'. rewrite elem_of_app.
                 destruct Hx' as [?|[->|?]]; [by left|done|by right].
              ** exists v'. split; [|done].
                 apply elem_of_cons in Hv' as [->|?]; [done|done].
      * apply total_ret. simpl. split; [by eapply good_report_quiet_l|]. split; done.
Qed.


(** One call of [BronKerbosch], given what the calls it makes do. *)
Lemma BK_call_complete rec P X s :
  bk_inv g V N (ns_nodes (ctx_R s)) P X ->
  len (ctx_R s) <= cap (ctx_R s) ->
  rec_ok2 g c (length (ns_nodes P)) rec ->
  total (BK_call user_cb g rec P X) s (bk_post2 g c P s).
Proof.
  intros Hinv Hcap Hrec. unfold BK_call.
  destruct (Z.eqb_spec (len P) 0) as [EP|EP].
  - assert (ns_nodes P = []) as HP
      by (unfold len in EP; destruct (ns_nodes P); [done|simpl in EP; lia]).
    destruct (Z.eqb_spec (len X) 0) as [EX|EX].
    + assert (ns_nodes X = []) as HX
        by (unfold len in EX; destruct (ns_nodes X); [done|simpl in EX; lia]).
      eapply total_step; [apply call_user_cb_total|].
      intros r s1 [HR1 Hc1]. apply total_ret. split; [split; simpl|].
      * exists [ns_nodes (ctx_R s)]. split; [done|].
        apply Forall_singleton. by eapply bk_inv_maximal.
      * intros _. by rewrite HR1.
      * (* the clique is R itself *)
        intros _ K ((HKnd & _) & HRK & HKP).
        exists [ns_nodes (ctx_R s)], (ns_nodes (ctx_R s)).
        split; [done|]. split; [left|].
        apply NoDup_Permutation; [apply Hinv|done|].
        intros x. split; [apply HRK|]. intros Hx.
        destruct (HKP x Hx) as [?|Hp]; [done|]. rewrite HP in Hp. by apply elem_of_nil in Hp.
    + apply total_ret. split; [split; [by apply good_report_refl|done]|].
      (* a node of X could join R: no maximal clique is left here *)
      intros _ K ((HKnd & HKV & HKc & HKmax) & HRK & HKP). exfalso.
      destruct (ns_nodes X) as [|x xs] eqn:EX'; [unfold len in EX; rewrite EX' in EX; done|].
      assert (common g V (ns_nodes (ctx_R s)) x) as [HxV HxR].
      { apply (inv_cover _ _ _ _ _ _ Hinv). right. rewrite EX'. left. }
      assert (forall a, a ∈ K -> a ∈ ns_nodes (ctx_R s)) as HKR.
      { intros a Ha. destruct (HKP a Ha) as [?|Hp]; [done|].
        rewrite HP in Hp. by apply elem_of_nil in Hp. }
      apply (HKmax x HxV).
      -- intros HxK. by apply (common_not_member g c Hnoloop (ns_nodes (ctx_R s)) x), HKR.
      -- intros a Ha. by apply HxR, HKR.
  - eapply (total_step _ _ _ _ (fun a s' => a = s /\ s' = s)); [by apply total_get|].
    intros s0 s0' [-> ->].
    eapply total_step; [apply room_total|].
    intros [r R'] s1 (Hq1 & Hn1 & _ & Hr1 & Hroom & Hgrow); simpl in *.
    eapply total_step; [apply set_R_total|]. intros u2 s2 [HR2 Hc2].
    destruct Hq1 as [HqR1 Hqc1].
    destruct Hr1 as [->| ->]; simpl;
      [|apply total_ret; split; [split; [apply good_report_refl; congruence|done]|done]].
    assert (len R' < cap R') as Hcap'.
    { pose proof (bounded_length _ N (inv_R_nodup _ _ _ _ _ _ Hinv)
                    (fun x Hx => HV x (inv_R_in _ _ _ _ _ _ Hinv x Hx))) as Hlen.
      unfold len in *. rewrite Hn1.
      destruct (decide (Z.of_nat (length (ns_nodes (ctx_R s))) = cap (ctx_R s))) as [E|E].
      - rewrite (Hgrow eq_refl E). rewrite <- E. unfold wrap32.
        rewrite Z.mod_small.
        + pose proof (Z.div_pos (Z.of_nat (length (ns_nodes (ctx_R s)))) 2). lia.
        + pose proof (Z.div_pos (Z.of_nat (length (ns_nodes (ctx_R s)))) 2).
          pose proof (Z.div_le_upper_bound (Z.of_nat (length (ns_nodes (ctx_R s)))) 2
                        (Z.of_nat (length (ns_nodes (ctx_R s))))). lia.
      - injection (Hroom E) as ->. lia. }
    eapply total_step; [apply nsp_get_total|]. intros onP s3 Hq3.
    eapply total_step; [apply nsp_get_total|]. intros onX s4 Hq4.
    assert (forall s5, quiet s4 s5 -> good_report g c s s5) as Hquiet.
    { intros s5 Hq5. apply good_report_refl.
      destruct Hq3 as [_ ?], Hq4 as [_ ?], Hq5 as [_ ?]. congruence. }
    assert (forall (o1 o2 : option NodeSet) s5, quiet s4 s5 ->
              total (nsp_put o1 ;;; nsp_put o2 ;;; ret (-1, X)) s5 (bk_post2 g c P s)) as Hout.
    { intros o1 o2 s5 Hq5.
      eapply total_step; [apply nsp_put_total|]. intros u1_ s6 Hq6.
      eapply total_step; [apply nsp_put_total|]. intros u2_ s7 Hq7.
      apply total_ret. split; [split; [|done]|done]. apply Hquiet.
      exact (quiet_trans _ _ _ Hq5 (quiet_trans _ _ _ Hq6 Hq7)). }
    destruct onP as [nP_|], onX as [nX_|]; try (by apply Hout, quiet_refl).
    eapply total_step; [apply nsp_get_total|]. intros ostill s5 Hq5.
    destruct ostill as [still_|]; [|by apply Hout].
    assert (ctx_R s5 = R' /\ calls s5 = calls s) as [HR5 Hc5].
    { destruct Hq3 as [? ?], Hq4 as [? ?], Hq5 as [? ?]. split; congruence. }
    pose proof Hinv as Hinv0.
    destruct Hinv as [H1 H2 H3 H4 H5 H6 H7].
    eapply total_step.
    { apply (BK_loop_complete rec (length (ns_nodes P)) (choose_pivot g P X) Hrec
               (ns_nodes P) (mkSets (nodeset_clear still_) nP_ nX_ X) s5);
        simpl; rewrite ?HR5, ?Hn1; try done.
      - apply wf_set_clear.
      - apply sorted_NoDup, H4.
      - intros u. rewrite <- H6, elem_of_nil. naive_solver.
      - intros u Hu. by apply not_elem_of_nil in Hu.
      - intros u Hu. apply not_elem_of_nil. }
    intros [r t] s6 (Hg6 & Hr6 & Hcv6); cbn [fst snd] in *.
    eapply total_step; [exact (nsp_put_total (Some (still_in_P t)) s6)|].
    intros u3_ s7 Hq7. cbv beta in Hq7.
    eapply total_step; [exact (nsp_put_total (Some (newX t)) s7)|].
    intros u4_ s8 Hq8. cbv beta in Hq8.
    eapply total_step; [exact (nsp_put_total (Some (newP t)) s8)|].
    intros u5_ s9 Hq9. cbv beta in Hq9.
    assert (quiet s6 s9) as [HqR Hqc]
      by exact (quiet_trans _ _ _ Hq7 (quiet_trans _ _ _ Hq8 Hq9)).
    apply total_ret. split; [split; simpl|].
    + eapply good_report_quiet_r; [|exact Hqc]. by eapply good_report_quiet_l.
    + intros Hr0. destruct (Hr6 Hr0) as [E1 E2]. rewrite HqR.
      rewrite HR5, Hn1 in E1. split; [done|lia].
    + cbn [fst]. intros Hr0 K Hext.
      assert (ns_nodes P <> []) as HPne.
      { intros HP. unfold len in EP. rewrite HP in EP. done. }
      destruct (pivot_misses _ P X K Hinv0 HPne Hext) as (v & Hv & HvK & Hpv).
      apply (reported_after s s5 s9 []); [by rewrite app_nil_r|].
      apply (reported_before s5 s6 s9 []); [|by rewrite app_nil_r].
      apply (Hcv6 Hr0).
      * cbn [still_in_P nodeset_clear ns_nodes app]. by rewrite HR5, Hn1.
      * by exists v.
Qed.

Lemma BronKerbosch_complete fuel : rec_ok2 g c fuel (BronKerbosch user_cb g fuel).
Proof.
  induction fuel as [|fuel IH]; intros P X s Hinv Hcap Hlen; [lia|].
  cbn [BronKerbosch]. apply BK_call_complete; [done|done|].
  intros P' X' s' Hinv' Hcap' Hlen'. apply IH; [done|done|lia].
Qed.


Hypothesis HVnd : NoDup V.
Hypothesis Hcount : node_count (comp_at g c) = wrap32 (Z.of_nat (length V)).

(** [component_iterate_maximal_cliques] returns, and when it returns 0 it
    has handed every maximal clique of the component to the callback. *)
Lemma component_iterate_complete s :
  total (component_iterate_maximal_cliques user_cb g c) s (fun r s' =>
    good_report g c s s' /\
    (r = 0 -> forall K, maximal_clique g c K -> reported s s' K)).
Proof.
  assert (Z.of_nat (length V) < 2 ^ 31) as HlV.
  { pose proof (bounded_length V N HVnd HV). lia. }
  assert (node_count (comp_at g c) = Z.of_nat (length V)) as Hcnt.
  { rewrite Hcount. unfold wrap32. apply Z.mod_small. lia. }
  unfold component_iterate_maximal_cliques.
  eapply (total_step _ _ _ _ (fun _ s' => quiet s s')).
  { eexists _, _. split; [reflexivity|]. by split. }
  intros u0 s0 Hq0.
  eapply total_step; [apply nodeset_alloc_total|]. intros oR s1 [Hq1 HR].
  eapply total_step; [apply nodeset_alloc_total|]. intros oP s2 [Hq2 HP].
  eapply total_step; [apply nodeset_alloc_total|]. intros oX s3 [Hq3 HX].
  assert (quiet s s3) as Hq
    by exact (quiet_trans _ _ _ Hq0 (quiet_trans _ _ _ Hq1 (quiet_trans _ _ _ Hq2 Hq3))).
  assert (total (nsp_destroy ;;; ret (-1)) s3 (fun r s' =>
            good_report g c s s' /\
            (r = 0 -> forall K, maximal_clique g c K -> reported s s' K))) as Hout.
  { eapply (total_step _ _ _ _ (fun _ s' => quiet s3 s')).
    { eexists _, _. split; [reflexivity|]. by split. }
    intros u4 s4 Hq4. apply total_ret. split; [|done]. apply good_report_refl.
    destruct Hq as [_ ?], Hq4 as [_ ?]. congruence. }
  destruct oR as [R0|], oP as [P0|], oX as [X0|]; try exact Hout. clear Hout.
  destruct (HR _ eq_refl) as (HR1 & HR2 & HR3).
  destruct (HP _ eq_refl) as (HP1 & HP2 & HP3).
  destruct (HX _ eq_refl) as (HX1 & HX2 & HX3).
  eapply total_step; [apply set_R_total|]. intros u4 s4 [HR4 Hc4].
  eapply total_step.
  { apply (append_all_total g V P0).
    - unfold len. rewrite HP1, HP3, Hcnt. simpl.
      destruct (Z.ltb_spec (Z.of_nat (length V)) 7); lia.
    - intros _. rewrite HP1. constructor. }
  intros P1 s5 (-> & HnP & HsP). rewrite HP1 in HnP. simpl in HnP.
  destruct (nodeset_sort_wf g P1) as [HwP Hperm]; [done|by rewrite HnP|by rewrite HnP|].
  rewrite HnP in Hperm.
  eapply (total_step _ _ _ _ (fun _ s' => s' = s4)).
  { apply total_assert; [|done]. apply Z.eqb_eq. unfold len. by rewrite Hperm, Hcnt. }
  intros _ s5 ->.
  eapply (total_step _ _ _ _ (fun _ s' => s' = s4)).
  { apply total_assert; [|done]. unfold len. by rewrite HX1. }
  intros _ s5 ->.
  eapply (total_step _ _ _ _ (fun _ s' => s' = s4)).
  { apply total_assert; [|done]. unfold len. by rewrite HR1. }
  intros _ s5 ->.
  eapply total_step.
  { apply (BronKerbosch_complete (S (length (ns_nodes (nodeset_sort P1)))) (nodeset_sort P1) X0 s4).
    - rewrite HR4. cbv beta. rewrite HR1. split.
      + constructor.
      + intros r Hr. by apply not_elem_of_nil in Hr.
      + intros a b Ha. by apply not_elem_of_nil in Ha.
      + done.
      + split; [done|]. rewrite HX1. split; [constructor|].
        intros x Hx. by apply not_elem_of_nil in Hx.
      + intros u. rewrite HX1, Hperm, elem_of_nil. unfold common.
        split; [intros [?|[]]|intros [? _]; by left].
        split; [done|]. intros r Hr. by apply not_elem_of_nil in Hr.
      + intros u _. rewrite HX1. apply not_elem_of_nil.
    - rewrite HR4. cbv beta. unfold len. rewrite HR1, HR3. simpl. lia.
    - lia. }
  intros rx s5 [[Hg5 _] Hcv5].
  eapply (total_step _ _ _ _ (fun _ s' => quiet s5 s')).
  { eexists _, _. split; [reflexivity|]. by split. }
  intros u6 s6 [_ Hc6]. apply total_ret.
  assert (calls s4 = calls s) as Hc4s by (destruct Hq as [_ ?]; congruence).
  split.
  { eapply good_report_quiet_r; [|exact Hc6].
    eapply good_report_quiet_l; [|exact Hg5]. done. }
  intros Hr0 K HK.
  apply (reported_after s s4 s6 []); [by rewrite app_nil_r|].
  apply (reported_before s4 s5 s6 []); [|by rewrite app_nil_r].
  apply (Hcv5 Hr0). rewrite HR4. cbv beta. rewrite HR1.
  split; [done|]. split.
  - intros x Hx. by apply elem_of_nil in Hx.
  - intros x Hx. right. rewrite Hperm. destruct HK as (_ & HKV & _). by apply HKV.
Qed.


End Complete.

(** X24. The search of a component is complete. On a graph the library has
    built with no-loop, no-parallel and dual set and fewer than 2^31 nodes,
    [component_iterate_maximal_cliques] returns; every node array it has
    handed to the callback is a maximal clique of the component; and when
    it returns 0, every maximal clique of the component is among them, up
    to the order of its nodes. *)
Theorem all_maximal_cliques_reported h fl w c cb s :
  built h fl w ->
  Z.land fl GRAPH_NOLOOP <> 0 -> Z.land fl GRAPH_NOPARALLEL <> 0 ->
  Z.land fl GRAPH_DUAL <> 0 ->
  c ∈ components (gph w) ->
  Z.of_nat (length (node_os (gph w))) < 2 ^ 31 ->
  exists r s' new,
    component_iterate_maximal_cliques cb (gph w) c s = Ret r s' /\
    calls s' = calls s ++ new /\
    Forall (maximal_clique (gph w) c) new /\
    (r = 0 -> forall K, maximal_clique (gph w) c K -> exists K', K' ∈ new /\ K' ≡ₚ K).
Proof.
  intros Hb Hnl Hnp Hd Hc HN. destruct (built_ok _ _ _ Hb) as [[[Hs Hi Ht He] Ha] Hfl].
  assert (forall f, Z.land fl f <> 0 -> has_flag (gph w) f = true) as Hflag.
  { intros f Hf. unfold has_flag. rewrite Hfl. by apply negb_true_iff, Z.eqb_neq. }
  destruct (component_iterate_complete cb (gph w) c HN) with (s := s)
    as (r & s' & E & (new & Hnew & Hall) & Hcomp).
  - intros n. apply (ok_noloop _ He (Hflag _ Hnl)).
  - intros a b. apply (ok_dual _ He (Hflag _ Hd)).
  - intros n. apply (ok_noparallel _ He (Hflag _ Hnp)).
  - intros a b Hab. apply node_valid.
    destruct (ok_edge _ Hs a b Hab) as [? ->]. done.
  - intros u Hu. apply node_valid. by rewrite (ok_member _ Hs c u Hu).
  - apply (ok_nodes_nodup _ Hs).
  - apply (ok_count _ Hs).
  - exists r, s', new. split; [done|]. split; [done|]. split; [done|].
    intros Hr K HK. destruct (Hcomp Hr K HK) as (new' & K' & Hnew' & Hin & Hp).
    rewrite Hnew in Hnew'. apply app_inv_head in Hnew' as <-. by exists K'.
Qed.

Lemma all_maximal_cliques_reported_witness :
  let cb := fun (_ : list (list nptr)) (_ : list nptr) => 0 in
  built sample_hash 14 sample_graph /\ (0%nat ∈ components (gph sample_graph)) /\
  exists s' new,
    component_iterate_maximal_cliques cb (gph sample_graph) 0 cstate0 = Ret 0 s' /\
    calls s' = calls cstate0 ++ new /\
    Forall (maximal_clique (gph sample_graph) 0) new /\
    (forall K, maximal_clique (gph sample_graph) 0 K -> exists K', K' ∈ new /\ K' ≡ₚ K).
Proof.
  intros cb.
  assert (built sample_hash 14 sample_graph) as Hb by apply sample_graph_built.
  assert (0%nat ∈ components (gph sample_graph)) as Hc by (vm_compute; left).
  split; [exact Hb|]. split; [exact Hc|].
  destruct (all_maximal_cliques_reported sample_hash 14 sample_graph 0%nat cb cstate0 Hb)
    as (r & s' & new & E & Hnew & Hall & Hcomp);
    [vm_compute; discriminate|vm_compute; discriminate|vm_compute; discriminate|
     exact Hc|vm_compute; reflexivity|].
  assert (r = 0) as -> by (vm_compute in E; congruence).
  exists s', new. split; [exact E|]. split; [exact Hnew|]. split; [exact Hall|].
  exact (Hcomp eq_refl).
Defined.

(** * The claims about failures and about the clique search *)

(** ** When the insertion of a node ends the process *)

Lemma obstack_alloc_refused len hh w f :
  obstack_alloc len hh w = Fatal f ->
  f = Exit2 /\ os_room hh < len /\ exists o, oracle w = false :: o.
Proof.
  unfold obstack_alloc, xmalloc, malloc. mred.
  destruct (Z.ltb_spec (os_room hh) len); [|done].
  destruct (oracle w) as [|[] o]; try done. intros [= <-]. eauto.
Qed.

Lemma node_os_alloc_refused len w f :
  node_os_alloc len w = Fatal f ->
  f = Exit2 /\ os_room (node_chunk w) < len /\ exists o, oracle w = false :: o.
Proof.
  unfold node_os_alloc. mred.
  destruct (obstack_alloc len (node_chunk w) w) eqn:E; [done|].
  intros [= <-]. by apply obstack_alloc_refused in E.
Qed.

Lemma graph_alloc_node_refused len w f :
  graph_alloc_node len w = Fatal f ->
  f = Exit2 /\ os_room (node_chunk w) < sizeof_Node + len + 1 /\
  exists o, oracle w = false :: o.
Proof.
  unfold graph_alloc_node. mred. intros H. fcase H E as b w1.
  - apply node_os_alloc_Ret in E as (-> & _). cbn [negb] in H. mred in H.
    destruct (_ <? _); [|done].
    fcase H E2 as u w2; [done|]. by apply graph_attempt_hash_resize_Fatal in E2.
  - injection H as <-. by apply node_os_alloc_refused in E.
Qed.

Lemma graph_add_node_internal_refused h s cc w f :
  table_ok (gph w) ->
  graph_add_node_internal h s cc w = Fatal f ->
  f = Exit2 /\ bucket_find h (gph w) s = None /\
  os_room (node_chunk w) < sizeof_Node + Z.of_nat (String.length s) + 1 /\
  exists o, oracle w = false :: o.
Proof.
  intros Ht H.
  destruct (graph_alloc_node (Z.of_nat (String.length s)) w) as [on wa|f'] eqn:Ea.
  - exfalso. pose proof H as H'. unfold graph_add_node_internal in H. mred in H.
    destruct (bucket_find h (gph w) s) as [n|] eqn:Ef; [done|].
    rewrite Ea in H. mred in H.
    pose proof Ea as Ea'. apply graph_alloc_node_Ret in Ea' as (-> & _).
    edestruct (node_created_find h s (Z.of_nat (String.length s)) w) as [Ht1 Hf1];
      [exact Ht|exact Ea|reflexivity|].
    edestruct (node_created_intro h s (Z.of_nat (String.length s)) w) as [Hc _];
      [exact Ea|reflexivity|].
    cbn [gph] in Hf1, Hc. destruct cc; [|done].
    fcase H Ec as oc wc; [|by apply graph_new_component_Fatal in Ec].
    apply graph_new_component_Ret in Ec as (_ & [(-> & Hg & _)|(-> & Hg)]); [|done].
    fcase H Er as u wr; [done|].
    apply graph_remove_last_node_Fatal in Er as [_ Hh].
    + apply Hh. rewrite Hg. cbn [gph]. by apply bucket_find_homed in Hf1.
    + rewrite Hg. exact (eq_trans (f_equal comp (cr_new _ _ _ Hc)) (cr_comp _ _ _ Hc)).
  - unfold graph_add_node_internal in H. mred in H.
    destruct (bucket_find h (gph w) s) as [n|] eqn:Ef; [done|].
    rewrite Ea in H. injection H as <-.
    apply graph_alloc_node_refused in Ea as (-> & ? & ?). done.
Qed.

(** [graph_add_node] ends the process exactly when the identifier is
    new, the chunk of the node obstack has no room for the node, and
    [malloc] refuses the next chunk; [xmalloc] then exits with status 2. *)
Lemma graph_add_node_ends h s w f :
  graph_ok (gph w) ->
  graph_add_node h s w = Fatal f <->
  f = Exit2 /\ bucket_find h (gph w) s = None /\
  os_room (node_chunk w) < sizeof_Node + Z.of_nat (String.length s) + 1 /\
  exists o, oracle w = false :: o.
Proof.
  intros Hok. split.
  - intros H. destruct (graph_add_node_internal h s true w) as [on wi|f'] eqn:Ei.
    + exfalso. destruct (graph_add_node_Fatal h s w f Hok H) as [-> _].
      unfold graph_add_node in H. mred in H. rewrite Ei in H. mred in H.
      pose proof Hok as [[HsG HiG HtG HeG] HaG].
      apply graph_add_node_internal_true in Ei
        as (Hs & [(n & -> & Hf & Hg)|(Hnone & g1 & Hc & [(-> & Hg)|(-> & Hfalse & Hr)])]);
        [| |done].
      * rewrite bool_decide_eq_true_2 in H; [done|]. rewrite Hg. apply HaG.
        apply bucket_find_Some in Hf as [Hin _]. by apply HiG.
      * set (L := length (node_os (gph w))) in *.
        pose proof (created_struct_ok _ _ _ Hc HsG) as Hs1.
        pose proof (prep_with_component g1 Hs1) as P1.
        assert (L < length (node_os g1))%nat as HL
          by (rewrite (cr_length _ _ _ Hc); fold L; lia).
        assert (comp (node_at g1 L) = None) as HcL
          by (unfold L; rewrite (cr_new _ _ _ Hc); apply Hc).
        rewrite bool_decide_eq_true_2 in H; [done|]. rewrite Hg.
        rewrite can_node by (done || apply P1). by rewrite decide_True.
    + unfold graph_add_node in H. mred in H. rewrite Ei in H. injection H as <-.
      apply graph_add_node_internal_refused in Ei; [done|apply Hok].
  - intros (-> & Hf & Hroom & o & Ho).
    unfold graph_add_node, graph_add_node_internal. mred. rewrite Hf.
    unfold graph_alloc_node, node_os_alloc, obstack_alloc, xmalloc, malloc. mred.
    apply Z.ltb_lt in Hroom. rewrite Hroom, Ho. reflexivity.
Qed.

(** A refused growth of the table goes unnoticed: the identifier is new,
    its node fits the chunk of the node obstack and takes the node count
    over the threshold, [malloc] refuses the larger array of buckets and
    grants what is asked after it. *)
Lemma graph_add_node_internal_growth_refused h s w o :
  bucket_find h (gph w) s = None ->
  sizeof_Node + Z.of_nat (String.length s) + 1 <= os_room (node_chunk w) ->
  resize_threshold (gph w) < wrap32 (g_node_count (gph w) + 1) ->
  oracle w = false :: o -> false ∉ o ->
  exists n w1, graph_add_node_internal h s true w = Ret (Some n) w1 /\
    errno w1 = ENOMEM /\ oracle w1 = tail o /\
    table_of (gph w1) = (length (g_nodes (gph w)), hashmask (gph w), UINT32_MAX).
Proof.
  intros Hf Hroom Hdue Ho Hno.
  unfold graph_add_node_internal. mred. rewrite Hf.
  unfold graph_alloc_node, node_os_alloc, obstack_alloc. mred.
  destruct (Z.ltb_spec (os_room (node_chunk w)) (sizeof_Node + Z.of_nat (String.length s) + 1));
    [lia|].
  mred. cbn [negb]. mred.
  cbn [resize_threshold g_node_count set_g_node_count set_node_os].
  apply Z.ltb_lt in Hdue. rewrite Hdue.
  unfold graph_attempt_hash_resize, graph_new_component, malloc. mred. rewrite Ho.
  cbn [negb]. mred.
  destruct o as [|[] o']; [| |exfalso; apply Hno; left];
    (eexists _, _; split; [reflexivity|]; split; [reflexivity|]; split; [reflexivity|]);
    unfold table_of; cbn; rewrite length_bucket_push; reflexivity.
Qed.

Lemma graph_add_node_growth_refused h s w o :
  graph_ok (gph w) ->
  bucket_find h (gph w) s = None ->
  sizeof_Node + Z.of_nat (String.length s) + 1 <= os_room (node_chunk w) ->
  resize_threshold (gph w) < wrap32 (g_node_count (gph w) + 1) ->
  oracle w = false :: o -> false ∉ o ->
  exists w', graph_add_node h s w = Ret 1 w' /\ errno w' = ENOMEM /\ oracle w' = tail o /\
    table_of (gph w') = (length (g_nodes (gph w)), hashmask (gph w), UINT32_MAX).
Proof.
  intros Hok Hf Hroom Hdue Ho Hno.
  destruct (graph_add_node_internal_growth_refused h s w o Hf Hroom Hdue Ho Hno)
    as (n & w1 & Ei & He & Hor & Ht).
  destruct (graph_add_node h s w) as [r w'|f] eqn:E.
  - pose proof (graph_add_node_cases h s w r w' Hok E) as Hc.
    unfold graph_add_node in E. mred in E. rewrite Ei in E. mred in E.
    mcase E Ea as u wa. apply assert_Ret in Ea as [_ <-]. injection E as Hr <-.
    exists w1. split; [|done].
    destruct Hc as [(_ & _ & n' & Hf')|[(-> & _)|(-> & _)]].
    + congruence.
    + done.
    + exfalso. destruct (bool_decide _) in Hr; discriminate.
  - exfalso. apply graph_add_node_ends in E as (_ & _ & Hr & _); [lia|done].
Qed.

(** ** The return value of graph_add_edge *)




(** ** Which operations can end the process *)

(** C5, as the claim has it, fails: an obstack that cannot grow ends the
    process. The first chunk of the node obstack holds the 31 nodes of the
    identifiers 0 to N, of 64 bytes each, and has 48 bytes left; the node
    of the next identifier needs 50, so that [graph_add_node] asks for a
    new chunk, and when [malloc] refuses it the process exits with status
    2. *)
Lemma arena_failure_exits :
  exists w0 w,
    graph_init 14 (world0 []) = Ret 0 w0 /\
    add_nodes sample_hash (take 31 sample_ids) w0 = Ret tt w /\
    os_room (node_chunk w) = 48 /\
    graph_add_node sample_hash "O" (with_oracle [false] w) = Fatal Exit2.
Proof. eexists _, _. split_and!; [> vm_compute; reflexivity ..]. Qed.

(** The rollback of two new nodes after the table has grown can walk off
    the bucket of the first one: the larger array of buckets is granted
    when the 65th node makes the table grow, and the component for the
    edge is refused. *)
Lemma rollback_after_resize_faults :
  exists w0 w,
    graph_init 14 (world0 []) = Ret 0 w0 /\
    add_nodes sample_hash (take 63 sample_ids) w0 = Ret tt w /\
    graph_add_edge sample_hash "o" "p" (with_oracle [true; false] w) = Fatal Segv.
Proof. eexists _, _. split_and!; [> vm_compute; reflexivity ..]. Qed.

(** The five iterators return on every graph. *)
Lemma iterators_return g c
    (cbc : list cptr -> cptr -> Z) (cbn : list nptr -> nptr -> Z)
    (cbe : list (nptr * nptr) -> nptr * nptr -> Z) seenc seenn seene :
  (exists r s', graph_iterate_components g cbc seenc = Ret r s') /\
  (exists r s', graph_iterate_nodes g cbn seenn = Ret r s') /\
  (exists r s', graph_iterate_edges g cbe seene = Ret r s') /\
  (exists r s', component_iterate_nodes g c cbn seenn = Ret r s') /\
  (exists r s', component_iterate_edges g c cbe seene = Ret r s').
Proof.
  split_and!.
  - destruct (foreach_call_cb cbc (components g) seenc) as (r & v & E & _). by eexists _, _.
  - destruct (foreach_call_cb cbn (node_order g) seenn) as (r & v & E & _).
    exists r, (seenn ++ v). unfold graph_iterate_nodes, component_iterate_nodes.
    by rewrite (foreach_bind (call_cb cbn) (fun c => nodes (comp_at g c))).
  - destruct (foreach_call_cb cbe (edge_order g) seene) as (r & v & E & _).
    exists r, (seene ++ v). unfold graph_iterate_edges, component_iterate_edges.
    rewrite (foreach_bind _ (fun c => nodes (comp_at g c))).
    fold (node_order g). by rewrite foreach_edges.
  - destruct (foreach_call_cb cbn (nodes (comp_at g c)) seenn) as (r & v & E & _).
    by eexists _, _.
  - destruct (foreach_call_cb cbe (nodes (comp_at g c) ≫= edges_from g) seene)
      as (r & v & E & _).
    exists r, (seene ++ v). rewrite <- E. unfold component_iterate_edges.
    apply foreach_edges.
Qed.

(** The search of a component of a graph the library has built with the
    three flags and fewer than 2^31 nodes returns, with -1 and [ENOMEM]
    when an allocation has been refused. *)
Lemma component_search_returns h fl w cb c s :
  built h fl w ->
  Z.land fl GRAPH_NOLOOP <> 0 -> Z.land fl GRAPH_NOPARALLEL <> 0 ->
  Z.land fl GRAPH_DUAL <> 0 ->
  Z.of_nat (length (node_os (gph w))) < 2 ^ 31 ->
  c ∈ components (gph w) ->
  exists r s',
    component_iterate_maximal_cliques cb (gph w) c s = Ret r s' /\
    exists used, mem s = used ++ mem s' /\
      (false ∈ used -> r = -1 /\ c_errno s' = ENOMEM).
Proof.
  intros Hb Hnl Hnp Hd HN Hc. destruct (built_ok _ _ _ Hb) as [[[Hs Hi Ht He] Ha] _].
  pose proof (has_flag_built _ _ _ _ Hb Hnl) as Fnl.
  pose proof (has_flag_built _ _ _ _ Hb Hnp) as Fnp.
  pose proof (has_flag_built _ _ _ _ Hb Hd) as Fd.
  destruct (component_iterate_total cb (gph w) c HN) with (s := s) as (r & s' & E & _).
  - intros n. apply (ok_noloop _ He Fnl).
  - intros a b. apply (ok_dual _ He Fd).
  - intros n. apply (ok_noparallel _ He Fnp).
  - intros a b Hab. apply node_valid.
    destruct (ok_edge _ Hs a b Hab) as [? ->]. done.
  - intros u Hu. apply node_valid. by rewrite (ok_member _ Hs c u Hu).
  - apply (ok_nodes_nodup _ Hs).
  - apply (ok_count _ Hs).
  - exists r, s'. split; [done|].
    destruct (allocs_component_iterate cb (gph w) c s r s' E) as (used & ? & ? & _).
    by exists used.
Qed.

(** [graph_iterate_maximal_cliques] returns on a graph the library has
    built with fewer than 2^31 nodes, whatever its flags. *)
Lemma graph_search_returns h fl w cb s :
  built h fl w ->
  Z.of_nat (length (node_os (gph w))) < 2 ^ 31 ->
  exists r s',
    graph_iterate_maximal_cliques cb (gph w) s = Ret r s' /\
    exists used, mem s = used ++ mem s' /\
      (false ∈ used -> r = -1 /\ c_errno s' = ENOMEM).
Proof.
  intros Hb HN. destruct (built_ok _ _ _ Hb) as [Hok _].
  unfold graph_iterate_maximal_cliques. cbv zeta. rewrite required_flags_spec.
  destruct (has_flag (gph w) GRAPH_NOPARALLEL) eqn:Fnp,
           (has_flag (gph w) GRAPH_NOLOOP) eqn:Fnl,
           (has_flag (gph w) GRAPH_DUAL) eqn:Fd; cbn [andb negb].
  all: try (eexists _, _; split; [reflexivity|]; exists []; split; [done|];
            intros Hin; by apply not_elem_of_nil in Hin).
  destruct (foreach_component_search cb (gph w) Hok HN Fnl Fnp Fd (components (gph w))
              (fun c Hc => Hc) s) as (r & s' & E & _).
  exists r, s'. split; [done|].
  destruct (allocs_foreach_components cb (gph w) _ s r s' E) as (used & ? & ? & _).
  by exists used.
Qed.

(** C5, amended. Iteration never ends the process: the five iterators
    return on every graph. On a graph the library has built with fewer
    than 2^31 nodes the clique enumeration returns
    ([component_iterate_maximal_cliques] on a component of a graph with
    no-loop, no-parallel and dual set), with -1 and [errno] [ENOMEM] when
    an allocation of a node set has been refused. Insertion into a graph
    the library has built can end the process, and only when an
    allocation is refused: [graph_add_node] exactly when the identifier
    is new, the chunk of the node obstack has no room for the node and
    [malloc] refuses the next chunk, with the exit status 2 of [xmalloc];
    [graph_add_edge] only with that status or by a fault. When no allocation is refused, [graph_add_node] returns 0 or 1
    and [graph_add_edge] 0, 1 or 2; they return -1 only when an
    allocation is refused. A refused growth of the hash table is not
    reported: when [graph_add_node] creates a node that fits the chunk
    and takes the node count over the threshold, and [malloc] refuses the
    larger array of buckets only, the call returns 1, with [errno]
    [ENOMEM], the table as it was and the threshold [UINT32_MAX]. *)
Theorem process_ends_only_in_insertion h fl w :
  built h fl w ->
  (forall g c cbc cbn cbe seenc seenn seene,
     (exists r s', graph_iterate_components g cbc seenc = Ret r s') /\
     (exists r s', graph_iterate_nodes g cbn seenn = Ret r s') /\
     (exists r s', graph_iterate_edges g cbe seene = Ret r s') /\
     (exists r s', component_iterate_nodes g c cbn seenn = Ret r s') /\
     (exists r s', component_iterate_edges g c cbe seene = Ret r s')) /\
  (Z.of_nat (length (node_os (gph w))) < 2 ^ 31 ->
   forall cb s,
     (exists r s',
        graph_iterate_maximal_cliques cb (gph w) s = Ret r s' /\
        exists used, mem s = used ++ mem s' /\
          (false ∈ used -> r = -1 /\ c_errno s' = ENOMEM)) /\
     (Z.land fl GRAPH_NOLOOP <> 0 -> Z.land fl GRAPH_NOPARALLEL <> 0 ->
      Z.land fl GRAPH_DUAL <> 0 ->
      forall c, c ∈ components (gph w) ->
        exists r s',
          component_iterate_maximal_cliques cb (gph w) c s = Ret r s' /\
          exists used, mem s = used ++ mem s' /\
            (false ∈ used -> r = -1 /\ c_errno s' = ENOMEM))) /\
  (forall s f,
     graph_add_node h s w = Fatal f <->
     f = Exit2 /\ bucket_find h (gph w) s = None /\
     os_room (node_chunk w) < sizeof_Node + Z.of_nat (String.length s) + 1 /\
     exists o, oracle w = false :: o) /\
  (forall s1 s2 f, graph_add_edge h s1 s2 w = Fatal f ->
     (f = Exit2 \/ f = Segv) /\ false ∈ oracle w) /\
  (plentiful w ->
   forall s1 s2,
     (exists r w', graph_add_node h s1 w = Ret r w' /\ (r = 0 \/ r = 1)) /\
     (exists r w', graph_add_edge h s1 s2 w = Ret r w' /\ (r = 0 \/ r = 1 \/ r = 2))) /\
  (forall s1 s2 w',
     (graph_add_node h s1 w = Ret (-1) w' -> false ∈ oracle w) /\
     (graph_add_edge h s1 s2 w = Ret (-1) w' -> false ∈ oracle w)) /\
  (forall s o,
     bucket_find h (gph w) s = None ->
     sizeof_Node + Z.of_nat (String.length s) + 1 <= os_room (node_chunk w) ->
     resize_threshold (gph w) < wrap32 (g_node_count (gph w) + 1) ->
     oracle w = false :: o -> false ∉ o ->
     exists w', graph_add_node h s w = Ret 1 w' /\ errno w' = ENOMEM /\
       oracle w' = tail o /\
       table_of (gph w') = (length (g_nodes (gph w)), hashmask (gph w), UINT32_MAX)).
Proof.
  intros Hb. destruct (built_ok _ _ _ Hb) as [Hok _]. split_and!.
  - intros g c cbc cbn cbe seenc seenn seene. apply iterators_return.
  - intros HN cb s. split.
    + by eapply graph_search_returns.
    + intros Hnl Hnp Hd c Hc. by eapply component_search_returns.
  - intros s f. by apply graph_add_node_ends.
  - intros s1 s2 f E. apply graph_add_edge_Fatal in E as [? ?]; [done|apply Hok].
  - intros Hp s1 s2. split.
    + destruct (graph_add_node_total h s1 w Hok Hp) as (r & w' & E & Hr & _).
      by exists r, w'.
    + destruct (graph_add_edge_total h s1 s2 w Hok Hp) as (r & w' & E & Hr & _).
      by exists r, w'.
  - intros s1 s2 w'. split; intros E.
    + apply graph_add_node_Ret in E as (_ & _ & _ & _ & [[_ ?]|[?|?]]); done.
    + apply graph_add_edge_Ret in E
        as (_ & _ & _ & [(_ & ? & _)|[(? & _)|[(? & _)|(? & _)]]]); done.
  - intros s o. by apply graph_add_node_growth_refused.
Qed.

Lemma process_ends_only_in_insertion_witness :
  let w := with_oracle [false] (sample_world 14) in
  built sample_hash 14 w /\
  (forall g c cbc cbn cbe seenc seenn seene,
     (exists r s', graph_iterate_components g cbc seenc = Ret r s') /\
     (exists r s', graph_iterate_nodes g cbn seenn = Ret r s') /\
     (exists r s', graph_iterate_edges g cbe seene = Ret r s') /\
     (exists r s', component_iterate_nodes g c cbn seenn = Ret r s') /\
     (exists r s', component_iterate_edges g c cbe seene = Ret r s')) /\
  (Z.of_nat (length (node_os (gph w))) < 2 ^ 31 ->
   forall cb s,
     (exists r s',
        graph_iterate_maximal_cliques cb (gph w) s = Ret r s' /\
        exists used, mem s = used ++ mem s' /\
          (false ∈ used -> r = -1 /\ c_errno s' = ENOMEM)) /\
     (Z.land 14 GRAPH_NOLOOP <> 0 -> Z.land 14 GRAPH_NOPARALLEL <> 0 ->
      Z.land 14 GRAPH_DUAL <> 0 ->
      forall c, c ∈ components (gph w) ->
        exists r s',
          component_iterate_maximal_cliques cb (gph w) c s = Ret r s' /\
          exists used, mem s = used ++ mem s' /\
            (false ∈ used -> r = -1 /\ c_errno s' = ENOMEM))) /\
  (forall s f,
     graph_add_node sample_hash s w = Fatal f <->
     f = Exit2 /\ bucket_find sample_hash (gph w) s = None /\
     os_room (node_chunk w) < sizeof_Node + Z.of_nat (String.length s) + 1 /\
     exists o, oracle w = false :: o) /\
  (forall s1 s2 f, graph_add_edge sample_hash s1 s2 w = Fatal f ->
     (f = Exit2 \/ f = Segv) /\ false ∈ oracle w) /\
  (plentiful w ->
   forall s1 s2,
     (exists r w', graph_add_node sample_hash s1 w = Ret r w' /\ (r = 0 \/ r = 1)) /\
     (exists r w', graph_add_edge sample_hash s1 s2 w = Ret r w' /\
                   (r = 0 \/ r = 1 \/ r = 2))) /\
  (forall s1 s2 w',
     (graph_add_node sample_hash s1 w = Ret (-1) w' -> false ∈ oracle w) /\
     (graph_add_edge sample_hash s1 s2 w = Ret (-1) w' -> false ∈ oracle w)) /\
  (forall s o,
     bucket_find sample_hash (gph w) s = None ->
     sizeof_Node + Z.of_nat (String.length s) + 1 <= os_room (node_chunk w) ->
     resize_threshold (gph w) < wrap32 (g_node_count (gph w) + 1) ->
     oracle w = false :: o -> false ∉ o ->
     exists w', graph_add_node sample_hash s w = Ret 1 w' /\ errno w' = ENOMEM /\
       oracle w' = tail o /\
       table_of (gph w') = (length (g_nodes (gph w)), hashmask (gph w), UINT32_MAX)).
Proof.
  intros w.
  assert (built sample_hash 14 w) as Hb.
  { eapply (built_run _ _ (take 64 sample_ids) (world0 sample_refusal));
      [reflexivity|vm_compute; reflexivity|vm_compute; reflexivity]. }
  split; [exact Hb|].
  exact (process_ends_only_in_insertion sample_hash 14 w Hb).
Defined.

(** ** The cliques the search reports *)

(** C3. In a graph the library has built with no-loop, no-parallel and
    dual set, every node array that [component_iterate_maximal_cliques]
    has handed to the callback when it returns is a maximal clique of the
    component: its members are nodes of the component, adjacent to one
    another, and no other node of the component is adjacent to all of
    them. With fewer than 2^31 nodes in the graph the search returns. A
    call of [BronKerbosch] hands the prefix R to the callback exactly
    when its P and its X are both empty: with P empty it reports R if X
    is empty and nothing otherwise, and it returns; with nodes in P every
    array reported, by the call or by the calls it makes to itself,
    starts with R and goes on with a node of P. *)
Theorem reported_cliques_are_maximal h fl w c cb :
  built h fl w ->
  Z.land fl GRAPH_NOLOOP <> 0 -> Z.land fl GRAPH_NOPARALLEL <> 0 ->
  Z.land fl GRAPH_DUAL <> 0 ->
  c ∈ components (gph w) ->
  (forall s r s',
     component_iterate_maximal_cliques cb (gph w) c s = Ret r s' ->
     exists new, calls s' = calls s ++ new /\ Forall (maximal_clique (gph w) c) new) /\
  (Z.of_nat (length (node_os (gph w))) < 2 ^ 31 ->
   forall s, exists r s', component_iterate_maximal_cliques cb (gph w) c s = Ret r s') /\
  (forall fuel P X s1 r X' s1',
     BronKerbosch cb (gph w) fuel P X s1 = Ret (r, X') s1' ->
     exists new, calls s1' = calls s1 ++ new /\
       (ns_nodes (ctx_R s1) ∈ new <-> len P = 0 /\ len X = 0) /\
       (len P = 0 -> new = if len X =? 0 then [ns_nodes (ctx_R s1)] else []) /\
       (len P <> 0 -> forall K, K ∈ new ->
          exists v tl, v ∈ ns_nodes P /\ K = ns_nodes (ctx_R s1) ++ v :: tl)) /\
  (forall fuel P X s1, len P = 0 ->
     exists r s1', BronKerbosch cb (gph w) (S fuel) P X s1 = Ret (r, X) s1').
Proof.
  intros Hb Hnl Hnp Hd Hc. destruct (built_ok _ _ _ Hb) as [[[Hs Hi Ht He] Ha] _].
  pose proof (has_flag_built _ _ _ _ Hb Hnl) as Fnl.
  pose proof (has_flag_built _ _ _ _ Hb Hnp) as Fnp.
  pose proof (has_flag_built _ _ _ _ Hb Hd) as Fd.
  assert (forall a b, adjacent (gph w) a b -> (b < length (node_os (gph w)))%nat) as Hvalid.
  { intros a b Hab. apply node_valid. destruct (ok_edge _ Hs a b Hab) as [? ->]. done. }
  assert (forall u, u ∈ nodes (comp_at (gph w) c) -> (u < length (node_os (gph w)))%nat)
    as HV.
  { intros u Hu. apply node_valid. by rewrite (ok_member _ Hs c u Hu). }
  split_and!.
  - intros s r s' E.
    exact (component_iterate_sound cb (gph w) c (ok_noloop _ He Fnl) (ok_dual _ He Fd)
             (ok_noparallel _ He Fnp) Hvalid HV (ok_nodes_nodup _ Hs c) s r s' E).
  - intros HN s.
    destruct (component_iterate_total cb (gph w) c HN (ok_noloop _ He Fnl) (ok_dual _ He Fd)
                (ok_noparallel _ He Fnp) Hvalid HV (ok_nodes_nodup _ Hs c) (ok_count _ Hs c) s)
      as (r & s' & E & _).
    by exists r, s'.
  - intros fuel P X s1 r X' s1' E.
    destruct (BronKerbosch_extends cb (gph w) fuel P X s1 _ _ E) as (new & Hn & H0 & Hne & _).
    exists new. split; [done|]. split; [|done]. split.
    + intros Hin. destruct (decide (len P = 0)) as [EP|EP].
      * split; [done|]. rewrite (H0 EP) in Hin.
        destruct (Z.eqb_spec (len X) 0); [done|]. by apply not_elem_of_nil in Hin.
      * destruct (Hne EP _ Hin) as (v & tl & _ & Hx). by apply extension_differs in Hx.
    + intros [EP EX]. rewrite (H0 EP), EX. cbn. left.
  - intros fuel P X s1 EP. cbn [BronKerbosch]. unfold BK_call. rewrite EP. cbn.
    destruct (len X =? 0); eexists _, _; reflexivity.
Qed.

Lemma reported_cliques_are_maximal_witness :
  let cb := fun (_ : list (list nptr)) (_ : list nptr) => 0 in
  built sample_hash 14 sample_graph /\ (0%nat ∈ components (gph sample_graph)) /\
  (forall s r s',
     component_iterate_maximal_cliques cb (gph sample_graph) 0 s = Ret r s' ->
     exists new, calls s' = calls s ++ new /\
                 Forall (maximal_clique (gph sample_graph) 0) new) /\
  (Z.of_nat (length (node_os (gph sample_graph))) < 2 ^ 31 ->
   forall s, exists r s',
     component_iterate_maximal_cliques cb (gph sample_graph) 0 s = Ret r s') /\
  (forall fuel P X s1 r X' s1',
     BronKerbosch cb (gph sample_graph) fuel P X s1 = Ret (r, X') s1' ->
     exists new, calls s1' = calls s1 ++ new /\
       (ns_nodes (ctx_R s1) ∈ new <-> len P = 0 /\ len X = 0) /\
       (len P = 0 -> new = if len X =? 0 then [ns_nodes (ctx_R s1)] else []) /\
       (len P <> 0 -> forall K, K ∈ new ->
          exists v tl, v ∈ ns_nodes P /\ K = ns_nodes (ctx_R s1) ++ v :: tl)) /\
  (forall fuel P X s1, len P = 0 ->
     exists r s1', BronKerbosch cb (gph sample_graph) (S fuel) P X s1 = Ret (r, X) s1').
Proof.
  intros cb.
  assert (0%nat ∈ components (gph sample_graph)) as Hc by (vm_compute; left).
  split; [exact sample_graph_built|]. split; [exact Hc|].
  apply (reported_cliques_are_maximal sample_hash 14 sample_graph 0%nat cb
           sample_graph_built);
    try (vm_compute; discriminate); exact Hc.
Defined.

